(** * Greek freelancer tax calculator: the tax engine of [tax_calculator.py]

    The engine is a pipeline of pure functions over Python [float]s.  It is
    embedded once, over an interface [PyFloat] of the float operations the
    program uses, and run on two arithmetics:

    - [Binary64.binary64]: IEEE 754 binary64, what a Python [float] is;
      [Rounding] gives its floats their exact values and bounds the error
      of each operation, [Nearest] proves that each operation rounds to
      nearest and is monotone;
    - [Decimal.decimal]: exact decimal amounts, the data model of the
      specification (section 3).

    What the functions compute is proved over the interface, so for both;
    the quantitative properties of section 8 are proved on the floats (the
    tolerances up to a bound on the amounts) and in exact decimals.

    Further properties of the engine on the floats follow: [Idem] (rounding
    to cents twice), [Monotone] (the summary follows the income), [Reach]
    (the brackets the breakdown lists), [Burden] (the taxes against the
    income), [Ledger] (the amounts in cents) and [Rates] (the effective
    rates); [Cli] embeds the prompts and validators of [main.py]. *)

From Stdlib Require Import ZArith QArith Qabs Qround Qpower List String Ascii Bool Lia Lqa.
From Stdlib Require Import Floats.
Import ListNotations.

Set Implicit Arguments.
Local Close Scope Q_scope.
Local Open Scope Z_scope.

(** ** Python exceptions *)

Inductive exn : Type :=
  | ValueError (msg : string)
  | ZeroDivisionError
  | KeyError (key : string).

(** A computation that returns a value or raises. *)
Definition result (A : Type) : Type := (exn + A)%type.

Definition ret {A : Type} (a : A) : result A := inr a.
Definition raise {A : Type} (e : exn) : result A := inl e.

Definition bind {A B : Type} (m : result A) (k : A -> result B) : result B :=
  match m with
  | inl e => inl e
  | inr a => k a
  end.

Notation "x <- m ;; k" := (bind m (fun x => k))
  (at level 61, m at next level, right associativity).

(** ** The float operations of the program *)

Class PyFloat (num : Type) : Type := {
  (** [float(n)] for a Python int [n] *)
  of_int : Z -> num;
  (** [float('inf')] *)
  inf : num;
  add : num -> num -> num;
  sub : num -> num -> num;
  mul : num -> num -> num;
  (** [x / y] for [y] other than zero *)
  fdiv : num -> num -> num;
  eqb : num -> num -> bool;
  ltb : num -> num -> bool;
  leb : num -> num -> bool;
  (** the builtin [round(x, 2)] *)
  round2 : num -> num;

  leb_zero_zero : leb (of_int 0) (of_int 0) = true;
  ltb_zero_leb : forall x, ltb (of_int 0) x = true -> leb x (of_int 0) = false;
  ltb_zero_eqb : forall x, ltb (of_int 0) x = true -> eqb x (of_int 0) = false;
  ltb_zero_le : forall x, ltb (of_int 0) x = true -> leb (of_int 0) x = true;
  ltb_le_zero : forall x, ltb x (of_int 0) = true -> leb x (of_int 0) = true;
  round2_nonneg : forall x, leb (of_int 0) x = true -> leb (of_int 0) (round2 x) = true;
  round2_nonpos : forall x, leb x (of_int 0) = true -> leb (round2 x) (of_int 0) = true;
  mul_neg_pos : forall x c, ltb x (of_int 0) = true -> ltb (of_int 0) c = true ->
                            leb (mul x c) (of_int 0) = true
}.

Section Engine.

Context {num : Type} {PF : PyFloat num}.

(** The literal [0.0]. *)
Definition zero : num := of_int 0.

(** A decimal literal [n/d] with [d] a power of ten, as the parser reads it:
    the float nearest to the quotient. *)
Definition lit (n : Z) (d : Z) : num := fdiv (of_int n) (of_int d).

(** The builtin [min(a, b)]: [b] when [b < a], else [a]. *)
Definition py_min (a b : num) : num := if ltb b a then b else a.

(** The builtin [max(a, b)]: [b] when [b > a], else [a]. *)
Definition py_max (a b : num) : num := if ltb a b then b else a.

(** [x / y] on floats raises when [y] is zero. *)
Definition py_div (x y : num) : result num :=
  if eqb y zero then raise ZeroDivisionError else ret (fdiv x y).

(** [x / n] for a Python int [n]. *)
Definition py_div_int (x : num) (n : Z) : result num :=
  if Z.eqb n 0 then raise ZeroDivisionError else ret (fdiv x (of_int n)).

(** *** Constants *)

Definition INCOME_TAX_BRACKETS : list (num * num) :=
  [ (of_int 10000, lit 9 100);
    (of_int 20000, lit 22 100);
    (of_int 30000, lit 28 100);
    (of_int 40000, lit 36 100);
    (inf, lit 44 100) ].

Definition VAT_RATE : num := lit 24 100.
Definition EFKA_MAIN_RATE : num := lit 1333 10000.
Definition EFKA_ADDITIONAL_RATE : num := lit 667 10000.
Definition EFKA_TOTAL_RATE : num := add EFKA_MAIN_RATE EFKA_ADDITIONAL_RATE.

Definition VALID_FREQUENCIES : list string :=
  [ "monthly"; "quarterly"; "annual" ]%string.

(** *** Results *)

(** ['bracket_max']: the limit, or the string ['unlimited']. *)
Inductive bracket_bound : Type :=
  | Limit (x : num)
  | Unlimited.

Record bracket_entry : Type := {
  bracket_min : num;
  bracket_max : bracket_bound;
  rate : num;
  taxable_amount : num;
  tax_amount : num
}.

Record income_tax_result : Type := {
  total_tax : num;
  effective_rate : num;
  bracket_breakdown : list bracket_entry
}.

Record vat_result : Type := {
  vat_amount : num;
  vat_rate : num;
  total_with_vat : num
}.

Record social_security_result : Type := {
  total_contribution : num;
  main_insurance : num;
  additional_contributions : num;
  ss_rate : num
}.

Record tax_summary : Type := {
  gross_income : num;
  deductible_expenses : num;
  taxable_income : num;
  income_tax : income_tax_result;
  vat : vat_result;
  social_security : social_security_result;
  total_taxes : num;
  total_obligations : num;
  net_income : num;
  effective_total_rate : num
}.

Record schedule_entry : Type := {
  period_number : Z;
  period_payment_amount : num
}.

Record payment_schedule : Type := {
  annual_total : num;
  frequency : string;
  number_of_payments : Z;
  payment_amount : num;
  schedule : list schedule_entry
}.

(** *** calculate_taxable_income *)

Definition calculate_taxable_income (gross_income deductible_expenses : num) : num :=
  let taxable := py_max zero (sub gross_income deductible_expenses) in
  round2 taxable.

(** *** calculate_income_tax *)

(** The variables the bracket loop updates. *)
Record loop_state : Type := {
  st_total_tax : num;
  st_bracket_breakdown : list bracket_entry;
  st_remaining_income : num;
  st_previous_bracket_limit : num
}.

(** One pass of the loop body, for the bracket [(bracket_limit, rate)]. *)
Definition bracket_step (st : loop_state) (bracket_limit rate : num) : loop_state :=
  let bracket_size := sub bracket_limit (st_previous_bracket_limit st) in
  let taxable_in_bracket := py_min (st_remaining_income st) bracket_size in
  let tax_in_bracket := mul taxable_in_bracket rate in
  {| st_total_tax := add (st_total_tax st) tax_in_bracket;
     st_bracket_breakdown :=
       st_bracket_breakdown st ++
       [ {| bracket_min := st_previous_bracket_limit st;
            bracket_max := if negb (eqb bracket_limit inf)
                           then Limit bracket_limit else Unlimited;
            rate := mul rate (of_int 100);
            taxable_amount := round2 taxable_in_bracket;
            tax_amount := round2 tax_in_bracket |} ];
     st_remaining_income := sub (st_remaining_income st) taxable_in_bracket;
     st_previous_bracket_limit := bracket_limit |}.

(** [for bracket_limit, rate in brackets: if remaining_income <= 0: break; ...] *)
Fixpoint bracket_loop (brackets : list (num * num)) (st : loop_state) : loop_state :=
  match brackets with
  | [] => st
  | (bracket_limit, rate) :: rest =>
      if leb (st_remaining_income st) zero then st
      else bracket_loop rest (bracket_step st bracket_limit rate)
  end.

(** The loop variables on entry: [total_tax = 0.0], [bracket_breakdown = []],
    [remaining_income = taxable_income], [previous_bracket_limit = 0.0]. *)
Definition init_state (taxable_income : num) : loop_state :=
  {| st_total_tax := zero;
     st_bracket_breakdown := [];
     st_remaining_income := taxable_income;
     st_previous_bracket_limit := zero |}.

Definition calculate_income_tax (taxable_income : num) : result income_tax_result :=
  if leb taxable_income zero then
    ret {| total_tax := zero; effective_rate := zero; bracket_breakdown := [] |}
  else
    let st := bracket_loop INCOME_TAX_BRACKETS (init_state taxable_income) in
    effective_rate <-
      (if ltb zero taxable_income
       then q <- py_div (st_total_tax st) taxable_income ;; ret (mul q (of_int 100))
       else ret zero) ;;
    ret {| total_tax := round2 (st_total_tax st);
           effective_rate := round2 effective_rate;
           bracket_breakdown := st_bracket_breakdown st |}.

(** *** calculate_vat *)

Definition calculate_vat (gross_income : num) : vat_result :=
  let vat_amount := mul gross_income VAT_RATE in
  let total_with_vat := add gross_income vat_amount in
  {| vat_amount := round2 vat_amount;
     vat_rate := mul VAT_RATE (of_int 100);
     total_with_vat := round2 total_with_vat |}.

(** *** calculate_social_security *)

Definition calculate_social_security (gross_income : num) : social_security_result :=
  let main_insurance := mul gross_income EFKA_MAIN_RATE in
  let additional_contributions := mul gross_income EFKA_ADDITIONAL_RATE in
  let total_contribution := mul gross_income EFKA_TOTAL_RATE in
  {| total_contribution := round2 total_contribution;
     main_insurance := round2 main_insurance;
     additional_contributions := round2 additional_contributions;
     ss_rate := mul EFKA_TOTAL_RATE (of_int 100) |}.

(** *** calculate_all_taxes *)

Definition calculate_all_taxes (gross_income deductible_expenses : num) : result tax_summary :=
  if leb gross_income zero then
    income_tax <- calculate_income_tax zero ;;
    ret {| gross_income := round2 gross_income;
           deductible_expenses := round2 deductible_expenses;
           taxable_income := zero;
           income_tax := income_tax;
           vat := calculate_vat zero;
           social_security := calculate_social_security zero;
           total_taxes := zero;
           total_obligations := zero;
           net_income := zero;
           effective_total_rate := zero |}
  else
    let taxable_income := calculate_taxable_income gross_income deductible_expenses in
    income_tax <- calculate_income_tax taxable_income ;;
    let vat := calculate_vat gross_income in
    let social_security := calculate_social_security gross_income in
    let total_taxes := add (total_tax income_tax) (total_contribution social_security) in
    let total_obligations := add total_taxes (vat_amount vat) in
    let net_income := sub gross_income total_taxes in
    effective_total_rate <-
      (if ltb zero gross_income
       then q <- py_div total_taxes gross_income ;; ret (mul q (of_int 100))
       else ret zero) ;;
    ret {| gross_income := round2 gross_income;
           deductible_expenses := round2 deductible_expenses;
           taxable_income := round2 taxable_income;
           income_tax := income_tax;
           vat := vat;
           social_security := social_security;
           total_taxes := round2 total_taxes;
           total_obligations := round2 total_obligations;
           net_income := round2 net_income;
           effective_total_rate := round2 effective_total_rate |}.

(** *** calculate_payment_schedule *)

(** [c.lower()] on an ASCII character.  The tokens compared against are ASCII,
    and no character outside ASCII lowercases to a letter of theirs, so
    bytes above 127 are left as they are. *)
Definition lower_ascii (c : ascii) : ascii :=
  let n := nat_of_ascii c in
  if ((65 <=? n) && (n <=? 90))%nat then ascii_of_nat (n + 32)%nat else c.

(** [s.lower()] *)
Fixpoint lower (s : string) : string :=
  match s with
  | EmptyString => EmptyString
  | String c s' => String (lower_ascii c) (lower s')
  end.

(** [x in xs] on a list of strings. *)
Definition str_in (x : string) (xs : list string) : bool :=
  existsb (String.eqb x) xs.

(** The dict [payments_per_year]. *)
Definition payments_per_year : list (string * Z) :=
  [ ("monthly", 12); ("quarterly", 4); ("annual", 1) ]%string.

(** [d[key]]: the first binding of [key], or [KeyError]. *)
Fixpoint dict_get (d : list (string * Z)) (key : string) : result Z :=
  match d with
  | [] => raise (KeyError key)
  | (k, v) :: d' => if String.eqb k key then ret v else dict_get d' key
  end.

(** [range(lo, hi)] *)
Definition py_range (lo hi : Z) : list Z :=
  map (fun i => lo + Z.of_nat i) (seq 0%nat (Z.to_nat (hi - lo))).

(** The message of the [ValueError] raised for the token [frequency]. *)
Definition invalid_frequency_message (frequency : string) : string :=
  ("Invalid frequency '" ++ frequency ++ "'. Must be one of: "
     ++ String.concat ", " VALID_FREQUENCIES)%string.

Definition calculate_payment_schedule (annual_tax : num) (frequency : string)
  : result payment_schedule :=
  if negb (str_in (lower frequency) VALID_FREQUENCIES) then
    raise (ValueError (invalid_frequency_message frequency))
  else
    let frequency := lower frequency in
    num_payments <- dict_get payments_per_year frequency ;;
    payment_amount <- py_div_int annual_tax num_payments ;;
    let schedule :=
      map (fun i => {| period_number := i;
                       period_payment_amount := round2 payment_amount |})
          (py_range 1 (num_payments + 1)) in
    ret {| annual_total := round2 annual_tax;
           frequency := frequency;
           number_of_payments := num_payments;
           payment_amount := round2 payment_amount;
           schedule := schedule |}.

(** ** The bracket walk as the specification words it

    Walk the table from lower bound [lower]: each step takes
    [slice = min(remaining, width)], adds [slice * rate] to the total tax,
    records one entry, subtracts the slice from the remaining income and
    moves the lower bound to the bracket's upper bound; the walk stops
    before a bracket once nothing remains, and that bracket and all later
    ones record nothing. *)
Fixpoint spec_walk (table : list (num * num)) (lower remaining total : num)
  : num * list bracket_entry :=
  match table with
  | [] => (total, [])
  | (upper, r) :: rest =>
      if leb remaining zero then (total, [])
      else
        let slice := py_min remaining (sub upper lower) in
        let '(total', entries) :=
          spec_walk rest upper (sub remaining slice) (add total (mul slice r)) in
        (total',
         {| bracket_min := lower;
            bracket_max := if eqb upper inf then Unlimited else Limit upper;
            rate := mul r (of_int 100);
            taxable_amount := round2 slice;
            tax_amount := round2 (mul slice r) |} :: entries)
  end.

(** The bracket tax of a positive taxable income [T], from the walk. *)
Definition spec_income_tax (T : num) : income_tax_result :=
  let '(total, entries) := spec_walk INCOME_TAX_BRACKETS zero T zero in
  {| total_tax := round2 total;
     effective_rate := round2 (mul (fdiv total T) (of_int 100));
     bracket_breakdown := entries |}.

(** The sum of the per-bracket taxable amounts of a breakdown, as
    [sum(e['taxable_amount'] for e in breakdown)] adds them. *)
Definition sum_taxable_amounts (breakdown : list bracket_entry) : num :=
  fold_left add (map taxable_amount breakdown) zero.

(** ** The payment schedule as the specification words it

    [count] payments of [round(A / count, 2)] each, numbered from 1. *)
Definition spec_schedule (A : num) (token : string) (count : Z) : payment_schedule :=
  let amount := round2 (fdiv A (of_int count)) in
  {| annual_total := round2 A;
     frequency := token;
     number_of_payments := count;
     payment_amount := amount;
     schedule :=
       map (fun i => {| period_number := Z.of_nat i;
                        period_payment_amount := amount |})
           (seq 1 (Z.to_nat count)) |}.

End Engine.

(** ** The engine on every arithmetic *)

Section EngineFacts.

Context {num : Type} {PF : PyFloat num}.

(** The laws of the order, on the literal [0.0]. *)
Lemma positive_not_le (x : num) : ltb zero x = true -> leb x zero = false.
Proof. apply ltb_zero_leb. Qed.

Lemma positive_not_zero (x : num) : ltb zero x = true -> eqb x zero = false.
Proof. apply ltb_zero_eqb. Qed.

Lemma positive_nonneg (x : num) : ltb zero x = true -> leb zero x = true.
Proof. apply ltb_zero_le. Qed.

Lemma negative_le (x : num) : ltb x zero = true -> leb x zero = true.
Proof. apply ltb_le_zero. Qed.

Lemma zero_le_zero : leb zero zero = true.
Proof. apply leb_zero_zero. Qed.

(** The loop of [calculate_income_tax] is the walk of the specification:
    it ends with the walk's total, and has appended the walk's entries. *)
Lemma bracket_loop_walk (table : list (num * num)) :
  forall st : loop_state,
    st_total_tax (bracket_loop table st)
      = fst (spec_walk table (st_previous_bracket_limit st)
               (st_remaining_income st) (st_total_tax st))
    /\ st_bracket_breakdown (bracket_loop table st)
      = st_bracket_breakdown st ++
        snd (spec_walk table (st_previous_bracket_limit st)
               (st_remaining_income st) (st_total_tax st)).
Proof.
  induction table as [|[bracket_limit r] rest IH]; intros st; simpl.
  - rewrite app_nil_r. split; reflexivity.
  - destruct (leb (st_remaining_income st) zero).
    + simpl. rewrite app_nil_r. split; reflexivity.
    + destruct (IH (bracket_step st bracket_limit r)) as [Ht Hb].
      rewrite Ht, Hb. simpl.
      destruct (spec_walk rest bracket_limit _ _) as [total' entries]. simpl.
      split; [ reflexivity | ].
      rewrite <- app_assoc. simpl.
      destruct (eqb bracket_limit inf); reflexivity.
Qed.

Lemma calculate_income_tax_nonpositive (T : num) :
  leb T zero = true ->
  calculate_income_tax T
    = ret {| total_tax := zero; effective_rate := zero; bracket_breakdown := [] |}.
Proof. intros H. unfold calculate_income_tax. rewrite H. reflexivity. Qed.

(** A positive income is taxed by the loop, and nothing raises. *)
Lemma calculate_income_tax_loop (T : num) :
  ltb zero T = true ->
  calculate_income_tax T
    = ret (let st := bracket_loop INCOME_TAX_BRACKETS (init_state T) in
           {| total_tax := round2 (st_total_tax st);
              effective_rate :=
                round2 (mul (fdiv (st_total_tax st) T) (of_int 100));
              bracket_breakdown := st_bracket_breakdown st |}).
Proof.
  intros H. unfold calculate_income_tax.
  rewrite (positive_not_le _ H), H. unfold py_div.
  rewrite (positive_not_zero _ H). reflexivity.
Qed.

Lemma calculate_income_tax_positive (T : num) :
  ltb zero T = true -> calculate_income_tax T = ret (spec_income_tax T).
Proof.
  intros H. rewrite (calculate_income_tax_loop _ H). unfold spec_income_tax.
  destruct (bracket_loop_walk INCOME_TAX_BRACKETS (init_state T)) as [Ht Hb].
  change (st_previous_bracket_limit (init_state T)) with zero in Ht, Hb.
  change (st_remaining_income (init_state T)) with T in Ht, Hb.
  change (st_total_tax (init_state T)) with zero in Ht, Hb.
  change (st_bracket_breakdown (init_state T)) with (@nil (@bracket_entry num)) in Hb.
  cbv zeta. rewrite Ht, Hb.
  destruct (spec_walk INCOME_TAX_BRACKETS zero T zero) as [total entries].
  reflexivity.
Qed.

(** [calculate_income_tax] never raises. *)
Lemma calculate_income_tax_returns (T : num) :
  exists r, calculate_income_tax T = ret r.
Proof.
  unfold calculate_income_tax.
  destruct (leb T zero); [ eexists; reflexivity | ].
  destruct (ltb zero T) eqn:H; [ | eexists; reflexivity ].
  unfold py_div. rewrite (positive_not_zero _ H). eexists; reflexivity.
Qed.

Lemma py_max_zero_nonneg (x : num) : leb zero (py_max zero x) = true.
Proof.
  unfold py_max. destruct (ltb zero x) eqn:H.
  - apply positive_nonneg, H.
  - apply zero_le_zero.
Qed.

Lemma calculate_all_taxes_nonpositive (g e : num) :
  leb g zero = true ->
  calculate_all_taxes g e
    = ret {| gross_income := round2 g;
             deductible_expenses := round2 e;
             taxable_income := zero;
             income_tax := {| total_tax := zero; effective_rate := zero;
                              bracket_breakdown := [] |};
             vat := calculate_vat zero;
             social_security := calculate_social_security zero;
             total_taxes := zero;
             total_obligations := zero;
             net_income := zero;
             effective_total_rate := zero |}.
Proof.
  intros H. unfold calculate_all_taxes. rewrite H.
  rewrite (calculate_income_tax_nonpositive zero zero_le_zero). reflexivity.
Qed.

Lemma calculate_all_taxes_positive (g e : num) (it : income_tax_result) :
  ltb zero g = true ->
  calculate_income_tax (calculate_taxable_income g e) = ret it ->
  calculate_all_taxes g e
    = ret (let ss := calculate_social_security g in
           let total := add (total_tax it) (total_contribution ss) in
           {| gross_income := round2 g;
              deductible_expenses := round2 e;
              taxable_income := round2 (calculate_taxable_income g e);
              income_tax := it;
              vat := calculate_vat g;
              social_security := ss;
              total_taxes := round2 total;
              total_obligations := round2 (add total (vat_amount (calculate_vat g)));
              net_income := round2 (sub g total);
              effective_total_rate := round2 (mul (fdiv total g) (of_int 100)) |}).
Proof.
  intros H Hit. unfold calculate_all_taxes.
  rewrite (positive_not_le _ H), Hit, H. unfold py_div.
  rewrite (positive_not_zero _ H). reflexivity.
Qed.

(** [calculate_all_taxes] never raises. *)
Lemma calculate_all_taxes_returns (g e : num) :
  exists r, calculate_all_taxes g e = ret r.
Proof.
  destruct (leb g zero) eqn:Hg.
  - eexists. apply calculate_all_taxes_nonpositive, Hg.
  - unfold calculate_all_taxes. rewrite Hg.
    destruct (calculate_income_tax_returns (calculate_taxable_income g e)) as [it Hit].
    rewrite Hit. unfold bind, ret.
    destruct (ltb zero g) eqn:Hp; [ | eexists; reflexivity ].
    unfold py_div. rewrite (positive_not_zero _ Hp). eexists. reflexivity.
Qed.

(** The social-security part of a summary is a function of the gross income. *)
Lemma social_security_of_summary (g e : num) (r : tax_summary) :
  calculate_all_taxes g e = ret r ->
  social_security r
    = calculate_social_security (if leb g zero then zero else g).
Proof.
  unfold calculate_all_taxes. destruct (leb g zero).
  - destruct (calculate_income_tax zero) as [err|it]; simpl; [ discriminate | ].
    intros E; inversion E; reflexivity.
  - destruct (calculate_income_tax _) as [err|it]; simpl; [ discriminate | ].
    destruct (ltb zero g); simpl.
    + unfold py_div. destruct (eqb g zero); simpl; [ discriminate | ].
      intros E; inversion E; reflexivity.
    + intros E; inversion E; reflexivity.
Qed.

(** A flat rate on a negative income gives an amount that is not positive. *)
Lemma flat_rate_nonpositive (g c : num) :
  ltb g zero = true -> ltb zero c = true -> leb (round2 (mul g c)) zero = true.
Proof. intros Hg Hc. apply round2_nonpos, mul_neg_pos; assumption. Qed.

(** *** The payment schedule *)

Lemma str_in_valid (s : string) :
  str_in s VALID_FREQUENCIES = true
  <-> s = "monthly"%string \/ s = "quarterly"%string \/ s = "annual"%string.
Proof.
  unfold str_in, VALID_FREQUENCIES. simpl.
  rewrite !orb_true_iff, !String.eqb_eq. intuition discriminate.
Qed.

Lemma str_in_invalid (s : string) :
  str_in s VALID_FREQUENCIES = false <-> ~ In s VALID_FREQUENCIES.
Proof.
  rewrite <- not_true_iff_false, str_in_valid. simpl. intuition congruence.
Qed.

Lemma schedule_invalid (A : num) (f : string) :
  str_in (lower f) VALID_FREQUENCIES = false ->
  calculate_payment_schedule A f = raise (ValueError (invalid_frequency_message f)).
Proof.
  intros H. unfold calculate_payment_schedule. rewrite H. reflexivity.
Qed.

Lemma schedule_monthly (A : num) (f : string) :
  lower f = "monthly"%string ->
  calculate_payment_schedule A f = ret (spec_schedule A "monthly" 12).
Proof.
  intros H. unfold calculate_payment_schedule. rewrite H. reflexivity.
Qed.

Lemma schedule_quarterly (A : num) (f : string) :
  lower f = "quarterly"%string ->
  calculate_payment_schedule A f = ret (spec_schedule A "quarterly" 4).
Proof.
  intros H. unfold calculate_payment_schedule. rewrite H. reflexivity.
Qed.

Lemma schedule_annual (A : num) (f : string) :
  lower f = "annual"%string ->
  calculate_payment_schedule A f = ret (spec_schedule A "annual" 1).
Proof.
  intros H. unfold calculate_payment_schedule. rewrite H. reflexivity.
Qed.

(** The schedule of the specification: [count] payments, numbered from 1,
    all of the per-payment amount. *)
Lemma spec_schedule_shape (A : num) (token : string) (count : Z) :
  let s := spec_schedule A token count in
  number_of_payments s = count
  /\ payment_amount s = round2 (fdiv A (of_int count))
  /\ List.length (schedule s) = Z.to_nat count
  /\ map (@period_number num) (schedule s) = map Z.of_nat (seq 1 (Z.to_nat count))
  /\ Forall (fun p => period_payment_amount p = payment_amount s) (schedule s).
Proof.
  unfold spec_schedule. cbn [schedule payment_amount number_of_payments].
  repeat split.
  - rewrite length_map. apply length_seq.
  - rewrite map_map. reflexivity.
  - apply Forall_forall. intros p Hp. apply in_map_iff in Hp.
    destruct Hp as (i & Hi & _). subst p. reflexivity.
Qed.

(** A valid token gives a schedule; any other raises the [ValueError]. *)
Lemma schedule_cases (A : num) (f : string) :
  (str_in (lower f) VALID_FREQUENCIES = true /\
   exists count, calculate_payment_schedule A f = ret (spec_schedule A (lower f) count)
                 /\ In (lower f, count) payments_per_year)
  \/ (str_in (lower f) VALID_FREQUENCIES = false /\
      calculate_payment_schedule A f = raise (ValueError (invalid_frequency_message f))).
Proof.
  destruct (str_in (lower f) VALID_FREQUENCIES) eqn:H.
  - left. split; [ reflexivity | ].
    apply str_in_valid in H. destruct H as [H|[H|H]]; rewrite H.
    + exists 12. split; [ apply schedule_monthly, H | simpl; auto ].
    + exists 4. split; [ apply schedule_quarterly, H | simpl; auto ].
    + exists 1. split; [ apply schedule_annual, H | simpl; auto ].
  - right. split; [ reflexivity | apply schedule_invalid, H ].
Qed.

End EngineFacts.

(** ** IEEE 754 binary64: the Python [float] *)

Module Binary64.

(** [float(n)] for [|n| < 2^63]: the float nearest to [n], which is [n]
    itself when [|n| < 2^53] or [n] is a float; this covers every int the
    program converts and every amount written below. *)
Definition of_int (z : Z) : float :=
  match z with
  | Z0 => 0%float
  | Zpos _ => PrimFloat.of_uint63 (Uint63.of_Z z)
  | Zneg p => (- PrimFloat.of_uint63 (Uint63.of_Z (Zpos p)))%float
  end.

(** The integer nearest to [m * 2^e * 100], ties to even: the number of
    cents nearest to the float of mantissa [m] and exponent [e]. *)
Definition cents (m : positive) (e : Z) : Z :=
  match e with
  | Zneg k =>
      let d := 2 ^ Zpos k in
      let n := Zpos m * 100 in
      let q := n / d in
      match 2 * (n mod d) ?= d with
      | Lt => q
      | Gt => q + 1
      | Eq => if Z.even q then q else q + 1
      end
  | _ => Zpos m * 2 ^ e * 100
  end.

(** [2.0 ** 46] *)
Definition two46 : float := Eval compute in of_int (2 ^ 46).

(** The builtin [round(x, 2)]: the float nearest to the decimal of two
    fractional digits that is nearest to the exact value of [x], ties to
    even; zeros, infinities and NaN round to themselves.  From [2^46]
    upwards the floats are at least [1/64] apart, so the nearest float to
    that decimal is [x] itself; below, the number of cents is under [2^53]
    and converts exactly, and one correctly rounded division by [100]
    gives the nearest float. *)
Definition round2 (x : float) : float :=
  match Prim2SF x with
  | S754_finite s m e =>
      if PrimFloat.leb two46 (PrimFloat.abs x) then x
      else
        let r := (PrimFloat.of_uint63 (Uint63.of_Z (cents m e)) / 100)%float in
        if s then (- r)%float else r
  | _ => x
  end.

(** *** Signs of rounded results *)

(** [x] is a zero, an infinity or a finite float of sign [s]. *)
Definition has_sign (s : bool) (x : spec_float) : bool :=
  match x with
  | S754_zero s' | S754_infinity s' | S754_finite s' _ _ => Bool.eqb s s'
  | S754_nan => false
  end.

Lemma shr_1_nonneg (mrs : shr_record) :
  0 <= shr_m mrs -> 0 <= shr_m (shr_1 mrs).
Proof.
  destruct mrs as [m r s]; simpl.
  destruct m as [|p|p]; [ intros _; simpl; lia | | lia ].
  intros _. destruct p; simpl; lia.
Qed.

Lemma iter_shr_1_nonneg (p : positive) :
  forall mrs, 0 <= shr_m mrs -> 0 <= shr_m (iter_pos shr_1 p mrs).
Proof.
  induction p as [p IH|p IH|]; intros mrs H; simpl.
  - apply IH, IH, shr_1_nonneg, H.
  - apply IH, IH, H.
  - apply shr_1_nonneg, H.
Qed.

Lemma shr_record_of_loc_m (m : Z) (l : location) :
  shr_m (shr_record_of_loc m l) = m.
Proof. destruct l as [|[]]; reflexivity. Qed.

Lemma shr_fexp_nonneg (m e : Z) (l : location) :
  0 <= m -> 0 <= shr_m (fst (shr_fexp prec emax m e l)).
Proof.
  intros H. unfold shr_fexp, shr.
  destruct (fexp prec emax (Zdigits2 m + e) - e) as [|p|p]; simpl;
    try (rewrite shr_record_of_loc_m; exact H).
  apply iter_shr_1_nonneg. rewrite shr_record_of_loc_m. exact H.
Qed.

Lemma round_nearest_even_nonneg (m : Z) (l : location) :
  0 <= m -> 0 <= round_nearest_even m l.
Proof.
  intros H. destruct l as [|[]]; simpl; try lia.
  destruct (Z.even m); lia.
Qed.

Lemma binary_round_aux_sign (sx : bool) (mx ex : Z) (lx : location) :
  0 <= mx -> has_sign sx (binary_round_aux prec emax sx mx ex lx) = true.
Proof.
  intros H. unfold binary_round_aux.
  pose proof (shr_fexp_nonneg ex lx H) as H1.
  destruct (shr_fexp prec emax mx ex lx) as [mrs' e']. simpl in H1.
  pose proof (round_nearest_even_nonneg (loc_of_shr_record mrs') H1) as H2.
  pose proof (shr_fexp_nonneg e' loc_Exact H2) as H3.
  destruct (shr_fexp prec emax _ e' loc_Exact) as [mrs'' e'']. simpl in H3.
  destruct (shr_m mrs'') as [|p|p]; simpl.
  - apply eqb_reflx.
  - destruct (_ <=? _); simpl; apply eqb_reflx.
  - lia.
Qed.

Lemma binary_normalize_nonneg (m e : Z) :
  0 <= m -> has_sign false (binary_normalize prec emax m e false) = true.
Proof.
  intros H. destruct m as [|p|p]; simpl; [ reflexivity | | lia ].
  unfold binary_round.
  destruct (shl_align p e _) as [mz ez].
  apply binary_round_aux_sign. lia.
Qed.

Lemma SFmul_sign (sx sy : bool) (x y : spec_float) :
  has_sign sx x = true -> has_sign sy y = true ->
  SFmul prec emax x y = S754_nan \/
  has_sign (xorb sx sy) (SFmul prec emax x y) = true.
Proof.
  intros Hx Hy.
  destruct x as [s1|s1| |s1 m1 e1]; simpl in Hx; try discriminate;
  destruct y as [s2|s2| |s2 m2 e2]; simpl in Hy; try discriminate;
  apply eqb_prop in Hx; apply eqb_prop in Hy; subst; simpl;
  try (left; reflexivity); try (right; apply eqb_reflx).
  right. apply binary_round_aux_sign. lia.
Qed.

Lemma SFdiv_finite_sign (sx sy : bool) (x : spec_float) (my : positive) (ey : Z) :
  has_sign sx x = true ->
  has_sign (xorb sx sy) (SFdiv prec emax x (S754_finite sy my ey)) = true.
Proof.
  intros Hx.
  destruct x as [s1|s1| |s1 m1 e1]; simpl in Hx; try discriminate;
  apply eqb_prop in Hx; subst; simpl; try apply eqb_reflx.
  destruct (SFdiv_core_binary prec emax (Zpos m1) e1 (Zpos my) ey) as [[mz ez] lz] eqn:E.
  apply binary_round_aux_sign.
  unfold SFdiv_core_binary in E.
  set (s := e1 - ey - _) in E.
  assert (Hm : 0 <= match s with
                    | Zpos _ => Z.shiftl (Zpos m1) s
                    | Z0 => Zpos m1
                    | Zneg _ => 0 end).
  { destruct s; try lia. apply Z.shiftl_nonneg. lia. }
  revert E Hm. generalize (match s with
                    | Zpos _ => Z.shiftl (Zpos m1) s
                    | Z0 => Zpos m1
                    | Zneg _ => 0 end). intros m' E Hm.
  pose proof (Z.div_pos m' (Zpos my) Hm ltac:(lia)) as Hq.
  unfold Z.div in Hq.
  destruct (Z.div_eucl m' (Zpos my)) as [q r]. inversion E; subst. exact Hq.
Qed.

(** *** The laws of [PyFloat] *)

Lemma Prim2SF_zero : Prim2SF 0 = S754_zero false.
Proof. reflexivity. Qed.

Lemma leb_zero_sign (x : float) :
  PrimFloat.leb 0 x = true <-> has_sign false (Prim2SF x) = true \/ Prim2SF x = S754_zero true.
Proof.
  rewrite leb_spec, Prim2SF_zero.
  destruct (Prim2SF x) as [[]|[]| |[] m e]; simpl; intuition discriminate.
Qed.

Lemma leb_sign_zero (x : float) :
  PrimFloat.leb x 0 = true <-> has_sign true (Prim2SF x) = true \/ Prim2SF x = S754_zero false.
Proof.
  rewrite leb_spec, Prim2SF_zero.
  destruct (Prim2SF x) as [[]|[]| |[] m e]; simpl; intuition discriminate.
Qed.

Lemma ltb_zero_pos (x : float) :
  PrimFloat.ltb 0 x = true ->
  Prim2SF x = S754_infinity false \/ exists m e, Prim2SF x = S754_finite false m e.
Proof.
  rewrite ltb_spec, Prim2SF_zero.
  destruct (Prim2SF x) as [[]|[]| |[] m e]; simpl; try discriminate; eauto.
Qed.

Lemma ltb_neg_zero (x : float) :
  PrimFloat.ltb x 0 = true ->
  Prim2SF x = S754_infinity true \/ exists m e, Prim2SF x = S754_finite true m e.
Proof.
  rewrite ltb_spec, Prim2SF_zero.
  destruct (Prim2SF x) as [[]|[]| |[] m e]; simpl; try discriminate; eauto.
Qed.

Lemma b64_ltb_zero_leb (x : float) :
  PrimFloat.ltb (of_int 0) x = true -> PrimFloat.leb x (of_int 0) = false.
Proof.
  intros H. apply ltb_zero_pos in H. simpl of_int.
  rewrite leb_spec, Prim2SF_zero.
  destruct H as [H|(m & e & H)]; rewrite H; reflexivity.
Qed.

Lemma b64_ltb_zero_eqb (x : float) :
  PrimFloat.ltb (of_int 0) x = true -> PrimFloat.eqb x (of_int 0) = false.
Proof.
  intros H. apply ltb_zero_pos in H. simpl of_int.
  rewrite eqb_spec, Prim2SF_zero.
  destruct H as [H|(m & e & H)]; rewrite H; reflexivity.
Qed.

Lemma b64_ltb_le_zero (x : float) :
  PrimFloat.ltb x (of_int 0) = true -> PrimFloat.leb x (of_int 0) = true.
Proof.
  intros H. apply ltb_neg_zero in H. simpl of_int.
  rewrite leb_spec, Prim2SF_zero.
  destruct H as [H|(m & e & H)]; rewrite H; reflexivity.
Qed.

Lemma b64_ltb_zero_le (x : float) :
  PrimFloat.ltb (of_int 0) x = true -> PrimFloat.leb (of_int 0) x = true.
Proof.
  intros H. apply ltb_zero_pos in H. simpl of_int.
  rewrite leb_spec, Prim2SF_zero.
  destruct H as [H|(m & e & H)]; rewrite H; reflexivity.
Qed.

(** The quotient of a number of cents by [100] is a float of sign [+]. *)
Lemma cents_quotient_sign (k : Z) :
  has_sign false (Prim2SF (PrimFloat.of_uint63 (Uint63.of_Z k) / 100)) = true.
Proof.
  rewrite div_spec, of_uint63_spec.
  change (Prim2SF 100) with (S754_finite false 7036874417766400 (-46)).
  apply (@SFdiv_finite_sign false false).
  apply binary_normalize_nonneg.
  apply (Uint63.to_Z_bounded (Uint63.of_Z k)).
Qed.

Lemma b64_round2_nonneg (x : float) :
  PrimFloat.leb (of_int 0) x = true -> PrimFloat.leb (of_int 0) (round2 x) = true.
Proof.
  simpl of_int. intros H. unfold round2.
  destruct (Prim2SF x) as [s|s| |s m e] eqn:E; try exact H.
  destruct (PrimFloat.leb two46 (abs x)); [ exact H | ].
  apply leb_zero_sign in H. rewrite E in H.
  destruct H as [H|H]; [ | discriminate ].
  destruct s; [ discriminate | ].
  apply leb_zero_sign. left. apply cents_quotient_sign.
Qed.

Lemma b64_round2_nonpos (x : float) :
  PrimFloat.leb x (of_int 0) = true -> PrimFloat.leb (round2 x) (of_int 0) = true.
Proof.
  simpl of_int. intros H. unfold round2.
  destruct (Prim2SF x) as [s|s| |s m e] eqn:E; try exact H.
  destruct (PrimFloat.leb two46 (abs x)); [ exact H | ].
  apply leb_sign_zero in H. rewrite E in H.
  destruct H as [H|H]; [ | discriminate ].
  destruct s; [ | discriminate ].
  apply leb_sign_zero. left. rewrite opp_spec.
  pose proof (cents_quotient_sign (cents m e)) as Hs.
  revert Hs. generalize (Prim2SF (PrimFloat.of_uint63 (Uint63.of_Z (cents m e)) / 100)).
  intros [[]|[]| |[] m' e']; simpl; congruence.
Qed.

Lemma b64_mul_neg_pos (x c : float) :
  PrimFloat.ltb x (of_int 0) = true -> PrimFloat.ltb (of_int 0) c = true ->
  PrimFloat.leb (x * c) (of_int 0) = true.
Proof.
  simpl of_int. intros Hx Hc.
  apply ltb_neg_zero in Hx. apply ltb_zero_pos in Hc.
  apply leb_sign_zero. left. rewrite mul_spec.
  destruct Hx as [Hx|(mx & ex & Hx)], Hc as [Hc|(mc & ec & Hc)];
    rewrite Hx, Hc; try reflexivity.
  simpl. apply (@binary_round_aux_sign true). lia.
Qed.

#[global] Instance binary64 : PyFloat float := {
  of_int := Binary64.of_int;
  inf := infinity;
  add := PrimFloat.add;
  sub := PrimFloat.sub;
  mul := PrimFloat.mul;
  fdiv := PrimFloat.div;
  eqb := PrimFloat.eqb;
  ltb := PrimFloat.ltb;
  leb := PrimFloat.leb;
  round2 := Binary64.round2;
  leb_zero_zero := eq_refl;
  ltb_zero_leb := b64_ltb_zero_leb;
  ltb_zero_eqb := b64_ltb_zero_eqb;
  ltb_zero_le := b64_ltb_zero_le;
  ltb_le_zero := b64_ltb_le_zero;
  round2_nonneg := b64_round2_nonneg;
  round2_nonpos := b64_round2_nonpos;
  mul_neg_pos := b64_mul_neg_pos
}.

End Binary64.

(** ** Exact values of binary64 floats, and the error of each rounding

    A finite float has an exact rational value.  The operations of the
    program round the exact result to a float; this module bounds the
    distance between the two for the non-negative amounts the engine
    handles, from the definitions of [SpecFloat] that the primitive float
    operations are specified by. *)

Module Rounding.

(** [2^e] as a rational. *)
Definition pow2 (e : Z) : Q := Qpower 2 e.

Lemma pow2_pos (e : Z) : (0 < pow2 e)%Q.
Proof. apply Qpower_0_lt. reflexivity. Qed.

Lemma pow2_add (a b : Z) : (pow2 (a + b) == pow2 a * pow2 b)%Q.
Proof. apply Qpower_plus. discriminate. Qed.

Lemma pow2_le (a b : Z) : a <= b -> (pow2 a <= pow2 b)%Q.
Proof. intros H. apply Qpower_le_compat_l; [ exact H | discriminate ]. Qed.

Lemma pow2_lt (a b : Z) : a < b -> (pow2 a < pow2 b)%Q.
Proof. intros H. apply Qpower_lt_compat_l; [ exact H | reflexivity ]. Qed.

Lemma pow2_nonneg (n : Z) : 0 <= n -> (pow2 n == inject_Z (2 ^ n))%Q.
Proof. intros H. unfold pow2. rewrite (Zpower_Qpower 2 n H). reflexivity. Qed.

Lemma pow2_succ (a : Z) : (pow2 (a + 1) == 2 * pow2 a)%Q.
Proof. rewrite pow2_add. change (pow2 1) with 2%Q. ring. Qed.

(** The number of binary digits. *)
Lemma digits2_bounds (m : positive) :
  2 ^ (Zpos (digits2_pos m) - 1) <= Zpos m < 2 ^ Zpos (digits2_pos m).
Proof.
  induction m as [m IH|m IH|]; cbn [digits2_pos].
  - rewrite Pos2Z.inj_succ.
    replace (Z.succ (Zpos (digits2_pos m)) - 1) with (Z.succ (Zpos (digits2_pos m) - 1)) by lia.
    rewrite !Z.pow_succ_r by lia. lia.
  - rewrite Pos2Z.inj_succ.
    replace (Z.succ (Zpos (digits2_pos m)) - 1) with (Z.succ (Zpos (digits2_pos m) - 1)) by lia.
    rewrite !Z.pow_succ_r by lia. lia.
  - simpl. lia.
Qed.

Lemma Zdigits2_bounds (m : Z) :
  0 < m -> 2 ^ (Zdigits2 m - 1) <= m < 2 ^ Zdigits2 m.
Proof. destruct m as [|p|p]; try lia. intros _. apply digits2_bounds. Qed.

Lemma Zdigits2_nonneg (m : Z) : 0 <= Zdigits2 m.
Proof. destruct m; simpl; lia. Qed.

(** A bound on the digits from a bound on the size. *)
Lemma Zdigits2_le (m k : Z) : 0 <= k -> 0 <= m < 2 ^ k -> Zdigits2 m <= k.
Proof.
  intros Hk [H0 H]. destruct (Z.eq_dec m 0) as [->|Hm]; [ simpl; lia | ].
  pose proof (@Zdigits2_bounds m ltac:(lia)) as [Hlo _].
  destruct (Z_le_gt_dec (Zdigits2 m) k) as [|Hgt]; [ assumption | exfalso ].
  assert (2 ^ k <= 2 ^ (Zdigits2 m - 1)) by (apply Z.pow_le_mono_r; lia).
  lia.
Qed.

(** Shifting right. *)
Lemma shr_1_div2 (mrs : shr_record) :
  0 <= shr_m mrs -> shr_m (shr_1 mrs) = shr_m mrs / 2.
Proof.
  destruct mrs as [m r s]; simpl. intros H.
  destruct m as [|p|p]; try lia; [ reflexivity | ].
  destruct p as [p|p|]; simpl.
  - rewrite Pos2Z.inj_xI. apply Z.div_unique with 1; lia.
  - rewrite Pos2Z.inj_xO. apply Z.div_unique with 0; lia.
  - reflexivity.
Qed.

Lemma pow2_xO (p : positive) : 2 ^ Zpos p~0 = 2 ^ Zpos p * 2 ^ Zpos p.
Proof. rewrite Pos2Z.inj_xO, <- Z.pow_add_r by lia. f_equal. lia. Qed.

Lemma pow2_xI (p : positive) : 2 ^ Zpos p~1 = 2 * (2 ^ Zpos p * 2 ^ Zpos p).
Proof.
  rewrite Pos2Z.inj_xI, <- Z.pow_add_r, <- Z.pow_succ_r by lia. f_equal. lia.
Qed.

Lemma iter_pos_shr (p : positive) :
  forall mrs, 0 <= shr_m mrs ->
    shr_m (iter_pos shr_1 p mrs) = shr_m mrs / 2 ^ Zpos p.
Proof.
  assert (Hp : forall q : positive, 0 < 2 ^ Zpos q) by (intros q; apply Z.pow_pos_nonneg; lia).
  induction p as [p IH|p IH|]; intros mrs H; cbn [iter_pos].
  - rewrite IH, IH, shr_1_div2; try assumption.
    + rewrite pow2_xI, !Z.div_div; try lia; try (specialize (Hp p); nia).
    + apply Binary64.shr_1_nonneg, H.
    + apply Binary64.iter_shr_1_nonneg, Binary64.shr_1_nonneg, H.
  - rewrite IH, IH; try assumption.
    + rewrite pow2_xO, !Z.div_div; try reflexivity; try (specialize (Hp p); nia).
    + apply Binary64.iter_shr_1_nonneg, H.
  - rewrite shr_1_div2 by assumption. reflexivity.
Qed.


Lemma loc_of_shr_record_of_loc (m : Z) (l : location) :
  loc_of_shr_record (shr_record_of_loc m l) = l.
Proof. destruct l as [|[]]; reflexivity. Qed.

(** [shr_fexp] leaves a mantissa as it is, or divides it by a power of two. *)
Lemma shr_fexp_cases (m e : Z) (l : location) :
  0 <= m ->
  let n := fexp prec emax (Zdigits2 m + e) - e in
  (n <= 0 /\ shr_fexp prec emax m e l = (shr_record_of_loc m l, e))
  \/ (0 < n /\ exists mrs, shr_fexp prec emax m e l = (mrs, e + n)
                          /\ shr_m mrs = m / 2 ^ n).
Proof.
  intros Hm n. unfold shr_fexp, shr. fold n.
  destruct n as [|p|p] eqn:E.
  - left. split; [ lia | reflexivity ].
  - right. split; [ lia | ]. eexists. split; [ reflexivity | ].
    rewrite iter_pos_shr; rewrite Binary64.shr_record_of_loc_m; [ reflexivity | exact Hm ].
  - left. split; [ lia | reflexivity ].
Qed.

Lemma fexp_mono (a b : Z) : a <= b -> fexp prec emax a <= fexp prec emax b.
Proof. unfold fexp, SpecFloat.emin, prec, emax. lia. Qed.

Lemma fexp_succ (a : Z) : fexp prec emax (a + 1) <= fexp prec emax a + 1.
Proof. unfold fexp, SpecFloat.emin, prec, emax. lia. Qed.

Lemma round_nearest_even_cases (m : Z) (l : location) :
  m <= round_nearest_even m l <= m + 1
  /\ (l = loc_Exact -> round_nearest_even m l = m).
Proof.
  destruct l as [|[]]; simpl; try (destruct (Z.even m)); split; try lia;
    intros; try discriminate; reflexivity.
Qed.

(** Dividing a mantissa by [2^n] and adding [n] to the exponent rounds the
    value down, by less than one unit of the new exponent. *)
Lemma shift_floor (m e n : Z) :
  0 <= m -> 0 < n ->
  (inject_Z (m / 2 ^ n) * pow2 (e + n) <= inject_Z m * pow2 e
   /\ inject_Z (m + 1) * pow2 e <= inject_Z (m / 2 ^ n + 1) * pow2 (e + n))%Q.
Proof.
  intros Hm Hn.
  assert (Hp : 0 < 2 ^ n) by (apply Z.pow_pos_nonneg; lia).
  pose proof (Z.div_mod m (2 ^ n) ltac:(lia)) as Hdm.
  pose proof (Z.mod_pos_bound m (2 ^ n) Hp) as Hr.
  set (q := m / 2 ^ n) in *. set (r := m mod 2 ^ n) in *.
  rewrite pow2_add, (@pow2_nonneg n) by lia.
  pose proof (pow2_pos e) as He.
  assert (H1 : (inject_Z q * inject_Z (2 ^ n) <= inject_Z m)%Q).
  { rewrite <- inject_Z_mult, <- Zle_Qle. lia. }
  assert (H2 : (inject_Z (m + 1) <= inject_Z (q + 1) * inject_Z (2 ^ n))%Q).
  { rewrite <- inject_Z_mult, <- Zle_Qle. lia. }
  split; nra.
Qed.


(** The magnitude of a finite float. *)
Definition absval (x : spec_float) : Q :=
  match x with
  | S754_finite _ m e => inject_Z (Zpos m) * pow2 e
  | _ => 0
  end.

Definition is_finite (x : spec_float) : bool :=
  match x with
  | S754_zero _ | S754_finite _ _ _ => true
  | _ => false
  end.

Lemma pow2_digits (m : Z) : 0 <= m -> (inject_Z (m + 1) <= pow2 (Zdigits2 m))%Q.
Proof.
  intros H. rewrite pow2_nonneg by apply Zdigits2_nonneg. rewrite <- Zle_Qle.
  destruct (Z.eq_dec m 0) as [->|Hm]; [ simpl; lia | ].
  pose proof (@Zdigits2_bounds m ltac:(lia)). lia.
Qed.

Lemma digits_of_bound (m e k : Z) :
  0 <= m -> e <= k -> (inject_Z m * pow2 e < pow2 k)%Q -> Zdigits2 m + e <= k.
Proof.
  intros Hm He H. destruct (Z.eq_dec m 0) as [->|Hn]; [ simpl; lia | ].
  pose proof (@Zdigits2_bounds m ltac:(lia)) as [Hlo _].
  assert (Hd : 0 <= Zdigits2 m - 1).
  { destruct m; cbn [Zdigits2]; lia. }
  assert (Hq : (pow2 (Zdigits2 m - 1 + e) < pow2 k)%Q).
  { rewrite pow2_add, (@pow2_nonneg _ Hd).
    rewrite Zle_Qle in Hlo. pose proof (pow2_pos e). nra. }
  apply Qpower_lt_compat_l_inv in Hq; [ lia | reflexivity ].
Qed.

(** The rounding shared by all operations: from a mantissa [mx] and an
    exponent [ex] that bracket the exact magnitude [v], it returns a finite
    float of the wanted sign within three units of the exponent [fexp K],
    for any [K] above the digits of [v]. *)
Lemma binary_round_aux_bound (sx : bool) (mx ex : Z) (lx : location) (v : Q) (K : Z) :
  0 <= mx ->
  (inject_Z mx * pow2 ex <= v)%Q -> (v < inject_Z (mx + 1) * pow2 ex)%Q ->
  Zdigits2 mx + ex <= K -> -1074 <= K <= 1022 ->
  (ex <= fexp prec emax K
   \/ (lx = loc_Exact /\ (v == inject_Z mx * pow2 ex)%Q /\ ex <= 971)) ->
  Binary64.has_sign sx (binary_round_aux prec emax sx mx ex lx) = true
  /\ is_finite (binary_round_aux prec emax sx mx ex lx) = true
  /\ (Qabs (absval (binary_round_aux prec emax sx mx ex lx) - v)
      <= 3 * pow2 (fexp prec emax K))%Q.
Proof.
  intros Hmx Hlo Hhi Hdig HK Hex.
  assert (HfK : fexp prec emax K <= K /\ fexp prec emax K <= 971
                /\ fexp prec emax (K + 1) <= 971).
  { unfold fexp, SpecFloat.emin, prec, emax. lia. }
  assert (HvK : (v < pow2 K)%Q).
  { pose proof (@pow2_digits mx Hmx) as H1. pose proof (pow2_pos ex) as H2.
    pose proof (@pow2_le _ _ Hdig) as H3. rewrite pow2_add in H3. nra. }
  (* the first shift *)
  assert (S1 : exists mrs' e',
             shr_fexp prec emax mx ex lx = (mrs', e')
             /\ 0 <= shr_m mrs'
             /\ (inject_Z (shr_m mrs') * pow2 e' <= v)%Q
             /\ (v < inject_Z (shr_m mrs' + 1) * pow2 e')%Q
             /\ e' <= K
             /\ (e' <= fexp prec emax K
                 \/ (loc_of_shr_record mrs' = loc_Exact
                     /\ (v == inject_Z (shr_m mrs') * pow2 e')%Q /\ e' <= 971))).
  { destruct (@shr_fexp_cases mx ex lx Hmx) as [[Hn E]|[Hn (mrs & E & Hm)]].
    - exists (shr_record_of_loc mx lx), ex. rewrite E.
      rewrite Binary64.shr_record_of_loc_m, loc_of_shr_record_of_loc.
      pose proof (Zdigits2_nonneg mx).
      repeat split; try assumption; try lia.
    - exists mrs, (ex + (fexp prec emax (Zdigits2 mx + ex) - ex)). rewrite E, Hm.
      pose proof (@shift_floor mx ex _ Hmx Hn) as [Ha Hb].
      pose proof (@fexp_mono _ _ Hdig).
      repeat split; try lia;
        try (apply Z.div_pos; [ exact Hmx | apply Z.pow_pos_nonneg; lia ]);
        try lra. }
  destruct S1 as (mrs' & e' & E1 & Hm' & Hlo' & Hhi' & He'K & D1).
  (* rounding to nearest *)
  pose proof (round_nearest_even_cases (shr_m mrs') (loc_of_shr_record mrs')) as [Hr Hrx].
  set (m'' := round_nearest_even (shr_m mrs') (loc_of_shr_record mrs')) in *.
  pose proof (pow2_pos e') as Hpe'.
  pose proof (pow2_pos (fexp prec emax K)) as HpK.
  assert (Hr1 : (inject_Z (shr_m mrs') <= inject_Z m'')%Q) by (rewrite <- Zle_Qle; lia).
  assert (Hr2 : (inject_Z m'' <= inject_Z (shr_m mrs') + 1)%Q).
  { change 1%Q with (inject_Z 1). rewrite <- inject_Z_plus, <- Zle_Qle. lia. }
  rewrite inject_Z_plus in Hhi'. change (inject_Z 1) with 1%Q in Hhi'.
  assert (E2 : (Qabs (inject_Z m'' * pow2 e' - v) <= pow2 (fexp prec emax K))%Q).
  { apply Qabs_Qle_condition. destruct D1 as [D1|(D1 & D2 & _)].
    - pose proof (@pow2_le _ _ D1). split; nra.
    - assert (Hmeq : m'' = shr_m mrs') by apply (Hrx D1).
      rewrite Hmeq. split; lra. }
  assert (B2 : (inject_Z m'' * pow2 e' < pow2 (K + 1))%Q).
  { rewrite pow2_succ. destruct D1 as [D1|(D1 & D2 & _)].
    - pose proof (@pow2_le _ _ D1). pose proof (@pow2_le _ _ (proj1 HfK)). nra.
    - assert (Hmeq : m'' = shr_m mrs') by apply (Hrx D1).
      rewrite Hmeq. pose proof (pow2_pos K). lra. }
  assert (Hm'' : 0 <= m'') by lia.
  pose proof (@digits_of_bound m'' e' (K + 1) Hm'' ltac:(lia) B2) as Hdig2.
  (* the second shift *)
  assert (S2 : exists mrs'' e'',
             shr_fexp prec emax m'' e' loc_Exact = (mrs'', e'')
             /\ 0 <= shr_m mrs'' /\ e'' <= 971
             /\ (Qabs (inject_Z (shr_m mrs'') * pow2 e'' - inject_Z m'' * pow2 e')
                 <= 2 * pow2 (fexp prec emax K))%Q).
  { destruct (@shr_fexp_cases m'' e' loc_Exact Hm'') as [[Hn E]|[Hn (mrs & E & Hm)]].
    - exists (shr_record_of_loc m'' loc_Exact), e'. rewrite E.
      rewrite Binary64.shr_record_of_loc_m.
      split; [ reflexivity | ].
      split; [ exact Hm'' | ].
      split; [ destruct D1 as [D1|(_ & _ & D1)]; lia | ].
      apply Qabs_Qle_condition. split; lra.
    - exists mrs, (e' + (fexp prec emax (Zdigits2 m'' + e') - e')). rewrite E, Hm.
      pose proof (@shift_floor m'' e' _ Hm'' Hn) as [Ha Hb].
      pose proof (@fexp_mono _ _ Hdig2) as Hf. pose proof (fexp_succ K) as Hs.
      set (e'' := e' + (fexp prec emax (Zdigits2 m'' + e') - e')) in *.
      assert (He'' : e'' <= fexp prec emax K + 1) by (unfold e''; lia).
      pose proof (@pow2_le _ _ He'') as Hp. rewrite pow2_succ in Hp.
      pose proof (pow2_pos e'') as Hpe''.
      rewrite !inject_Z_plus in Hb. change (inject_Z 1) with 1%Q in Hb.
      split; [ reflexivity | ].
      split; [ apply Z.div_pos; [ exact Hm'' | apply Z.pow_pos_nonneg; lia ] | ].
      split; [ unfold e''; lia | ].
      apply Qabs_Qle_condition. split; nra. }
  destruct S2 as (mrs'' & e'' & E3 & Hm3 & He3 & E4).
  assert (E5 : (Qabs (inject_Z (shr_m mrs'') * pow2 e'' - v)
                <= 3 * pow2 (fexp prec emax K))%Q).
  { apply Qabs_Qle_condition in E2. apply Qabs_Qle_condition in E4.
    apply Qabs_Qle_condition. split; lra. }
  unfold binary_round_aux. rewrite E1. fold m''. rewrite E3.
  destruct (shr_m mrs'') as [|p|p] eqn:Em; [ | | lia ].
  - simpl. split; [ apply eqb_reflx | ]. split; [ reflexivity | ].
    rewrite Qmult_0_l in E5. exact E5.
  - assert (Hle : (e'' <=? emax - prec) = true) by (apply Z.leb_le; unfold emax, prec; lia).
    rewrite Hle. simpl. split; [ apply eqb_reflx | ]. split; [ reflexivity | exact E5 ].
Qed.


(** Without a shift the rounding of an exact value changes nothing. *)
Lemma binary_round_aux_exact (sx : bool) (mx : positive) (ex : Z) :
  fexp prec emax (Zpos (digits2_pos mx) + ex) <= ex -> ex <= 971 ->
  binary_round_aux prec emax sx (Zpos mx) ex loc_Exact = S754_finite sx mx ex.
Proof.
  intros Hf He. unfold binary_round_aux.
  destruct (@shr_fexp_cases (Zpos mx) ex loc_Exact ltac:(lia)) as [[Hn E]|[Hn _]];
    [ | cbn [Zdigits2] in Hn; lia ].
  rewrite E. cbn [shr_record_of_loc shr_m loc_of_shr_record round_nearest_even].
  rewrite E. cbn [shr_record_of_loc shr_m].
  assert (Hle : (ex <=? emax - prec) = true) by (apply Z.leb_le; unfold emax, prec; lia).
  rewrite Hle. reflexivity.
Qed.

(** Aligning a mantissa to a smaller exponent keeps the value and the
    position of the leading digit. *)
Lemma iter_xO_value (d : positive) (m : positive) :
  Zpos (Pos.iter xO m d) = Zpos m * 2 ^ Zpos d.
Proof.
  revert m. induction d as [|d IH] using Pos.peano_ind; intros m.
  - cbn [Pos.iter]. rewrite Pos2Z.inj_xO. change (2 ^ 1) with 2. ring.
  - rewrite Pos.iter_succ, Pos2Z.inj_xO, IH, Pos2Z.inj_succ, Z.pow_succ_r by lia. ring.
Qed.

Lemma iter_xO_digits (d : positive) (m : positive) :
  Zpos (digits2_pos (Pos.iter xO m d)) = Zpos (digits2_pos m) + Zpos d.
Proof.
  revert m. induction d as [|d IH] using Pos.peano_ind; intros m.
  - cbn. lia.
  - rewrite Pos.iter_succ. cbn [digits2_pos]. rewrite Pos2Z.inj_succ, IH. lia.
Qed.

Lemma shl_align_spec (mx : positive) (ex ex' : Z) :
  let '(mz, ez) := shl_align mx ex ex' in
  (inject_Z (Zpos mz) * pow2 ez == inject_Z (Zpos mx) * pow2 ex)%Q
  /\ Zpos (digits2_pos mz) + ez = Zpos (digits2_pos mx) + ex
  /\ ez = Z.min ex ex'.
Proof.
  unfold shl_align. destruct (ex' - ex) as [|d|d] eqn:E.
  - repeat split; try lia; reflexivity.
  - repeat split; try lia; reflexivity.
  - rewrite iter_xO_value, iter_xO_digits. split; [ | split; lia ].
    replace ex with (ex' + Zpos d) by lia.
    rewrite pow2_add, (@pow2_nonneg (Zpos d)) by lia.
    rewrite inject_Z_mult. ring.
Qed.

(** The signed value of a finite float. *)
Definition SFval (x : spec_float) : Q :=
  match x with
  | S754_finite s m e => (if s then - 1 else 1) * (inject_Z (Zpos m) * pow2 e)
  | _ => 0
  end.

(** The exact value of a float, when it has one. *)
Definition to_Q (x : float) : option Q :=
  if is_finite (Prim2SF x) then Some (SFval (Prim2SF x)) else None.

(** Integers below [2^53] convert exactly. *)
Lemma binary_normalize_exact (k : Z) :
  0 <= k < 2 ^ 53 ->
  Binary64.has_sign false (binary_normalize prec emax k 0 false) = true
  /\ is_finite (binary_normalize prec emax k 0 false) = true
  /\ (SFval (binary_normalize prec emax k 0 false) == inject_Z k)%Q.
Proof.
  intros [H0 H]. destruct k as [|p|p]; [ | | lia ].
  - repeat split; reflexivity.
  - cbn [binary_normalize]. unfold binary_round.
    pose proof (digits2_bounds p) as [Hlo Hhi].
    assert (Hd : Zpos (digits2_pos p) <= 53).
    { apply (@Zdigits2_le (Zpos p) 53); lia. }
    pose proof (shl_align_spec p 0 (fexp prec emax (Zpos (digits2_pos p) + 0))) as Hs.
    destruct (shl_align p 0 _) as [mz ez]. destruct Hs as (Hv & Hdg & He).
    assert (Hez : ez = Zpos (digits2_pos p) - 53).
    { rewrite He. unfold fexp, SpecFloat.emin, prec, emax. lia. }
    rewrite binary_round_aux_exact.
    + repeat split; try reflexivity. cbn [SFval]. rewrite Hv.
      change (pow2 0) with 1%Q. ring.
    + rewrite Hdg. unfold fexp, SpecFloat.emin, prec, emax. lia.
    + lia.
Qed.


(** *** The order of floats is the order of their values *)

Lemma valid_finite (s : bool) (m : positive) (e : Z) :
  SpecFloat.valid_binary prec emax (S754_finite s m e) = true ->
  fexp prec emax (Zpos (digits2_pos m) + e) = e /\ e <= 971.
Proof.
  cbn [SpecFloat.valid_binary]. unfold bounded, canonical_mantissa.
  rewrite andb_true_iff, Z.eqb_eq, Z.leb_le. unfold emax, prec. lia.
Qed.

(** A zero or a positive finite float. *)
Definition nonneg_finite (x : spec_float) : Prop :=
  match x with
  | S754_zero _ | S754_finite false _ _ => True
  | _ => False
  end.

Lemma canonical_lt (m1 m2 : positive) (e1 e2 : Z) :
  fexp prec emax (Zpos (digits2_pos m1) + e1) = e1 ->
  fexp prec emax (Zpos (digits2_pos m2) + e2) = e2 ->
  e1 < e2 ->
  (inject_Z (Zpos m1) * pow2 e1 < inject_Z (Zpos m2) * pow2 e2)%Q.
Proof.
  intros H1 H2 Hlt.
  pose proof (digits2_bounds m1) as [_ Hhi]. pose proof (digits2_bounds m2) as [Hlo _].
  assert (Hd1 : Zpos (digits2_pos m1) <= 53)
    by (revert H1; unfold fexp, SpecFloat.emin, prec, emax; lia).
  assert (Hd2 : Zpos (digits2_pos m2) = 53)
    by (revert H1 H2; unfold fexp, SpecFloat.emin, prec, emax; lia).
  rewrite Hd2 in Hlo.
  assert (Hm1 : Zpos m1 < 2 ^ 53).
  { eapply Z.lt_le_trans; [ exact Hhi | apply Z.pow_le_mono_r; lia ]. }
  rewrite Zlt_Qlt in Hm1. rewrite Zle_Qle in Hlo.
  rewrite <- (@pow2_nonneg 53) in Hm1 by lia.
  rewrite <- (@pow2_nonneg (53 - 1)) in Hlo by lia.
  pose proof (pow2_pos e1). pose proof (pow2_pos e2).
  assert (Hp : (pow2 (53 + e1) <= pow2 (53 - 1 + e2))%Q) by (apply pow2_le; lia).
  rewrite !pow2_add in Hp. nra.
Qed.

Lemma posval (m : positive) (e : Z) : (0 < inject_Z (Zpos m) * pow2 e)%Q.
Proof. apply Qmult_lt_0_compat; [ reflexivity | apply pow2_pos ]. Qed.

Lemma SFcompare_nonneg (x y : spec_float) :
  SpecFloat.valid_binary prec emax x = true ->
  SpecFloat.valid_binary prec emax y = true ->
  nonneg_finite x -> nonneg_finite y ->
  SFcompare x y = Some (Qcompare (SFval x) (SFval y)).
Proof.
  intros Vx Vy Nx Ny.
  destruct x as [sx|sx| |[] mx ex]; try contradiction;
  destruct y as [sy|sy| |[] my ey]; try contradiction; cbn [SFcompare SFval].
  - reflexivity.
  - f_equal. symmetry. apply (proj1 (Qlt_alt _ _)). pose proof (posval my ey). lra.
  - f_equal. symmetry. apply (proj1 (Qgt_alt _ _)). pose proof (posval mx ex). lra.
  - apply valid_finite in Vx, Vy. destruct Vx as [Cx _], Vy as [Cy _].
    f_equal. symmetry. destruct (Z.compare_spec ex ey) as [E|L|G].
    + subst ey. rewrite Pos.compare_cont_spec. cbn [Pos.switch_Eq].
      pose proof (pow2_pos ex).
      destruct (Pos.compare_spec mx my) as [E|L|G].
      * subst. apply (proj1 (Qeq_alt _ _)). reflexivity.
      * apply (proj1 (Qlt_alt _ _)). apply Pos2Z.pos_lt_pos in L. rewrite Zlt_Qlt in L. nra.
      * apply (proj1 (Qgt_alt _ _)). apply Pos2Z.pos_lt_pos in G. rewrite Zlt_Qlt in G. nra.
    + apply (proj1 (Qlt_alt _ _)). pose proof (canonical_lt _ _ Cx Cy L). lra.
    + apply (proj1 (Qgt_alt _ _)). pose proof (canonical_lt _ _ Cy Cx G). lra.
Qed.


(** *** Error bounds of the operations *)

Lemma nonneg_finite_of_sign (x : spec_float) :
  Binary64.has_sign false x = true -> is_finite x = true ->
  nonneg_finite x /\ (SFval x == absval x)%Q.
Proof.
  destruct x as [s|s| |[] m e]; cbn; intros H1 H2; try discriminate;
    split; try exact I; ring.
Qed.

Lemma SFval_nonneg (x : spec_float) : nonneg_finite x -> (0 <= SFval x)%Q.
Proof.
  destruct x as [s|s| |[] m e]; cbn [nonneg_finite SFval]; try contradiction;
    intros _; try lra.
  pose proof (posval m e). lra.
Qed.

(** The quotient of a non-negative float by a positive one. *)
Lemma SFdiv_bound (x : spec_float) (my : positive) (ey : Z) (K : Z) :
  nonneg_finite x -> -1074 <= K <= 1022 ->
  (SFval x / (inject_Z (Zpos my) * pow2 ey) < pow2 K)%Q ->
  nonneg_finite (SFdiv prec emax x (S754_finite false my ey))
  /\ (Qabs (SFval (SFdiv prec emax x (S754_finite false my ey))
            - SFval x / (inject_Z (Zpos my) * pow2 ey))
      <= 3 * pow2 (fexp prec emax K))%Q.
Proof.
  intros Nx HK Hv. pose proof (posval my ey) as Hy.
  pose proof (pow2_pos (fexp prec emax K)) as HpK.
  destruct x as [sx|sx| |[] mx ex]; try contradiction.
  - cbn [SFdiv SFval]. split; [ exact I | ].
    apply Qabs_Qle_condition. unfold Qdiv. rewrite Qmult_0_l. split; lra.
  - cbn [SFval] in *. rewrite Qmult_1_l in *.
    set (v := (inject_Z (Zpos mx) * pow2 ex / (inject_Z (Zpos my) * pow2 ey))%Q) in *.
    cbn [SFdiv]. unfold SFdiv_core_binary. cbn [Zdigits2].
    set (d1 := Zpos (digits2_pos mx)). set (d2 := Zpos (digits2_pos my)).
    set (e' := Z.min (fexp prec emax (d1 + ex - (d2 + ey))) (ex - ey)).
    set (s := ex - ey - e').
    assert (Hs : 0 <= s) by (unfold s, e'; lia).
    set (m' := match s with
               | 0 => Zpos mx
               | Zpos _ => Z.shiftl (Zpos mx) s
               | Zneg _ => 0
               end).
    assert (Hm' : m' = Zpos mx * 2 ^ s).
    { unfold m'. destruct s as [|p|p] eqn:E; try lia.
      apply Z.shiftl_mul_pow2. lia. }
    assert (Hp2 : 0 < 2 ^ s) by (apply Z.pow_pos_nonneg; lia).
    pose proof (Z.div_mod m' (Zpos my) ltac:(lia)) as Hdm.
    pose proof (Z.mod_pos_bound m' (Zpos my) ltac:(lia)) as Hr.
    unfold Z.div, Z.modulo in Hdm, Hr.
    destruct (Z.div_eucl m' (Zpos my)) as [q r].
    assert (Hq : 0 <= q) by nia.
    (* the exact quotient, scaled *)
    assert (Hnum : (inject_Z (Zpos mx) * pow2 ex
                    == inject_Z m' * pow2 e' * pow2 ey)%Q).
    { rewrite Hm', inject_Z_mult, <- (@pow2_nonneg s) by lia.
      replace ex with (s + e' + ey) at 1 by (unfold s; lia).
      rewrite !pow2_add. ring. }
    pose proof (pow2_pos e') as Hpe'. pose proof (pow2_pos ey) as Hpey.
    assert (Hvq : (v * inject_Z (Zpos my) == inject_Z m' * pow2 e')%Q).
    { unfold v. rewrite Hnum. field. split; [ | discriminate ].
      intros E. pose proof (pow2_pos ey). lra. }
    assert (Hm1 : (inject_Z m' == inject_Z (Zpos my) * inject_Z q + inject_Z r)%Q).
    { rewrite <- inject_Z_mult, <- inject_Z_plus, Hdm. reflexivity. }
    assert (Hr0 : (0 <= inject_Z r)%Q) by (change 0%Q with (inject_Z 0); rewrite <- Zle_Qle; lia).
    assert (Hr1 : (inject_Z r + 1 <= inject_Z (Zpos my))%Q).
    { change 1%Q with (inject_Z 1). rewrite <- inject_Z_plus, <- Zle_Qle. lia. }
    assert (Hmy : (0 < inject_Z (Zpos my))%Q) by reflexivity.
    assert (Hlo : (inject_Z q * pow2 e' <= v)%Q) by nra.
    assert (Hhi : (v < inject_Z (q + 1) * pow2 e')%Q).
    { rewrite inject_Z_plus. change (inject_Z 1) with 1%Q. nra. }
    (* the digits of the quotient *)
    pose proof (digits2_bounds mx) as [Hlo1 _]. pose proof (digits2_bounds my) as [_ Hhi2].
    fold d1 in Hlo1. fold d2 in Hhi2.
    assert (Hd : d1 + ex - (d2 + ey) <= K).
    { assert (Hd1 : 0 <= d1 - 1) by (unfold d1; lia).
      assert (Hd2 : 0 <= d2) by (unfold d2; lia).
      rewrite Zle_Qle, <- (@pow2_nonneg _ Hd1) in Hlo1.
      rewrite Zlt_Qlt, <- (@pow2_nonneg _ Hd2) in Hhi2.
      assert (Hx : (pow2 (d1 - 1 + ex - (d2 + ey)) < pow2 K)%Q).
      { replace (d1 - 1 + ex - (d2 + ey)) with ((d1 - 1) + ex + - d2 + - ey) by lia.
        rewrite !pow2_add.
        assert (E2 : (pow2 (- d2) * pow2 d2 == 1)%Q).
        { rewrite <- pow2_add. replace (- d2 + d2) with 0 by lia. reflexivity. }
        assert (Ey : (pow2 (- ey) * pow2 ey == 1)%Q).
        { rewrite <- pow2_add. replace (- ey + ey) with 0 by lia. reflexivity. }
        pose proof (pow2_pos (- d2)). pose proof (pow2_pos (- ey)).
        pose proof (pow2_pos (d1 - 1)). pose proof (pow2_pos ex).
        pose proof (pow2_pos d2). pose proof (pow2_pos K).
        assert (Hv' : (v * (inject_Z (Zpos my) * pow2 ey)
                       == inject_Z (Zpos mx) * pow2 ex)%Q).
        { unfold v. rewrite Qmult_comm. apply Qmult_div_r. intros E. lra. }
        (* v * my * 2^ey = mx * 2^ex, with my < 2^d2 and 2^(d1-1) <= mx *)
        pose proof (posval mx ex) as Hx0.
        assert (Hv0 : (0 <= v)%Q) by (unfold v; apply Qle_shift_div_l; lra).
        assert (A1 : (pow2 (d1 - 1) * pow2 ex <= inject_Z (Zpos mx) * pow2 ex)%Q) by nra.
        assert (A2 : (inject_Z (Zpos my) * pow2 ey <= pow2 d2 * pow2 ey)%Q) by nra.
        assert (A3 : (v * (inject_Z (Zpos my) * pow2 ey) <= v * (pow2 d2 * pow2 ey))%Q).
        { rewrite (Qmult_comm v), (Qmult_comm v). apply Qmult_le_compat_r; assumption. }
        assert (G1 : (pow2 (d1 - 1) * pow2 ex <= v * (pow2 d2 * pow2 ey))%Q) by lra.
        assert (Hpp : (0 < pow2 (- d2) * pow2 (- ey))%Q)
          by (apply Qmult_lt_0_compat; assumption).
        assert (G2 : (pow2 (d1 - 1) * pow2 ex * (pow2 (- d2) * pow2 (- ey))
                      <= v * (pow2 d2 * pow2 ey) * (pow2 (- d2) * pow2 (- ey)))%Q).
        { apply Qmult_le_compat_r; [ exact G1 | lra ]. }
        assert (G3 : (v * (pow2 d2 * pow2 ey) * (pow2 (- d2) * pow2 (- ey))
                      == v * ((pow2 (- d2) * pow2 d2) * (pow2 (- ey) * pow2 ey)))%Q) by ring.
        rewrite G3, E2, Ey in G2. lra. }
      apply Qpower_lt_compat_l_inv in Hx; [ lia | reflexivity ]. }
    pose proof (@fexp_mono _ _ Hd) as Hf.
    assert (HfK : fexp prec emax K <= K) by (unfold fexp, SpecFloat.emin, prec, emax; lia).
    assert (He'K : e' <= fexp prec emax K) by (unfold e'; lia).
    assert (Hdq : Zdigits2 q + e' <= K).
    { apply digits_of_bound; [ exact Hq | lia | lra ]. }
    destruct (@binary_round_aux_bound false q e' (new_location (Zpos my) r) v K
                Hq Hlo Hhi Hdq HK (or_introl He'K)) as (Hsg & Hfin & Hb).
    destruct (nonneg_finite_of_sign _ Hsg Hfin) as [Hn Ev].
    split; [ exact Hn | ]. rewrite Ev. exact Hb.
Qed.


(** Rounding a positive multiple of a power of two. *)
Lemma binary_normalize_bound (d : positive) (ez K : Z) :
  ez <= 971 -> -1074 <= K <= 1022 ->
  (inject_Z (Zpos d) * pow2 ez < pow2 K)%Q ->
  nonneg_finite (binary_normalize prec emax (Zpos d) ez false)
  /\ (Qabs (SFval (binary_normalize prec emax (Zpos d) ez false)
            - inject_Z (Zpos d) * pow2 ez)
      <= 3 * pow2 (fexp prec emax K))%Q.
Proof.
  intros Hez HK Hlt.
  pose proof (pow2_pos (fexp prec emax K)) as HpK.
  cbn [binary_normalize]. unfold binary_round.
  pose proof (shl_align_spec d ez (fexp prec emax (Zpos (digits2_pos d) + ez))) as Hs.
  destruct (shl_align d ez _) as [mz ez2]. destruct Hs as (Vz & Dz & Ez).
  pose proof (posval mz ez2) as Hz. pose proof (pow2_pos ez2) as Hpz.
  set (v := (inject_Z (Zpos mz) * pow2 ez2)%Q) in *.
  assert (He2 : ez2 < K).
  { assert (Hq : (pow2 ez2 < pow2 K)%Q).
    { assert (1 <= inject_Z (Zpos mz))%Q
        by (change 1%Q with (inject_Z 1); rewrite <- Zle_Qle; lia).
      unfold v in *. nra. }
    apply Qpower_lt_compat_l_inv in Hq; [ exact Hq | reflexivity ]. }
  assert (Hdz : Zdigits2 (Zpos mz) + ez2 <= K).
  { apply digits_of_bound; [ lia | lia | fold v; lra ]. }
  assert (Hhi : (v < inject_Z (Zpos mz + 1) * pow2 ez2)%Q).
  { unfold v. rewrite inject_Z_plus. change (inject_Z 1) with 1%Q. lra. }
  assert (He971 : ez2 <= 971) by lia.
  assert (Hlo : (inject_Z (Zpos mz) * pow2 ez2 <= v)%Q) by (unfold v; lra).
  destruct (@binary_round_aux_bound false (Zpos mz) ez2 loc_Exact v K
              ltac:(lia) Hlo Hhi Hdz HK
              (or_intror (conj eq_refl (conj (Qeq_refl _) He971))))
    as (Hsg & Hfin & Hb).
  destruct (nonneg_finite_of_sign _ Hsg Hfin) as [Hn Ev].
  split; [ exact Hn | ].
  apply Qabs_Qle_condition in Hb. apply Qabs_Qle_condition. split; lra.
Qed.

(** The difference of two positive floats, the larger first. *)
Lemma SFsub_bound (mx my : positive) (ex ey : Z) (K : Z) :
  ex <= 971 -> -1074 <= K <= 1022 ->
  (inject_Z (Zpos my) * pow2 ey <= inject_Z (Zpos mx) * pow2 ex)%Q ->
  (inject_Z (Zpos mx) * pow2 ex - inject_Z (Zpos my) * pow2 ey < pow2 K)%Q ->
  nonneg_finite (SFsub prec emax (S754_finite false mx ex) (S754_finite false my ey))
  /\ (Qabs (SFval (SFsub prec emax (S754_finite false mx ex) (S754_finite false my ey))
            - (inject_Z (Zpos mx) * pow2 ex - inject_Z (Zpos my) * pow2 ey))
      <= 3 * pow2 (fexp prec emax K))%Q.
Proof.
  intros Hex HK Hle Hlt.
  pose proof (pow2_pos (fexp prec emax K)) as HpK.
  cbn [SFsub cond_Zopp].
  set (ez := Z.min ex ey).
  pose proof (shl_align_spec mx ex ez) as Hx. pose proof (shl_align_spec my ey ez) as Hy.
  destruct (shl_align mx ex ez) as [mx' ex']. destruct (shl_align my ey ez) as [my' ey'].
  destruct Hx as (Vx & _ & Ex). destruct Hy as (Vy & _ & Ey).
  assert (Ex' : ex' = ez) by (unfold ez in *; lia).
  assert (Ey' : ey' = ez) by (unfold ez in *; lia).
  clear Ex Ey. subst ex' ey'. cbn [fst].
  pose proof (pow2_pos ez) as Hpez.
  set (vx := (inject_Z (Zpos mx) * pow2 ex)%Q) in *.
  set (vy := (inject_Z (Zpos my) * pow2 ey)%Q) in *.
  assert (Hd : (inject_Z (Zpos mx' - Zpos my') * pow2 ez == vx - vy)%Q).
  { unfold Z.sub. rewrite inject_Z_plus, inject_Z_opp. lra. }
  destruct (Zpos mx' - Zpos my') as [|d|d] eqn:E.
  - cbn [binary_normalize SFval]. split; [ exact I | ].
    change (inject_Z 0) with 0%Q in Hd.
    apply Qabs_Qle_condition. split; lra.
  - destruct (@binary_normalize_bound d ez K ltac:(unfold ez; lia) HK ltac:(lra))
      as [Hn Hb].
    split; [ exact Hn | ].
    apply Qabs_Qle_condition in Hb. apply Qabs_Qle_condition. split; lra.
  - exfalso. assert (Hneg : (inject_Z (Zneg d) < 0)%Q) by reflexivity.
    nra.
Qed.

(** The sum of two positive floats. *)
Lemma SFadd_bound (mx my : positive) (ex ey : Z) (K : Z) :
  ex <= 971 -> -1074 <= K <= 1022 ->
  (inject_Z (Zpos mx) * pow2 ex + inject_Z (Zpos my) * pow2 ey < pow2 K)%Q ->
  nonneg_finite (SFadd prec emax (S754_finite false mx ex) (S754_finite false my ey))
  /\ (Qabs (SFval (SFadd prec emax (S754_finite false mx ex) (S754_finite false my ey))
            - (inject_Z (Zpos mx) * pow2 ex + inject_Z (Zpos my) * pow2 ey))
      <= 3 * pow2 (fexp prec emax K))%Q.
Proof.
  intros Hex HK Hlt.
  cbn [SFadd cond_Zopp].
  set (ez := Z.min ex ey).
  pose proof (shl_align_spec mx ex ez) as Hx. pose proof (shl_align_spec my ey ez) as Hy.
  destruct (shl_align mx ex ez) as [mx' ex']. destruct (shl_align my ey ez) as [my' ey'].
  destruct Hx as (Vx & _ & Ex). destruct Hy as (Vy & _ & Ey).
  assert (Ex' : ex' = ez) by (unfold ez in *; lia).
  assert (Ey' : ey' = ez) by (unfold ez in *; lia).
  clear Ex Ey. subst ex' ey'. cbn [fst].
  set (vx := (inject_Z (Zpos mx) * pow2 ex)%Q) in *.
  set (vy := (inject_Z (Zpos my) * pow2 ey)%Q) in *.
  change (Zpos mx' + Zpos my') with (Zpos (mx' + my')).
  assert (Hd : (inject_Z (Zpos (mx' + my')) * pow2 ez == vx + vy)%Q).
  { rewrite Pos2Z.inj_add, inject_Z_plus. lra. }
  destruct (@binary_normalize_bound (mx' + my') ez K ltac:(unfold ez; lia) HK ltac:(lra))
    as [Hn Hb].
  split; [ exact Hn | ].
  apply Qabs_Qle_condition in Hb. apply Qabs_Qle_condition. split; lra.
Qed.

(** The product of two positive floats. *)
Lemma SFmul_bound (mx my : positive) (ex ey : Z) (K : Z) :
  ex + ey <= 971 -> -1074 <= K <= 1022 ->
  (inject_Z (Zpos mx) * pow2 ex * (inject_Z (Zpos my) * pow2 ey) < pow2 K)%Q ->
  nonneg_finite (SFmul prec emax (S754_finite false mx ex) (S754_finite false my ey))
  /\ (Qabs (SFval (SFmul prec emax (S754_finite false mx ex) (S754_finite false my ey))
            - inject_Z (Zpos mx) * pow2 ex * (inject_Z (Zpos my) * pow2 ey))
      <= 3 * pow2 (fexp prec emax K))%Q.
Proof.
  intros He HK Hlt. cbn [SFmul xorb].
  pose proof (posval (mx * my) (ex + ey)) as Hz. pose proof (pow2_pos (ex + ey)) as Hpz.
  set (v := (inject_Z (Zpos (mx * my)) * pow2 (ex + ey))%Q) in *.
  assert (Hv : (v == inject_Z (Zpos mx) * pow2 ex * (inject_Z (Zpos my) * pow2 ey))%Q).
  { unfold v. rewrite Pos2Z.inj_mul, inject_Z_mult, pow2_add. ring. }
  assert (He2 : ex + ey < K).
  { assert (Hq : (pow2 (ex + ey) < pow2 K)%Q).
    { assert (1 <= inject_Z (Zpos (mx * my)))%Q
        by (change 1%Q with (inject_Z 1); rewrite <- Zle_Qle; lia).
      unfold v in *. nra. }
    apply Qpower_lt_compat_l_inv in Hq; [ exact Hq | reflexivity ]. }
  assert (Hdz : Zdigits2 (Zpos (mx * my)) + (ex + ey) <= K).
  { apply digits_of_bound; [ lia | lia | fold v; lra ]. }
  assert (Hhi : (v < inject_Z (Zpos (mx * my) + 1) * pow2 (ex + ey))%Q).
  { unfold v. rewrite inject_Z_plus. change (inject_Z 1) with 1%Q. lra. }
  assert (Hlo : (inject_Z (Zpos (mx * my)) * pow2 (ex + ey) <= v)%Q) by (unfold v; lra).
  destruct (@binary_round_aux_bound false (Zpos (mx * my)) (ex + ey) loc_Exact v K
              ltac:(lia) Hlo Hhi Hdz HK
              (or_intror (conj eq_refl (conj (Qeq_refl _) He))))
    as (Hsg & Hfin & Hb).
  destruct (nonneg_finite_of_sign _ Hsg Hfin) as [Hn Ev].
  split; [ exact Hn | ].
  apply Qabs_Qle_condition in Hb. apply Qabs_Qle_condition. split; lra.
Qed.

(** A float minus itself is a zero. *)
Lemma SFsub_self (x : spec_float) :
  nonneg_finite x -> exists s, SFsub prec emax x x = S754_zero s.
Proof.
  destruct x as [[]|s| |[] m e]; try contradiction; intros _; cbn [SFsub cond_Zopp].
  - exists false. reflexivity.
  - exists false. reflexivity.
  - rewrite Z.sub_diag. exists false. reflexivity.
Qed.

(** *** [round(x, 2)] *)

Lemma pow2_neg (k : positive) : (pow2 (Zneg k) * inject_Z (2 ^ Zpos k) == 1)%Q.
Proof.
  rewrite <- (@pow2_nonneg (Zpos k)) by lia. rewrite <- pow2_add.
  replace (Zneg k + Zpos k) with 0 by lia. reflexivity.
Qed.

(** [cents m e] is within half a cent of the value [m * 2^e]. *)
Lemma cents_spec (m : positive) (e : Z) :
  0 <= Binary64.cents m e
  /\ (Qabs (inject_Z (Binary64.cents m e) - 100 * (inject_Z (Zpos m) * pow2 e)) <= 1 # 2)%Q.
Proof.
  unfold Binary64.cents. destruct e as [|k|k].
  - split; [ lia | ]. change (pow2 0) with 1%Q. rewrite Z.pow_0_r.
    rewrite !inject_Z_mult. apply Qabs_Qle_condition.
    change (inject_Z 1) with 1%Q. change (inject_Z 100) with 100%Q. split; lra.
  - split; [ lia | ]. rewrite !inject_Z_mult, <- (@pow2_nonneg (Zpos k)) by lia.
    apply Qabs_Qle_condition. change (inject_Z 100) with 100%Q. split; lra.
  - cbv zeta. set (d := 2 ^ Zpos k). set (n := Zpos m * 100).
    assert (Hd : 0 < d) by (apply Z.pow_pos_nonneg; lia).
    pose proof (Z.div_mod n d ltac:(lia)) as Hn.
    pose proof (Z.mod_pos_bound n d Hd) as Hr.
    assert (Hq : 0 <= n / d) by (apply Z.div_pos; lia).
    set (q := n / d) in *. set (r := n mod d) in *.
    pose proof (pow2_neg k) as Hk. fold d in Hk.
    set (x := (100 * (inject_Z (Zpos m) * pow2 (Zneg k)))%Q).
    assert (Hx : (x * inject_Z d == inject_Z q * inject_Z d + inject_Z r)%Q).
    { rewrite <- inject_Z_mult, <- inject_Z_plus.
      replace (q * d + r) with n by lia. unfold n. rewrite inject_Z_mult.
      unfold x. change (inject_Z 100) with 100%Q.
      transitivity (100 * inject_Z (Zpos m) * (pow2 (Zneg k) * inject_Z d))%Q; [ ring | ].
      rewrite Hk. ring. }
    assert (HD : (0 < inject_Z d)%Q) by (change 0%Q with (inject_Z 0); rewrite <- Zlt_Qlt; lia).
    assert (Hr0 : (0 <= inject_Z r)%Q) by (change 0%Q with (inject_Z 0); rewrite <- Zle_Qle; lia).
    destruct (Z.compare_spec (2 * r) d) as [E|L|G].
    + assert (Hh : (2 * inject_Z r == inject_Z d)%Q).
      { change 2%Q with (inject_Z 2). rewrite <- inject_Z_mult, E. reflexivity. }
      destruct (Z.even q).
      * split; [ exact Hq | ]. apply Qabs_Qle_condition. split; nra.
      * split; [ lia | ]. rewrite inject_Z_plus. change (inject_Z 1) with 1%Q.
        apply Qabs_Qle_condition. split; nra.
    + assert (Hh : (2 * inject_Z r < inject_Z d)%Q).
      { change 2%Q with (inject_Z 2). rewrite <- inject_Z_mult, <- Zlt_Qlt. exact L. }
      split; [ exact Hq | ]. apply Qabs_Qle_condition. split; nra.
    + assert (Hh : (inject_Z d < 2 * inject_Z r)%Q).
      { change 2%Q with (inject_Z 2). rewrite <- inject_Z_mult, <- Zlt_Qlt. exact G. }
      assert (Hr1 : (inject_Z r < inject_Z d)%Q) by (rewrite <- Zlt_Qlt; lia).
      split; [ lia | ]. rewrite inject_Z_plus. change (inject_Z 1) with 1%Q.
      apply Qabs_Qle_condition. split; nra.
Qed.

(** *** Values of floats *)

(** The exact value of a finite float; zero for infinities and NaN. *)
Definition value (x : float) : Q := SFval (Prim2SF x).

(** [x] is a zero or a positive finite float. *)
Definition nonneg (x : float) : Prop := nonneg_finite (Prim2SF x).

Lemma value_nonneg (x : float) : nonneg x -> (0 <= value x)%Q.
Proof. apply SFval_nonneg. Qed.

Lemma compare_value (x y : float) :
  nonneg x -> nonneg y ->
  SFcompare (Prim2SF x) (Prim2SF y) = Some (Qcompare (value x) (value y)).
Proof. intros Hx Hy. apply SFcompare_nonneg; try apply Prim2SF_valid; assumption. Qed.

Lemma leb_value (x y : float) :
  nonneg x -> nonneg y -> (PrimFloat.leb x y = true <-> (value x <= value y)%Q).
Proof.
  intros Hx Hy. rewrite leb_spec. unfold SFleb. rewrite (compare_value x y Hx Hy).
  destruct (Qcompare_spec (value x) (value y)) as [E|L|G];
    split; intros H; try reflexivity; try discriminate; lra.
Qed.

Lemma ltb_value (x y : float) :
  nonneg x -> nonneg y -> (PrimFloat.ltb x y = true <-> (value x < value y)%Q).
Proof.
  intros Hx Hy. rewrite ltb_spec. unfold SFltb. rewrite (compare_value x y Hx Hy).
  destruct (Qcompare_spec (value x) (value y)) as [E|L|G];
    split; intros H; try reflexivity; try discriminate; lra.
Qed.

(** A float between [0.0] and a finite float is a zero or positive finite. *)
Lemma nonneg_of_range (x b : float) :
  PrimFloat.leb 0 x = true -> PrimFloat.leb x b = true -> nonneg b -> nonneg x.
Proof.
  rewrite !leb_spec, Binary64.Prim2SF_zero. unfold nonneg.
  destruct (Prim2SF x) as [s|[]| |[] m e]; cbn; try discriminate; try (intros; exact I).
  destruct (Prim2SF b) as [sb|sb| |[] mb eb]; cbn; try discriminate; try contradiction.
Qed.

(** A non-negative float that is not [<= 0.0] is positive and finite. *)
Lemma positive_of_nonneg (x : float) :
  nonneg x -> PrimFloat.leb x 0 = false ->
  exists m e, Prim2SF x = S754_finite false m e.
Proof.
  unfold nonneg. rewrite leb_spec, Binary64.Prim2SF_zero.
  destruct (Prim2SF x) as [s|s| |[] m e]; cbn; try contradiction; try discriminate.
  intros _ _. exists m, e. reflexivity.
Qed.

Lemma zero_of_nonneg (x : float) :
  nonneg x -> PrimFloat.leb x 0 = true -> (value x == 0)%Q.
Proof.
  unfold nonneg, value. rewrite leb_spec, Binary64.Prim2SF_zero.
  destruct (Prim2SF x) as [s|s| |[] m e]; cbn; try contradiction; try discriminate;
    intros; reflexivity.
Qed.

(** Integers from [0] to [2^53] convert exactly. *)
Lemma of_int_value (k : Z) :
  0 <= k < 2 ^ 53 -> nonneg (Binary64.of_int k) /\ (value (Binary64.of_int k) == inject_Z k)%Q.
Proof.
  intros Hk. unfold nonneg, value. destruct k as [|p|p]; [ | | lia ].
  - split; [ exact I | reflexivity ].
  - cbn [Binary64.of_int]. rewrite of_uint63_spec, Uint63.of_Z_spec.
    rewrite Z.mod_small
      by (split; [ lia | eapply Z.lt_trans; [ apply Hk | reflexivity ] ]).
    destruct (binary_normalize_exact Hk) as (Hs & Hf & Hv).
    destruct (nonneg_finite_of_sign _ Hs Hf) as [Hn _]. split; assumption.
Qed.

(** [round(x, 2)] of a non-negative float up to [2^40 + 1]: within half a
    cent, and the rounding of one division, of [x]. *)
Lemma round2_value (x : float) :
  nonneg x -> (value x <= pow2 40 + 1)%Q ->
  nonneg (Binary64.round2 x)
  /\ (Qabs (value (Binary64.round2 x) - value x) <= (1 # 200) + 3 * pow2 (-12))%Q.
Proof.
  intros Hx Hb. pose proof (pow2_pos (-12)) as Hp.
  assert (H40 : (pow2 40 == 1099511627776)%Q) by reflexivity.
  unfold Binary64.round2.
  destruct (Prim2SF x) as [s|s| |[] m e] eqn:E;
    try (unfold nonneg in Hx; rewrite E in Hx; contradiction).
  - split; [ exact Hx | ]. apply Qabs_Qle_condition. split; lra.
  - assert (Hv : (value x == inject_Z (Zpos m) * pow2 e)%Q).
    { unfold value. rewrite E. cbn [SFval]. ring. }
    assert (Hax : nonneg (PrimFloat.abs x)).
    { unfold nonneg. rewrite abs_spec, E. exact I. }
    assert (Hvax : (value (PrimFloat.abs x) == value x)%Q).
    { unfold value. rewrite abs_spec, E. reflexivity. }
    assert (H46 : nonneg Binary64.two46 /\ (value Binary64.two46 == 70368744177664)%Q).
    { split; [ exact I | reflexivity ]. }
    destruct H46 as [N46 V46].
    destruct (PrimFloat.leb Binary64.two46 (PrimFloat.abs x)) eqn:L.
    { apply (leb_value _ _ N46 Hax) in L. lra. }
    clear L. destruct (cents_spec m e) as [Hc0 Hc]. rewrite <- Hv in Hc.
    apply Qabs_Qle_condition in Hc. set (vx := value x) in *.
    set (c := Binary64.cents m e) in *.
    assert (Hcb : (inject_Z c < 109951162777701)%Q) by lra.
    assert (Hcz : 0 <= c < 2 ^ 53).
    { split; [ exact Hc0 | ].
      change 109951162777701%Q with (inject_Z 109951162777701) in Hcb.
      rewrite <- Zlt_Qlt in Hcb. eapply Z.lt_trans; [ exact Hcb | reflexivity ]. }
    assert (Hn : nonneg_finite (Prim2SF (PrimFloat.of_uint63 (Uint63.of_Z c)))
                 /\ (SFval (Prim2SF (PrimFloat.of_uint63 (Uint63.of_Z c))) == inject_Z c)%Q).
    { rewrite of_uint63_spec, Uint63.of_Z_spec.
      rewrite Z.mod_small
        by (split; [ lia | eapply Z.lt_trans; [ apply Hcz | reflexivity ] ]).
      destruct (binary_normalize_exact Hcz) as (Hs & Hf & Hval).
      destruct (nonneg_finite_of_sign _ Hs Hf) as [Hnn _]. split; assumption. }
    destruct Hn as [Hn Hval].
    assert (H100 : Prim2SF 100 = S754_finite false 7036874417766400 (-46)) by reflexivity.
    assert (V100 : (inject_Z (Zpos 7036874417766400) * pow2 (-46) == 100)%Q) by reflexivity.
    unfold nonneg, value. rewrite div_spec, H100. unfold SF64div.
    assert (H41 : (pow2 41 == 2199023255552)%Q) by reflexivity.
    destruct (@SFdiv_bound _ 7036874417766400 (-46) 41 Hn ltac:(lia)) as [Hr Hd].
    { rewrite V100, Hval. apply Qlt_shift_div_r; lra. }
    split; [ exact Hr | ].
    rewrite V100, Hval in Hd. change (fexp prec emax 41) with (-12) in Hd.
    apply Qabs_Qle_condition in Hd. apply Qabs_Qle_condition.
    assert (Hq : (inject_Z c / 100 == inject_Z c * (1 # 100))%Q) by (unfold Qdiv; reflexivity).
    rewrite Hq in Hd. split; lra.
Qed.

(** *** The per-payment amount *)

(** [A / float(count)] for the three payment counts. *)
Lemma div_count_value (A : float) (count : Z) :
  count = 12 \/ count = 4 \/ count = 1 ->
  nonneg A -> (value A <= pow2 40)%Q ->
  nonneg (A / Binary64.of_int count)
  /\ (Qabs (value (A / Binary64.of_int count) - value A / inject_Z count)
      <= 3 * pow2 (-12))%Q.
Proof.
  intros Hc HA Hb. pose proof (@value_nonneg A HA) as H0.
  assert (H40 : (pow2 40 == 1099511627776)%Q) by reflexivity.
  assert (H41 : (pow2 41 == 2199023255552)%Q) by reflexivity.
  assert (Hn : exists m e, Prim2SF (Binary64.of_int count) = S754_finite false m e
                           /\ (inject_Z (Zpos m) * pow2 e == inject_Z count)%Q
                           /\ (1 <= inject_Z count)%Q).
  { destruct Hc as [ -> | [ -> | -> ] ]; eexists; eexists; repeat split; discriminate. }
  destruct Hn as (m & e & En & Vn & H1).
  unfold nonneg, value in *. rewrite div_spec, En. unfold SF64div.
  destruct (@SFdiv_bound _ m e 41 HA ltac:(lia)) as [Hr Hd].
  { rewrite Vn. apply Qlt_shift_div_r; [ lra | ]. nra. }
  rewrite Vn in Hd. split; assumption.
Qed.

(** [float(count) * p], as a caller multiplies the payments out. *)
Lemma mul_count_value (p : float) (count K : Z) :
  count = 12 \/ count = 4 \/ count = 1 ->
  nonneg p -> -1074 <= K <= 1022 ->
  (inject_Z count * value p < pow2 K)%Q ->
  nonneg (Binary64.of_int count * p)
  /\ (Qabs (value (Binary64.of_int count * p) - inject_Z count * value p)
      <= 3 * pow2 (fexp prec emax K))%Q.
Proof.
  intros Hc Hp HK Hlt. pose proof (pow2_pos (fexp prec emax K)) as HpK.
  assert (Hn : exists m e, Prim2SF (Binary64.of_int count) = S754_finite false m e
                           /\ (inject_Z (Zpos m) * pow2 e == inject_Z count)%Q
                           /\ e <= 0).
  { destruct Hc as [ -> | [ -> | -> ] ]; eexists; eexists; repeat split; discriminate. }
  destruct Hn as (m & e & En & Vn & He).
  pose proof (Prim2SF_valid p) as Vp.
  unfold nonneg, value in *. rewrite mul_spec, En. unfold SF64mul.
  destruct (Prim2SF p) as [s|s| |[] mp ep]; try contradiction.
  - cbn [SFmul SFval]. split; [ exact I | ].
    apply Qabs_Qle_condition. split; lra.
  - apply valid_finite in Vp. destruct Vp as [_ Hep].
    cbn [SFval] in Hlt |- *. rewrite Qmult_1_l in Hlt.
    destruct (@SFmul_bound m mp e ep K ltac:(lia) HK) as [Hr Hb].
    + rewrite Vn. exact Hlt.
    + split; [ exact Hr | ]. rewrite Vn in Hb. rewrite Qmult_1_l. exact Hb.
Qed.

(** [round(A / count, 2)] is within a cent of [A / count], and so are the
    payments multiplied out, in exact values and as floats multiply. *)
Lemma payment_value (A : float) (count : Z) :
  count = 12 \/ count = 4 \/ count = 1 ->
  nonneg A -> (value A <= pow2 40)%Q ->
  nonneg (Binary64.round2 (A / Binary64.of_int count))
  /\ nonneg (Binary64.of_int count * Binary64.round2 (A / Binary64.of_int count))
  /\ (Qabs (inject_Z count * value (Binary64.round2 (A / Binary64.of_int count)) - value A)
      <= inject_Z count * (1 # 100))%Q
  /\ (Qabs (value (Binary64.of_int count * Binary64.round2 (A / Binary64.of_int count))
            - value A)
      <= inject_Z count * (1 # 100))%Q.
Proof.
  intros Hc HA Hb. pose proof (@value_nonneg A HA) as H0.
  destruct (@div_count_value A count Hc HA Hb) as [Nq Hq].
  assert (H1 : (1 <= inject_Z count)%Q)
    by (destruct Hc as [ -> | [ -> | -> ] ]; discriminate).
  assert (H2 : (inject_Z count <= 12)%Q)
    by (destruct Hc as [ -> | [ -> | -> ] ]; discriminate).
  assert (H12 : (pow2 (-12) == 1 # 4096)%Q) by reflexivity.
  assert (H40 : (pow2 40 == 1099511627776)%Q) by reflexivity.
  assert (H41 : (pow2 41 == 2199023255552)%Q) by reflexivity.
  assert (Hdiv : (inject_Z count * (value A / inject_Z count) == value A)%Q).
  { apply Qmult_div_r. lra. }
  set (q := (value A / inject_Z count)%Q) in *.
  assert (Hqb : (q <= value A)%Q) by nra.
  apply Qabs_Qle_condition in Hq.
  destruct (@round2_value (A / Binary64.of_int count) Nq ltac:(lra)) as [Np Hp].
  apply Qabs_Qle_condition in Hp.
  set (p := Binary64.round2 (A / Binary64.of_int count)) in *.
  set (a := value (A / Binary64.of_int count)) in *.
  assert (Hsharp : (- (inject_Z count * ((1 # 200) + (6 # 4096)))
                    <= inject_Z count * value p - value A
                    <= inject_Z count * ((1 # 200) + (6 # 4096)))%Q) by (split; nra).
  destruct (@mul_count_value p count 41 Hc Np ltac:(lia) ltac:(nra)) as [Nm Hm].
  change (fexp prec emax 41) with (-12) in Hm. apply Qabs_Qle_condition in Hm.
  split; [ exact Np | ]. split; [ exact Nm | ].
  split; apply Qabs_Qle_condition; split; nra.
Qed.

(** A float between [0.0] and [2.0 ** 40]. *)
Lemma range_value (x : float) :
  PrimFloat.leb 0 x = true -> PrimFloat.leb x (Binary64.of_int (2 ^ 40)) = true ->
  nonneg x /\ (value x <= pow2 40)%Q.
Proof.
  intros H0 Hb.
  assert (Nb : nonneg (Binary64.of_int (2 ^ 40))) by exact I.
  assert (Vb : (value (Binary64.of_int (2 ^ 40)) == pow2 40)%Q) by reflexivity.
  pose proof (@nonneg_of_range x _ H0 Hb Nb) as Hn.
  split; [ exact Hn | ].
  apply (leb_value _ _ Hn Nb) in Hb. lra.
Qed.

(** *** The bracket walk on floats *)

(** The brackets above the lower bound [prev] are [10000.0] wide, all but
    the last, which has no upper bound. *)
Fixpoint table_widths (prev : float) (tbl : list (float * float)) : Prop :=
  match tbl with
  | [] => False
  | (l, _) :: rest =>
      match rest with
      | [] => PrimFloat.sub l prev = infinity
      | _ :: _ => PrimFloat.sub l prev = Binary64.of_int 10000 /\ table_widths l rest
      end
  end.

Lemma brackets_widths : table_widths 0 INCOME_TAX_BRACKETS.
Proof. repeat split. Qed.

(** The exact sum of the taxable amounts of a breakdown. *)
Definition amounts_total (bd : list (@bracket_entry float)) : Q :=
  fold_right Qplus 0%Q (map (fun en => value (taxable_amount en)) bd).

Lemma amounts_total_app (bd : list (@bracket_entry float)) (en : @bracket_entry float) :
  (amounts_total (bd ++ [en]) == amounts_total bd + value (taxable_amount en))%Q.
Proof.
  unfold amounts_total. induction bd as [|a bd IH]; cbn [app map fold_right].
  - ring.
  - rewrite IH. ring.
Qed.

Lemma sub_self_zero (x : float) : nonneg x -> PrimFloat.leb (x - x) 0 = true.
Proof.
  intros Hx. rewrite leb_spec, sub_spec, Binary64.Prim2SF_zero.
  destruct (SFsub_self _ Hx) as [s Hs]. unfold SF64sub. rewrite Hs.
  destruct s; reflexivity.
Qed.

Lemma sub_width_value (x : float) :
  nonneg x -> (value x <= pow2 40)%Q ->
  PrimFloat.ltb (Binary64.of_int 10000) x = true ->
  nonneg (x - Binary64.of_int 10000)
  /\ (Qabs (value (x - Binary64.of_int 10000) - (value x - 10000)) <= 3 * pow2 (-13))%Q.
Proof.
  intros Hx Hb Hlt.
  assert (NW : nonneg (Binary64.of_int 10000)) by exact I.
  assert (VW : (value (Binary64.of_int 10000) == 10000)%Q) by reflexivity.
  apply (ltb_value _ _ NW Hx) in Hlt. rewrite VW in Hlt.
  assert (H40 : (pow2 40 == 1099511627776)%Q) by reflexivity.
  pose proof (Prim2SF_valid x) as Vx.
  unfold nonneg, value in *. rewrite sub_spec. unfold SF64sub.
  destruct (Prim2SF x) as [s|s| |[] m e]; try contradiction.
  - cbn [SFval] in Hlt. lra.
  - apply valid_finite in Vx. destruct Vx as [_ He].
    cbn [SFval] in Hlt, Hb |- *. rewrite Qmult_1_l in Hlt, Hb.
    assert (EW : Prim2SF (Binary64.of_int 10000) = S754_finite false 5497558138880000 (-39))
      by reflexivity.
    assert (VW' : (inject_Z (Zpos 5497558138880000) * pow2 (-39) == 10000)%Q) by reflexivity.
    rewrite EW.
    destruct (@SFsub_bound m 5497558138880000 e (-39) 40 He ltac:(lia)) as [Hn Hd].
    + lra.
    + lra.
    + split; [ exact Hn | ]. rewrite VW' in Hd. rewrite Qmult_1_l. exact Hd.
Qed.

Lemma min_infinity (x : float) :
  nonneg x -> PrimFloat.ltb infinity x = false.
Proof.
  unfold nonneg. rewrite ltb_spec.
  destruct (Prim2SF x) as [s|s| |[] m e]; try contradiction; reflexivity.
Qed.

(** The loop on floats: what the entries it appends add up to differs from
    the remaining income by the rounding of the last amount and of one
    subtraction per bracket. *)
Lemma float_loop_amounts (tbl : list (float * float)) :
  forall st : @loop_state float,
    table_widths (st_previous_bracket_limit st) tbl ->
    nonneg (st_remaining_income st) ->
    (value (st_remaining_income st) <= pow2 40)%Q ->
    (Qabs (amounts_total (st_bracket_breakdown (bracket_loop tbl st))
           - amounts_total (st_bracket_breakdown st)
           - value (st_remaining_income st))
     <= (1 # 200) + (3 # 4096)
        + inject_Z (Z.of_nat (List.length tbl)) * (3 # 8192))%Q.
Proof.
  assert (H12 : (pow2 (-12) == 1 # 4096)%Q) by reflexivity.
  assert (H13 : (pow2 (-13) == 1 # 8192)%Q) by reflexivity.
  assert (H40 : (pow2 40 == 1099511627776)%Q) by reflexivity.
  induction tbl as [|[l r] rest IH]; intros st Hw Hn Hb; [ contradiction | ].
  assert (Hlen : (0 <= inject_Z (Z.of_nat (List.length rest)))%Q).
  { change 0%Q with (inject_Z 0). rewrite <- Zle_Qle. lia. }
  assert (Hcons : (inject_Z (Z.of_nat (List.length ((l, r) :: rest)))
                   == inject_Z (Z.of_nat (List.length rest)) + 1)%Q).
  { cbn [List.length]. rewrite Nat2Z.inj_succ. unfold Z.succ.
    rewrite inject_Z_plus. reflexivity. }
  rewrite Hcons. clear Hcons.
  pose proof (@value_nonneg _ Hn) as H0.
  cbn [bracket_loop].
  change (leb (st_remaining_income st) zero)
    with (PrimFloat.leb (st_remaining_income st) 0).
  destruct (PrimFloat.leb (st_remaining_income st) 0) eqn:Hbrk.
  - pose proof (@zero_of_nonneg _ Hn Hbrk) as Hz.
    apply Qabs_Qle_condition. split; lra.
  - set (rem := st_remaining_income st) in *.
    cbn [table_widths] in Hw. destruct rest as [|[l2 r2] rest'].
    + cbn [bracket_loop bracket_step st_bracket_breakdown].
      rewrite amounts_total_app. cbn [taxable_amount].
      change (sub l (st_previous_bracket_limit st))
        with (PrimFloat.sub l (st_previous_bracket_limit st)).
      rewrite Hw. unfold py_min.
      change (ltb infinity (st_remaining_income st)) with (PrimFloat.ltb infinity rem).
      rewrite (@min_infinity _ Hn). fold rem.
      destruct (@round2_value _ Hn ltac:(lra)) as [_ Hr].
      change (round2 rem) with (Binary64.round2 rem).
      apply Qabs_Qle_condition in Hr. apply Qabs_Qle_condition. split; lra.
    + destruct Hw as [Hw Hrest].
      assert (Hstep :
        st_bracket_breakdown (bracket_step st l r)
          = st_bracket_breakdown st ++
            [ {| bracket_min := st_previous_bracket_limit st;
                 bracket_max := if negb (eqb l inf) then Limit l else Unlimited;
                 rate := mul r (of_int 100);
                 taxable_amount :=
                   Binary64.round2 (if PrimFloat.ltb (Binary64.of_int 10000) rem
                                    then Binary64.of_int 10000 else rem);
                 tax_amount :=
                   round2 (mul (if PrimFloat.ltb (Binary64.of_int 10000) rem
                                then Binary64.of_int 10000 else rem) r) |} ]
        /\ st_remaining_income (bracket_step st l r)
           = PrimFloat.sub rem (if PrimFloat.ltb (Binary64.of_int 10000) rem
                                then Binary64.of_int 10000 else rem)
        /\ st_previous_bracket_limit (bracket_step st l r) = l).
      { cbn [bracket_step st_bracket_breakdown st_remaining_income
             st_previous_bracket_limit].
        change (sub l (st_previous_bracket_limit st))
          with (PrimFloat.sub l (st_previous_bracket_limit st)).
        rewrite Hw. repeat split. }
      destruct Hstep as (Hbd & Hrem & Hprev).
      destruct (PrimFloat.ltb (Binary64.of_int 10000) rem) eqn:Hlt.
      * destruct (@sub_width_value _ Hn Hb Hlt) as [Hn1 Hd].
        fold rem in Hd, Hn1. apply Qabs_Qle_condition in Hd.
        assert (Hb1 : (value (rem - Binary64.of_int 10000) <= pow2 40)%Q) by lra.
        specialize (IH (bracket_step st l r)).
        rewrite Hprev, Hrem, Hbd in IH. specialize (IH Hrest Hn1 Hb1).
        rewrite amounts_total_app in IH. cbn [taxable_amount] in IH.
        assert (VW : (value (Binary64.round2 (Binary64.of_int 10000)) == 10000)%Q)
          by reflexivity.
        rewrite VW in IH.
        apply Qabs_Qle_condition in IH. apply Qabs_Qle_condition. split; lra.
      * cbn [bracket_loop]. rewrite Hrem.
        change (leb (rem - rem)%float zero) with (PrimFloat.leb (rem - rem) 0).
        rewrite (@sub_self_zero _ Hn). cbv iota. rewrite Hbd, amounts_total_app.
        cbn [taxable_amount].
        destruct (@round2_value _ Hn ltac:(lra)) as [_ Hr]. fold rem in Hr.
        apply Qabs_Qle_condition in Hr. apply Qabs_Qle_condition. split; lra.
Qed.

(** The sum of two non-negative floats. *)
Lemma add_value (x y : float) (K : Z) :
  nonneg x -> nonneg y -> -1074 <= K <= 1022 ->
  (value x + value y < pow2 K)%Q ->
  nonneg (x + y)
  /\ (Qabs (value (x + y) - (value x + value y)) <= 3 * pow2 (fexp prec emax K))%Q.
Proof.
  intros Hx Hy HK Hlt. pose proof (pow2_pos (fexp prec emax K)) as Hp.
  pose proof (Prim2SF_valid x) as Vx.
  unfold nonneg, value in *. rewrite add_spec. unfold SF64add.
  destruct (Prim2SF x) as [sx|sx| |[] mx ex]; try contradiction;
    destruct (Prim2SF y) as [sy|sy| |[] my ey]; try contradiction.
  - cbn [SFadd]. split.
    + destruct sx, sy; exact I.
    + apply Qabs_Qle_condition. destruct sx, sy; cbn [SFval]; split; lra.
  - cbn [SFadd SFval]. split; [ exact I | ].
    apply Qabs_Qle_condition. split; lra.
  - cbn [SFadd SFval]. split; [ exact I | ].
    apply Qabs_Qle_condition. split; lra.
  - apply valid_finite in Vx. destruct Vx as [_ He].
    cbn [SFval] in Hlt |- *. rewrite !Qmult_1_l in Hlt.
    destruct (@SFadd_bound mx my ex ey K He HK Hlt) as [Hn Hb].
    split; [ exact Hn | ]. rewrite !Qmult_1_l. exact Hb.
Qed.

Lemma sum_taxable_amounts_app (bd : list (@bracket_entry float)) (en : @bracket_entry float) :
  sum_taxable_amounts (bd ++ [en])
  = PrimFloat.add (sum_taxable_amounts bd) (taxable_amount en).
Proof. unfold sum_taxable_amounts. rewrite map_app, fold_left_app. reflexivity. Qed.

(** The loop on floats, for the sum as the floats add up: the amounts of
    full brackets add up exactly, and the last amount adds one rounding. *)
Lemma float_loop_sum (tbl : list (float * float)) :
  forall (st : @loop_state float) (j : Z),
    table_widths (st_previous_bracket_limit st) tbl ->
    nonneg (st_remaining_income st) ->
    (value (st_remaining_income st) <= pow2 40)%Q ->
    0 <= j -> j + Z.of_nat (List.length tbl) <= 5 ->
    sum_taxable_amounts (st_bracket_breakdown st) = Binary64.of_int (10000 * j) ->
    nonneg (sum_taxable_amounts (st_bracket_breakdown (bracket_loop tbl st)))
    /\ (Qabs (value (sum_taxable_amounts (st_bracket_breakdown (bracket_loop tbl st)))
              - inject_Z (10000 * j) - value (st_remaining_income st))
        <= (1 # 200) + (6 # 4096)
           + inject_Z (Z.of_nat (List.length tbl)) * (3 # 8192))%Q.
Proof.
  assert (H12 : (pow2 (-12) == 1 # 4096)%Q) by reflexivity.
  assert (H13 : (pow2 (-13) == 1 # 8192)%Q) by reflexivity.
  assert (H40 : (pow2 40 == 1099511627776)%Q) by reflexivity.
  assert (H41 : (pow2 41 == 2199023255552)%Q) by reflexivity.
  induction tbl as [|[l r] rest IH]; intros st j Hw Hn Hb Hj Hlen5 Hsum;
    [ contradiction | ].
  assert (Hlen : (0 <= inject_Z (Z.of_nat (List.length rest)))%Q).
  { change 0%Q with (inject_Z 0). rewrite <- Zle_Qle. lia. }
  assert (Hcons : (inject_Z (Z.of_nat (List.length ((l, r) :: rest)))
                   == inject_Z (Z.of_nat (List.length rest)) + 1)%Q).
  { cbn [List.length]. rewrite Nat2Z.inj_succ. unfold Z.succ.
    rewrite inject_Z_plus. reflexivity. }
  rewrite Hcons. clear Hcons.
  assert (Hlen5' : j + Z.of_nat (List.length rest) <= 4)
    by (cbn [List.length] in Hlen5; lia).
  pose proof (@value_nonneg _ Hn) as H0.
  destruct (@of_int_value (10000 * j) ltac:(lia)) as [Nj Vj].
  assert (Hj4 : (inject_Z (10000 * j) <= 40000)%Q).
  { change 40000%Q with (inject_Z 40000). rewrite <- Zle_Qle. lia. }
  assert (Hj0 : (0 <= inject_Z (10000 * j))%Q).
  { change 0%Q with (inject_Z 0). rewrite <- Zle_Qle. lia. }
  assert (Hlast : forall en,
    taxable_amount en = Binary64.round2 (st_remaining_income st) ->
    nonneg (sum_taxable_amounts (st_bracket_breakdown st ++ [en]))
    /\ (Qabs (value (sum_taxable_amounts (st_bracket_breakdown st ++ [en]))
              - inject_Z (10000 * j) - value (st_remaining_income st))
        <= (1 # 200) + (6 # 4096))%Q).
  { intros en Hen. rewrite sum_taxable_amounts_app, Hsum, Hen.
    destruct (@round2_value _ Hn ltac:(lra)) as [Nr Hr].
    apply Qabs_Qle_condition in Hr.
    destruct (@add_value _ _ 41 Nj Nr ltac:(lia) ltac:(lra)) as [Ns Hs].
    change (fexp prec emax 41) with (-12) in Hs.
    split; [ exact Ns | ].
    apply Qabs_Qle_condition in Hs. apply Qabs_Qle_condition. split; lra. }
  cbn [bracket_loop].
  change (leb (st_remaining_income st) zero)
    with (PrimFloat.leb (st_remaining_income st) 0).
  destruct (PrimFloat.leb (st_remaining_income st) 0) eqn:Hbrk.
  - pose proof (@zero_of_nonneg _ Hn Hbrk) as Hz. rewrite Hsum.
    split; [ exact Nj | ]. apply Qabs_Qle_condition. split; lra.
  - set (rem := st_remaining_income st) in *.
    cbn [table_widths] in Hw. destruct rest as [|[l2 r2] rest'].
    + cbn [bracket_loop bracket_step st_bracket_breakdown].
      match goal with
      | |- context [ ?bd ++ [ ?en ] ] => destruct (Hlast en) as [Ns Hs]
      end.
      { cbn [taxable_amount].
        change (sub l (st_previous_bracket_limit st))
          with (PrimFloat.sub l (st_previous_bracket_limit st)).
        rewrite Hw. unfold py_min.
        change (ltb infinity (st_remaining_income st)) with (PrimFloat.ltb infinity rem).
        rewrite (@min_infinity _ Hn). reflexivity. }
      split; [ exact Ns | ].
      apply Qabs_Qle_condition in Hs. apply Qabs_Qle_condition. split; lra.
    + destruct Hw as [Hw Hrest].
      assert (Hstep :
        st_bracket_breakdown (bracket_step st l r)
          = st_bracket_breakdown st ++
            [ {| bracket_min := st_previous_bracket_limit st;
                 bracket_max := if negb (eqb l inf) then Limit l else Unlimited;
                 rate := mul r (of_int 100);
                 taxable_amount :=
                   Binary64.round2 (if PrimFloat.ltb (Binary64.of_int 10000) rem
                                    then Binary64.of_int 10000 else rem);
                 tax_amount :=
                   round2 (mul (if PrimFloat.ltb (Binary64.of_int 10000) rem
                                then Binary64.of_int 10000 else rem) r) |} ]
        /\ st_remaining_income (bracket_step st l r)
           = PrimFloat.sub rem (if PrimFloat.ltb (Binary64.of_int 10000) rem
                                then Binary64.of_int 10000 else rem)
        /\ st_previous_bracket_limit (bracket_step st l r) = l).
      { cbn [bracket_step st_bracket_breakdown st_remaining_income
             st_previous_bracket_limit].
        change (sub l (st_previous_bracket_limit st))
          with (PrimFloat.sub l (st_previous_bracket_limit st)).
        rewrite Hw. repeat split. }
      destruct Hstep as (Hbd & Hrem & Hprev).
      destruct (PrimFloat.ltb (Binary64.of_int 10000) rem) eqn:Hlt.
      * destruct (@sub_width_value _ Hn Hb Hlt) as [Hn1 Hd].
        fold rem in Hd, Hn1. apply Qabs_Qle_condition in Hd.
        assert (Hb1 : (value (rem - Binary64.of_int 10000) <= pow2 40)%Q) by lra.
        specialize (IH (bracket_step st l r) (j + 1)).
        rewrite Hprev, Hrem, Hbd in IH.
        assert (Hsum1 :
          sum_taxable_amounts
            (st_bracket_breakdown st ++
             [ {| bracket_min := st_previous_bracket_limit st;
                  bracket_max := if negb (eqb l inf) then Limit l else Unlimited;
                  rate := mul r (of_int 100);
                  taxable_amount := Binary64.round2 (Binary64.of_int 10000);
                  tax_amount := round2 (mul (Binary64.of_int 10000) r) |} ])
          = Binary64.of_int (10000 * (j + 1))).
        { rewrite sum_taxable_amounts_app, Hsum. cbn [taxable_amount].
          cbn [List.length] in Hlen5.
          assert (Hj' : j = 0 \/ j = 1 \/ j = 2 \/ j = 3) by lia.
          destruct Hj' as [ -> | [ -> | [ -> | -> ] ] ]; reflexivity. }
        destruct (IH Hrest Hn1 Hb1 ltac:(lia) ltac:(cbn [List.length] in *; lia) Hsum1)
          as [Ns Hs].
        split; [ exact Ns | ].
        assert (Vj1 : (inject_Z (10000 * (j + 1)) == inject_Z (10000 * j) + 10000)%Q).
        { replace (10000 * (j + 1)) with (10000 * j + 10000) by lia.
          rewrite inject_Z_plus. reflexivity. }
        rewrite Vj1 in Hs.
        apply Qabs_Qle_condition in Hs. apply Qabs_Qle_condition. split; lra.
      * cbn [bracket_loop]. rewrite Hrem.
        change (leb (rem - rem)%float zero) with (PrimFloat.leb (rem - rem) 0).
        rewrite (@sub_self_zero _ Hn). cbv iota. rewrite Hbd.
        match goal with
        | |- context [ ?bd ++ [ ?en ] ] => destruct (Hlast en) as [Ns Hs]
        end.
        { reflexivity. }
        split; [ exact Ns | ].
        apply Qabs_Qle_condition in Hs. apply Qabs_Qle_condition. split; lra.
Qed.

(** Every taxable amount the loop records is a finite float, not negative. *)
Lemma float_loop_finite (tbl : list (float * float)) :
  forall st : @loop_state float,
    table_widths (st_previous_bracket_limit st) tbl ->
    nonneg (st_remaining_income st) ->
    (value (st_remaining_income st) <= pow2 40)%Q ->
    Forall (fun en => nonneg (taxable_amount en)) (st_bracket_breakdown st) ->
    Forall (fun en => nonneg (taxable_amount en))
           (st_bracket_breakdown (bracket_loop tbl st)).
Proof.
  assert (H13 : (pow2 (-13) == 1 # 8192)%Q) by reflexivity.
  assert (H40 : (pow2 40 == 1099511627776)%Q) by reflexivity.
  induction tbl as [|[l r] rest IH]; intros st Hw Hn Hb Hall; [ contradiction | ].
  cbn [bracket_loop].
  change (leb (st_remaining_income st) zero)
    with (PrimFloat.leb (st_remaining_income st) 0).
  destruct (PrimFloat.leb (st_remaining_income st) 0) eqn:Hbrk; [ exact Hall | ].
  set (rem := st_remaining_income st) in *.
  destruct (@round2_value _ Hn ltac:(lra)) as [Nr _].
  cbn [table_widths] in Hw. destruct rest as [|[l2 r2] rest'].
  - cbn [bracket_loop bracket_step st_bracket_breakdown].
    apply Forall_app. split; [ exact Hall | ]. constructor; [ | constructor ].
    cbn [taxable_amount].
    change (sub l (st_previous_bracket_limit st))
      with (PrimFloat.sub l (st_previous_bracket_limit st)).
    rewrite Hw. unfold py_min.
    change (ltb infinity (st_remaining_income st)) with (PrimFloat.ltb infinity rem).
    rewrite (@min_infinity _ Hn). exact Nr.
  - destruct Hw as [Hw Hrest]. apply IH.
    + cbn [bracket_step st_previous_bracket_limit]. exact Hrest.
    + cbn [bracket_step st_remaining_income].
      change (sub l (st_previous_bracket_limit st))
        with (PrimFloat.sub l (st_previous_bracket_limit st)).
      rewrite Hw. unfold py_min.
      change (ltb (Binary64.of_int 10000) (st_remaining_income st))
        with (PrimFloat.ltb (Binary64.of_int 10000) rem).
      destruct (PrimFloat.ltb (Binary64.of_int 10000) rem) eqn:Hlt.
      * exact (proj1 (@sub_width_value _ Hn Hb Hlt)).
      * unfold nonneg. change (sub (st_remaining_income st) (st_remaining_income st))
          with (PrimFloat.sub rem rem).
        rewrite sub_spec. destruct (SFsub_self _ Hn) as [s Hs].
        unfold SF64sub. rewrite Hs. exact I.
    + cbn [bracket_step st_remaining_income].
      change (sub l (st_previous_bracket_limit st))
        with (PrimFloat.sub l (st_previous_bracket_limit st)).
      rewrite Hw. unfold py_min.
      change (ltb (Binary64.of_int 10000) (st_remaining_income st))
        with (PrimFloat.ltb (Binary64.of_int 10000) rem).
      destruct (PrimFloat.ltb (Binary64.of_int 10000) rem) eqn:Hlt.
      * destruct (@sub_width_value _ Hn Hb Hlt) as [_ Hd]. fold rem in Hd.
        apply Qabs_Qle_condition in Hd.
        assert (Hlt' : (10000 < value rem)%Q).
        { apply (ltb_value (Binary64.of_int 10000) rem I Hn) in Hlt.
          assert (VW : (value (Binary64.of_int 10000) == 10000)%Q) by reflexivity.
          lra. }
        change (sub (st_remaining_income st) (Binary64.of_int 10000))
          with (PrimFloat.sub rem (Binary64.of_int 10000)). lra.
      * change (sub (st_remaining_income st) (st_remaining_income st))
          with (PrimFloat.sub rem rem).
        unfold value. rewrite sub_spec. destruct (SFsub_self _ Hn) as [s Hs].
        unfold SF64sub. rewrite Hs. cbn [SFval]. rewrite H40. discriminate.
    + cbn [bracket_step st_bracket_breakdown].
      apply Forall_app. split; [ exact Hall | ]. constructor; [ | constructor ].
      cbn [taxable_amount].
      change (sub l (st_previous_bracket_limit st))
        with (PrimFloat.sub l (st_previous_bracket_limit st)).
      rewrite Hw. unfold py_min.
      change (ltb (Binary64.of_int 10000) (st_remaining_income st))
        with (PrimFloat.ltb (Binary64.of_int 10000) rem).
      destruct (PrimFloat.ltb (Binary64.of_int 10000) rem); [ exact I | exact Nr ].
Qed.

(** The taxable amounts of the breakdown of an income up to [2.0 ** 40]
    are finite and add up to the income within a cent, in exact values and
    as floats add. *)
Lemma float_breakdown_sum (T : float) :
  PrimFloat.leb 0 T = true -> PrimFloat.leb T (Binary64.of_int (2 ^ 40)) = true ->
  exists r,
    calculate_income_tax T = ret r
    /\ Forall (fun en => nonneg (taxable_amount en)) (bracket_breakdown r)
    /\ nonneg (sum_taxable_amounts (bracket_breakdown r))
    /\ (Qabs (amounts_total (bracket_breakdown r) - value T) <= 1 # 100)%Q
    /\ (Qabs (value (sum_taxable_amounts (bracket_breakdown r)) - value T) <= 1 # 100)%Q.
Proof.
  intros H0 Hb. destruct (range_value H0 Hb) as [Hn Hv].
  destruct (PrimFloat.leb T 0) eqn:Hz.
  - exists {| total_tax := zero; effective_rate := zero; bracket_breakdown := [] |}.
    split; [ apply (@calculate_income_tax_nonpositive float Binary64.binary64 T Hz) | ].
    pose proof (@zero_of_nonneg _ Hn Hz) as HT.
    cbn [bracket_breakdown]. change (amounts_total []) with 0%Q.
    change (value (sum_taxable_amounts [])) with 0%Q.
    split; [ constructor | ]. split; [ exact I | ].
    split; apply Qabs_Qle_condition; split; lra.
  - assert (Hpos : PrimFloat.ltb 0 T = true).
    { destruct (@positive_of_nonneg _ Hn Hz) as (m & e & E).
      rewrite ltb_spec, E. reflexivity. }
    rewrite (@calculate_income_tax_loop float Binary64.binary64 T Hpos). eexists. split; [ reflexivity | ].
    cbv zeta. cbn [bracket_breakdown].
    pose proof (@float_loop_amounts INCOME_TAX_BRACKETS (init_state T)
                  brackets_widths Hn Hv) as Ha.
    assert (H5 : 0 + Z.of_nat (List.length (@INCOME_TAX_BRACKETS float _)) <= 5)
      by (cbn; lia).
    pose proof (@float_loop_sum INCOME_TAX_BRACKETS (init_state T) 0
                  brackets_widths Hn Hv (Z.le_refl 0) H5 eq_refl) as [Ns Hs].
    pose proof (@float_loop_finite INCOME_TAX_BRACKETS (init_state T)
                  brackets_widths Hn Hv (Forall_nil _)) as Hfin.
    change (st_bracket_breakdown (init_state T)) with (@nil (@bracket_entry float)) in Ha.
    change (st_remaining_income (init_state T)) with T in Ha, Hs.
    change (amounts_total []) with 0%Q in Ha.
    change (inject_Z (Z.of_nat (List.length INCOME_TAX_BRACKETS))) with 5%Q in Ha, Hs.
    change (inject_Z (10000 * 0)) with 0%Q in Hs.
    apply Qabs_Qle_condition in Ha. apply Qabs_Qle_condition in Hs.
    split; [ exact Hfin | ]. split; [ exact Ns | ].
    split; apply Qabs_Qle_condition; split; lra.
Qed.

End Rounding.

(** ** Rounding to nearest on binary64, and its monotonicity

    Each operation of the engine returns the float nearest to its exact
    result, ties to even.  This module derives that from the definitions
    of [SpecFloat], and from it that the operations, [round(x, 2)] and the
    bracket loop are monotone. *)

Module Nearest.

Import Rounding.

(** *** Where a value lies in a slot of the grid *)

(** [v] lies in the slot from [m * 2^e] to [(m + 1) * 2^e], at the place
    [l]: at its lower end, below, at or above its middle. *)
Definition located (m e : Z) (l : location) (v : Q) : Prop :=
  match l with
  | loc_Exact => (v == inject_Z m * pow2 e)%Q
  | loc_Inexact Lt =>
      (inject_Z m * pow2 e < v)%Q /\ (2 * v < (2 * inject_Z m + 1) * pow2 e)%Q
  | loc_Inexact Eq => (2 * v == (2 * inject_Z m + 1) * pow2 e)%Q
  | loc_Inexact Gt =>
      ((2 * inject_Z m + 1) * pow2 e < 2 * v)%Q /\ (v < (inject_Z m + 1) * pow2 e)%Q
  end.

Lemma inject_Z_xO (p : positive) : (inject_Z (Zpos p~0) == 2 * inject_Z (Zpos p))%Q.
Proof. rewrite Pos2Z.inj_xO, inject_Z_mult. reflexivity. Qed.

Lemma inject_Z_xI (p : positive) : (inject_Z (Zpos p~1) == 2 * inject_Z (Zpos p) + 1)%Q.
Proof. rewrite Pos2Z.inj_xI, inject_Z_plus, inject_Z_mult. reflexivity. Qed.

(** One shift to the right keeps the value located. *)
Lemma shr_1_located (mrs : shr_record) (e : Z) (v : Q) :
  0 <= shr_m mrs ->
  located (shr_m mrs) e (loc_of_shr_record mrs) v ->
  located (shr_m (shr_1 mrs)) (e + 1) (loc_of_shr_record (shr_1 mrs)) v.
Proof.
  destruct mrs as [m r s]. cbn [shr_m]. intros Hm.
  pose proof (pow2_pos e) as Hp. pose proof (pow2_succ e) as Hs.
  destruct m as [|p|p]; [ | | lia ].
  - destruct r, s; cbn; change (inject_Z 0) with 0%Q; rewrite Hs; intros H;
      try split; lra.
  - destruct p as [p|p|].
    + pose proof (inject_Z_xI p) as Hx.
      destruct r, s; cbn [shr_1 loc_of_shr_record located shr_m orb];
        rewrite Hx, Hs; intros H; try split; lra.
    + pose proof (inject_Z_xO p) as Hx.
      destruct r, s; cbn [shr_1 loc_of_shr_record located shr_m orb];
        rewrite Hx, Hs; intros H; try split; lra.
    + destruct r, s; cbn [shr_1 loc_of_shr_record located shr_m orb];
        change (inject_Z 1) with 1%Q; change (inject_Z 0) with 0%Q; rewrite Hs;
        intros H; try split; lra.
Qed.

Lemma located_exponent (m e e' : Z) (l : location) (v : Q) :
  e = e' -> located m e l v -> located m e' l v.
Proof. intros ->. exact (fun H => H). Qed.

Lemma iter_pos_located (p : positive) :
  forall (mrs : shr_record) (e : Z) (v : Q),
    0 <= shr_m mrs ->
    located (shr_m mrs) e (loc_of_shr_record mrs) v ->
    located (shr_m (iter_pos shr_1 p mrs)) (e + Zpos p)
            (loc_of_shr_record (iter_pos shr_1 p mrs)) v.
Proof.
  induction p as [p IH|p IH|]; intros mrs e v Hm H; cbn [iter_pos].
  - apply (@located_exponent _ (e + 1 + Zpos p + Zpos p)); [ lia | ].
    apply IH; [ apply Binary64.iter_shr_1_nonneg, Binary64.shr_1_nonneg, Hm | ].
    apply IH; [ apply Binary64.shr_1_nonneg, Hm | ].
    apply shr_1_located; assumption.
  - apply (@located_exponent _ (e + Zpos p + Zpos p)); [ lia | ].
    apply IH; [ apply Binary64.iter_shr_1_nonneg, Hm | ].
    apply IH; assumption.
  - apply shr_1_located; assumption.
Qed.

(** [shr_fexp] brings the exponent up to the one of the format, and keeps
    the value located. *)
Lemma shr_fexp_located (m e : Z) (l : location) (v : Q) :
  0 <= m -> located m e l v ->
  e <= fexp prec emax (Zdigits2 m + e) ->
  exists mrs,
    shr_fexp prec emax m e l = (mrs, fexp prec emax (Zdigits2 m + e))
    /\ shr_m mrs = m / 2 ^ (fexp prec emax (Zdigits2 m + e) - e)
    /\ located (shr_m mrs) (fexp prec emax (Zdigits2 m + e)) (loc_of_shr_record mrs) v.
Proof.
  intros Hm Hl He. unfold shr_fexp, shr.
  set (E := fexp prec emax (Zdigits2 m + e)) in *.
  destruct (E - e) as [|p|p] eqn:En; [ | | lia ].
  - exists (shr_record_of_loc m l). assert (He' : e = E) by lia.
    rewrite Binary64.shr_record_of_loc_m, loc_of_shr_record_of_loc.
    split; [ f_equal; exact He' | ].
    split; [ rewrite Z.div_1_r; reflexivity | ].
    apply (@located_exponent _ e); assumption.
  - exists (iter_pos shr_1 p (shr_record_of_loc m l)).
    assert (Hm' : 0 <= shr_m (shr_record_of_loc m l))
      by (rewrite Binary64.shr_record_of_loc_m; exact Hm).
    split; [ f_equal; lia | ]. split.
    + rewrite iter_pos_shr by exact Hm'. rewrite Binary64.shr_record_of_loc_m. reflexivity.
    + apply (@located_exponent _ (e + Zpos p)); [ lia | ].
      apply iter_pos_located; [ exact Hm' | ].
      rewrite Binary64.shr_record_of_loc_m, loc_of_shr_record_of_loc. exact Hl.
Qed.

(** *** Rounding to nearest, ties to even *)

(** [N * 2^e] is a multiple of [2^e] nearest to [v], the even one of the
    two when [v] is half way. *)
Definition nearest_even (N e : Z) (v : Q) : Prop :=
  (2 * (inject_Z N * pow2 e - v) <= pow2 e)%Q
  /\ (2 * (v - inject_Z N * pow2 e) <= pow2 e)%Q
  /\ ((2 * (inject_Z N * pow2 e - v) == pow2 e)%Q
      \/ (2 * (v - inject_Z N * pow2 e) == pow2 e)%Q -> Z.even N = true).

Lemma round_located (m e : Z) (l : location) (v : Q) :
  located m e l v -> nearest_even (round_nearest_even m l) e v.
Proof.
  pose proof (pow2_pos e) as Hp. unfold nearest_even.
  destruct l as [|[]]; cbn [located round_nearest_even]; intros H.
  - repeat split; first [ lra | intros [T|T]; lra ].
  - destruct (Z.even m) eqn:Ev.
    + repeat split; try lra. intros _. exact Ev.
    + rewrite inject_Z_plus. change (inject_Z 1) with 1%Q.
      repeat split; try lra. intros _.
      rewrite Z.even_add, Ev. reflexivity.
  - repeat split; first [ lra | intros [T|T]; lra ].
  - rewrite inject_Z_plus. change (inject_Z 1) with 1%Q.
    repeat split; first [ lra | intros [T|T]; lra ].
Qed.

(** Rounding on one grid is monotone. *)
Lemma nearest_even_mono (N1 N2 e : Z) (v1 v2 : Q) :
  (v1 <= v2)%Q -> nearest_even N1 e v1 -> nearest_even N2 e v2 -> N1 <= N2.
Proof.
  intros Hv (A1 & B1 & T1) (A2 & B2 & T2). pose proof (pow2_pos e) as Hp.
  destruct (Z_le_gt_dec N1 N2) as [Hle|Hgt]; [ exact Hle | exfalso ].
  assert (Hq : (inject_Z N2 + 1 <= inject_Z N1)%Q).
  { change 1%Q with (inject_Z 1). rewrite <- inject_Z_plus, <- Zle_Qle. lia. }
  assert (Hx : (inject_Z N2 * pow2 e + pow2 e <= inject_Z N1 * pow2 e)%Q) by nra.
  assert (E1 : Z.even N1 = true) by (apply T1; left; lra).
  assert (E2 : Z.even N2 = true) by (apply T2; right; lra).
  assert (Hle : N1 <= N2 + 1).
  { destruct (Z_le_gt_dec N1 (N2 + 1)) as [H|H]; [ exact H | exfalso ].
    assert (Hq2 : (inject_Z N2 + 2 <= inject_Z N1)%Q).
    { change 2%Q with (inject_Z 2). rewrite <- inject_Z_plus, <- Zle_Qle. lia. }
    nra. }
  assert (N1 = N2 + 1) by lia. subst N1.
  rewrite Z.even_add, E2 in E1. discriminate.
Qed.

(** *** The rounding of [binary_round_aux] *)

(** [r] is the float of value [N * 2^E], or the infinity when that is
    beyond the largest float. *)
Definition rounded (N E : Z) (r : spec_float) : Prop :=
  ((inject_Z N * pow2 E < pow2 1024)%Q
   /\ nonneg_finite r /\ (SFval r == inject_Z N * pow2 E)%Q)
  \/ ((pow2 1024 <= inject_Z N * pow2 E)%Q /\ r = S754_infinity false).

Lemma fexp_eq (d : Z) : fexp prec emax d = Z.max (d - 53) (-1074).
Proof. reflexivity. Qed.

(** The mantissa shifted to the exponent of the format. *)
Lemma shifted_mantissa (mx n : Z) :
  0 < mx -> 0 <= n ->
  0 <= mx / 2 ^ n
  /\ (n <= Zdigits2 mx -> mx / 2 ^ n < 2 ^ (Zdigits2 mx - n))
  /\ (n <= Zdigits2 mx - 1 -> 2 ^ (Zdigits2 mx - 1 - n) <= mx / 2 ^ n)
  /\ (Zdigits2 mx <= n -> mx / 2 ^ n = 0).
Proof.
  intros Hm Hn. pose proof (@Zdigits2_bounds mx Hm) as [Hlo Hhi].
  assert (Hp : 0 < 2 ^ n) by (apply Z.pow_pos_nonneg; lia).
  split; [ apply Z.div_pos; lia | ]. split; [ | split ].
  - intros H. apply Z.div_lt_upper_bound; [ exact Hp | ].
    rewrite <- Z.pow_add_r by lia. replace (n + (Zdigits2 mx - n)) with (Zdigits2 mx) by lia.
    exact Hhi.
  - intros H. apply Z.div_le_lower_bound; [ exact Hp | ].
    rewrite <- Z.pow_add_r by lia.
    replace (n + (Zdigits2 mx - 1 - n)) with (Zdigits2 mx - 1) by lia. exact Hlo.
  - intros H. apply Z.div_small. split; [ lia | ].
    eapply Z.lt_le_trans; [ exact Hhi | apply Z.pow_le_mono_r; lia ].
Qed.

Lemma pow2_Z_lt (N k E K : Z) :
  0 <= k -> N < 2 ^ k -> k + E <= K -> (inject_Z N * pow2 E < pow2 K)%Q.
Proof.
  intros Hk HN HK. rewrite Zlt_Qlt, <- (@pow2_nonneg k) in HN by exact Hk.
  pose proof (pow2_pos E) as Hp. pose proof (@pow2_le _ _ HK) as Hle.
  rewrite pow2_add in Hle. nra.
Qed.

Lemma pow2_Z_le (N k E K : Z) :
  0 <= k -> 2 ^ k <= N -> K <= k + E -> (pow2 K <= inject_Z N * pow2 E)%Q.
Proof.
  intros Hk HN HK. rewrite Zle_Qle, <- (@pow2_nonneg k) in HN by exact Hk.
  pose proof (pow2_pos E) as Hp. pose proof (@pow2_le _ _ HK) as Hle.
  rewrite pow2_add in Hle. pose proof (pow2_pos k). nra.
Qed.

(** [binary_round_aux] rounds a located positive value to nearest, ties to
    even, on the grid of the exponent of the format. *)
Lemma binary_round_aux_nearest (mx ex : Z) (lx : location) (v : Q) :
  0 < mx -> located mx ex lx v ->
  ex <= fexp prec emax (Zdigits2 mx + ex) ->
  exists N,
    0 <= N
    /\ nearest_even N (fexp prec emax (Zdigits2 mx + ex)) v
    /\ rounded N (fexp prec emax (Zdigits2 mx + ex))
         (binary_round_aux prec emax false mx ex lx).
Proof.
  intros Hmx Hl He.
  destruct (@shr_fexp_located mx ex lx v ltac:(lia) Hl He) as (mrs' & E1 & Hm' & Hl').
  set (d := Zdigits2 mx + ex) in *. set (E := fexp prec emax d) in *.
  assert (HE : E = Z.max (d - 53) (-1074)) by apply fexp_eq.
  destruct (@shifted_mantissa mx (E - ex) Hmx ltac:(lia)) as (F1 & F2 & F3 & F4).
  rewrite <- Hm' in F1, F2, F3, F4.
  pose proof (round_located _ _ _ _ Hl') as Hne.
  pose proof (round_nearest_even_cases (shr_m mrs') (loc_of_shr_record mrs')) as [Hr _].
  set (N := round_nearest_even (shr_m mrs') (loc_of_shr_record mrs')) in *.
  assert (HN : 0 <= N) by lia.
  exists N. split; [ exact HN | ]. split; [ exact Hne | ].
  unfold binary_round_aux. rewrite E1. fold N.
  destruct (@shr_fexp_cases N E loc_Exact HN) as [[Hn E2]|[Hn (mrs'' & E2 & Hm'')]];
    rewrite E2.
  - rewrite Binary64.shr_record_of_loc_m.
    rewrite fexp_eq in Hn. destruct N as [|p|p] eqn:EN; [ | | lia ].
    + left. split; [ rewrite Qmult_0_l; apply pow2_pos | ].
      split; [ exact I | cbn [SFval]; ring ].
    + assert (Hd53 : Zdigits2 (Zpos p) <= 53) by lia.
      pose proof (@Zdigits2_bounds (Zpos p) ltac:(lia)) as [_ Hhi].
      assert (Hp53 : Zpos p < 2 ^ 53).
      { eapply Z.lt_le_trans; [ exact Hhi | apply Z.pow_le_mono_r; lia ]. }
      destruct (E <=? emax - prec) eqn:Ele.
      * apply Z.leb_le in Ele. unfold emax, prec in Ele. left.
        split; [ apply (@pow2_Z_lt _ 53); [ lia | exact Hp53 | lia ] | ].
        split; [ exact I | cbn [SFval]; ring ].
      * apply Z.leb_gt in Ele. unfold emax, prec in Ele. right.
        split; [ | reflexivity ].
        apply (@pow2_Z_le _ 52); [ lia | | lia ].
        assert (H52 : 2 ^ 52 <= shr_m mrs').
        { replace 52 with (Zdigits2 mx - 1 - (E - ex)) by (unfold d in *; lia).
          apply F3. unfold d in *. lia. }
        lia.
  - assert (Hgt : d < Zdigits2 N + E).
    { destruct (Z_lt_le_dec d (Zdigits2 N + E)) as [H|H]; [ exact H | exfalso ].
      pose proof (@fexp_mono _ _ H). fold E in H0. lia. }
    assert (HdE : E <= d).
    { destruct (Z_le_gt_dec E d) as [H|H]; [ exact H | exfalso ].
      assert (Hz : shr_m mrs' = 0) by (apply F4; unfold d in *; lia).
      assert (HN1 : Zdigits2 N <= 1) by (apply Zdigits2_le; lia).
      rewrite fexp_eq in Hn. lia. }
    assert (HNle : N <= 2 ^ (d - E)).
    { assert (shr_m mrs' < 2 ^ (Zdigits2 mx - (E - ex))) by (apply F2; unfold d in *; lia).
      replace (Zdigits2 mx - (E - ex)) with (d - E) in H by (unfold d; lia). lia. }
    assert (HNeq : N = 2 ^ (d - E)).
    { destruct (Z.eq_dec N (2 ^ (d - E))) as [H|H]; [ exact H | exfalso ].
      assert (Zdigits2 N <= d - E) by (apply Zdigits2_le; lia). lia. }
    assert (HdN : Zdigits2 N <= d - E + 1).
    { apply Zdigits2_le; [ lia | ]. split; [ lia | ].
      rewrite HNeq. apply Z.pow_lt_mono_r; lia. }
    assert (H53 : d - E = 53 /\ fexp prec emax (Zdigits2 N + E) - E = 1).
    { rewrite fexp_eq in Hn |- *. lia. }
    destruct H53 as [H53 Hn1]. rewrite Hn1 in *. rewrite H53 in HNeq.
    rewrite Hm'', HNeq. change (2 ^ 53 / 2 ^ 1) with 4503599627370496.
    assert (Hval : (inject_Z 4503599627370496 * pow2 (E + 1)
                    == inject_Z (2 ^ 53) * pow2 E)%Q).
    { rewrite pow2_succ. change (inject_Z (2 ^ 53)) with (2 * inject_Z 4503599627370496)%Q.
      ring. }
    destruct (E + 1 <=? emax - prec) eqn:Ele.
    + apply Z.leb_le in Ele. unfold emax, prec in Ele. left.
      split; [ apply (@pow2_Z_lt _ 54); [ lia | reflexivity | lia ] | ].
      split; [ exact I | ]. cbn [SFval]. rewrite Qmult_1_l. exact Hval.
    + apply Z.leb_gt in Ele. unfold emax, prec in Ele. right.
      split; [ | reflexivity ].
      apply (@pow2_Z_le _ 53); [ lia | lia | lia ].
Qed.

Lemma located_bounds (m e : Z) (l : location) (v : Q) :
  located m e l v ->
  (inject_Z m * pow2 e <= v)%Q /\ (v < (inject_Z m + 1) * pow2 e)%Q.
Proof.
  pose proof (pow2_pos e) as Hp.
  destruct l as [|[]]; cbn [located]; intros H; split; lra.
Qed.

(** [r] is the float that the positive value [v] rounds to: with [d] the
    number of binary digits of [v], the multiple of [2^(fexp d)] nearest
    to [v], ties to even. *)
Definition rounds_to (v : Q) (r : spec_float) : Prop :=
  exists d N,
    (pow2 (d - 1) <= v)%Q /\ (v < pow2 d)%Q
    /\ 0 <= N
    /\ nearest_even N (fexp prec emax d) v
    /\ rounded N (fexp prec emax d) r.

Lemma digits_of_located (mx ex : Z) (lx : location) (v : Q) :
  0 < mx -> located mx ex lx v ->
  (pow2 (Zdigits2 mx + ex - 1) <= v)%Q /\ (v < pow2 (Zdigits2 mx + ex))%Q.
Proof.
  intros Hm Hl. apply located_bounds in Hl. destruct Hl as [Hlo Hhi].
  pose proof (@Zdigits2_bounds mx Hm) as [Dlo Dhi].
  pose proof (pow2_pos ex) as Hp.
  assert (H1 : 0 <= Zdigits2 mx - 1) by (destruct mx; cbn [Zdigits2]; lia).
  rewrite Zle_Qle, <- (@pow2_nonneg _ H1) in Dlo.
  assert (Dhi' : mx + 1 <= 2 ^ Zdigits2 mx) by lia.
  rewrite Zle_Qle, <- (@pow2_nonneg _ (Zdigits2_nonneg mx)), inject_Z_plus in Dhi'.
  change (inject_Z 1) with 1%Q in Dhi'.
  replace (Zdigits2 mx + ex - 1) with (Zdigits2 mx - 1 + ex) by lia.
  rewrite !pow2_add. split; nra.
Qed.

Lemma binary_round_aux_rounds (mx ex : Z) (lx : location) (v : Q) :
  0 < mx -> located mx ex lx v ->
  ex <= fexp prec emax (Zdigits2 mx + ex) ->
  rounds_to v (binary_round_aux prec emax false mx ex lx).
Proof.
  intros Hm Hl He.
  destruct (@binary_round_aux_nearest mx ex lx v Hm Hl He) as (N & HN & Hne & Hr).
  destruct (@digits_of_located mx ex lx v Hm Hl) as [Hlo Hhi].
  exists (Zdigits2 mx + ex), N.
  split; [ exact Hlo | ]. split; [ exact Hhi | ]. split; [ exact HN | ].
  split; [ exact Hne | exact Hr ].
Qed.

(** A float of the format rounds to itself. *)
Lemma rounds_to_exact (mx : positive) (ex E : Z) :
  E = fexp prec emax (Zpos (digits2_pos mx) + ex) -> E <= ex -> ex <= 971 ->
  rounds_to (inject_Z (Zpos mx) * pow2 ex) (S754_finite false mx ex).
Proof.
  intros HE He Hx.
  assert (Hl : located (Zpos mx) ex loc_Exact (inject_Z (Zpos mx) * pow2 ex))
    by (cbn; reflexivity).
  destruct (@digits_of_located (Zpos mx) ex loc_Exact _ ltac:(lia) Hl) as [Hlo Hhi].
  cbn [Zdigits2] in Hlo, Hhi. set (d := Zpos (digits2_pos mx) + ex) in *.
  assert (Hk : 0 <= ex - E) by lia.
  assert (Hv : (inject_Z (Zpos mx * 2 ^ (ex - E)) * pow2 E
                == inject_Z (Zpos mx) * pow2 ex)%Q).
  { rewrite inject_Z_mult, <- (@pow2_nonneg _ Hk).
    replace ex with (ex - E + E) at 2 by lia. rewrite pow2_add. ring. }
  pose proof (pow2_pos E) as HpE.
  exists d, (Zpos mx * 2 ^ (ex - E)). rewrite <- HE.
  split; [ exact Hlo | ]. split; [ exact Hhi | ].
  split; [ apply Z.mul_nonneg_nonneg; [ lia | apply Z.pow_nonneg; lia ] | ].
  split.
  - unfold nearest_even. rewrite Hv. repeat split; first [ lra | intros [T|T]; lra ].
  - left. rewrite Hv. split; [ | split; [ exact I | cbn [SFval]; ring ] ].
    assert (Hd : d <= 1024) by (rewrite fexp_eq in HE; lia).
    pose proof (@pow2_le _ _ Hd). lra.
Qed.

(** The order of rounded values, with the infinity on top. *)
Definition ext_le (r1 r2 : spec_float) : Prop :=
  r2 = S754_infinity false
  \/ (nonneg_finite r1 /\ nonneg_finite r2 /\ (SFval r1 <= SFval r2)%Q).

Lemma pow2_le_inv (a b : Z) : (pow2 a < pow2 b)%Q -> a < b.
Proof. intros H. apply Qpower_lt_compat_l_inv in H; [ exact H | reflexivity ]. Qed.

(** An integer within a half of a bound. *)
Lemma Z_le_of_half (N K : Z) (p : Q) :
  (0 < p)%Q -> (2 * (inject_Z N * p) <= 2 * (inject_Z K * p) + p)%Q -> N <= K.
Proof.
  intros Hp H. destruct (Z_le_gt_dec N K) as [L|G]; [ exact L | exfalso ].
  assert (Hq : (inject_Z K + 1 <= inject_Z N)%Q).
  { change 1%Q with (inject_Z 1). rewrite <- inject_Z_plus, <- Zle_Qle. lia. }
  nra.
Qed.

Lemma Z_ge_of_half (N K : Z) (p : Q) :
  (0 < p)%Q -> (2 * (inject_Z K * p) - p <= 2 * (inject_Z N * p))%Q -> K <= N.
Proof.
  intros Hp H. destruct (Z_le_gt_dec K N) as [L|G]; [ exact L | exfalso ].
  assert (Hq : (inject_Z N + 1 <= inject_Z K)%Q).
  { change 1%Q with (inject_Z 1). rewrite <- inject_Z_plus, <- Zle_Qle. lia. }
  nra.
Qed.

(** Rounding is monotone. *)
Lemma rounds_to_mono (v1 v2 : Q) (r1 r2 : spec_float) :
  (v1 <= v2)%Q -> rounds_to v1 r1 -> rounds_to v2 r2 -> ext_le r1 r2.
Proof.
  intros Hv (d1 & N1 & Lo1 & Hi1 & HN1 & Ne1 & R1) (d2 & N2 & Lo2 & Hi2 & HN2 & Ne2 & R2).
  set (E1 := fexp prec emax d1) in *. set (E2 := fexp prec emax d2) in *.
  assert (HE1 : E1 = Z.max (d1 - 53) (-1074)) by apply fexp_eq.
  assert (HE2 : E2 = Z.max (d2 - 53) (-1074)) by apply fexp_eq.
  pose proof (pow2_pos E1) as Hp1. pose proof (pow2_pos E2) as Hp2.
  assert (Hd : d1 <= d2).
  { assert (H : d1 - 1 < d2) by (apply pow2_le_inv; lra). lia. }
  assert (Hmono : (inject_Z N1 * pow2 E1 <= inject_Z N2 * pow2 E2)%Q).
  { destruct (Z.eq_dec E1 E2) as [Eq|Ne].
    - rewrite Eq in *. pose proof (@nearest_even_mono N1 N2 E2 v1 v2 Hv Ne1 Ne2) as H.
      rewrite Zle_Qle in H. nra.
    - assert (Hlt : E1 < E2) by lia.
      assert (H52 : d2 - 1 = 52 + E2) by lia.
      destruct Ne1 as (A1 & B1 & _). destruct Ne2 as (A2 & B2 & _).
      assert (Hup : (inject_Z N1 * pow2 E1 <= pow2 (d2 - 1))%Q).
      { destruct (Z_le_gt_dec E1 d1) as [L|G].
        - assert (Hk : 0 <= d1 - E1) by lia.
          assert (HN : N1 <= 2 ^ (d1 - E1)).
          { apply (@Z_le_of_half _ _ (pow2 E1) Hp1).
            rewrite <- (@pow2_nonneg _ Hk), <- pow2_add.
            replace (d1 - E1 + E1) with d1 by lia. lra. }
          rewrite Zle_Qle, <- (@pow2_nonneg _ Hk) in HN.
          assert (Hle : (pow2 d1 <= pow2 (d2 - 1))%Q) by (apply pow2_le; lia).
          replace d1 with (d1 - E1 + E1) in Hle at 1 by lia. rewrite pow2_add in Hle.
          nra.
        - assert (HN : N1 <= 0).
          { assert (Hle : (pow2 d1 <= pow2 (E1 - 1))%Q) by (apply pow2_le; lia).
            pose proof (pow2_succ (E1 - 1)) as Hs.
            replace (E1 - 1 + 1) with E1 in Hs by lia.
            destruct (Z_le_gt_dec N1 0) as [L0|G0]; [ exact L0 | exfalso ].
            assert (Hq : (1 <= inject_Z N1)%Q).
            { change 1%Q with (inject_Z 1). rewrite <- Zle_Qle. lia. }
            nra. }
          assert (N1 = 0) by lia. subst N1. rewrite Qmult_0_l.
          apply Qlt_le_weak, pow2_pos. }
      assert (Hdn : (pow2 (d2 - 1) <= inject_Z N2 * pow2 E2)%Q).
      { assert (HN : 2 ^ 52 <= N2).
        { apply (@Z_ge_of_half _ _ (pow2 E2) Hp2).
          rewrite <- (@pow2_nonneg 52), <- pow2_add by lia.
          rewrite <- H52. lra. }
        rewrite Zle_Qle, <- (@pow2_nonneg 52) in HN by lia.
        rewrite H52, pow2_add. nra. }
      lra. }
  destruct R2 as [(B2 & F2 & V2)|(B2 & I2)]; [ | left; exact I2 ].
  destruct R1 as [(B1 & F1 & V1)|(B1 & I1)]; [ | lra ].
  right. split; [ exact F1 | ]. split; [ exact F2 | ]. lra.
Qed.

(** *** The operations round their exact result *)

Lemma located_exact (m : positive) (e : Z) :
  located (Zpos m) e loc_Exact (inject_Z (Zpos m) * pow2 e).
Proof. cbn [located]. reflexivity. Qed.

Lemma rounds_to_eq (v w : Q) (r : spec_float) :
  (v == w)%Q -> rounds_to v r -> rounds_to w r.
Proof.
  intros E (d & N & Lo & Hi & HN & (A & B & T) & R). exists d, N.
  split; [ lra | ]. split; [ lra | ]. split; [ exact HN | ]. split; [ | exact R ].
  unfold nearest_even. split; [ lra | ]. split; [ lra | ].
  intros [H|H]; apply T; [ left | right ]; lra.
Qed.

Lemma binary_normalize_rounds (m : positive) (e : Z) :
  rounds_to (inject_Z (Zpos m) * pow2 e) (binary_normalize prec emax (Zpos m) e false).
Proof.
  cbn [binary_normalize]. unfold binary_round.
  pose proof (shl_align_spec m e (fexp prec emax (Zpos (digits2_pos m) + e))) as Hs.
  destruct (shl_align m e _) as [mz ez]. destruct Hs as (Vz & Dz & Ez).
  apply (@rounds_to_eq (inject_Z (Zpos mz) * pow2 ez)); [ exact Vz | ].
  apply binary_round_aux_rounds; [ lia | apply located_exact | ].
  cbn [Zdigits2]. rewrite Dz. lia.
Qed.

(** The product of two floats of the format. *)
Lemma SFmul_rounds (mx my : positive) (ex ey : Z) :
  SpecFloat.valid_binary prec emax (S754_finite false mx ex) = true ->
  SpecFloat.valid_binary prec emax (S754_finite false my ey) = true ->
  rounds_to (inject_Z (Zpos mx) * pow2 ex * (inject_Z (Zpos my) * pow2 ey))
            (SFmul prec emax (S754_finite false mx ex) (S754_finite false my ey)).
Proof.
  intros Vx Vy. apply valid_finite in Vx, Vy.
  destruct Vx as [Cx Hx], Vy as [Cy Hy]. cbn [SFmul xorb].
  apply (@rounds_to_eq (inject_Z (Zpos (mx * my)) * pow2 (ex + ey))).
  { rewrite Pos2Z.inj_mul, inject_Z_mult, pow2_add. ring. }
  set (E := fexp prec emax (Zpos (digits2_pos (mx * my)) + (ex + ey))).
  destruct (Z_le_gt_dec (ex + ey) E) as [L|G].
  - apply binary_round_aux_rounds; [ lia | apply located_exact | exact L ].
  - assert (H971 : ex + ey <= 971).
    { destruct (Z_le_gt_dec (ex + ey) 971) as [H|H]; [ exact H | exfalso ].
      rewrite fexp_eq in Cx, Cy.
      pose proof (digits2_bounds mx) as [Lx _]. pose proof (digits2_bounds my) as [Ly _].
      assert (Dx : Zpos (digits2_pos mx) = 53) by lia.
      assert (Dy : Zpos (digits2_pos my) = 53) by lia.
      rewrite Dx in Lx. rewrite Dy in Ly.
      pose proof (digits2_bounds (mx * my)) as [_ Hp].
      assert (Hprod : 2 ^ 104 <= Zpos (mx * my)).
      { rewrite Pos2Z.inj_mul. change (2 ^ 104) with (2 ^ (53 - 1) * 2 ^ (53 - 1)).
        apply Z.mul_le_mono_nonneg; lia. }
      assert (Hd : 104 < Zpos (digits2_pos (mx * my))).
      { apply (Z.pow_lt_mono_r_iff 2); lia. }
      unfold E in G. rewrite fexp_eq in G. lia. }
    rewrite binary_round_aux_exact by (fold E; lia).
    apply (@rounds_to_exact _ _ E); [ reflexivity | lia | exact H971 ].
Qed.

(** The sum of two positive floats. *)
Lemma SFadd_rounds (mx my : positive) (ex ey : Z) :
  rounds_to (inject_Z (Zpos mx) * pow2 ex + inject_Z (Zpos my) * pow2 ey)
            (SFadd prec emax (S754_finite false mx ex) (S754_finite false my ey)).
Proof.
  cbn [SFadd cond_Zopp]. set (ez := Z.min ex ey).
  pose proof (shl_align_spec mx ex ez) as Hx. pose proof (shl_align_spec my ey ez) as Hy.
  destruct (shl_align mx ex ez) as [mx' ex']. destruct (shl_align my ey ez) as [my' ey'].
  destruct Hx as (Vx & _ & Ex). destruct Hy as (Vy & _ & Ey).
  assert (Ex' : ex' = ez) by (unfold ez in *; lia).
  assert (Ey' : ey' = ez) by (unfold ez in *; lia).
  clear Ex Ey. subst ex' ey'. cbn [fst].
  change (Zpos mx' + Zpos my') with (Zpos (mx' + my')).
  apply (@rounds_to_eq (inject_Z (Zpos (mx' + my')) * pow2 ez)).
  { rewrite Pos2Z.inj_add, inject_Z_plus. lra. }
  apply binary_normalize_rounds.
Qed.

(** The difference of two positive floats, the larger first. *)
Lemma SFsub_rounds (mx my : positive) (ex ey : Z) :
  (inject_Z (Zpos my) * pow2 ey < inject_Z (Zpos mx) * pow2 ex)%Q ->
  rounds_to (inject_Z (Zpos mx) * pow2 ex - inject_Z (Zpos my) * pow2 ey)
            (SFsub prec emax (S754_finite false mx ex) (S754_finite false my ey)).
Proof.
  intros Hlt. cbn [SFsub cond_Zopp]. set (ez := Z.min ex ey).
  pose proof (shl_align_spec mx ex ez) as Hx. pose proof (shl_align_spec my ey ez) as Hy.
  destruct (shl_align mx ex ez) as [mx' ex']. destruct (shl_align my ey ez) as [my' ey'].
  destruct Hx as (Vx & _ & Ex). destruct Hy as (Vy & _ & Ey).
  assert (Ex' : ex' = ez) by (unfold ez in *; lia).
  assert (Ey' : ey' = ez) by (unfold ez in *; lia).
  clear Ex Ey. subst ex' ey'. cbn [fst].
  pose proof (pow2_pos ez) as Hp.
  assert (Hd : (inject_Z (Zpos mx' - Zpos my') * pow2 ez
                == inject_Z (Zpos mx) * pow2 ex - inject_Z (Zpos my) * pow2 ey)%Q).
  { unfold Z.sub. rewrite inject_Z_plus, inject_Z_opp. lra. }
  destruct (Zpos mx' - Zpos my') as [|d|d] eqn:E.
  - exfalso. change (inject_Z 0) with 0%Q in Hd. lra.
  - apply (@rounds_to_eq (inject_Z (Zpos d) * pow2 ez)); [ exact Hd | ].
    apply binary_normalize_rounds.
  - exfalso. assert (Hneg : (inject_Z (Zneg d) < 0)%Q) by reflexivity. nra.
Qed.

Lemma Qcancel_lt (a b c : Q) : (0 < c)%Q -> (a * c < b * c)%Q -> (a < b)%Q.
Proof. intros Hc H. apply (Qmult_lt_r a b c Hc), H. Qed.

Lemma Qcancel_eq (a b c : Q) : (0 < c)%Q -> (a * c == b * c)%Q -> (a == b)%Q.
Proof. intros Hc H. apply (Qmult_inj_r a b c); [ lra | exact H ]. Qed.

(** The remainder of a division places the quotient. *)
Lemma new_location_located (my q r e : Z) (v : Q) :
  0 < my -> 0 <= r < my ->
  (v * inject_Z my == (inject_Z my * inject_Z q + inject_Z r) * pow2 e)%Q ->
  located q e (new_location my r) v.
Proof.
  intros Hmy Hr Hv. pose proof (pow2_pos e) as Hp.
  assert (Qmy : (0 < inject_Z my)%Q) by (change 0%Q with (inject_Z 0); rewrite <- Zlt_Qlt; lia).
  assert (Qr0 : (0 <= inject_Z r)%Q) by (change 0%Q with (inject_Z 0); rewrite <- Zle_Qle; lia).
  assert (Qr1 : (inject_Z r < inject_Z my)%Q) by (rewrite <- Zlt_Qlt; lia).
  set (t := (v - inject_Z q * pow2 e)%Q).
  assert (Ht : (t * inject_Z my == inject_Z r * pow2 e)%Q).
  { unfold t.
    transitivity (v * inject_Z my - inject_Z my * inject_Z q * pow2 e)%Q; [ ring | ].
    rewrite Hv. ring. }
  assert (Hvt : (v == inject_Z q * pow2 e + t)%Q) by (unfold t; ring).
  assert (Hrp : (inject_Z r * pow2 e < inject_Z my * pow2 e)%Q)
    by (apply Qmult_lt_compat_r; assumption).
  assert (Ht1 : (t < pow2 e)%Q) by (apply (@Qcancel_lt _ _ (inject_Z my) Qmy); lra).
  destruct (Z.eqb_spec r 0) as [R0|R0].
  - assert (T0 : (t == 0)%Q).
    { apply (@Qcancel_eq _ _ (inject_Z my) Qmy). rewrite Ht, R0.
      change (inject_Z 0) with 0%Q. ring. }
    unfold new_location, new_location_even, new_location_odd.
    destruct (Z.even my); rewrite R0; cbn [Z.eqb located]; lra.
  - assert (Qr : (0 < inject_Z r)%Q)
      by (change 0%Q with (inject_Z 0); rewrite <- Zlt_Qlt; lia).
    assert (Hrp0 : (0 < inject_Z r * pow2 e)%Q) by (apply Qmult_lt_0_compat; assumption).
    assert (T0 : (0 < t)%Q) by (apply (@Qcancel_lt _ _ (inject_Z my) Qmy); lra).
    assert (Below : 2 * r < my -> (2 * t < pow2 e)%Q).
    { intros C. rewrite Zlt_Qlt, inject_Z_mult in C. change (inject_Z 2) with 2%Q in C.
      assert (Hc : (2 * inject_Z r * pow2 e < inject_Z my * pow2 e)%Q)
        by (apply Qmult_lt_compat_r; assumption).
      apply (@Qcancel_lt _ _ (inject_Z my) Qmy). lra. }
    assert (Above : my < 2 * r -> (pow2 e < 2 * t)%Q).
    { intros C. rewrite Zlt_Qlt, inject_Z_mult in C. change (inject_Z 2) with 2%Q in C.
      assert (Hc : (inject_Z my * pow2 e < 2 * inject_Z r * pow2 e)%Q)
        by (apply Qmult_lt_compat_r; assumption).
      apply (@Qcancel_lt _ _ (inject_Z my) Qmy). lra. }
    assert (Middle : 2 * r = my -> (2 * t == pow2 e)%Q).
    { intros C. apply (@Qcancel_eq _ _ (inject_Z my) Qmy).
      rewrite <- C at 2. rewrite inject_Z_mult. change (inject_Z 2) with 2%Q. lra. }
    apply Z.eqb_neq in R0.
    unfold new_location, new_location_even, new_location_odd.
    destruct (Z.even my) eqn:Ev; rewrite R0.
    + destruct (Z.compare_spec (2 * r) my) as [C|C|C]; cbn [located].
      * specialize (Middle C). lra.
      * specialize (Below C). split; lra.
      * specialize (Above C). split; lra.
    + assert (Hodd : 2 * r <> my).
      { intros C. rewrite <- C, Z.even_mul in Ev. discriminate. }
      destruct (Z.compare_spec (2 * r + 1) my) as [C|C|C]; cbn [located].
      * specialize (Below ltac:(lia)). split; lra.
      * specialize (Below ltac:(lia)). split; lra.
      * specialize (Above ltac:(lia)). split; lra.
Qed.

(** The quotient of two positive floats, when it is not too small. *)
Lemma SFdiv_rounds (mx my : positive) (ex ey : Z) :
  Zpos (digits2_pos mx) <= 53 ->
  -1020 <= Zpos (digits2_pos mx) + ex - (Zpos (digits2_pos my) + ey) ->
  rounds_to (inject_Z (Zpos mx) * pow2 ex / (inject_Z (Zpos my) * pow2 ey))
            (SFdiv prec emax (S754_finite false mx ex) (S754_finite false my ey)).
Proof.
  intros H53 HD. pose proof (posval my ey) as Hy. pose proof (posval mx ex) as Hx.
  set (v := (inject_Z (Zpos mx) * pow2 ex / (inject_Z (Zpos my) * pow2 ey))%Q).
  cbn [SFdiv xorb]. unfold SFdiv_core_binary. cbn [Zdigits2].
  set (d1 := Zpos (digits2_pos mx)) in *. set (d2 := Zpos (digits2_pos my)) in *.
  set (D := d1 + ex - (d2 + ey)) in *.
  assert (HfD : fexp prec emax D = D - 53) by (rewrite fexp_eq; lia).
  set (e' := Z.min (fexp prec emax D) (ex - ey)).
  set (s := ex - ey - e').
  assert (Hs : 0 <= s) by (unfold s, e'; lia).
  assert (Hs53 : d2 + 53 <= d1 + s) by (unfold s, e'; rewrite HfD; unfold D; lia).
  set (m' := match s with
             | 0 => Zpos mx
             | Zpos _ => Z.shiftl (Zpos mx) s
             | Zneg _ => 0
             end).
  assert (Hm' : m' = Zpos mx * 2 ^ s).
  { unfold m'. destruct s as [|p|p] eqn:E; try lia.
    apply Z.shiftl_mul_pow2. lia. }
  assert (Hp2 : 0 < 2 ^ s) by (apply Z.pow_pos_nonneg; lia).
  pose proof (digits2_bounds mx) as [Hlo1 Hhi1]. pose proof (digits2_bounds my) as [Hlo2 Hhi2].
  fold d1 in Hlo1, Hhi1. fold d2 in Hlo2, Hhi2.
  assert (Hd1 : 1 <= d1) by (unfold d1; lia).
  assert (Hd2 : 1 <= d2) by (unfold d2; lia).
  assert (Hbig : 2 ^ (d2 + 52) <= m').
  { rewrite Hm'. apply Z.le_trans with (2 ^ (d1 - 1 + s)).
    - apply Z.pow_le_mono_r; lia.
    - rewrite Z.pow_add_r by lia. apply Z.mul_le_mono_nonneg_r; lia. }
  pose proof (Z.div_mod m' (Zpos my) ltac:(lia)) as Hdm.
  pose proof (Z.mod_pos_bound m' (Zpos my) ltac:(lia)) as Hr.
  assert (Hq1 : 2 ^ 52 <= m' / Zpos my).
  { apply Z.div_le_lower_bound; [ lia | ].
    eapply Z.le_trans; [ | exact Hbig ].
    rewrite Z.pow_add_r by lia.
    apply Z.mul_le_mono_nonneg_r; [ apply Z.pow_nonneg; lia | lia ]. }
  unfold Z.div, Z.modulo in Hdm, Hr, Hq1.
  destruct (Z.div_eucl m' (Zpos my)) as [q r].
  assert (Hq : 0 < q) by lia.
  pose proof (pow2_pos e') as Hpe'. pose proof (pow2_pos ey) as Hpey.
  assert (Hnum : (inject_Z (Zpos mx) * pow2 ex
                  == inject_Z m' * pow2 e' * pow2 ey)%Q).
  { rewrite Hm', inject_Z_mult, <- (@pow2_nonneg s) by lia.
    replace ex with (s + e' + ey) at 1 by (unfold s; lia).
    rewrite !pow2_add. ring. }
  assert (Hvq : (v * inject_Z (Zpos my)
                 == (inject_Z (Zpos my) * inject_Z q + inject_Z r) * pow2 e')%Q).
  { rewrite <- inject_Z_mult, <- inject_Z_plus, <- Hdm.
    unfold v. rewrite Hnum. field. split; [ | discriminate ].
    intros E. lra. }
  pose proof (@new_location_located (Zpos my) q r e' v ltac:(lia) Hr Hvq) as Hloc.
  apply binary_round_aux_rounds; [ exact Hq | exact Hloc | ].
  destruct (@digits_of_located q e' _ v Hq Hloc) as [_ Hhi].
  assert (Hlow : (pow2 (D - 1) <= v)%Q).
  { apply located_bounds in Hloc. destruct Hloc as [Hl _].
    assert (Hq52 : (pow2 52 <= inject_Z q)%Q).
    { rewrite (@pow2_nonneg 52) by lia. rewrite <- Zle_Qle. exact Hq1. }
    assert (Hle : (pow2 (D - 1) <= pow2 (52 + e'))%Q).
    { apply pow2_le. unfold e'. rewrite HfD. unfold D, d1, d2 in *. lia. }
    rewrite pow2_add in Hle. nra. }
  assert (HDq : D - 1 < Zdigits2 q + e') by (apply pow2_le_inv; lra).
  assert (Hmono : fexp prec emax D <= fexp prec emax (Zdigits2 q + e'))
    by (apply fexp_mono; lia).
  unfold e' at 1. lia.
Qed.

(** *** Rounding of non-negative values *)

(** A zero, a positive finite float or the positive infinity. *)
Definition nn (x : spec_float) : Prop :=
  match x with
  | S754_zero _ | S754_finite false _ _ | S754_infinity false => True
  | _ => False
  end.

Lemma nonneg_finite_nn (x : spec_float) : nonneg_finite x -> nn x.
Proof. destruct x as [s|s| |[] m e]; cbn; intros H; try contradiction; exact I. Qed.

Lemma rounded_nn (N E : Z) (r : spec_float) : rounded N E r -> nn r.
Proof.
  intros [(_ & F & _)|(_ & ->)]; [ apply nonneg_finite_nn, F | exact I ].
Qed.

Lemma rounds_to_nn (v : Q) (r : spec_float) : rounds_to v r -> nn r.
Proof. intros (d & N & _ & _ & _ & _ & R). exact (@rounded_nn _ _ _ R). Qed.

(** [r] is the rounding of [v >= 0]: a zero for [0]. *)
Definition rounds0 (v : Q) (r : spec_float) : Prop :=
  ((v == 0)%Q /\ exists s, r = S754_zero s) \/ ((0 < v)%Q /\ rounds_to v r).

Lemma rounds0_nn (v : Q) (r : spec_float) : rounds0 v r -> nn r.
Proof.
  intros [(_ & s & ->)|(_ & H)]; [ exact I | exact (@rounds_to_nn _ _ H) ].
Qed.

Lemma rounds0_eq (v w : Q) (r : spec_float) :
  (v == w)%Q -> rounds0 v r -> rounds0 w r.
Proof.
  intros E [(Z0 & H)|(P & H)].
  - left. split; [ lra | exact H ].
  - right. split; [ lra | exact (@rounds_to_eq _ _ _ E H) ].
Qed.

(** The order of non-negative floats and the infinity. *)
Definition le_ext (r1 r2 : spec_float) : Prop := nn r1 /\ ext_le r1 r2.

Lemma rounds0_mono (v1 v2 : Q) (r1 r2 : spec_float) :
  (v1 <= v2)%Q -> rounds0 v1 r1 -> rounds0 v2 r2 -> le_ext r1 r2.
Proof.
  intros Hv H1 H2. split; [ exact (@rounds0_nn _ _ H1) | ].
  destruct H1 as [(Z1 & s1 & ->)|(P1 & R1)], H2 as [(Z2 & s2 & ->)|(P2 & R2)].
  - right. repeat split. cbn. lra.
  - pose proof R2 as (d & N & _ & _ & HN & _ & [(_ & F & V)|(_ & ->)]);
      [ | left; reflexivity ].
    right. split; [ exact I | ]. split; [ exact F | ].
    rewrite V. cbn [SFval]. pose proof (pow2_pos (fexp prec emax d)).
    rewrite Zle_Qle in HN. change (inject_Z 0) with 0%Q in HN. nra.
  - lra.
  - exact (@rounds_to_mono v1 v2 r1 r2 Hv R1 R2).
Qed.

(** A float of the format is the rounding of its own value. *)
Lemma rounds0_self (x : spec_float) :
  SpecFloat.valid_binary prec emax x = true -> nonneg_finite x -> rounds0 (SFval x) x.
Proof.
  intros V N. destruct x as [s|s| |[] m e]; try contradiction.
  - left. split; [ reflexivity | exists s; reflexivity ].
  - right. cbn [SFval]. pose proof (posval m e).
    split; [ lra | ]. apply (@rounds_to_eq (inject_Z (Zpos m) * pow2 e)); [ ring | ].
    apply valid_finite in V. destruct V as [C He].
    apply (@rounds_to_exact _ _ e); [ symmetry; exact C | lia | exact He ].
Qed.

Lemma SFmul_rounds0 (x y : spec_float) :
  SpecFloat.valid_binary prec emax x = true ->
  SpecFloat.valid_binary prec emax y = true ->
  nonneg_finite x -> nonneg_finite y ->
  rounds0 (SFval x * SFval y) (SFmul prec emax x y).
Proof.
  intros Vx Vy Nx Ny.
  destruct x as [sx|sx| |[] mx ex]; try contradiction;
    destruct y as [sy|sy| |[] my ey]; try contradiction; cbn [SFmul SFval].
  - left. split; [ ring | eexists; reflexivity ].
  - left. split; [ ring | eexists; reflexivity ].
  - left. split; [ ring | eexists; reflexivity ].
  - right. pose proof (posval mx ex). pose proof (posval my ey).
    split; [ nra | ].
    apply (@rounds_to_eq (inject_Z (Zpos mx) * pow2 ex * (inject_Z (Zpos my) * pow2 ey)));
      [ ring | ].
    exact (@SFmul_rounds mx my ex ey Vx Vy).
Qed.

Lemma SFadd_rounds0 (x y : spec_float) :
  SpecFloat.valid_binary prec emax x = true ->
  SpecFloat.valid_binary prec emax y = true ->
  nonneg_finite x -> nonneg_finite y ->
  rounds0 (SFval x + SFval y) (SFadd prec emax x y).
Proof.
  intros Vx Vy Nx Ny.
  destruct x as [sx|sx| |[] mx ex]; try contradiction;
    destruct y as [sy|sy| |[] my ey]; try contradiction.
  - left. split; [ cbn; ring | ]. cbn [SFadd]. destruct sx, sy; eexists; reflexivity.
  - cbn [SFadd]. apply (@rounds0_eq (SFval (S754_finite false my ey))); [ cbn; ring | ].
    apply rounds0_self; [ exact Vy | exact I ].
  - cbn [SFadd]. apply (@rounds0_eq (SFval (S754_finite false mx ex))); [ cbn; ring | ].
    apply rounds0_self; [ exact Vx | exact I ].
  - right. pose proof (posval mx ex). pose proof (posval my ey). cbn [SFval].
    split; [ lra | ].
    apply (@rounds_to_eq (inject_Z (Zpos mx) * pow2 ex + inject_Z (Zpos my) * pow2 ey));
      [ ring | ].
    apply SFadd_rounds.
Qed.

Lemma SFsub_rounds0 (x y : spec_float) :
  SpecFloat.valid_binary prec emax x = true ->
  nonneg_finite x -> nonneg_finite y -> (SFval y <= SFval x)%Q ->
  rounds0 (SFval x - SFval y) (SFsub prec emax x y).
Proof.
  intros Vx Nx Ny Hle.
  destruct x as [sx|sx| |[] mx ex]; try contradiction;
    destruct y as [sy|sy| |[] my ey]; try contradiction.
  - left. split; [ cbn; ring | ]. cbn [SFsub]. destruct sx, sy; eexists; reflexivity.
  - exfalso. cbn [SFval] in Hle. pose proof (posval my ey). lra.
  - cbn [SFsub]. apply (@rounds0_eq (SFval (S754_finite false mx ex))); [ cbn; ring | ].
    apply rounds0_self; [ exact Vx | exact I ].
  - cbn [SFval] in Hle |- *. rewrite !Qmult_1_l in *.
    destruct (Qlt_le_dec (inject_Z (Zpos my) * pow2 ey) (inject_Z (Zpos mx) * pow2 ex))
      as [Lt|Ge].
    + right. split; [ lra | ].
      apply (@rounds_to_eq (inject_Z (Zpos mx) * pow2 ex - inject_Z (Zpos my) * pow2 ey));
        [ ring | ].
      exact (@SFsub_rounds mx my ex ey Lt).
    + left. split; [ lra | ].
      cbn [SFsub cond_Zopp]. set (ez := Z.min ex ey).
      pose proof (shl_align_spec mx ex ez) as Hx. pose proof (shl_align_spec my ey ez) as Hy.
      destruct (shl_align mx ex ez) as [mx' ex']. destruct (shl_align my ey ez) as [my' ey'].
      destruct Hx as (Vx' & _ & Ex). destruct Hy as (Vy' & _ & Ey).
      assert (Ex' : ex' = ez) by (unfold ez in *; lia).
      assert (Ey' : ey' = ez) by (unfold ez in *; lia).
      clear Ex Ey. subst ex' ey'. cbn [fst].
      assert (Heq : Zpos mx' = Zpos my').
      { pose proof (pow2_pos ez) as Hp.
        assert (Hq : (inject_Z (Zpos mx') == inject_Z (Zpos my'))%Q).
        { apply (@Qcancel_eq _ _ (pow2 ez) Hp). lra. }
        unfold Qeq in Hq. cbn in Hq. lia. }
      rewrite Heq, Z.sub_diag. exists false. reflexivity.
Qed.

(** *** The order of the floats of the engine *)

(** [x] is a zero, a positive finite float or [inf]. *)
Definition fnn (x : float) : Prop := nn (Prim2SF x).

(** [x <= y] for such floats. *)
Definition fle (x y : float) : Prop := le_ext (Prim2SF x) (Prim2SF y).

Lemma nonneg_fnn (x : float) : nonneg x -> fnn x.
Proof. apply nonneg_finite_nn. Qed.

Lemma fle_left (x y : float) : fle x y -> fnn x.
Proof. intros [H _]. exact H. Qed.

Lemma fle_right (x y : float) : fle x y -> fnn y.
Proof.
  intros [_ [H|(_ & H & _)]]; unfold fnn; [ rewrite H; exact I | apply nonneg_finite_nn, H ].
Qed.

Lemma fle_values (x y : float) :
  nonneg x -> nonneg y -> (value x <= value y)%Q -> fle x y.
Proof.
  intros Hx Hy Hv. split; [ apply nonneg_finite_nn, Hx | ].
  right. split; [ exact Hx | ]. split; [ exact Hy | exact Hv ].
Qed.

Lemma fle_refl (x : float) : fnn x -> fle x x.
Proof.
  intros H. split; [ exact H | ]. unfold fnn in H.
  destruct (Prim2SF x) as [s|[]| |[] m e] eqn:E; try contradiction.
  - right. repeat split. cbn. lra.
  - left. reflexivity.
  - right. repeat split. lra.
Qed.

Lemma fle_trans (x y z : float) : fle x y -> fle y z -> fle x z.
Proof.
  intros [Nx [Ix|(Fx & Fy & Vxy)]] [Ny [Iz|(Fy' & Fz & Vyz)]]; split; try exact Nx.
  - left. exact Iz.
  - rewrite Ix in Fy'. contradiction.
  - left. exact Iz.
  - right. split; [ exact Fx | ]. split; [ exact Fz | lra ].
Qed.

(** A finite float below another one. *)
Lemma fle_finite (x y : float) :
  fle x y -> nonneg y -> nonneg x /\ (value x <= value y)%Q.
Proof.
  intros [_ [I|(Fx & _ & V)]] Hy.
  - unfold nonneg in Hy. rewrite I in Hy. contradiction.
  - split; assumption.
Qed.

Lemma fle_leb (x y : float) : fle x y -> PrimFloat.leb x y = true.
Proof.
  intros [Nx [I|(Fx & Fy & V)]].
  - rewrite leb_spec, I. unfold fnn in Nx.
    destruct (Prim2SF x) as [s|[]| |[] m e]; try contradiction; reflexivity.
  - apply (leb_value x y Fx Fy), V.
Qed.

Lemma leb_fle (x y : float) :
  fnn x -> PrimFloat.leb x y = true -> fle x y.
Proof.
  intros Nx H. split; [ exact Nx | ].
  pose proof (Prim2SF_valid x) as Vx. pose proof (Prim2SF_valid y) as Vy.
  rewrite leb_spec in H. unfold fnn in Nx. unfold SFleb in H.
  destruct (Prim2SF x) as [sx|[]| |[] mx ex] eqn:Ex; try contradiction;
    destruct (Prim2SF y) as [sy|[]| |[] my ey] eqn:Ey;
    try discriminate; try (left; reflexivity).
  - right. repeat split. cbn. lra.
  - right. repeat split. cbn [SFval]. pose proof (posval my ey). lra.
  - right. split; [ exact I | ]. split; [ exact I | ].
    assert (Hc : SFcompare (S754_finite false mx ex) (S754_finite false my ey)
                 = Some (Qcompare (SFval (S754_finite false mx ex))
                                  (SFval (S754_finite false my ey))))
      by (apply SFcompare_nonneg; try assumption; exact I).
    rewrite Hc in H.
    destruct (Qcompare_spec (SFval (S754_finite false mx ex))
                            (SFval (S754_finite false my ey))); try discriminate; lra.
Qed.

(** **** Addition *)

Lemma add_rounds0 (x y : float) :
  nonneg x -> nonneg y -> rounds0 (value x + value y) (Prim2SF (x + y)).
Proof.
  intros Hx Hy. rewrite add_spec. unfold SF64add.
  apply SFadd_rounds0; try apply Prim2SF_valid; assumption.
Qed.

Lemma add_infinity_l (x y : spec_float) :
  x = S754_infinity false -> nn y -> SFadd prec emax x y = S754_infinity false.
Proof.
  intros -> H. destruct y as [s|[]| |[] m e]; try contradiction; reflexivity.
Qed.

Lemma add_infinity_r (x y : spec_float) :
  nn x -> y = S754_infinity false -> SFadd prec emax x y = S754_infinity false.
Proof.
  intros H ->. destruct x as [s|[]| |[] m e]; try contradiction; reflexivity.
Qed.

Lemma nn_cases (x : spec_float) : nn x -> x = S754_infinity false \/ nonneg_finite x.
Proof.
  destruct x as [s|[]| |[] m e]; cbn; intros H; try contradiction;
    [ right | left | right ]; trivial.
Qed.

Lemma add_fnn (x y : float) : fnn x -> fnn y -> fnn (x + y).
Proof.
  intros Hx Hy. unfold fnn. rewrite add_spec. unfold SF64add.
  destruct (@nn_cases _ Hx) as [Ix|Fx].
  - rewrite (@add_infinity_l _ _ Ix Hy). exact I.
  - destruct (@nn_cases _ Hy) as [Iy|Fy].
    + rewrite (@add_infinity_r _ _ Hx Iy). exact I.
    + apply (@rounds0_nn (SFval (Prim2SF x) + SFval (Prim2SF y))).
      apply SFadd_rounds0; try apply Prim2SF_valid; assumption.
Qed.

Lemma add_mono (a1 a2 b1 b2 : float) :
  fle a1 a2 -> fle b1 b2 -> fle (a1 + b1) (a2 + b2).
Proof.
  intros Ha Hb.
  pose proof (@fle_left _ _ Ha) as Na1. pose proof (@fle_right _ _ Ha) as Na2.
  pose proof (@fle_left _ _ Hb) as Nb1. pose proof (@fle_right _ _ Hb) as Nb2.
  destruct (@nn_cases _ Na2) as [Ia|Fa].
  { split; [ apply add_fnn; assumption | ]. left.
    rewrite add_spec. apply add_infinity_l; assumption. }
  destruct (@nn_cases _ Nb2) as [Ib|Fb].
  { split; [ apply add_fnn; assumption | ]. left.
    rewrite add_spec. apply add_infinity_r; assumption. }
  destruct (@fle_finite _ _ Ha Fa) as [Fa1 Va]. destruct (@fle_finite _ _ Hb Fb) as [Fb1 Vb].
  apply (@rounds0_mono (value a1 + value b1) (value a2 + value b2)).
  - lra.
  - apply add_rounds0; assumption.
  - apply add_rounds0; assumption.
Qed.

(** Adding a non-negative number does not decrease. *)
Lemma add_increases (a b : float) : fnn a -> fnn b -> fle a (a + b).
Proof.
  intros Ha Hb.
  destruct (@nn_cases _ Ha) as [Ia|Fa].
  { split; [ exact Ha | ]. left. rewrite add_spec. apply add_infinity_l; assumption. }
  destruct (@nn_cases _ Hb) as [Ib|Fb].
  { split; [ exact Ha | ]. left. rewrite add_spec. apply add_infinity_r; assumption. }
  apply (@rounds0_mono (value a) (value a + value b)).
  - pose proof (@value_nonneg b Fb). lra.
  - apply rounds0_self; [ apply Prim2SF_valid | exact Fa ].
  - apply add_rounds0; assumption.
Qed.

(** **** Multiplication by a rate *)

Lemma mul_mono (x1 x2 c : float) :
  nonneg x1 -> nonneg x2 -> nonneg c -> (value x1 <= value x2)%Q ->
  fle (x1 * c) (x2 * c).
Proof.
  intros H1 H2 Hc Hv. pose proof (@value_nonneg c Hc) as Hc0.
  apply (@rounds0_mono (value x1 * value c) (value x2 * value c)).
  - nra.
  - rewrite mul_spec. apply SFmul_rounds0; try apply Prim2SF_valid; assumption.
  - rewrite mul_spec. apply SFmul_rounds0; try apply Prim2SF_valid; assumption.
Qed.

(** **** Subtraction of a smaller float *)

Lemma sub_rounds0 (x y : float) :
  nonneg x -> nonneg y -> (value y <= value x)%Q ->
  rounds0 (value x - value y) (Prim2SF (x - y)).
Proof.
  intros Hx Hy Hv. rewrite sub_spec. unfold SF64sub.
  apply SFsub_rounds0; try apply Prim2SF_valid; assumption.
Qed.

(** [x - y] is finite and at most [x]. *)
Lemma sub_below (x y : float) :
  nonneg x -> nonneg y -> (value y <= value x)%Q ->
  nonneg (x - y) /\ (value (x - y) <= value x)%Q.
Proof.
  intros Hx Hy Hv.
  assert (H : fle (x - y) x).
  { apply (@rounds0_mono (value x - value y) (value x)).
    - pose proof (@value_nonneg y Hy). lra.
    - apply sub_rounds0; assumption.
    - apply rounds0_self; [ apply Prim2SF_valid | exact Hx ]. }
  exact (@fle_finite _ _ H Hx).
Qed.

Lemma sub_mono (x1 x2 w : float) :
  nonneg x1 -> nonneg x2 -> nonneg w ->
  (value w <= value x1)%Q -> (value x1 <= value x2)%Q ->
  (value (x1 - w) <= value (x2 - w))%Q.
Proof.
  intros H1 H2 Hw Hv1 Hv.
  assert (H : fle (x1 - w) (x2 - w)).
  { apply (@rounds0_mono (value x1 - value w) (value x2 - value w)).
    - lra.
    - apply sub_rounds0; assumption.
    - apply sub_rounds0; try assumption. lra. }
  destruct (@sub_below x2 w H2 Hw ltac:(lra)) as [F2 _].
  exact (proj2 (@fle_finite _ _ H F2)).
Qed.

(** **** [round(x, 2)] *)

(** [cents m e] is the integer nearest to a hundred times [m * 2^e], the
    even one when there are two. *)
Lemma cents_nearest (m : positive) (e : Z) :
  0 <= Binary64.cents m e
  /\ nearest_even (Binary64.cents m e) 0 (100 * (inject_Z (Zpos m) * pow2 e)).
Proof.
  unfold nearest_even. change (pow2 0) with 1%Q.
  unfold Binary64.cents. destruct e as [|k|k].
  - split; [ lia | ]. change (pow2 0) with 1%Q. rewrite Z.pow_0_r.
    rewrite !inject_Z_mult. change (inject_Z 1) with 1%Q. change (inject_Z 100) with 100%Q.
    repeat split; first [ lra | intros [T|T]; lra ].
  - split; [ lia | ]. rewrite !inject_Z_mult, <- (@pow2_nonneg (Zpos k)) by lia.
    change (inject_Z 100) with 100%Q.
    repeat split; first [ lra | intros [T|T]; lra ].
  - cbv zeta. set (d := 2 ^ Zpos k). set (n := Zpos m * 100).
    assert (Hd : 0 < d) by (apply Z.pow_pos_nonneg; lia).
    pose proof (Z.div_mod n d ltac:(lia)) as Hn.
    pose proof (Z.mod_pos_bound n d Hd) as Hr.
    assert (Hq : 0 <= n / d) by (apply Z.div_pos; lia).
    set (q := n / d) in *. set (r := n mod d) in *.
    pose proof (pow2_neg k) as Hk. fold d in Hk.
    set (x := (100 * (inject_Z (Zpos m) * pow2 (Zneg k)))%Q).
    assert (Hx : (x * inject_Z d == inject_Z q * inject_Z d + inject_Z r)%Q).
    { rewrite <- inject_Z_mult, <- inject_Z_plus.
      replace (q * d + r) with n by lia. unfold n. rewrite inject_Z_mult.
      unfold x. change (inject_Z 100) with 100%Q.
      transitivity (100 * inject_Z (Zpos m) * (pow2 (Zneg k) * inject_Z d))%Q; [ ring | ].
      rewrite Hk. ring. }
    assert (HD : (0 < inject_Z d)%Q) by (change 0%Q with (inject_Z 0); rewrite <- Zlt_Qlt; lia).
    assert (Hr0 : (0 <= inject_Z r)%Q) by (change 0%Q with (inject_Z 0); rewrite <- Zle_Qle; lia).
    assert (Hr1 : (inject_Z r < inject_Z d)%Q) by (rewrite <- Zlt_Qlt; lia).
    set (t := (x - inject_Z q)%Q).
    assert (Ht : (t * inject_Z d == inject_Z r)%Q) by (unfold t; lra).
    assert (Hxt : (x == inject_Z q + t)%Q) by (unfold t; ring).
    assert (T0 : (0 <= t)%Q).
    { destruct (Qlt_le_dec t 0) as [L|G]; [ exfalso; nra | exact G ]. }
    assert (T1 : (t < 1)%Q) by (apply (@Qcancel_lt _ _ (inject_Z d) HD); lra).
    destruct (Z.compare_spec (2 * r) d) as [E|L|G].
    + assert (Hh : (2 * t == 1)%Q).
      { apply (@Qcancel_eq _ _ (inject_Z d) HD). rewrite <- E at 2.
        rewrite inject_Z_mult. change (inject_Z 2) with 2%Q. lra. }
      destruct (Z.even q) eqn:Ev.
      * split; [ exact Hq | ]. repeat split; try lra. intros _. exact Ev.
      * split; [ lia | ]. rewrite inject_Z_plus. change (inject_Z 1) with 1%Q.
        repeat split; try lra. intros _. rewrite Z.even_add, Ev. reflexivity.
    + assert (Hh : (2 * t < 1)%Q).
      { rewrite Zlt_Qlt, inject_Z_mult in L. change (inject_Z 2) with 2%Q in L.
        apply (@Qcancel_lt _ _ (inject_Z d) HD). lra. }
      split; [ exact Hq | ]. repeat split; first [ lra | intros [T|T]; lra ].
    + assert (Hh : (1 < 2 * t)%Q).
      { rewrite Zlt_Qlt, inject_Z_mult in G. change (inject_Z 2) with 2%Q in G.
        apply (@Qcancel_lt _ _ (inject_Z d) HD). lra. }
      split; [ lia | ]. rewrite inject_Z_plus. change (inject_Z 1) with 1%Q.
      repeat split; first [ lra | intros [T|T]; lra ].
Qed.

(** The quotient of a number of cents by [100.0]. *)
Lemma cents_quotient_rounds0 (c : Z) :
  0 <= c < 2 ^ 53 ->
  rounds0 (inject_Z c / 100) (Prim2SF (PrimFloat.of_uint63 (Uint63.of_Z c) / 100)).
Proof.
  intros Hc.
  assert (H100 : Prim2SF 100 = S754_finite false 7036874417766400 (-46)) by reflexivity.
  assert (V100 : (inject_Z (Zpos 7036874417766400) * pow2 (-46) == 100)%Q) by reflexivity.
  pose proof (Prim2SF_valid (PrimFloat.of_uint63 (Uint63.of_Z c))) as Vc.
  rewrite div_spec, H100. unfold SF64div.
  rewrite of_uint63_spec, Uint63.of_Z_spec in *.
  rewrite Z.mod_small in *
    by (split; [ lia | eapply Z.lt_trans; [ apply Hc | reflexivity ] ]).
  destruct (binary_normalize_exact Hc) as (Hs & Hf & Hv).
  destruct (binary_normalize prec emax c 0 false) as [s|s| |s m e];
    try discriminate.
  - left. cbn [SFval] in Hv. split.
    + unfold Qdiv. rewrite <- Hv. ring.
    + cbn [SFdiv]. eexists. reflexivity.
  - destruct s; [ discriminate | ]. cbn [SFval] in Hv. rewrite Qmult_1_l in Hv.
    pose proof (posval m e) as Hp.
    right. split; [ rewrite <- Hv; apply Qlt_shift_div_l; lra | ].
    apply (@rounds_to_eq (inject_Z (Zpos m) * pow2 e
                          / (inject_Z (Zpos 7036874417766400) * pow2 (-46)))).
    { rewrite V100, Hv. reflexivity. }
    apply valid_finite in Vc. destruct Vc as [Cm He]. rewrite fexp_eq in Cm.
    apply SFdiv_rounds; [ lia | ].
    assert (H1 : (1 <= inject_Z (Zpos m) * pow2 e)%Q).
    { rewrite Hv. change 1%Q with (inject_Z 1). rewrite <- Zle_Qle.
      destruct c; try lia. cbn in Hp. rewrite <- Hv in Hp. lra. }
    destruct (@digits_of_located (Zpos m) e loc_Exact _ ltac:(lia) (located_exact m e))
      as [_ Hhi].
    cbn [Zdigits2] in Hhi.
    assert (Hd : 0 < Zpos (digits2_pos m) + e).
    { apply pow2_le_inv. change (pow2 0) with 1%Q. lra. }
    change (Zpos (digits2_pos 7036874417766400)) with 53. lia.
Qed.

(** [round(x, 2)] of a finite non-negative float: the float itself from
    [2^46] upwards, and below, the rounded quotient of its cents. *)
Lemma round2_cases (x : float) :
  nonneg x ->
  ((pow2 46 <= value x)%Q /\ Binary64.round2 x = x)
  \/ ((value x < pow2 46)%Q
      /\ exists c, 0 <= c <= 100 * 2 ^ 46
                   /\ nearest_even c 0 (100 * value x)
                   /\ rounds0 (inject_Z c / 100) (Prim2SF (Binary64.round2 x))).
Proof.
  intros Hx. unfold Binary64.round2.
  assert (H46 : (pow2 46 == 70368744177664)%Q) by reflexivity.
  destruct (Prim2SF x) as [s|s| |[] m e] eqn:E;
    try (unfold nonneg in Hx; rewrite E in Hx; contradiction).
  - right. assert (Hv : (value x == 0)%Q) by (unfold value; rewrite E; reflexivity).
    split; [ lra | ]. exists 0. split; [ lia | ]. split.
    + unfold nearest_even. change (pow2 0) with 1%Q. change (inject_Z 0) with 0%Q.
      repeat split; first [ lra | intros [T|T]; lra ].
    + left. split; [ reflexivity | ]. rewrite E. exists s. reflexivity.
  - assert (Hv : (value x == inject_Z (Zpos m) * pow2 e)%Q).
    { unfold value. rewrite E. cbn [SFval]. ring. }
    assert (Hax : nonneg (PrimFloat.abs x)).
    { unfold nonneg. rewrite abs_spec, E. exact I. }
    assert (Hvax : (value (PrimFloat.abs x) == value x)%Q).
    { unfold value. rewrite abs_spec, E. reflexivity. }
    assert (N46 : nonneg Binary64.two46) by exact I.
    assert (V46 : (value Binary64.two46 == 70368744177664)%Q) by reflexivity.
    destruct (PrimFloat.leb Binary64.two46 (PrimFloat.abs x)) eqn:L.
    + left. apply (leb_value _ _ N46 Hax) in L. split; [ lra | reflexivity ].
    + right.
      assert (Hlt : (value x < pow2 46)%Q).
      { destruct (Qlt_le_dec (value x) (pow2 46)) as [H|H]; [ exact H | exfalso ].
        assert (L' : PrimFloat.leb Binary64.two46 (PrimFloat.abs x) = true)
          by (apply (leb_value _ _ N46 Hax); lra).
        congruence. }
      split; [ exact Hlt | ].
      destruct (cents_nearest m e) as [Hc0 Hne].
      set (c := Binary64.cents m e) in *.
      assert (Hne' : nearest_even c 0 (100 * value x)).
      { destruct Hne as (A & B & T). unfold nearest_even.
        split; [ lra | ]. split; [ lra | ]. intros [H|H]; apply T; [ left | right ]; lra. }
      assert (Hcb : c <= 100 * 2 ^ 46).
      { destruct Hne' as (A & _ & _). change (pow2 0) with 1%Q in A.
        apply (@Z_le_of_half _ _ 1%Q); [ reflexivity | ].
        change (inject_Z (100 * 2 ^ 46)) with (100 * 70368744177664)%Q. lra. }
      exists c. split; [ lia | ]. split; [ exact Hne' | ].
      apply cents_quotient_rounds0. split; [ lia | ].
      eapply Z.le_lt_trans; [ exact Hcb | reflexivity ].
Qed.

Lemma round2_fnn (x : float) : fnn x -> fnn (Binary64.round2 x).
Proof.
  intros Hx. destruct (@nn_cases _ Hx) as [I|F].
  - unfold Binary64.round2. rewrite I. exact Hx.
  - destruct (@round2_cases x F) as [(_ & ->)|(_ & c & _ & _ & R)]; [ exact Hx | ].
    exact (@rounds0_nn _ _ R).
Qed.

Lemma round2_mono (x y : float) :
  fle x y -> fle (Binary64.round2 x) (Binary64.round2 y).
Proof.
  intros H. pose proof (@fle_left _ _ H) as Nx. pose proof (@fle_right _ _ H) as Ny.
  assert (H46 : (pow2 46 == 70368744177664)%Q) by reflexivity.
  destruct (@nn_cases _ Ny) as [Iy|Fy].
  { split; [ apply round2_fnn, Nx | ]. left. unfold Binary64.round2. rewrite Iy. exact Iy. }
  destruct (@fle_finite _ _ H Fy) as [Fx Hv].
  destruct (@round2_cases x Fx) as [(Bx & Ex)|(Bx & cx & Hcx & Nex & Rx)];
    destruct (@round2_cases y Fy) as [(By & Ey)|(By & cy & Hcy & Ney & Ry)].
  - rewrite Ex, Ey. exact H.
  - lra.
  - rewrite Ey. apply (@rounds0_mono (inject_Z cx / 100) (value y)).
    + apply Qle_shift_div_r; [ reflexivity | ].
      assert (Hq : (inject_Z cx <= inject_Z (100 * 2 ^ 46))%Q) by (rewrite <- Zle_Qle; lia).
      change (inject_Z (100 * 2 ^ 46)) with (100 * 70368744177664)%Q in Hq. lra.
    + exact Rx.
    + apply rounds0_self; [ apply Prim2SF_valid | exact Fy ].
  - apply (@rounds0_mono (inject_Z cx / 100) (inject_Z cy / 100)).
    + assert (Hc : cx <= cy).
      { apply (@nearest_even_mono cx cy 0 (100 * value x) (100 * value y));
          [ lra | assumption | assumption ]. }
      rewrite Zle_Qle in Hc. unfold Qdiv. apply Qmult_le_compat_r; [ exact Hc | ].
      discriminate.
    + exact Rx.
    + exact Ry.
Qed.

(** *** The bracket loop is monotone *)

Lemma sub_self_value (x : float) :
  nonneg x -> nonneg (x - x) /\ (value (x - x) == 0)%Q.
Proof.
  intros Hx. unfold nonneg, value. rewrite sub_spec. unfold SF64sub.
  destruct (SFsub_self _ Hx) as [s Hs]. rewrite Hs. split; [ exact I | reflexivity ].
Qed.

(** What [min(remaining, width)] takes from two incomes, and what it
    leaves of them. *)
Lemma float_slice_mono (rem1 rem2 w : float) :
  nonneg rem1 -> nonneg rem2 -> (value rem1 <= value rem2)%Q ->
  w = infinity \/ nonneg w ->
  let s1 := if PrimFloat.ltb w rem1 then w else rem1 in
  let s2 := if PrimFloat.ltb w rem2 then w else rem2 in
  nonneg s1 /\ nonneg s2 /\ (value s1 <= value s2)%Q
  /\ nonneg (rem1 - s1) /\ nonneg (rem2 - s2)
  /\ (value (rem1 - s1) <= value (rem2 - s2))%Q.
Proof.
  intros H1 H2 Hv [->|Hw]; cbv zeta.
  - rewrite (@min_infinity _ H1), (@min_infinity _ H2).
    destruct (@sub_self_value rem1 H1) as [N1 V1].
    destruct (@sub_self_value rem2 H2) as [N2 V2].
    repeat split; try assumption. lra.
  - pose proof (ltb_value w rem1 Hw H1) as L1. pose proof (ltb_value w rem2 Hw H2) as L2.
    destruct (@sub_self_value rem1 H1) as [N1 V1].
    destruct (@sub_self_value rem2 H2) as [N2 V2].
    destruct (PrimFloat.ltb w rem1) eqn:E1; destruct (PrimFloat.ltb w rem2) eqn:E2.
    + assert (A1 : (value w < value rem1)%Q) by (apply L1; reflexivity).
      assert (A2 : (value w < value rem2)%Q) by (apply L2; reflexivity).
      destruct (@sub_below rem1 w H1 Hw ltac:(lra)) as [B1 _].
      destruct (@sub_below rem2 w H2 Hw ltac:(lra)) as [B2 _].
      repeat split; try assumption; try lra.
      apply sub_mono; try assumption; lra.
    + assert (A1 : (value w < value rem1)%Q) by (apply L1; reflexivity).
      assert (A2 : ~ (value w < value rem2)%Q) by (intros A; apply L2 in A; discriminate).
      exfalso. lra.
    + assert (A2 : (value w < value rem2)%Q) by (apply L2; reflexivity).
      destruct (@sub_below rem2 w H2 Hw ltac:(lra)) as [B2 _].
      pose proof (@value_nonneg _ B2).
      assert (A1 : ~ (value w < value rem1)%Q) by (intros A; apply L1 in A; discriminate).
      repeat split; try assumption; try lra.
    + repeat split; try assumption; lra.
Qed.

(** The rates of the table are finite and not negative. *)
Definition table_rates (tbl : list (float * float)) : Prop :=
  Forall (fun b => nonneg (snd b)) tbl.

Lemma brackets_rates : table_rates INCOME_TAX_BRACKETS.
Proof. repeat constructor. Qed.

(** The width of the first bracket of a table. *)
Lemma first_width (prev l r : float) (rest : list (float * float)) :
  table_widths prev ((l, r) :: rest) ->
  (PrimFloat.sub l prev = infinity \/ nonneg (PrimFloat.sub l prev))
  /\ (rest <> [] -> table_widths l rest).
Proof.
  cbn [table_widths]. destruct rest as [|b rest].
  - intros H. split; [ left; exact H | intros C; contradiction ].
  - intros [H Hr]. split; [ right; rewrite H; exact I | intros _; exact Hr ].
Qed.

Lemma mul_fnn (x c : float) : nonneg x -> nonneg c -> fnn (x * c).
Proof.
  intros Hx Hc.
  exact (@fle_left _ _ (@mul_mono x x c Hx Hx Hc (Qle_refl _))).
Qed.

(** The loop never decreases the total. *)
Lemma loop_total_increases (tbl : list (float * float)) :
  forall st : @loop_state float,
    table_widths (st_previous_bracket_limit st) tbl -> table_rates tbl ->
    nonneg (st_remaining_income st) -> fnn (st_total_tax st) ->
    fle (st_total_tax st) (st_total_tax (bracket_loop tbl st)).
Proof.
  induction tbl as [|[l r] rest IH]; intros st Hw Hr Hn Ht; [ contradiction | ].
  cbn [bracket_loop].
  change (leb (st_remaining_income st) zero)
    with (PrimFloat.leb (st_remaining_income st) 0).
  destruct (PrimFloat.leb (st_remaining_income st) 0); [ apply fle_refl, Ht | ].
  destruct (@first_width _ _ _ _ Hw) as [Hwidth Hrest].
  inversion Hr as [|b tl Hrate Hrates]; subst b tl. cbn [snd] in Hrate.
  destruct (@float_slice_mono _ _ _ Hn Hn (Qle_refl _) Hwidth) as (Ns & _ & _ & Nr & _ & _).
  set (s := if PrimFloat.ltb (PrimFloat.sub l (st_previous_bracket_limit st))
                             (st_remaining_income st)
            then PrimFloat.sub l (st_previous_bracket_limit st)
            else st_remaining_income st) in *.
  assert (Hstep : fle (st_total_tax st) (st_total_tax (bracket_step st l r))).
  { cbn [bracket_step st_total_tax]. apply add_increases; [ exact Ht | ].
    apply (@mul_fnn s r Ns Hrate). }
  destruct rest as [|b rest'].
  - cbn [bracket_loop]. exact Hstep.
  - eapply fle_trans; [ exact Hstep | ].
    apply IH.
    + cbn [bracket_step st_previous_bracket_limit]. apply Hrest. discriminate.
    + exact Hrates.
    + cbn [bracket_step st_remaining_income]. exact Nr.
    + exact (@fle_right _ _ Hstep).
Qed.

(** More income remaining and more tax so far give more tax in the end. *)
Lemma loop_mono (tbl : list (float * float)) :
  forall st1 st2 : @loop_state float,
    table_widths (st_previous_bracket_limit st1) tbl -> table_rates tbl ->
    st_previous_bracket_limit st1 = st_previous_bracket_limit st2 ->
    nonneg (st_remaining_income st1) -> nonneg (st_remaining_income st2) ->
    (value (st_remaining_income st1) <= value (st_remaining_income st2))%Q ->
    fle (st_total_tax st1) (st_total_tax st2) ->
    fle (st_total_tax (bracket_loop tbl st1)) (st_total_tax (bracket_loop tbl st2)).
Proof.
  induction tbl as [|[l r] rest IH]; intros st1 st2 Hw Hr Hp N1 N2 Hv Ht;
    [ contradiction | ].
  assert (Hw2 : table_widths (st_previous_bracket_limit st2) ((l, r) :: rest))
    by (rewrite <- Hp; exact Hw).
  cbn [bracket_loop].
  change (leb (st_remaining_income st1) zero)
    with (PrimFloat.leb (st_remaining_income st1) 0).
  change (leb (st_remaining_income st2) zero)
    with (PrimFloat.leb (st_remaining_income st2) 0).
  destruct (PrimFloat.leb (st_remaining_income st1) 0) eqn:B1.
  - eapply fle_trans; [ exact Ht | ].
    exact (@loop_total_increases ((l, r) :: rest) st2 Hw2 Hr N2 (@fle_right _ _ Ht)).
  - assert (B2 : PrimFloat.leb (st_remaining_income st2) 0 = false).
    { destruct (PrimFloat.leb (st_remaining_income st2) 0) eqn:B2; [ exfalso | reflexivity ].
      pose proof (@zero_of_nonneg _ N2 B2) as Z2.
      pose proof (@value_nonneg _ N1) as P1.
      assert (Z1 : PrimFloat.leb (st_remaining_income st1) 0 = true).
      { apply (leb_value _ 0 N1 I). change (value 0) with 0%Q. lra. }
      congruence. }
    rewrite B2.
    destruct (@first_width _ _ _ _ Hw) as [Hwidth Hrest].
    inversion Hr as [|b tl Hrate Hrates]; subst b tl. cbn [snd] in Hrate.
    destruct (@float_slice_mono _ _ _ N1 N2 Hv Hwidth) as (Ns1 & Ns2 & Vs & Nr1 & Nr2 & Vr).
    assert (Hstep : fle (st_total_tax (bracket_step st1 l r))
                        (st_total_tax (bracket_step st2 l r))).
    { cbn [bracket_step st_total_tax]. apply add_mono; [ exact Ht | ].
      unfold py_min. rewrite <- Hp.
      apply mul_mono; assumption. }
    destruct rest as [|b rest'].
    + cbn [bracket_loop]. exact Hstep.
    + apply IH.
      * cbn [bracket_step st_previous_bracket_limit]. apply Hrest. discriminate.
      * exact Hrates.
      * reflexivity.
      * cbn [bracket_step st_remaining_income]. exact Nr1.
      * cbn [bracket_step st_remaining_income]. unfold py_min. rewrite <- Hp. exact Nr2.
      * cbn [bracket_step st_remaining_income]. unfold py_min. rewrite <- Hp. exact Vr.
      * exact Hstep.
Qed.

Lemma fle_zero (x : float) : fnn x -> fle 0 x.
Proof.
  intros H. destruct (@nn_cases _ H) as [Ix|F].
  - split; [ exact I | left; exact Ix ].
  - apply fle_values; [ exact I | exact F | ].
    change (value 0) with 0%Q. apply value_nonneg, F.
Qed.

(** The total income tax of finite incomes. *)
Lemma total_tax_fle (T1 T2 : float) :
  nonneg T1 -> nonneg T2 -> (value T1 <= value T2)%Q ->
  exists r1 r2,
    calculate_income_tax T1 = ret r1
    /\ calculate_income_tax T2 = ret r2
    /\ fle (total_tax r1) (total_tax r2).
Proof.
  intros N1 N2 Hv.
  assert (Hpos : forall T : float, nonneg T -> PrimFloat.leb T 0 = false ->
                                   PrimFloat.ltb 0 T = true).
  { intros T N Hz. destruct (@positive_of_nonneg _ N Hz) as (m & e & E).
    rewrite ltb_spec, E. reflexivity. }
  assert (Hloop : forall T : float, nonneg T -> PrimFloat.leb T 0 = false ->
            calculate_income_tax T
            = ret (let st := bracket_loop INCOME_TAX_BRACKETS (init_state T) in
                   {| total_tax := round2 (st_total_tax st);
                      effective_rate :=
                        round2 (mul (fdiv (st_total_tax st) T) (of_int 100));
                      bracket_breakdown := st_bracket_breakdown st |})).
  { intros T N Hz.
    exact (@calculate_income_tax_loop float Binary64.binary64 T (Hpos T N Hz)). }
  assert (Hzero : forall T : float, PrimFloat.leb T 0 = true ->
            calculate_income_tax T
            = ret {| total_tax := zero; effective_rate := zero;
                     bracket_breakdown := [] |}).
  { intros T Hz. exact (@calculate_income_tax_nonpositive float Binary64.binary64 T Hz). }
  destruct (PrimFloat.leb T1 0) eqn:Z1.
  - rewrite (Hzero T1 Z1).
    destruct (PrimFloat.leb T2 0) eqn:Z2.
    + rewrite (Hzero T2 Z2). do 2 eexists. split; [ reflexivity | ].
      split; [ reflexivity | ]. apply fle_refl. exact I.
    + rewrite (Hloop T2 N2 Z2). do 2 eexists. split; [ reflexivity | ].
      split; [ reflexivity | ]. cbv zeta. cbn [total_tax].
      apply fle_zero. apply round2_fnn.
      pose proof (@loop_total_increases INCOME_TAX_BRACKETS (init_state T2)
                    brackets_widths brackets_rates N2 I) as H.
      exact (@fle_right _ _ H).
  - assert (Z2 : PrimFloat.leb T2 0 = false).
    { destruct (PrimFloat.leb T2 0) eqn:Z2; [ exfalso | reflexivity ].
      pose proof (@zero_of_nonneg _ N2 Z2) as V2.
      pose proof (@value_nonneg _ N1) as P1.
      assert (C : PrimFloat.leb T1 0 = true).
      { apply (leb_value _ 0 N1 I). change (value 0) with 0%Q. lra. }
      congruence. }
    rewrite (Hloop T1 N1 Z1), (Hloop T2 N2 Z2).
    do 2 eexists. split; [ reflexivity | ]. split; [ reflexivity | ].
    cbv zeta. cbn [total_tax]. apply round2_mono.
    assert (H00 : fle (st_total_tax (init_state T1)) (st_total_tax (init_state T2)))
      by (apply fle_refl; exact I).
    pose proof (@loop_mono INCOME_TAX_BRACKETS (init_state T1) (init_state T2)
                  brackets_widths brackets_rates eq_refl N1 N2 Hv H00) as HL.
    exact HL.
Qed.

Lemma leb_zero_fnn (x : float) : PrimFloat.leb 0 x = true -> fnn x.
Proof.
  rewrite leb_spec, Binary64.Prim2SF_zero. unfold fnn.
  destruct (Prim2SF x) as [s|[]| |[] m e]; cbn; try discriminate; intros _; exact I.
Qed.

Lemma infinity_of_spec (x : float) : Prim2SF x = S754_infinity false -> x = infinity.
Proof.
  intros H. rewrite <- (SF2Prim_Prim2SF x), H. reflexivity.
Qed.

(** [calculate_income_tax] is monotone on floats: for [0 <= T1 <= T2],
    infinite or not, the total tax of [T1] is at most that of [T2]. *)
Lemma float_total_tax_monotone (T1 T2 : float) :
  PrimFloat.leb 0 T1 = true -> PrimFloat.leb T1 T2 = true ->
  exists r1 r2,
    calculate_income_tax T1 = ret r1
    /\ calculate_income_tax T2 = ret r2
    /\ PrimFloat.leb (total_tax r1) (total_tax r2) = true.
Proof.
  intros H0 H12. pose proof (leb_zero_fnn H0) as N1.
  pose proof (leb_fle N1 H12) as H. pose proof (@fle_right _ _ H) as N2.
  assert (Hinf : exists r, calculate_income_tax infinity = ret r
                           /\ total_tax r = infinity).
  { eexists. split; [ vm_compute; reflexivity | reflexivity ]. }
  destruct Hinf as (ri & Hri & Hti).
  assert (Hfin : forall T : float, nonneg T ->
            exists r, calculate_income_tax T = ret r /\ fnn (total_tax r)).
  { intros T N. destruct (@total_tax_fle T T N N (Qle_refl _)) as (r & r' & E & _ & F).
    exists r. split; [ exact E | exact (@fle_left _ _ F) ]. }
  destruct (@nn_cases _ N2) as [I2|F2].
  - apply infinity_of_spec in I2. subst T2.
    destruct (@nn_cases _ N1) as [I1|F1].
    + apply infinity_of_spec in I1. subst T1.
      exists ri, ri. split; [ exact Hri | ]. split; [ exact Hri | ].
      rewrite Hti. reflexivity.
    + destruct (Hfin T1 F1) as (r1 & E1 & Fr).
      exists r1, ri. split; [ exact E1 | ]. split; [ exact Hri | ].
      rewrite Hti. apply fle_leb. split; [ exact Fr | left; reflexivity ].
  - destruct (@fle_finite _ _ H F2) as [F1 Hv].
    destruct (@total_tax_fle T1 T2 F1 F2 Hv) as (r1 & r2 & E1 & E2 & F).
    exists r1, r2. split; [ exact E1 | ]. split; [ exact E2 | ].
    apply fle_leb, F.
Qed.

(** *** Negative incomes: the mirror image *)

(** The sign given to [binary_round_aux] goes to its result unchanged. *)
Lemma binary_round_aux_opp (mx ex : Z) (lx : location) :
  binary_round_aux prec emax true mx ex lx
  = SFopp (binary_round_aux prec emax false mx ex lx).
Proof.
  unfold binary_round_aux.
  destruct (shr_fexp prec emax mx ex lx) as [mrs' e'].
  destruct (shr_fexp prec emax _ e' loc_Exact) as [mrs'' e''].
  destruct (shr_m mrs'') as [|p|p]; try reflexivity.
  destruct (e'' <=? emax - prec); reflexivity.
Qed.

(** [y] is the float [p] with the opposite sign. *)
Definition mirror (y p : float) : Prop := Prim2SF y = SFopp (Prim2SF p).

Lemma mirror_abs (g : float) :
  PrimFloat.ltb g 0 = true -> mirror g (PrimFloat.abs g) /\ fnn (PrimFloat.abs g).
Proof.
  intros H. apply Binary64.ltb_neg_zero in H. unfold mirror, fnn. rewrite abs_spec.
  destruct H as [H|(m & e & H)]; rewrite H; split; reflexivity || exact I.
Qed.

Lemma mul_mirror (y p c : float) :
  mirror y p -> fnn p -> nonneg c ->
  mirror (y * c) (p * c).
Proof.
  unfold mirror, fnn, nonneg. rewrite !mul_spec. unfold SF64mul. intros -> Hp Hc.
  destruct (Prim2SF p) as [s|[]| |[] m e]; try contradiction;
    destruct (Prim2SF c) as [sc|sc| |[] mc ec]; try contradiction;
    cbn [SFopp SFmul negb xorb];
    solve [ reflexivity
          | apply binary_round_aux_opp
          | repeat (match goal with b : bool |- _ => destruct b end); reflexivity ].
Qed.

Lemma round2_mirror (y p : float) :
  mirror y p -> fnn p -> mirror (Binary64.round2 y) (Binary64.round2 p).
Proof.
  unfold mirror, fnn. intros Hy Hp.
  assert (Habs : PrimFloat.leb Binary64.two46 (PrimFloat.abs y)
                 = PrimFloat.leb Binary64.two46 (PrimFloat.abs p)).
  { rewrite !leb_spec, !abs_spec, Hy. destruct (Prim2SF p) as [s|s| |s m e]; reflexivity. }
  unfold Binary64.round2. rewrite Habs.
  destruct (Prim2SF p) as [s|[]| |[] m e] eqn:E; try contradiction;
    cbn [SFopp negb] in Hy; rewrite Hy.
  - rewrite Hy, E. reflexivity.
  - rewrite Hy, E. reflexivity.
  - destruct (PrimFloat.leb Binary64.two46 (PrimFloat.abs p)).
    + rewrite Hy, E. reflexivity.
    + rewrite opp_spec. reflexivity.
Qed.

(** The mirror image of a positive float is below zero. *)
Lemma mirror_negative (y p : float) :
  mirror y p -> PrimFloat.ltb 0 p = true -> PrimFloat.ltb y 0 = true.
Proof.
  unfold mirror. intros Hy Hp. apply Binary64.ltb_zero_pos in Hp.
  rewrite ltb_spec, Hy, Binary64.Prim2SF_zero.
  destruct Hp as [Hp|(m & e & Hp)]; rewrite Hp; reflexivity.
Qed.

(** From a positive float upwards the floats are positive. *)
Lemma fle_positive (a x : float) :
  fle a x -> PrimFloat.ltb 0 a = true -> PrimFloat.ltb 0 x = true.
Proof.
  intros H Ha. pose proof (@fle_left _ _ H) as Na.
  rewrite ltb_spec, Binary64.Prim2SF_zero in Ha |- *.
  destruct H as [_ [I|(Fa & Fx & V)]]; [ rewrite I; reflexivity | ].
  unfold nonneg_finite in Fa, Fx.
  destruct (Prim2SF a) as [sa|sa| |[] ma ea]; try contradiction; try discriminate.
  destruct (Prim2SF x) as [sx|sx| |[] mx ex]; try contradiction.
  - exfalso. cbn [SFval] in V. pose proof (posval ma ea). lra.
  - reflexivity.
Qed.

(** The order of two negative floats is the reverse of the order of their
    magnitudes. *)
Lemma leb_negative (g t : float) :
  PrimFloat.ltb t 0 = true -> PrimFloat.leb g t = true ->
  fle (PrimFloat.abs t) (PrimFloat.abs g).
Proof.
  intros Ht H. apply Binary64.ltb_neg_zero in Ht.
  apply leb_fle.
  - unfold fnn. rewrite abs_spec. destruct Ht as [Ht|(m & e & Ht)]; rewrite Ht; exact I.
  - rewrite leb_spec in H |- *. rewrite !abs_spec. unfold SFleb in *.
    destruct Ht as [Ht|(m & e & Ht)]; rewrite Ht in *.
    + destruct (Prim2SF g) as [s|[]| |[] mg eg]; try discriminate; reflexivity.
    + destruct (Prim2SF g) as [s|[]| |[] mg eg]; try discriminate; try reflexivity.
      cbn [SFabs SFcompare] in *.
      rewrite (Z.compare_antisym eg e).
      destruct (eg ?= e) eqn:C; cbn [CompOpp] in *; try discriminate; try reflexivity.
      pose proof (Pos.compare_cont_antisym mg m Eq) as A. cbn [CompOpp] in A.
      rewrite <- A.
      destruct (Pos.compare_cont Eq mg m); cbn [CompOpp] in *;
        try discriminate; reflexivity.
Qed.

(** Multiplication by a positive rate, the infinity included. *)
Lemma mul_mono_ext (x1 x2 c : float) :
  fle x1 x2 -> PrimFloat.ltb 0 c = true -> nonneg c -> fle (x1 * c) (x2 * c).
Proof.
  intros H Hpos Hc. pose proof (@fle_left _ _ H) as N1. pose proof (@fle_right _ _ H) as N2.
  assert (Hinf : forall x : float, Prim2SF x = S754_infinity false ->
                                   Prim2SF (x * c) = S754_infinity false).
  { intros x Hx. rewrite mul_spec, Hx. apply Binary64.ltb_zero_pos in Hpos.
    unfold nonneg in Hc.
    destruct Hpos as [Hp|(m & e & Hp)]; rewrite Hp in *; [ contradiction | reflexivity ]. }
  destruct (@nn_cases _ N2) as [I2|F2].
  - destruct (@nn_cases _ N1) as [I1|F1].
    + split; [ unfold fnn; rewrite (Hinf x1 I1); exact I | left; exact (Hinf x2 I2) ].
    + split; [ apply mul_fnn; assumption | left; exact (Hinf x2 I2) ].
  - destruct (@fle_finite _ _ H F2) as [F1 V]. apply mul_mono; assumption.
Qed.

(** For an income of [-0.08] or below, a flat rate gives an amount below
    zero when it does so for [0.08]. *)
Lemma flat_rate_negative (g c : float) :
  PrimFloat.leb g (lit (-8) 100) = true ->
  PrimFloat.ltb 0 c = true -> nonneg c ->
  PrimFloat.ltb 0 (Binary64.round2 (lit 8 100 * c)) = true ->
  PrimFloat.ltb (Binary64.round2 (g * c)) 0 = true.
Proof.
  intros Hg Hpos Hc H8.
  assert (Ht : PrimFloat.ltb (lit (-8) 100) 0 = true) by reflexivity.
  pose proof (@leb_negative g (lit (-8) 100) Ht Hg) as Habs.
  change (PrimFloat.abs (lit (-8) 100)) with (lit 8 100 : float) in Habs.
  assert (Hneg : PrimFloat.ltb g 0 = true).
  { rewrite ltb_spec, Binary64.Prim2SF_zero. rewrite leb_spec in Hg.
    change (Prim2SF (lit (-8) 100)) with (S754_finite true 5764607523034235 (-56)) in Hg.
    destruct (Prim2SF g) as [s|[]| |[] mg eg]; try discriminate; reflexivity. }
  destruct (@mirror_abs g Hneg) as [Mg Ng].
  pose proof (@mul_mirror _ _ c Mg Ng Hc) as Mm.
  pose proof (@mul_mono_ext _ _ c Habs Hpos Hc) as Hm.
  pose proof (@round2_mirror _ _ Mm (@fle_right _ _ Hm)) as Mr.
  pose proof (@round2_mono _ _ Hm) as Hr.
  exact (@mirror_negative _ _ Mr (@fle_positive _ _ Hr H8)).
Qed.

End Nearest.

(** ** Exact decimal amounts: the arithmetic of the specification *)

Module Decimal.

Local Open Scope Q_scope.

(** An exact amount, or one of the special values of a float. *)
Inductive dec : Type :=
  | Fin (q : Q)
  | PInf
  | NInf
  | NaN.

Definition opp (x : dec) : dec :=
  match x with
  | Fin a => Fin (- a)
  | PInf => NInf
  | NInf => PInf
  | NaN => NaN
  end.

Definition add (x y : dec) : dec :=
  match x, y with
  | NaN, _ | _, NaN => NaN
  | Fin a, Fin b => Fin (a + b)
  | PInf, NInf | NInf, PInf => NaN
  | PInf, _ | _, PInf => PInf
  | NInf, _ | _, NInf => NInf
  end.

Definition sub (x y : dec) : dec := add x (opp y).

(** An infinity [i] scaled by the sign of [a]. *)
Definition scale_inf (a : Q) (i : dec) : dec :=
  match Qcompare a 0 with
  | Eq => NaN
  | Gt => i
  | Lt => opp i
  end.

Definition mul (x y : dec) : dec :=
  match x, y with
  | NaN, _ | _, NaN => NaN
  | Fin a, Fin b => Fin (a * b)
  | Fin a, i | i, Fin a => scale_inf a i
  | PInf, PInf | NInf, NInf => PInf
  | PInf, NInf | NInf, PInf => NInf
  end.

Definition div (x y : dec) : dec :=
  match x, y with
  | NaN, _ | _, NaN => NaN
  | Fin a, Fin b => if Qeq_bool b 0 then scale_inf a PInf else Fin (a / b)
  | Fin _, _ => Fin 0
  | i, Fin b => if Qle_bool 0 b then i else opp i
  | _, _ => NaN
  end.

(** The order of two values; none when one is NaN. *)
Definition compare (x y : dec) : option comparison :=
  match x, y with
  | NaN, _ | _, NaN => None
  | Fin a, Fin b => Some (Qcompare a b)
  | PInf, PInf | NInf, NInf => Some Eq
  | PInf, _ | _, NInf => Some Gt
  | NInf, _ | _, PInf => Some Lt
  end.

Definition eqb (x y : dec) : bool :=
  match compare x y with Some Eq => true | _ => false end.

Definition ltb (x y : dec) : bool :=
  match compare x y with Some Lt => true | _ => false end.

Definition leb (x y : dec) : bool :=
  match compare x y with Some (Lt | Eq) => true | _ => false end.

(** The integer nearest to [q], ties to even. *)
Definition round_half_even (q : Q) : Z :=
  let f := Qfloor q in
  match Qcompare (q - inject_Z f) (1 # 2) with
  | Lt => f
  | Gt => (f + 1)%Z
  | Eq => if Z.even f then f else (f + 1)%Z
  end.

(** The nearest amount in whole cents, ties to even. *)
Definition round_cents (q : Q) : Q := inject_Z (round_half_even (q * 100)) / 100.

(** [round(x, 2)] *)
Definition round2 (x : dec) : dec :=
  match x with
  | Fin q => Fin (round_cents q)
  | _ => x
  end.

Definition of_int (z : Z) : dec := Fin (inject_Z z).

(** [x] and [y] are amounts at most [tol] apart. *)
Definition within (tol : Q) (x y : dec) : Prop :=
  match x, y with
  | Fin a, Fin b => Qabs (a - b) <= tol
  | _, _ => False
  end.

(** [x] is the amount [q]. *)
Definition is_amount (x : dec) (q : Q) : Prop :=
  match x with
  | Fin a => a == q
  | _ => False
  end.

(** *** Rounding to cents *)

(** Turn an equation on [Qcompare] into the order it states. *)
Ltac qcompare_in H :=
  first [ apply Qeq_alt in H | apply Qlt_alt in H | apply Qgt_alt in H ].

Lemma round_half_even_close (q : Q) :
  Qabs (inject_Z (round_half_even q) - q) <= 1 # 2.
Proof.
  unfold round_half_even.
  pose proof (Qfloor_le q) as Hlo. pose proof (Qlt_floor q) as Hhi.
  rewrite inject_Z_plus in Hhi.
  apply Qabs_Qle_condition.
  destruct (Qcompare (q - inject_Z (Qfloor q)) (1 # 2)) eqn:E.
  - apply Qeq_alt in E. destruct (Z.even (Qfloor q));
      rewrite ?inject_Z_plus; change (inject_Z 1) with 1 in *; split; lra.
  - apply Qlt_alt in E. change (inject_Z 1) with 1 in *. split; lra.
  - apply Qgt_alt in E. rewrite inject_Z_plus.
    change (inject_Z 1) with 1 in *. split; lra.
Qed.

Lemma round_half_even_mono (p q : Q) :
  p <= q -> (round_half_even p <= round_half_even q)%Z.
Proof.
  intros H.
  destruct (Z.eq_dec (Qfloor p) (Qfloor q)) as [Ef|Nf].
  - unfold round_half_even. rewrite Ef.
    destruct (Qcompare (q - inject_Z (Qfloor q)) (1 # 2)) eqn:E2;
    destruct (Qcompare (p - inject_Z (Qfloor q)) (1 # 2)) eqn:E1;
    try (destruct (Z.even (Qfloor q))); try lia; exfalso;
    qcompare_in E1; qcompare_in E2; lra.
  - pose proof (Qfloor_resp_le _ _ H) as Hf.
    assert (Hlt : (Qfloor p + 1 <= Qfloor q)%Z) by lia.
    transitivity (Qfloor p + 1)%Z; [ | transitivity (Qfloor q); [ exact Hlt | ] ].
    + unfold round_half_even.
      destruct (Qcompare _ _); try destruct (Z.even _); lia.
    + unfold round_half_even.
      destruct (Qcompare _ _); try destruct (Z.even _); lia.
Qed.

Lemma round_half_even_inject (z : Z) : round_half_even (inject_Z z) = z.
Proof.
  unfold round_half_even. rewrite Qfloor_Z.
  destruct (Qcompare _ _) eqn:E; [ apply Qeq_alt in E | reflexivity | apply Qgt_alt in E ];
    exfalso; lra.
Qed.

Lemma round_cents_close (q : Q) : Qabs (round_cents q - q) <= 1 # 200.
Proof.
  unfold round_cents.
  pose proof (round_half_even_close (q * 100)) as H.
  apply Qabs_Qle_condition in H. apply Qabs_Qle_condition.
  set (z := inject_Z (round_half_even (q * 100))) in *.
  unfold Qdiv. change (/ 100) with (1 # 100).
  split; lra.
Qed.

(** *** The order on amounts *)

Lemma leb_Fin (a b : Q) : leb (Fin a) (Fin b) = true <-> a <= b.
Proof.
  unfold leb; simpl. rewrite Qle_alt.
  destruct (Qcompare a b); intuition congruence.
Qed.

Lemma ltb_Fin (a b : Q) : ltb (Fin a) (Fin b) = true <-> a < b.
Proof.
  unfold ltb; simpl. rewrite Qlt_alt.
  destruct (Qcompare a b); intuition congruence.
Qed.

Lemma eqb_Fin (a b : Q) : eqb (Fin a) (Fin b) = true <-> a == b.
Proof.
  unfold eqb; simpl. rewrite Qeq_alt.
  destruct (Qcompare a b); intuition congruence.
Qed.

Lemma leb_Fin_false (a b : Q) : leb (Fin a) (Fin b) = false <-> b < a.
Proof.
  rewrite <- not_true_iff_false, leb_Fin. split; [ apply Qnot_le_lt | apply Qlt_not_le ].
Qed.

Lemma ltb_Fin_false (a b : Q) : ltb (Fin a) (Fin b) = false <-> b <= a.
Proof.
  rewrite <- not_true_iff_false, ltb_Fin. split; [ apply Qnot_lt_le | apply Qle_not_lt ].
Qed.

(** *** The laws of [PyFloat] *)

Lemma round_cents_mono (p q : Q) : p <= q -> round_cents p <= round_cents q.
Proof.
  intros H. unfold round_cents.
  assert (Hz : (round_half_even (p * 100) <= round_half_even (q * 100))%Z).
  { apply round_half_even_mono. lra. }
  rewrite Zle_Qle in Hz. unfold Qdiv. change (/ 100) with (1 # 100). lra.
Qed.

Lemma dec_ltb_zero_leb (x : dec) :
  ltb (of_int 0) x = true -> leb x (of_int 0) = false.
Proof.
  destruct x as [a| | |]; try discriminate; try reflexivity.
  unfold of_int. rewrite ltb_Fin, leb_Fin_false. trivial.
Qed.

Lemma dec_ltb_zero_eqb (x : dec) :
  ltb (of_int 0) x = true -> eqb x (of_int 0) = false.
Proof.
  destruct x as [a| | |]; try discriminate; try reflexivity.
  unfold of_int. rewrite ltb_Fin, <- not_true_iff_false, eqb_Fin.
  change (inject_Z 0) with 0. intros H E. lra.
Qed.

Lemma dec_ltb_zero_le (x : dec) :
  ltb (of_int 0) x = true -> leb (of_int 0) x = true.
Proof.
  destruct x as [a| | |]; try discriminate; try reflexivity.
  unfold of_int. rewrite ltb_Fin, leb_Fin. apply Qlt_le_weak.
Qed.

Lemma dec_ltb_le_zero (x : dec) :
  ltb x (of_int 0) = true -> leb x (of_int 0) = true.
Proof.
  destruct x as [a| | |]; try discriminate; try reflexivity.
  unfold of_int. rewrite ltb_Fin, leb_Fin. apply Qlt_le_weak.
Qed.

Lemma round_cents_nonneg (a : Q) : 0 <= a -> 0 <= round_cents a.
Proof.
  intros H. unfold round_cents.
  assert (Hz : (0 <= round_half_even (a * 100))%Z).
  { rewrite <- (round_half_even_inject 0). apply round_half_even_mono.
    change (inject_Z 0) with 0. lra. }
  apply Qle_shift_div_l; [ reflexivity | ].
  rewrite Qmult_0_l. change 0 with (inject_Z 0). rewrite <- Zle_Qle. exact Hz.
Qed.

Lemma round_cents_nonpos (a : Q) : a <= 0 -> round_cents a <= 0.
Proof.
  intros H. unfold round_cents.
  assert (Hz : (round_half_even (a * 100) <= 0)%Z).
  { rewrite <- (round_half_even_inject 0). apply round_half_even_mono.
    change (inject_Z 0) with 0. lra. }
  apply Qle_shift_div_r; [ reflexivity | ].
  rewrite Qmult_0_l. change 0 with (inject_Z 0). rewrite <- Zle_Qle. exact Hz.
Qed.

Lemma dec_round2_nonneg (x : dec) :
  leb (of_int 0) x = true -> leb (of_int 0) (round2 x) = true.
Proof.
  destruct x as [a| | |]; try discriminate; try reflexivity.
  unfold of_int, round2. rewrite !leb_Fin. apply round_cents_nonneg.
Qed.

Lemma dec_round2_nonpos (x : dec) :
  leb x (of_int 0) = true -> leb (round2 x) (of_int 0) = true.
Proof.
  destruct x as [a| | |]; try discriminate; try reflexivity.
  unfold of_int, round2. rewrite !leb_Fin. apply round_cents_nonpos.
Qed.

Lemma dec_mul_neg_pos (x c : dec) :
  ltb x (of_int 0) = true -> ltb (of_int 0) c = true ->
  leb (mul x c) (of_int 0) = true.
Proof.
  unfold of_int. change (inject_Z 0) with 0.
  destruct x as [a| | |]; try discriminate;
  destruct c as [b| | |]; try discriminate; try reflexivity.
  - rewrite !ltb_Fin. intros Ha Hb.
    change (mul (Fin a) (Fin b)) with (Fin (a * b)). rewrite leb_Fin. nra.
  - rewrite ltb_Fin. intros Ha _.
    change (mul (Fin a) PInf) with (scale_inf a PInf). unfold scale_inf.
    destruct (Qcompare a 0) eqn:E; [ | reflexivity | ]; qcompare_in E; lra.
  - rewrite ltb_Fin. intros _ Hb.
    change (mul NInf (Fin b)) with (scale_inf b NInf). unfold scale_inf.
    destruct (Qcompare b 0) eqn:E; [ | | reflexivity ]; qcompare_in E; lra.
Qed.

#[global] Instance decimal : PyFloat dec := {
  of_int := Decimal.of_int;
  inf := PInf;
  add := Decimal.add;
  sub := Decimal.sub;
  mul := Decimal.mul;
  fdiv := Decimal.div;
  eqb := Decimal.eqb;
  ltb := Decimal.ltb;
  leb := Decimal.leb;
  round2 := Decimal.round2;
  leb_zero_zero := eq_refl;
  ltb_zero_leb := dec_ltb_zero_leb;
  ltb_zero_eqb := dec_ltb_zero_eqb;
  ltb_zero_le := dec_ltb_zero_le;
  ltb_le_zero := dec_ltb_le_zero;
  round2_nonneg := dec_round2_nonneg;
  round2_nonpos := dec_round2_nonpos;
  mul_neg_pos := dec_mul_neg_pos
}.

End Decimal.

(** ** The bracket loop on exact amounts *)

Module DecimalWalk.

Import Decimal(dec, Fin, PInf, NInf, NaN, decimal, round_cents).
Local Open Scope Q_scope.

(** A table walked from the lower bound [lo]: the limits increase, no rate
    is negative, and the last bracket is unbounded. *)
Inductive wf_table : Q -> list (dec * dec) -> Prop :=
  | wf_last (lo r : Q) : 0 <= r -> wf_table lo [ (PInf, Fin r) ]
  | wf_cons (lo hi r : Q) (rest : list (dec * dec)) :
      lo < hi -> 0 <= r -> wf_table hi rest ->
      wf_table lo ((Fin hi, Fin r) :: rest).

Lemma brackets_wf : wf_table 0 INCOME_TAX_BRACKETS.
Proof.
  repeat (apply wf_cons; [ reflexivity | discriminate | ]).
  apply wf_last. discriminate.
Qed.

(** The part of the remaining income [r] taxed in the bracket from [lo] to
    [limit]. *)
Definition slice (lo r : Q) (limit : dec) : Q :=
  match limit with
  | Fin hi => if Decimal.ltb (Fin (hi - lo)) (Fin r) then hi - lo else r
  | _ => r
  end.

(** [limit] is the upper bound of a bracket that starts at [lo]. *)
Definition above (lo : Q) (limit : dec) : Prop :=
  match limit with
  | Fin hi => lo < hi
  | PInf => True
  | _ => False
  end.

Lemma step_total (st : loop_state) (lo r rate : Q) (limit : dec) :
  above lo limit ->
  st_previous_bracket_limit st = Fin lo -> st_remaining_income st = Fin r ->
  st_total_tax (bracket_step st limit (Fin rate))
    = add (st_total_tax st) (Fin (slice lo r limit * rate)).
Proof.
  intros Ha Hp Hr. unfold bracket_step, py_min. rewrite Hp, Hr.
  destruct limit as [hi| | |]; try contradiction; cbn [st_total_tax].
  - change (sub (Fin hi) (Fin lo)) with (Fin (hi - lo)).
    change (ltb (Fin (hi - lo)) (Fin r)) with (Decimal.ltb (Fin (hi - lo)) (Fin r)).
    unfold slice. destruct (Decimal.ltb (Fin (hi - lo)) (Fin r)); reflexivity.
  - reflexivity.
Qed.

Lemma step_remaining (st : loop_state) (lo r rate : Q) (limit : dec) :
  above lo limit ->
  st_previous_bracket_limit st = Fin lo -> st_remaining_income st = Fin r ->
  st_remaining_income (bracket_step st limit (Fin rate))
    = Fin (r - slice lo r limit).
Proof.
  intros Ha Hp Hr. unfold bracket_step, py_min. rewrite Hp, Hr.
  destruct limit as [hi| | |]; try contradiction; cbn [st_remaining_income].
  - change (sub (Fin hi) (Fin lo)) with (Fin (hi - lo)).
    change (ltb (Fin (hi - lo)) (Fin r)) with (Decimal.ltb (Fin (hi - lo)) (Fin r)).
    unfold slice. destruct (Decimal.ltb (Fin (hi - lo)) (Fin r)); reflexivity.
  - reflexivity.
Qed.

Lemma step_amounts (st : loop_state) (lo r rate : Q) (limit : dec) :
  above lo limit ->
  st_previous_bracket_limit st = Fin lo -> st_remaining_income st = Fin r ->
  map (@taxable_amount dec) (st_bracket_breakdown (bracket_step st limit (Fin rate)))
    = map (@taxable_amount dec) (st_bracket_breakdown st)
        ++ [ Fin (round_cents (slice lo r limit)) ].
Proof.
  intros Ha Hp Hr. unfold bracket_step, py_min. rewrite Hp, Hr.
  cbn [st_bracket_breakdown]. rewrite map_app. f_equal.
  destruct limit as [hi| | |]; try contradiction; cbn [map taxable_amount].
  - change (sub (Fin hi) (Fin lo)) with (Fin (hi - lo)).
    change (ltb (Fin (hi - lo)) (Fin r)) with (Decimal.ltb (Fin (hi - lo)) (Fin r)).
    unfold slice. destruct (Decimal.ltb (Fin (hi - lo)) (Fin r)); reflexivity.
  - reflexivity.
Qed.

Lemma step_previous (st : loop_state) (limit rate : dec) :
  st_previous_bracket_limit (bracket_step st limit rate) = limit.
Proof. reflexivity. Qed.

Lemma slice_bounds (lo r : Q) (limit : dec) :
  above lo limit -> 0 < r -> 0 < slice lo r limit <= r.
Proof.
  intros Ha Hr. destruct limit as [hi| | |]; try contradiction; unfold slice, above in *.
  - destruct (Decimal.ltb (Fin (hi - lo)) (Fin r)) eqn:E.
    + apply Decimal.ltb_Fin in E. lra.
    + lra.
  - lra.
Qed.

Lemma slice_mono (lo r1 r2 : Q) (limit : dec) :
  above lo limit -> r1 <= r2 ->
  slice lo r1 limit <= slice lo r2 limit
  /\ r1 - slice lo r1 limit <= r2 - slice lo r2 limit.
Proof.
  intros Ha Hr. destruct limit as [hi| | |]; try contradiction; unfold slice, above in *.
  - destruct (Decimal.ltb (Fin (hi - lo)) (Fin r1)) eqn:E1;
    destruct (Decimal.ltb (Fin (hi - lo)) (Fin r2)) eqn:E2;
    try apply Decimal.ltb_Fin in E1; try apply Decimal.ltb_Fin_false in E1;
    try apply Decimal.ltb_Fin in E2; try apply Decimal.ltb_Fin_false in E2; lra.
  - lra.
Qed.

Lemma slice_last (lo r : Q) : slice lo r PInf = r.
Proof. reflexivity. Qed.

(** The loop stops at once when nothing remains, and else runs the body. *)
Lemma loop_break (table : list (dec * dec)) (st : loop_state) (r : Q) :
  st_remaining_income st = Fin r -> r <= 0 -> bracket_loop table st = st.
Proof.
  intros Hr Hle. destruct table as [|[limit rate] rest]; [ reflexivity | ].
  cbn [bracket_loop]. rewrite Hr.
  change (leb (Fin r) zero) with (Decimal.leb (Fin r) (Fin 0)).
  apply Decimal.leb_Fin in Hle. rewrite Hle. reflexivity.
Qed.

Lemma loop_continue (limit rate : dec) (rest : list (dec * dec))
      (st : loop_state) (r : Q) :
  st_remaining_income st = Fin r -> 0 < r ->
  bracket_loop ((limit, rate) :: rest) st
    = bracket_loop rest (bracket_step st limit rate).
Proof.
  intros Hr Hlt. cbn [bracket_loop]. rewrite Hr.
  change (leb (Fin r) zero) with (Decimal.leb (Fin r) (Fin 0)).
  apply Decimal.leb_Fin_false in Hlt. rewrite Hlt. reflexivity.
Qed.

(** The sum of a list of amounts. *)
Definition Qsum (l : list Q) : Q := fold_right Qplus 0 l.

(** The taxable amounts the loop records are the rounded slices of the
    remaining income, and the slices add up to it. *)
Lemma loop_amounts (table : list (dec * dec)) (lo : Q) :
  wf_table lo table ->
  forall (st : loop_state) (r : Q),
    st_previous_bracket_limit st = Fin lo ->
    st_remaining_income st = Fin r -> 0 <= r ->
    exists slices : list Q,
      map (@taxable_amount dec) (st_bracket_breakdown (bracket_loop table st))
        = map (@taxable_amount dec) (st_bracket_breakdown st)
            ++ map (fun s => Fin (round_cents s)) slices
      /\ Qsum slices == r
      /\ (List.length slices <= List.length table)%nat.
Proof.
  induction 1 as [lo rate Hrate|lo hi rate rest Hlo Hrate Hwf IH];
    intros st r Hp Hr Hr0.
  - destruct (Qlt_le_dec 0 r) as [Hpos|Hzero].
    + exists [r]. rewrite (loop_continue _ _ _ _ Hr Hpos). cbn [bracket_loop].
      rewrite (step_amounts st rate PInf I Hp Hr), slice_last.
      split; [ reflexivity | split ].
      * change (Qsum [r]) with (r + 0). lra.
      * cbn [List.length]. lia.
    + exists []. rewrite (loop_break _ _ Hr Hzero). cbn [map].
      rewrite app_nil_r. split; [ reflexivity | split ].
      * change (Qsum []) with 0. lra.
      * cbn [List.length]. lia.
  - destruct (Qlt_le_dec 0 r) as [Hpos|Hzero].
    + rewrite (loop_continue _ _ _ _ Hr Hpos).
      pose proof (slice_bounds lo (Fin hi) Hlo Hpos) as Hs.
      destruct (IH (bracket_step st (Fin hi) (Fin rate)) (r - slice lo r (Fin hi)))
        as (slices & Ha & Hsum & Hlen).
      * apply step_previous.
      * apply (step_remaining st rate (Fin hi) Hlo Hp Hr).
      * lra.
      * exists (slice lo r (Fin hi) :: slices).
        rewrite Ha, (step_amounts st rate (Fin hi) Hlo Hp Hr), <- app_assoc.
        split; [ reflexivity | split ].
        -- change (Qsum (slice lo r (Fin hi) :: slices))
             with (slice lo r (Fin hi) + Qsum slices). lra.
        -- cbn [List.length]. lia.
    + exists []. rewrite (loop_break _ _ Hr Hzero). cbn [map].
      rewrite app_nil_r. split; [ reflexivity | split ].
      * change (Qsum []) with 0. lra.
      * cbn [List.length]. lia.
Qed.

Lemma fold_add_Fin (qs : list Q) :
  forall a : Q, exists b : Q,
    fold_left add (map Fin qs) (Fin a) = Fin b /\ b == a + Qsum qs.
Proof.
  induction qs as [|q qs IH]; intros a; simpl.
  - exists a. split; [ reflexivity | lra ].
  - destruct (IH (a + q)) as (b & Hb & Hq). exists b.
    split; [ exact Hb | lra ].
Qed.

Lemma Qsum_round_cents (l : list Q) :
  Qabs (Qsum (map round_cents l) - Qsum l) <= inject_Z (Z.of_nat (List.length l)) * (1 # 200).
Proof.
  induction l as [|q l IH].
  - apply Qabs_Qle_condition. cbn [map List.length].
    change (Qsum []) with 0. change (inject_Z (Z.of_nat 0)) with 0. split; lra.
  - cbn [map List.length].
    change (Qsum (round_cents q :: map round_cents l))
      with (round_cents q + Qsum (map round_cents l)).
    change (Qsum (q :: l)) with (q + Qsum l).
    rewrite Nat2Z.inj_succ, <- Z.add_1_r, inject_Z_plus.
    change (inject_Z 1) with 1.
    pose proof (Decimal.round_cents_close q) as Hq.
    apply Qabs_Qle_condition in Hq. apply Qabs_Qle_condition in IH.
    apply Qabs_Qle_condition. split; lra.
Qed.

(** The total tax only grows along the loop. *)
Lemma loop_total (table : list (dec * dec)) (lo : Q) :
  wf_table lo table ->
  forall (st : loop_state) (r t : Q),
    st_previous_bracket_limit st = Fin lo ->
    st_remaining_income st = Fin r -> 0 <= r ->
    st_total_tax st = Fin t ->
    exists t', st_total_tax (bracket_loop table st) = Fin t' /\ t <= t'.
Proof.
  induction 1 as [lo rate Hrate|lo hi rate rest Hlo Hrate Hwf IH];
    intros st r t Hp Hr Hr0 Ht.
  - destruct (Qlt_le_dec 0 r) as [Hpos|Hzero].
    + rewrite (loop_continue _ _ _ _ Hr Hpos). cbn [bracket_loop].
      rewrite (step_total st rate PInf I Hp Hr), Ht.
      eexists; split; [ reflexivity | ]. rewrite slice_last. nra.
    + rewrite (loop_break _ _ Hr Hzero). exists t. split; [ exact Ht | lra ].
  - destruct (Qlt_le_dec 0 r) as [Hpos|Hzero].
    + rewrite (loop_continue _ _ _ _ Hr Hpos).
      pose proof (slice_bounds lo (Fin hi) Hlo Hpos) as Hs.
      destruct (IH (bracket_step st (Fin hi) (Fin rate))
                   (r - slice lo r (Fin hi)) (t + slice lo r (Fin hi) * rate))
        as (t' & Ht' & Hle).
      * apply step_previous.
      * apply (step_remaining st rate (Fin hi) Hlo Hp Hr).
      * lra.
      * rewrite (step_total st rate (Fin hi) Hlo Hp Hr), Ht. reflexivity.
      * exists t'. split; [ exact Ht' | nra ].
    + rewrite (loop_break _ _ Hr Hzero). exists t. split; [ exact Ht | lra ].
Qed.

(** More remaining income and more tax so far end in more total tax. *)
Lemma loop_total_mono (table : list (dec * dec)) (lo : Q) :
  wf_table lo table ->
  forall (st1 st2 : loop_state) (r1 r2 t1 t2 : Q),
    st_previous_bracket_limit st1 = Fin lo ->
    st_previous_bracket_limit st2 = Fin lo ->
    st_remaining_income st1 = Fin r1 -> st_remaining_income st2 = Fin r2 ->
    st_total_tax st1 = Fin t1 -> st_total_tax st2 = Fin t2 ->
    0 <= r1 -> r1 <= r2 -> t1 <= t2 ->
    exists t1' t2',
      st_total_tax (bracket_loop table st1) = Fin t1'
      /\ st_total_tax (bracket_loop table st2) = Fin t2'
      /\ t1' <= t2'.
Proof.
  intros Hwf st1 st2 r1 r2 t1 t2 Hp1 Hp2 Hr1 Hr2 Ht1 Ht2 H0 Hr Ht.
  destruct (Qlt_le_dec 0 r1) as [Hpos|Hzero].
  - revert st1 st2 r1 r2 t1 t2 Hp1 Hp2 Hr1 Hr2 Ht1 Ht2 H0 Hr Ht Hpos.
    induction Hwf as [lo rate Hrate|lo hi rate rest Hlo Hrate Hwf IH];
      intros st1 st2 r1 r2 t1 t2 Hp1 Hp2 Hr1 Hr2 Ht1 Ht2 H0 Hr Ht Hpos.
    + assert (Hpos2 : 0 < r2) by lra.
      rewrite (loop_continue _ _ _ _ Hr1 Hpos), (loop_continue _ _ _ _ Hr2 Hpos2).
      cbn [bracket_loop].
      rewrite (step_total st1 rate PInf I Hp1 Hr1), Ht1.
      rewrite (step_total st2 rate PInf I Hp2 Hr2), Ht2.
      do 2 eexists. repeat split. rewrite !slice_last. nra.
    + assert (Hpos2 : 0 < r2) by lra.
      rewrite (loop_continue _ _ _ _ Hr1 Hpos), (loop_continue _ _ _ _ Hr2 Hpos2).
      pose proof (slice_bounds lo (Fin hi) Hlo Hpos) as Hs1.
      pose proof (slice_bounds lo (Fin hi) Hlo Hpos2) as Hs2.
      pose proof (slice_mono lo (Fin hi) Hlo Hr) as [Hm1 Hm2].
      set (s1 := slice lo r1 (Fin hi)) in *. set (s2 := slice lo r2 (Fin hi)) in *.
      assert (Hp1' := step_previous st1 (Fin hi) (Fin rate)).
      assert (Hp2' := step_previous st2 (Fin hi) (Fin rate)).
      assert (Hr1' := step_remaining st1 rate (Fin hi) Hlo Hp1 Hr1).
      assert (Hr2' := step_remaining st2 rate (Fin hi) Hlo Hp2 Hr2).
      assert (Ht1' := step_total st1 rate (Fin hi) Hlo Hp1 Hr1).
      assert (Ht2' := step_total st2 rate (Fin hi) Hlo Hp2 Hr2).
      rewrite Ht1 in Ht1'. rewrite Ht2 in Ht2'.
      fold s1 in Hr1', Ht1'. fold s2 in Hr2', Ht2'.
      change (add (Fin t1) (Fin (s1 * rate))) with (Fin (t1 + s1 * rate)) in Ht1'.
      change (add (Fin t2) (Fin (s2 * rate))) with (Fin (t2 + s2 * rate)) in Ht2'.
      assert (Htt : t1 + s1 * rate <= t2 + s2 * rate) by nra.
      destruct (Qlt_le_dec 0 (r1 - s1)) as [Hpos'|Hzero'].
      * apply (IH _ _ _ _ _ _ Hp1' Hp2' Hr1' Hr2' Ht1' Ht2'); lra.
      * rewrite (loop_break _ _ Hr1' Hzero').
        destruct (loop_total Hwf _ Hp2' Hr2' ltac:(lra) Ht2') as (t2' & Ht2'' & Hle).
        exists (t1 + s1 * rate), t2'. repeat split; [ exact Ht1' | exact Ht2'' | lra ].
  - rewrite (loop_break _ _ Hr1 Hzero).
    destruct (loop_total Hwf _ Hp2 Hr2 ltac:(lra) Ht2) as (t2' & Ht2' & Hle).
    exists t1, t2'. repeat split; [ exact Ht1 | exact Ht2' | lra ].
Qed.

(** *** Quantitative properties of the engine on amounts *)

Lemma positive_amount (T : Q) : 0 < T -> ltb zero (Fin T) = true.
Proof. intros H. apply (Decimal.ltb_Fin 0 T), H. Qed.

Lemma nonpositive_amount (T : Q) : T <= 0 -> leb (Fin T) zero = true.
Proof. intros H. apply (Decimal.leb_Fin T 0), H. Qed.

(** The loop variables on entry, for the taxable income [T]. *)
Lemma init_previous (T : Q) : st_previous_bracket_limit (init_state (Fin T)) = Fin 0.
Proof. reflexivity. Qed.

Lemma init_remaining (T : Q) : st_remaining_income (init_state (Fin T)) = Fin T.
Proof. reflexivity. Qed.

Lemma init_total (T : Q) : st_total_tax (init_state (Fin T)) = Fin 0.
Proof. reflexivity. Qed.

(** The recorded taxable amounts add up to the taxable income, within half
    a cent per bracket. *)
Lemma breakdown_sum (T : Q) :
  0 <= T ->
  exists r,
    calculate_income_tax (Fin T) = ret r
    /\ Decimal.within (5 * (1 # 200))
         (sum_taxable_amounts (bracket_breakdown r)) (Fin T).
Proof.
  intros H0. destruct (Qlt_le_dec 0 T) as [Hpos|Hzero].
  - rewrite (calculate_income_tax_loop _ (positive_amount Hpos)).
    eexists; split; [ reflexivity | ]. cbv zeta. cbn [bracket_breakdown].
    destruct (loop_amounts brackets_wf _ (init_previous T) (init_remaining T) H0)
      as (slices & Ha & Hsum & Hlen).
    unfold sum_taxable_amounts. rewrite Ha.
    cbn [init_state st_bracket_breakdown map app].
    rewrite <- (map_map round_cents Fin).
    destruct (fold_add_Fin (map round_cents slices) 0) as (b & Hb & Hq).
    change zero with (Fin 0). rewrite Hb. unfold Decimal.within.
    pose proof (Qsum_round_cents slices) as Hround.
    assert (Hn : inject_Z (Z.of_nat (List.length slices)) <= 5).
    { change 5 with (inject_Z 5). rewrite <- Zle_Qle.
      change (List.length (@INCOME_TAX_BRACKETS dec decimal)) with 5%nat in Hlen. lia. }
    apply Qabs_Qle_condition in Hround. apply Qabs_Qle_condition.
    split; nra.
  - rewrite (calculate_income_tax_nonpositive _ (nonpositive_amount Hzero)).
    eexists; split; [ reflexivity | ].
    change (Qabs (0 - T) <= 5 * (1 # 200)).
    apply Qabs_Qle_condition. split; lra.
Qed.

(** The total tax of a positive income, before and after rounding. *)
Lemma total_tax_amount (T : Q) :
  0 < T ->
  exists r t,
    calculate_income_tax (Fin T) = ret r
    /\ st_total_tax (bracket_loop INCOME_TAX_BRACKETS (init_state (Fin T))) = Fin t
    /\ total_tax r = Fin (round_cents t) /\ 0 <= t.
Proof.
  intros Hpos.
  destruct (loop_total brackets_wf _ (init_previous T) (init_remaining T)
              ltac:(lra) (init_total T)) as (t & Ht & Hle).
  rewrite (calculate_income_tax_loop _ (positive_amount Hpos)).
  eexists; exists t. split; [ reflexivity | ]. cbv zeta. cbn [total_tax].
  rewrite Ht. repeat split; assumption.
Qed.

Lemma total_tax_monotone (T1 T2 : Q) :
  0 <= T1 -> T1 <= T2 ->
  exists r1 r2,
    calculate_income_tax (Fin T1) = ret r1
    /\ calculate_income_tax (Fin T2) = ret r2
    /\ leb (total_tax r1) (total_tax r2) = true.
Proof.
  intros H0 H12. destruct (Qlt_le_dec 0 T1) as [Hpos1|Hzero1].
  - assert (Hpos2 : 0 < T2) by lra.
    destruct (total_tax_amount Hpos1) as (r1 & t1 & Hr1 & Hl1 & Ht1 & _).
    destruct (total_tax_amount Hpos2) as (r2 & t2 & Hr2 & Hl2 & Ht2 & _).
    exists r1, r2. repeat split; try assumption.
    destruct (loop_total_mono brackets_wf _ _
                (init_previous T1) (init_previous T2)
                (init_remaining T1) (init_remaining T2)
                (init_total T1) (init_total T2) H0 H12 ltac:(lra))
      as (t1' & t2' & Ht1' & Ht2' & Hle).
    rewrite Ht1, Ht2. rewrite Hl1 in Ht1'. rewrite Hl2 in Ht2'.
    inversion Ht1'; inversion Ht2'; subst.
    apply (Decimal.leb_Fin (round_cents t1') (round_cents t2')).
    apply Decimal.round_cents_mono, Hle.
  - exists {| total_tax := zero; effective_rate := zero; bracket_breakdown := [] |}.
    rewrite (calculate_income_tax_nonpositive _ (nonpositive_amount Hzero1)).
    destruct (Qlt_le_dec 0 T2) as [Hpos2|Hzero2].
    + destruct (total_tax_amount Hpos2) as (r2 & t2 & Hr2 & Hl2 & Ht2 & Hge).
      exists r2. repeat split; try assumption. rewrite Ht2.
      apply (Decimal.leb_Fin 0 (round_cents t2)).
      apply Decimal.round_cents_nonneg, Hge.
    + eexists. rewrite (calculate_income_tax_nonpositive _ (nonpositive_amount Hzero2)).
      repeat split.
Qed.

(** [count] payments of [round(A / count, 2)] are within half a cent per
    payment of [A]. *)
Lemma payments_close (A : Q) (count : Z) :
  (0 < count)%Z ->
  exists p,
    round2 (fdiv (Fin A) (of_int count)) = Fin p
    /\ Qabs (inject_Z count * p - A) <= inject_Z count * (1 # 200).
Proof.
  intros Hc. exists (round_cents (A / inject_Z count)).
  assert (Hq : 0 < inject_Z count).
  { change 0 with (inject_Z 0). rewrite <- Zlt_Qlt. exact Hc. }
  split.
  - change (fdiv (Fin A) (of_int count))
      with (if Qeq_bool (inject_Z count) 0
            then Decimal.scale_inf A PInf else Fin (A / inject_Z count)).
    destruct (Qeq_bool (inject_Z count) 0) eqn:E; [ | reflexivity ].
    apply Qeq_bool_eq in E. lra.
  - pose proof (Decimal.round_cents_close (A / inject_Z count)) as H.
    apply Qabs_Qle_condition in H. apply Qabs_Qle_condition.
    assert (Hd : inject_Z count * (A / inject_Z count) == A).
    { apply Qmult_div_r. lra. }
    split; nra.
Qed.

(** A rate of at least [0.0667] on an income of at most [-0.08] gives a
    negative number of cents. *)
Lemma round_cents_negative (g c : Q) :
  g <= - (8 # 100) -> 667 # 10000 <= c -> round_cents (g * c) < 0.
Proof.
  intros Hg Hc.
  assert (H : round_cents (g * c) <= round_cents (- (5336 # 1000000))).
  { apply Decimal.round_cents_mono. nra. }
  assert (E : round_cents (- (5336 # 1000000)) == - (1 # 100)) by reflexivity.
  lra.
Qed.

End DecimalWalk.

(** ** Rounding to cents twice *)

Module Idem.
Import Rounding Nearest.

(** An integer nearest to [v] is the integer that [v] is less than a half
    away from. *)
Lemma nearest_even_unique (N c : Z) (v : Q) :
  nearest_even N 0 v -> (Qabs (v - inject_Z c) < 1 # 2)%Q -> N = c.
Proof.
  unfold nearest_even. change (pow2 0) with 1%Q. intros (A & B & _) H.
  apply Qabs_Qlt_condition in H. destruct H as [H1 H2].
  assert (L1 : (inject_Z N < inject_Z c + 1)%Q) by lra.
  assert (L2 : (inject_Z c < inject_Z N + 1)%Q) by lra.
  change 1%Q with (inject_Z 1) in L1, L2.
  rewrite <- inject_Z_plus, <- Zlt_Qlt in L1, L2. lia.
Qed.

(** The float nearest to [c / 100], for [c / 100] under [2^46], is less
    than half a cent away from it. *)
Lemma quotient_close (c : Z) (r : spec_float) :
  c < 100 * 2 ^ 46 ->
  rounds0 (inject_Z c / 100) r -> nonneg_finite r ->
  (Qabs (100 * SFval r - inject_Z c) < 1 # 2)%Q.
Proof.
  intros Hc [(Z0 & s & ->)|(P & d & N & Lo & Hi & HN & Ne & Rd)] F.
  - cbn [SFval]. assert (Hc0 : (inject_Z c == 0)%Q).
    { assert (H : (inject_Z c == inject_Z c / 100 * 100)%Q) by field. lra. }
    rewrite Hc0. reflexivity.
  - destruct Rd as [(_ & _ & Vr)|(_ & ->)]; [ | contradiction ].
    rewrite Vr in *. set (E := fexp prec emax d) in *.
    assert (Hq : (inject_Z c == 100 * (inject_Z c / 100))%Q) by field.
    assert (Hv : (inject_Z c / 100 < pow2 46)%Q).
    { rewrite Zlt_Qlt in Hc.
      assert (E46 : (inject_Z (100 * 2 ^ 46) == 100 * pow2 46)%Q) by reflexivity. lra. }
    assert (Hd : d <= 46).
    { assert (H : d - 1 < 46); [ | lia ]. apply pow2_le_inv. lra. }
    destruct Ne as (A & B & _).
    assert (HE : E <= -7) by (unfold E; rewrite fexp_eq; lia).
    assert (PE : (pow2 E <= pow2 (-7))%Q) by (apply pow2_le; lia).
    assert (E7 : (pow2 (-7) == 1 # 128)%Q) by reflexivity.
    pose proof (pow2_pos E) as PE0.
    apply Qabs_Qlt_condition. split; lra.
Qed.

(** The quotient of a number of cents by [100.0] is finite. *)
Lemma quotient_finite (c : Z) :
  0 <= c <= 100 * 2 ^ 46 ->
  nonneg (PrimFloat.of_uint63 (Uint63.of_Z c) / 100).
Proof.
  intros Hc.
  assert (B : 100 * 2 ^ 46 < 2 ^ 53) by reflexivity.
  assert (H : fle (PrimFloat.of_uint63 (Uint63.of_Z c) / 100)
                  (PrimFloat.of_uint63 (Uint63.of_Z (100 * 2 ^ 46)) / 100)).
  { apply (@rounds0_mono (inject_Z c / 100) (inject_Z (100 * 2 ^ 46) / 100)).
    - unfold Qdiv. apply Qmult_le_compat_r; [ rewrite <- Zle_Qle; lia | discriminate ].
    - apply cents_quotient_rounds0. lia.
    - apply cents_quotient_rounds0. lia. }
  exact (proj1 (@fle_finite _ _ H I)).
Qed.

(** It has [c] cents. *)
Lemma cents_of_quotient (c : Z) (m : positive) (e : Z) :
  0 <= c <= 100 * 2 ^ 46 ->
  Prim2SF (PrimFloat.of_uint63 (Uint63.of_Z c) / 100) = S754_finite false m e ->
  Binary64.cents m e = c.
Proof.
  intros Hc E.
  destruct (Z.eq_dec c (100 * 2 ^ 46)) as [->|Hne].
  - vm_compute in E. injection E as <- <-. reflexivity.
  - assert (R : rounds0 (inject_Z c / 100)
                  (Prim2SF (PrimFloat.of_uint63 (Uint63.of_Z c) / 100))).
    { apply cents_quotient_rounds0. split; [ lia | ].
      eapply Z.le_lt_trans; [ apply Hc | reflexivity ]. }
    rewrite E in R.
    pose proof (@quotient_close c _ ltac:(lia) R I) as Q. cbn [SFval] in Q.
    destruct (cents_nearest m e) as [_ Ne].
    apply (@nearest_even_unique _ _ _ Ne).
    assert (Hs : (100 * (inject_Z (Zpos m) * pow2 e) - inject_Z c
                  == 100 * (1 * (inject_Z (Zpos m) * pow2 e)) - inject_Z c)%Q) by ring.
    rewrite Hs. exact Q.
Qed.

(** It is a zero only for no cents. *)
Lemma zero_quotient (c : Z) (s : bool) :
  0 <= c <= 100 * 2 ^ 46 ->
  Prim2SF (PrimFloat.of_uint63 (Uint63.of_Z c) / 100) = S754_zero s ->
  c = 0 /\ s = false.
Proof.
  intros Hc E.
  assert (H0 : c = 0).
  { destruct (Z.eq_dec c (100 * 2 ^ 46)) as [->|Hne]; [ vm_compute in E; discriminate | ].
    assert (R : rounds0 (inject_Z c / 100)
                  (Prim2SF (PrimFloat.of_uint63 (Uint63.of_Z c) / 100))).
    { apply cents_quotient_rounds0. split; [ lia | ].
      eapply Z.le_lt_trans; [ apply Hc | reflexivity ]. }
    rewrite E in R.
    pose proof (@quotient_close c _ ltac:(lia) R I) as Q. cbn [SFval] in Q.
    apply Qabs_Qlt_condition in Q. destruct Q as [Q1 Q2].
    assert (L : (inject_Z c < inject_Z 1)%Q) by (change (inject_Z 1) with 1%Q; lra).
    rewrite <- Zlt_Qlt in L. lia. }
  split; [ exact H0 | ]. subst c. vm_compute in E. injection E as <-. reflexivity.
Qed.

(** What [round(x, 2)] returns: [x] itself, or the quotient of its cents
    with the sign of [x]. *)
Lemma round2_view (x : float) :
  Binary64.round2 x = x
  \/ exists (s : bool) (m : positive) (e : Z),
       Prim2SF x = S754_finite s m e
       /\ 0 <= Binary64.cents m e <= 100 * 2 ^ 46
       /\ Binary64.round2 x
          = let q := (PrimFloat.of_uint63 (Uint63.of_Z (Binary64.cents m e)) / 100)%float in
            if s then (- q)%float else q.
Proof.
  assert (N46 : nonneg Binary64.two46) by exact I.
  assert (V46 : (value Binary64.two46 == pow2 46)%Q) by reflexivity.
  unfold Binary64.round2.
  destruct (Prim2SF x) as [s|s| |s m e] eqn:E; try (left; reflexivity).
  destruct (PrimFloat.leb Binary64.two46 (PrimFloat.abs x)) eqn:L; [ left; reflexivity | ].
  right. exists s, m, e. split; [ reflexivity | ]. split; [ | reflexivity ].
  assert (Hax : nonneg (PrimFloat.abs x)) by (unfold nonneg; rewrite abs_spec, E; exact I).
  assert (Hlt : (inject_Z (Zpos m) * pow2 e < pow2 46)%Q).
  { assert (Hv : (value (PrimFloat.abs x) == inject_Z (Zpos m) * pow2 e)%Q).
    { unfold value. rewrite abs_spec, E. cbn [SFabs SFval]. ring. }
    rewrite <- Hv.
    destruct (Qlt_le_dec (value (PrimFloat.abs x)) (pow2 46)) as [H|H]; [ exact H | exfalso ].
    assert (L' : PrimFloat.leb Binary64.two46 (PrimFloat.abs x) = true)
      by (apply (leb_value _ _ N46 Hax); lra).
    congruence. }
  destruct (cents_nearest m e) as [Hc0 (A & _ & _)].
  split; [ exact Hc0 | ].
  change (pow2 0) with 1%Q in A.
  apply (@Z_le_of_half _ _ 1%Q); [ reflexivity | ].
  assert (E46 : (inject_Z (100 * 2 ^ 46) == 100 * pow2 46)%Q) by reflexivity. lra.
Qed.

(** The quotient of a number of cents by [100.0] rounds to itself, and so
    does its negation. *)
Lemma round2_quotient (c : Z) :
  0 <= c <= 100 * 2 ^ 46 ->
  let q := (PrimFloat.of_uint63 (Uint63.of_Z c) / 100)%float in
  Binary64.round2 q = q /\ Binary64.round2 (- q) = (- q)%float.
Proof.
  intros Hc q. pose proof (quotient_finite Hc) as Nq. fold q in Nq.
  unfold Binary64.round2. rewrite opp_spec. unfold nonneg in Nq.
  destruct (Prim2SF q) as [s|s| |[] m e] eqn:E; cbn [SFopp]; try contradiction;
    try (split; reflexivity).
  rewrite (@cents_of_quotient c m e Hc E). fold q.
  split.
  - destruct (PrimFloat.leb Binary64.two46 (PrimFloat.abs q)); reflexivity.
  - destruct (PrimFloat.leb Binary64.two46 (PrimFloat.abs (- q))); reflexivity.
Qed.

(** [round(round(x, 2), 2) = round(x, 2)] for every float. *)
Lemma round2_idempotent (x : float) :
  Binary64.round2 (Binary64.round2 x) = Binary64.round2 x.
Proof.
  destruct (round2_view x) as [H|(s & m & e & _ & Hc & ->)]; [ rewrite H; exact H | ].
  destruct (@round2_quotient _ Hc) as [P M]. cbv zeta.
  destruct s; assumption.
Qed.

End Idem.

(** ** The summary follows the income and the expenses *)

Module Monotone.
Import Rounding Nearest.

(** [x - e] does not grow with [e]. *)
Lemma sub_anti (x e1 e2 : float) :
  nonneg x -> nonneg e1 -> nonneg e2 ->
  (value e2 <= value e1)%Q -> (value e1 <= value x)%Q ->
  nonneg (x - e1) /\ nonneg (x - e2) /\ (value (x - e1) <= value (x - e2))%Q.
Proof.
  intros Hx H1 H2 V21 V1.
  destruct (@sub_below x e1 Hx H1 V1) as [N1 _].
  destruct (@sub_below x e2 Hx H2 ltac:(lra)) as [N2 _].
  split; [ exact N1 | ]. split; [ exact N2 | ].
  assert (H : fle (x - e1) (x - e2)).
  { apply (@rounds0_mono (value x - value e1) (value x - value e2)).
    - lra.
    - apply sub_rounds0; assumption.
    - apply sub_rounds0; try assumption. lra. }
  exact (proj2 (@fle_finite _ _ H N2)).
Qed.

(** [max(0.0, d)] is never negative, whatever [d] is. *)
Lemma max_zero_fnn (d : float) : fnn (py_max zero d).
Proof.
  unfold py_max. change (@ltb float _ zero d) with (PrimFloat.ltb 0 d).
  destruct (PrimFloat.ltb 0 d) eqn:L; [ | exact I ].
  apply leb_zero_fnn. exact (@positive_nonneg float Binary64.binary64 d L).
Qed.

(** [max(0.0, d)] of a finite [d >= 0] has the value of [d]. *)
Lemma max_zero_value (d : float) :
  nonneg d -> nonneg (py_max zero d) /\ (value (py_max zero d) == value d)%Q.
Proof.
  intros N. unfold py_max. change (@ltb float _ zero d) with (PrimFloat.ltb 0 d).
  destruct (PrimFloat.ltb 0 d) eqn:L.
  - split; [ exact N | reflexivity ].
  - split; [ exact I | ].
    assert (H : ~ (value 0 < value d)%Q).
    { intros C. apply (ltb_value 0 d I N) in C. congruence. }
    pose proof (@value_nonneg _ N). change (value 0) with 0%Q in H.
    change (value zero) with 0%Q. lra.
Qed.

(** A float that is not below [0.0] and not above a finite float is finite. *)
Lemma fnn_cases_fle (x y : float) : fle x y -> y = infinity \/ (nonneg x /\ nonneg y /\ (value x <= value y)%Q).
Proof.
  intros [_ [Hi|H]]; [ left; apply infinity_of_spec, Hi | right; exact H ].
Qed.

(** [calculate_taxable_income] grows with the gross income and shrinks
    with the expenses. *)
Lemma taxable_fle (g1 e1 g2 e2 : float) :
  fle e2 e1 -> fle e1 g1 -> fle g1 g2 ->
  fle (calculate_taxable_income g1 e1) (calculate_taxable_income g2 e2).
Proof.
  intros H21 H1 Hg. unfold calculate_taxable_income.
  change (@round2 float _) with Binary64.round2.
  change (@sub float _) with PrimFloat.sub.
  apply round2_mono.
  destruct (@fnn_cases_fle _ _ Hg) as [->|(Ng1 & Ng2 & Vg)].
  - (* the higher income is infinite *)
    destruct (@nn_cases _ (@fle_left _ _ H21)) as [I2|Ne2].
    + (* so are the lower expenses, hence the higher ones and the lower income *)
      apply infinity_of_spec in I2. subst e2.
      destruct (@fnn_cases_fle _ _ H21) as [->|(C & _ & _)]; [ | contradiction ].
      destruct (@fnn_cases_fle _ _ H1) as [->|(C & _ & _)]; [ | contradiction ].
      apply fle_refl. exact I.
    + split; [ apply max_zero_fnn | ]. left.
      assert (E : (infinity - e2)%float = infinity).
      { apply infinity_of_spec. rewrite sub_spec. unfold nonneg in Ne2.
        destruct (Prim2SF e2) as [s|s| |[] m e]; try contradiction; reflexivity. }
      rewrite E. reflexivity.
  - destruct (@fnn_cases_fle _ _ H1) as [C|(Ne1 & _ & V1)].
    { subst g1. contradiction. }
    destruct (@fle_finite _ _ H21 Ne1) as [Ne2 V21].
    destruct (@sub_anti g1 e1 e2 Ng1 Ne1 Ne2 V21 V1) as (A1 & A2 & A).
    assert (B : (value (g1 - e2) <= value (g2 - e2))%Q)
      by (apply sub_mono; try assumption; lra).
    destruct (@sub_below g2 e2 Ng2 Ne2 ltac:(lra)) as [A3 _].
    destruct (@max_zero_value _ A1) as [M1 W1].
    destruct (@max_zero_value _ A3) as [M3 W3].
    apply fle_values; try assumption. lra.
Qed.

(** The total income tax, for incomes that may be infinite. *)
Lemma total_tax_fle_ext (T1 T2 : float) :
  fle T1 T2 ->
  exists r1 r2,
    calculate_income_tax T1 = ret r1 /\ calculate_income_tax T2 = ret r2
    /\ fle (total_tax r1) (total_tax r2).
Proof.
  intros H. pose proof (@fle_left _ _ H) as N1.
  assert (H0 : PrimFloat.leb 0 T1 = true) by (apply fle_leb, fle_zero; exact N1).
  destruct (@float_total_tax_monotone T1 T2 H0 (@fle_leb _ _ H)) as (r1 & r2 & E1 & E2 & L).
  exists r1, r2. split; [ exact E1 | ]. split; [ exact E2 | ].
  apply leb_fle; [ | exact L ].
  destruct (@float_total_tax_monotone 0 T1 eq_refl H0) as (r0 & r1' & E0 & E1' & L0).
  assert (r1' = r1) by (rewrite E1 in E1'; injection E1' as <-; reflexivity). subst r1'.
  assert (Hz : total_tax r0 = 0%float).
  { assert (E : calculate_income_tax (0%float) = ret r0) by exact E0.
    vm_compute in E. injection E as <-. reflexivity. }
  rewrite Hz in L0. exact (@leb_zero_fnn _ L0).
Qed.

(** A flat rate on incomes that are not negative. *)
Lemma flat_rate_fle (g1 g2 c : float) :
  fle g1 g2 -> PrimFloat.ltb 0 c = true -> nonneg c ->
  fle (Binary64.round2 (g1 * c)) (Binary64.round2 (g2 * c)).
Proof. intros H P N. apply round2_mono, mul_mono_ext; assumption. Qed.

(** What [calculate_all_taxes] owes for two cases: the second case has at
    least the income and at most the expenses of the first. *)
Record summary_le (r1 r2 : @tax_summary float) : Prop := {
  le_taxable_income : fle (taxable_income r1) (taxable_income r2);
  le_income_tax : fle (total_tax (income_tax r1)) (total_tax (income_tax r2));
  le_vat_amount : fle (vat_amount (vat r1)) (vat_amount (vat r2));
  le_total_contribution :
    fle (total_contribution (social_security r1)) (total_contribution (social_security r2));
  le_total_taxes : fle (total_taxes r1) (total_taxes r2);
  le_total_obligations : fle (total_obligations r1) (total_obligations r2)
}.

Lemma vat_rate_positive : PrimFloat.ltb 0 (VAT_RATE : float) = true /\ nonneg (VAT_RATE : float).
Proof. split; [ reflexivity | exact I ]. Qed.

Lemma efka_rate_positive :
  PrimFloat.ltb 0 (EFKA_TOTAL_RATE : float) = true /\ nonneg (EFKA_TOTAL_RATE : float).
Proof. split; [ reflexivity | exact I ]. Qed.

(** The summary of a positive income. *)
Lemma summary_positive (g e : float) :
  PrimFloat.ltb 0 g = true ->
  exists it,
    calculate_income_tax (calculate_taxable_income g e) = ret it
    /\ calculate_all_taxes g e
       = ret (let ss := calculate_social_security g in
              let total := add (total_tax it) (total_contribution ss) in
              {| gross_income := round2 g;
                 deductible_expenses := round2 e;
                 taxable_income := round2 (calculate_taxable_income g e);
                 income_tax := it;
                 vat := calculate_vat g;
                 social_security := ss;
                 total_taxes := round2 total;
                 total_obligations := round2 (add total (vat_amount (calculate_vat g)));
                 net_income := round2 (sub g total);
                 effective_total_rate := round2 (mul (fdiv total g) (of_int 100)) |}).
Proof.
  intros H.
  destruct (@calculate_income_tax_returns float _ (calculate_taxable_income g e)) as [it Hit].
  exists it. split; [ exact Hit | ].
  exact (@calculate_all_taxes_positive float Binary64.binary64 g e it H Hit).
Qed.

(** The summary of an income of zero. *)
Lemma summary_zero (g e : float) :
  PrimFloat.leb g 0 = true ->
  exists r, calculate_all_taxes g e = ret r
    /\ taxable_income r = 0%float /\ total_tax (income_tax r) = 0%float
    /\ vat_amount (vat r) = 0%float
    /\ total_contribution (social_security r) = 0%float
    /\ total_taxes r = 0%float /\ total_obligations r = 0%float
    /\ net_income r = 0%float.
Proof.
  intros H. eexists. split.
  - exact (@calculate_all_taxes_nonpositive float Binary64.binary64 g e H).
  - repeat split.
Qed.

Lemma all_taxes_fle (g1 e1 g2 e2 : float) :
  fle e2 e1 -> fle e1 g1 -> fle g1 g2 ->
  exists r1 r2,
    calculate_all_taxes g1 e1 = ret r1 /\ calculate_all_taxes g2 e2 = ret r2
    /\ summary_le r1 r2.
Proof.
  intros H21 H1 Hg.
  pose proof (@fle_left _ _ Hg) as Ng1. pose proof (@fle_right _ _ Hg) as Ng2.
  destruct vat_rate_positive as [Pv Nv]. destruct efka_rate_positive as [Ps Ns].
  assert (Hsum : forall g e : float, fnn g -> PrimFloat.ltb 0 g = true -> fle e g ->
            exists r, calculate_all_taxes g e = ret r
              /\ fnn (taxable_income r) /\ fnn (total_tax (income_tax r))
              /\ fnn (vat_amount (vat r)) /\ fnn (total_contribution (social_security r))
              /\ fnn (total_taxes r) /\ fnn (total_obligations r)).
  { intros g e Ng Pg He.
    destruct (@summary_positive g e Pg) as (it & Hit & ->).
    eexists. split; [ reflexivity | ]. cbv zeta.
    cbn [taxable_income income_tax vat social_security total_taxes total_obligations
         calculate_vat calculate_social_security vat_amount total_contribution].
    change (@round2 float _) with Binary64.round2.
    change (@add float _) with PrimFloat.add.
    change (@mul float _) with PrimFloat.mul.
    assert (Ft : fnn (calculate_taxable_income g e)).
    { apply round2_fnn, max_zero_fnn. }
    destruct (@total_tax_fle_ext _ _ (@fle_refl _ Ft)) as (a & b & Ea & _ & Fa).
    assert (a = it) by (rewrite Hit in Ea; injection Ea as <-; reflexivity). subst a.
    pose proof (@fle_left _ _ Fa) as Fit.
    pose proof (@fle_left _ _ (@flat_rate_fle g g VAT_RATE (@fle_refl _ Ng) Pv Nv)) as Fv.
    pose proof (@fle_left _ _ (@flat_rate_fle g g EFKA_TOTAL_RATE (@fle_refl _ Ng) Ps Ns)) as Fs.
    repeat split.
    - apply round2_fnn, Ft.
    - exact Fit.
    - exact Fv.
    - exact Fs.
    - apply round2_fnn, add_fnn; assumption.
    - apply round2_fnn, add_fnn; [ apply add_fnn; assumption | exact Fv ]. }
  destruct (PrimFloat.leb g1 0) eqn:Z1.
  - (* the lower income is zero *)
    destruct (@summary_zero g1 e1 Z1) as (r1 & E1 & A1 & A2 & A3 & A4 & A5 & A6 & _).
    destruct (PrimFloat.leb g2 0) eqn:Z2.
    + destruct (@summary_zero g2 e2 Z2) as (r2 & E2 & B1 & B2 & B3 & B4 & B5 & B6 & _).
      exists r1, r2. split; [ exact E1 | ]. split; [ exact E2 | ].
      constructor; rewrite ?A1, ?A2, ?A3, ?A4, ?A5, ?A6, ?B1, ?B2, ?B3, ?B4, ?B5, ?B6;
        apply fle_refl; exact I.
    + assert (P2 : PrimFloat.ltb 0 g2 = true).
      { destruct (@fnn_cases_fle _ _ (@fle_zero _ Ng2)) as [->|(_ & F2 & _)]; [ reflexivity | ].
        destruct (@positive_of_nonneg _ F2 Z2) as (m & e & E).
        rewrite ltb_spec, E. reflexivity. }
      destruct (Hsum g2 e2 Ng2 P2 (@fle_trans _ _ _ H21 (@fle_trans _ _ _ H1 Hg)))
        as (r2 & E2 & F1 & F2 & F3 & F4 & F5 & F6).
      exists r1, r2. split; [ exact E1 | ]. split; [ exact E2 | ].
      constructor; rewrite ?A1, ?A2, ?A3, ?A4, ?A5, ?A6; apply fle_zero; assumption.
  - assert (P1 : PrimFloat.ltb 0 g1 = true).
    { destruct (@fnn_cases_fle _ _ (@fle_zero _ Ng1)) as [->|(_ & F1 & _)]; [ reflexivity | ].
      destruct (@positive_of_nonneg _ F1 Z1) as (m & e & E).
      rewrite ltb_spec, E. reflexivity. }
    assert (P2 : PrimFloat.ltb 0 g2 = true) by exact (@fle_positive _ _ Hg P1).
    destruct (@summary_positive g1 e1 P1) as (it1 & Hit1 & ->).
    destruct (@summary_positive g2 e2 P2) as (it2 & Hit2 & ->).
    do 2 eexists. split; [ reflexivity | ]. split; [ reflexivity | ]. cbv zeta.
    pose proof (@taxable_fle g1 e1 g2 e2 H21 H1 Hg) as HT.
    destruct (@total_tax_fle_ext _ _ HT) as (a & b & Ea & Eb & Hit).
    assert (a = it1) by (rewrite Hit1 in Ea; injection Ea as <-; reflexivity).
    assert (b = it2) by (rewrite Hit2 in Eb; injection Eb as <-; reflexivity). subst a b.
    pose proof (@flat_rate_fle g1 g2 VAT_RATE Hg Pv Nv) as Hv.
    pose proof (@flat_rate_fle g1 g2 EFKA_TOTAL_RATE Hg Ps Ns) as Hs.
    constructor;
      cbn [taxable_income income_tax vat social_security total_taxes total_obligations
           calculate_vat calculate_social_security vat_amount total_contribution];
      change (@round2 float _) with Binary64.round2;
      change (@add float _) with PrimFloat.add;
      change (@mul float _) with PrimFloat.mul.
    + apply round2_mono, HT.
    + exact Hit.
    + exact Hv.
    + exact Hs.
    + apply round2_mono, add_mono; assumption.
    + apply round2_mono, add_mono; [ apply add_mono; assumption | exact Hv ].
Qed.

End Monotone.

(** ** Which brackets the breakdown lists *)

Section Rows.

Context {num : Type} {PF : PyFloat num}.

(** What an entry says of its bracket: lower bound, upper bound and rate. *)
Definition entry_row (en : @bracket_entry num) : num * @bracket_bound num * num :=
  (bracket_min en, bracket_max en, rate en).

(** The rows the loop writes when no bracket is left out. *)
Fixpoint table_rows (prev : num) (tbl : list (num * num))
  : list (num * @bracket_bound num * num) :=
  match tbl with
  | [] => []
  | (l, r) :: rest =>
      (prev, if negb (eqb l inf) then Limit l else Unlimited, mul r (of_int 100))
        :: table_rows l rest
  end.

(** How many brackets the loop enters with [remaining] left to tax. *)
Fixpoint brackets_entered (tbl : list (num * num)) (prev remaining : num) : nat :=
  match tbl with
  | [] => O
  | (l, r) :: rest =>
      if leb remaining zero then O
      else S (brackets_entered rest l (sub remaining (py_min remaining (sub l prev))))
  end.

Lemma loop_rows (tbl : list (num * num)) :
  forall st : loop_state,
    map entry_row (st_bracket_breakdown (bracket_loop tbl st))
    = map entry_row (st_bracket_breakdown st)
      ++ firstn (brackets_entered tbl (st_previous_bracket_limit st)
                   (st_remaining_income st))
           (table_rows (st_previous_bracket_limit st) tbl).
Proof.
  induction tbl as [|[l r] rest IH]; intros st; cbn [bracket_loop brackets_entered table_rows].
  - rewrite firstn_nil, app_nil_r. reflexivity.
  - destruct (leb (st_remaining_income st) zero).
    + cbn [firstn]. rewrite app_nil_r. reflexivity.
    + rewrite IH. cbn [bracket_step st_bracket_breakdown st_previous_bracket_limit
                       st_remaining_income firstn].
      rewrite map_app, <- app_assoc. reflexivity.
Qed.

(** The breakdown of a result is the one the loop wrote. *)
Lemma breakdown_of_loop (T : num) (r : income_tax_result) :
  calculate_income_tax T = ret r -> leb T zero = false ->
  bracket_breakdown r
  = st_bracket_breakdown (bracket_loop INCOME_TAX_BRACKETS (init_state T)).
Proof.
  unfold calculate_income_tax. intros E H. rewrite H in E.
  destruct (ltb zero T).
  - unfold py_div in E. destruct (eqb T zero); [ discriminate | ].
    cbn in E. injection E as <-. reflexivity.
  - cbn in E. injection E as <-. reflexivity.
Qed.

End Rows.

Module Reach.
Import Rounding Nearest.

(** What is left of [x] after a bracket of width [10000]. *)
Definition after_bracket (x : float) : float :=
  sub x (py_min x (of_int 10000)).

Fixpoint after_brackets (k : nat) (x : float) : float :=
  match k with
  | O => x
  | S k' => after_brackets k' (after_bracket x)
  end.

Lemma after_brackets_mono (k : nat) :
  forall x1 x2 : float,
    nonneg x1 -> nonneg x2 -> (value x1 <= value x2)%Q ->
    nonneg (after_brackets k x1) /\ nonneg (after_brackets k x2)
    /\ (value (after_brackets k x1) <= value (after_brackets k x2))%Q.
Proof.
  induction k as [|k IH]; intros x1 x2 N1 N2 V; cbn [after_brackets].
  - repeat split; assumption.
  - assert (Hw : Binary64.of_int 10000 = infinity \/ nonneg (Binary64.of_int 10000))
      by (right; exact I).
    destruct (@float_slice_mono x1 x2 _ N1 N2 V Hw) as (_ & _ & _ & A & B & C).
    apply IH; assumption.
Qed.

Lemma after_brackets_nan (k : nat) : after_brackets k nan = nan.
Proof. induction k as [|k IH]; [ reflexivity | exact IH ]. Qed.

Lemma after_brackets_infinity (k : nat) : after_brackets k infinity = infinity.
Proof. induction k as [|k IH]; [ reflexivity | exact IH ]. Qed.

(** The float after [m * 2^e] is at most every float above [m * 2^e]. *)
Lemma next_float_le (m : positive) (e : Z) (y : spec_float) :
  SFltb (S754_finite false m e) y = true ->
  SFleb (S754_finite false (m + 1) e) y = true.
Proof.
  unfold SFltb, SFleb, SFcompare.
  destruct y as [s|[]| |[] my ey]; try discriminate; try reflexivity.
  destruct (e ?= ey); try discriminate; try reflexivity.
  rewrite !Pos.compare_cont_spec. cbn [Pos.switch_Eq].
  destruct (Pos.compare_spec m my) as [H|H|H]; try discriminate. intros _.
  destruct (Pos.compare_spec (m + 1) my) as [H'|H'|H']; try reflexivity. lia.
Qed.

(** A float that no comparison holds of is the NaN. *)
Lemma float_cases (x : float) :
  x = nan \/ x = infinity \/ nonneg x \/ PrimFloat.ltb x 0 = true.
Proof.
  rewrite ltb_spec. unfold nonneg.
  destruct (Prim2SF x) as [s|[]| |[] m e] eqn:E.
  - right; right; left; exact I.
  - right; right; right; reflexivity.
  - right; left. apply infinity_of_spec, E.
  - left. rewrite <- (SF2Prim_Prim2SF x), E. reflexivity.
  - right; right; right; reflexivity.
  - right; right; left; exact I.
Qed.

(** The limit [L] of the [k]th bracket leaves nothing after [k] brackets,
    and the float after [L] leaves something. *)
Definition limit_of (k : nat) (L : float) : bool :=
  match Prim2SF L, Prim2SF (next_up L) with
  | S754_finite false m e, S754_finite false m' e' =>
      Pos.eqb m' (m + 1) && Z.eqb e' e
      && PrimFloat.leb (after_brackets k L) 0
      && negb (PrimFloat.leb (after_brackets k (next_up L)) 0)
  | _, _ => false
  end.

(** Whether anything is left after [k] brackets, from the two floats
    around the limit [L] of the [k]th. *)
Lemma left_after (k : nat) (L : float) :
  limit_of k L = true ->
  forall T : float,
    PrimFloat.leb T 0 = false ->
    PrimFloat.leb (after_brackets k T) 0 = PrimFloat.leb T L.
Proof.
  unfold limit_of. set (L' := next_up L).
  destruct (Prim2SF L) as [s|s| |[] m e] eqn:EL; try discriminate.
  destruct (Prim2SF L') as [s|s| |[] m' e'] eqn:EL'; try discriminate.
  rewrite !andb_true_iff, negb_true_iff, Pos.eqb_eq, Z.eqb_eq.
  intros [[[-> ->] H0] H1] T HT.
  assert (NL : nonneg L) by (unfold nonneg; rewrite EL; exact I).
  assert (NL' : nonneg L') by (unfold nonneg; rewrite EL'; exact I).
  destruct (float_cases T) as [->|[->|[N|C]]].
  - rewrite after_brackets_nan. rewrite !leb_spec. cbn. reflexivity.
  - rewrite after_brackets_infinity. rewrite !leb_spec, EL. reflexivity.
  - destruct (PrimFloat.leb T L) eqn:B.
    + apply (leb_value T L N NL) in B.
      destruct (@after_brackets_mono k T L N NL B) as (A1 & A2 & A3).
      pose proof (@zero_of_nonneg _ A2 H0) as Z. pose proof (@value_nonneg _ A1) as P.
      apply (leb_value _ 0 A1 I). change (value 0) with 0%Q. lra.
    + assert (Hlt : PrimFloat.ltb L T = true).
      { apply (ltb_value L T NL N).
        destruct (Qlt_le_dec (value L) (value T)) as [G|G]; [ exact G | exfalso ].
        apply (leb_value T L N NL) in G. congruence. }
      assert (Hle : PrimFloat.leb L' T = true).
      { rewrite ltb_spec, EL in Hlt. rewrite leb_spec, EL'. apply next_float_le, Hlt. }
      apply (leb_value L' T NL' N) in Hle.
      destruct (@after_brackets_mono k L' T NL' N Hle) as (A1 & A2 & A3).
      destruct (PrimFloat.leb (after_brackets k T) 0) eqn:C; [ exfalso | reflexivity ].
      pose proof (@zero_of_nonneg _ A2 C) as Z. pose proof (@value_nonneg _ A1) as P.
      assert (D : PrimFloat.leb (after_brackets k L') 0 = true).
      { apply (leb_value _ 0 A1 I). change (value 0) with 0%Q. lra. }
      congruence.
  - exfalso. apply (@negative_le float Binary64.binary64) in C.
    change (PrimFloat.leb T 0 = true) in C. congruence.
Qed.

(** How many brackets an income reaches. *)
Definition brackets_reached (T : float) : nat :=
  if leb T zero then 0
  else if leb T (of_int 10000) then 1
  else if leb T (of_int 20000) then 2
  else if leb T (of_int 30000) then 3
  else if leb T (of_int 40000) then 4
  else 5.

Lemma limits_of_brackets :
  limit_of 1 (Binary64.of_int 10000) = true /\ limit_of 2 (Binary64.of_int 20000) = true
  /\ limit_of 3 (Binary64.of_int 30000) = true /\ limit_of 4 (Binary64.of_int 40000) = true.
Proof. vm_compute. repeat split. Qed.

Lemma entered_reached (T : float) :
  brackets_entered INCOME_TAX_BRACKETS zero T = brackets_reached T.
Proof.
  assert (E : brackets_entered INCOME_TAX_BRACKETS zero T
            = if PrimFloat.leb T 0 then O
              else S (if PrimFloat.leb (after_brackets 1 T) 0 then O
              else S (if PrimFloat.leb (after_brackets 2 T) 0 then O
              else S (if PrimFloat.leb (after_brackets 3 T) 0 then O
              else S (if PrimFloat.leb (after_brackets 4 T) 0 then O
              else 1%nat))))) by reflexivity.
  rewrite E. clear E. unfold brackets_reached.
  change (@leb float _) with PrimFloat.leb. change (@zero float _) with 0%float.
  destruct (PrimFloat.leb T 0) eqn:HT; [ reflexivity | ].
  destruct limits_of_brackets as (L1 & L2 & L3 & L4).
  rewrite (@left_after 1 _ L1 T HT), (@left_after 2 _ L2 T HT),
    (@left_after 3 _ L3 T HT), (@left_after 4 _ L4 T HT).
  change (@of_int float _) with Binary64.of_int.
  destruct (PrimFloat.leb T (Binary64.of_int 10000)); [ reflexivity | ].
  destruct (PrimFloat.leb T (Binary64.of_int 20000)); [ reflexivity | ].
  destruct (PrimFloat.leb T (Binary64.of_int 30000)); [ reflexivity | ].
  destruct (PrimFloat.leb T (Binary64.of_int 40000)); reflexivity.
Qed.

End Reach.

(** ** The taxes against the income *)

Module Burden.
Import Rounding Nearest Monotone.

(** What a gross income with no expenses owes in income tax and social
    security, before the sum is rounded. *)
Definition owed (g : float) : float :=
  match calculate_all_taxes g zero with
  | inr r => add (total_tax (income_tax r)) (total_contribution (social_security r))
  | inl _ => nan
  end.

(** Incomes from [a] on, each one and a half times the one before. *)
Fixpoint ladder (n : nat) (a : float) : list float :=
  match n with
  | O => []
  | S n' => a :: ladder n' (a * lit 3 2)%float
  end.

Definition is_nonneg (x : float) : bool :=
  match Prim2SF x with
  | S754_zero _ | S754_finite false _ _ => true
  | _ => false
  end.

Lemma is_nonneg_spec (x : float) : is_nonneg x = true -> nonneg x.
Proof.
  unfold is_nonneg, nonneg.
  destruct (Prim2SF x) as [s|s| |[] m e]; try discriminate; intros _; exact I.
Qed.

(** Each rung owes no more than the rung below it. *)
Fixpoint rungs_ok (l : list float) : bool :=
  match l with
  | a :: (b :: _) as rest =>
      is_nonneg a && is_nonneg b && is_nonneg (owed b)
      && PrimFloat.leb (owed b) a && rungs_ok rest
  | _ => true
  end.

Lemma last_nonempty (l : list float) (c a b : float) : last (c :: l) a = last (c :: l) b.
Proof.
  revert c. induction l as [|d l IH]; intros c; [ reflexivity | ].
  change (last (d :: l) a = last (d :: l) b). apply IH.
Qed.

(** Between the first and the last rung, an income owes no more than the
    rung below it, which it is not below. *)
Lemma rungs_cover (l : list float) :
  forall (a : float) (g : float),
    rungs_ok (a :: l) = true -> nonneg g ->
    PrimFloat.leb a g = true -> PrimFloat.leb g (last l a) = true ->
    l <> [] ->
    exists b, nonneg b /\ PrimFloat.leb g b = true
              /\ nonneg (owed b) /\ (value (owed b) <= value g)%Q.
Proof.
  induction l as [|b rest IH]; intros a g Hok Ng Ha Hlast Hne; [ contradiction | ].
  cbn [rungs_ok] in Hok. rewrite !andb_true_iff in Hok.
  destruct Hok as [[[[Na Nb] No] Hle] Hrest].
  apply is_nonneg_spec in Na, Nb, No.
  destruct (PrimFloat.leb g b) eqn:Hb.
  - exists b. split; [ exact Nb | ]. split; [ exact Hb | ]. split; [ exact No | ].
    apply (leb_value _ _ No Na) in Hle. apply (leb_value _ _ Na Ng) in Ha. lra.
  - assert (Hbg : PrimFloat.leb b g = true).
    { apply (leb_value _ _ Nb Ng).
      destruct (Qlt_le_dec (value g) (value b)) as [G|G]; [ exfalso | exact G ].
      assert (C : PrimFloat.leb g b = true) by (apply (leb_value _ _ Ng Nb); lra).
      congruence. }
    destruct rest as [|c rest'].
    + cbn [last] in Hlast. congruence.
    + apply (IH b g Hrest Ng Hbg); [ | discriminate ].
      rewrite (last_nonempty rest' c b a). exact Hlast.
Qed.

(** The largest finite float. *)
Definition max_float : float := Eval compute in SF2Prim (S754_finite false (2 ^ 53 - 1) 971).

Lemma leb_max_float (x : float) : nonneg x -> PrimFloat.leb x max_float = true.
Proof.
  intros N. pose proof (Prim2SF_valid x) as V. unfold nonneg in N.
  rewrite leb_spec. change (Prim2SF max_float) with (S754_finite false (2 ^ 53 - 1) 971).
  destruct (Prim2SF x) as [s|s| |[] m e]; try contradiction; try reflexivity.
  apply valid_finite in V. destruct V as [C He].
  unfold SFleb, SFcompare.
  destruct (Z.compare_spec e 971) as [E|L|G]; try reflexivity; [ | lia ].
  subst e. rewrite fexp_eq in C.
  assert (Hd : Zpos (digits2_pos m) <= 53) by lia.
  pose proof (digits2_bounds m) as [_ Hhi].
  assert (Hm : Zpos m < 2 ^ 53).
  { eapply Z.lt_le_trans; [ exact Hhi | apply Z.pow_le_mono_r; lia ]. }
  rewrite Pos.compare_cont_spec. cbn [Pos.switch_Eq].
  destruct (Pos.compare_spec m (2 ^ 53 - 1)) as [E|L|G]; try reflexivity.
  exfalso. change (Zpos (2 ^ 53 - 1)) with (2 ^ 53 - 1) in *. 
  assert (Zpos (2 ^ 53 - 1) = 2 ^ 53 - 1) by reflexivity. lia.
Qed.

(** The rungs above two cents, up to the largest float. *)
Definition rungs : list float :=
  List.tl (ladder 1761 (lit 2 100)) ++ [max_float].

Lemma rungs_facts :
  rungs_ok (lit 2 100 :: rungs) = true /\ last rungs (lit 2 100) = max_float
  /\ is_nonneg (owed (lit 2 100)) = true /\ PrimFloat.leb (owed (lit 2 100)) 0 = true.
Proof. vm_compute. repeat split. Qed.

(** What the summary owes in income tax and social security, before the
    sum is rounded. *)
Definition burden (r : @tax_summary float) : float :=
  add (total_tax (income_tax r)) (total_contribution (social_security r)).

(** Income tax and social security together never exceed a finite gross
    income, when the expenses are between zero and the income. *)
Lemma burden_bound (g e : float) :
  nonneg g -> fnn e -> fle e g ->
  exists r, calculate_all_taxes g e = ret r
            /\ nonneg (burden r) /\ (value (burden r) <= value g)%Q.
Proof.
  intros Ng Ne Heg.
  destruct rungs_facts as (Hok & Hlast & Hn2 & Hz2).
  apply is_nonneg_spec in Hn2.
  assert (N2 : nonneg (lit 2 100 : float)) by exact I.
  assert (Hb : exists b, nonneg b /\ PrimFloat.leb g b = true
                         /\ nonneg (owed b) /\ (value (owed b) <= value g)%Q).
  { destruct (PrimFloat.leb (lit 2 100) g) eqn:H2.
    - apply (@rungs_cover rungs (lit 2 100) g Hok Ng H2).
      + rewrite Hlast. apply leb_max_float, Ng.
      + discriminate.
    - exists (lit 2 100). split; [ exact N2 | ]. split.
      + apply (leb_value _ _ Ng N2).
        destruct (Qlt_le_dec (value (lit 2 100)) (value g)) as [G|G]; [ exfalso | exact G ].
        assert (C : PrimFloat.leb (lit 2 100) g = true)
          by (apply (leb_value _ _ N2 Ng); lra).
        congruence.
      + split; [ exact Hn2 | ].
        pose proof (@zero_of_nonneg _ Hn2 Hz2) as Z. pose proof (@value_nonneg _ Ng). lra. }
  destruct Hb as (b & Nb & Hgb & No & Vo).
  assert (Hgb' : fle g b).
  { apply (leb_value _ _ Ng Nb) in Hgb. apply fle_values; assumption. }
  destruct (@all_taxes_fle g e b 0 (@fle_zero _ Ne) Heg Hgb') as (r1 & r2 & E1 & E2 & Hle).
  exists r1. split; [ exact E1 | ].
  assert (Ho : owed b = burden r2).
  { unfold owed. change (@zero float _) with 0%float. rewrite E2. reflexivity. }
  rewrite Ho in No, Vo.
  assert (H : fle (burden r1) (burden r2)).
  { unfold burden. apply add_mono; [ apply (le_income_tax Hle) | apply (le_total_contribution Hle) ]. }
  destruct (@fle_finite _ _ H No) as [N1 V1]. split; [ exact N1 | lra ].
Qed.

(** The fields of the summary of a positive income. *)
Lemma summary_fields (g e : float) (r : tax_summary) :
  PrimFloat.ltb 0 g = true -> calculate_all_taxes g e = ret r ->
  gross_income r = Binary64.round2 g
  /\ taxable_income r = Binary64.round2 (calculate_taxable_income g e)
  /\ total_taxes r = Binary64.round2 (burden r)
  /\ total_obligations r = Binary64.round2 (burden r + vat_amount (vat r))
  /\ net_income r = Binary64.round2 (g - burden r)
  /\ vat r = calculate_vat g
  /\ social_security r = calculate_social_security g
  /\ calculate_income_tax (calculate_taxable_income g e) = ret (income_tax r).
Proof.
  intros P E. destruct (@summary_positive g e P) as (it & Hit & E').
  rewrite E' in E. injection E as <-. cbv zeta. repeat split. exact Hit.
Qed.

End Burden.

(** ** The amounts in cents *)

Module Ledger.
Import Rounding Nearest Monotone.

(** The number of cents [format(x, '.2f')] prints for a finite [x]: the
    hundredths nearest to [x], ties to even. *)
Definition cents_of (x : float) : Z :=
  match Prim2SF x with
  | S754_finite s m e => if s then - Binary64.cents m e else Binary64.cents m e
  | _ => 0
  end.

(** The rounding of [v] below [2^K] is within half a unit in the last
    place of floats below [2^K]. *)
Lemma rounds0_close (v : Q) (r : spec_float) (K : Z) :
  rounds0 v r -> (v < pow2 K)%Q -> K <= 1023 ->
  nonneg_finite r /\ (Qabs (SFval r - v) <= pow2 (fexp prec emax K - 1))%Q.
Proof.
  intros [(Z0 & s & ->)|(P & d & N & Lo & Hi & HN & Ne & Rd)] Hv HK.
  - split; [ exact I | ]. cbn [SFval]. pose proof (pow2_pos (fexp prec emax K - 1)).
    apply Qabs_Qle_condition. split; lra.
  - assert (Hd : d <= K).
    { assert (H : d - 1 < K); [ | lia ]. apply pow2_le_inv. lra. }
    set (E := fexp prec emax d) in *.
    assert (HE : E <= fexp prec emax K) by (apply fexp_mono; exact Hd).
    assert (PE : (pow2 E <= pow2 (fexp prec emax K))%Q) by (apply pow2_le; exact HE).
    pose proof (pow2_succ (fexp prec emax K - 1)) as PS.
    replace (fexp prec emax K - 1 + 1) with (fexp prec emax K) in PS by lia.
    pose proof (pow2_pos E) as PE0.
    destruct Ne as (A & B & _).
    destruct Rd as [(_ & F & Vr)|(Ov & _)].
    + split; [ exact F | ]. rewrite Vr. apply Qabs_Qle_condition. split; lra.
    + exfalso.
      assert (HK' : (pow2 K <= pow2 1023)%Q) by (apply pow2_le; exact HK).
      assert (HF : (pow2 (fexp prec emax K) <= pow2 1023)%Q).
      { apply pow2_le. rewrite fexp_eq. lia. }
      pose proof (pow2_succ 1023) as P24. change (1023 + 1) with 1024 in P24.
      pose proof (pow2_pos 1023). lra.
Qed.

(** The float operations on amounts: what they return is finite and within
    half a unit in the last place of the exact result. *)
Lemma add_close (x y : float) (K : Z) :
  nonneg x -> nonneg y -> (value x + value y < pow2 K)%Q -> K <= 1023 ->
  nonneg (x + y)
  /\ (Qabs (value (x + y) - (value x + value y)) <= pow2 (fexp prec emax K - 1))%Q.
Proof.
  intros Hx Hy Hv HK. exact (@rounds0_close _ _ K (@add_rounds0 x y Hx Hy) Hv HK).
Qed.

Lemma sub_close (x y : float) (K : Z) :
  nonneg x -> nonneg y -> (value y <= value x)%Q ->
  (value x - value y < pow2 K)%Q -> K <= 1023 ->
  nonneg (x - y)
  /\ (Qabs (value (x - y) - (value x - value y)) <= pow2 (fexp prec emax K - 1))%Q.
Proof.
  intros Hx Hy Hle Hv HK. exact (@rounds0_close _ _ K (@sub_rounds0 x y Hx Hy Hle) Hv HK).
Qed.

Lemma mul_close (x c : float) (K : Z) :
  nonneg x -> nonneg c -> (value x * value c < pow2 K)%Q -> K <= 1023 ->
  nonneg (x * c)
  /\ (Qabs (value (x * c) - value x * value c) <= pow2 (fexp prec emax K - 1))%Q.
Proof.
  intros Hx Hc Hv HK.
  assert (R : rounds0 (value x * value c) (Prim2SF (x * c))).
  { rewrite mul_spec. unfold SF64mul.
    apply SFmul_rounds0; try apply Prim2SF_valid; assumption. }
  exact (@rounds0_close _ _ K R Hv HK).
Qed.

(** Two integers nearest to the same value, ties to even, are one. *)
Lemma nearest_even_functional (N N' : Z) (v : Q) :
  nearest_even N 0 v -> nearest_even N' 0 v -> N = N'.
Proof.
  intros H H'.
  pose proof (@nearest_even_mono N N' 0 v v (Qle_refl v) H H').
  pose proof (@nearest_even_mono N' N 0 v v (Qle_refl v) H' H). lia.
Qed.

(** The cents of a finite float that is not negative are the nearest
    hundredths. *)
Lemma cents_of_nearest (x : float) :
  nonneg x -> 0 <= cents_of x /\ nearest_even (cents_of x) 0 (100 * value x).
Proof.
  unfold nonneg, value, cents_of.
  destruct (Prim2SF x) as [s|s| |[] m e]; try contradiction; intros _.
  - split; [ lia | ]. unfold nearest_even. cbn [SFval]. change (pow2 0) with 1%Q.
    change (inject_Z 0) with 0%Q. repeat split; first [ lra | intros [T|T]; lra ].
  - destruct (cents_nearest m e) as [H0 (A & B & T)]. split; [ exact H0 | ].
    cbn [SFval]. unfold nearest_even.
    split; [ lra | ]. split; [ lra | ]. intros [H|H]; apply T; [ left | right ]; lra.
Qed.

(** A float less than half a cent from [c] hundredths has [c] cents. *)
Lemma cents_of_near (x : float) (c : Z) :
  nonneg x -> (Qabs (100 * value x - inject_Z c) < 1 # 2)%Q -> cents_of x = c.
Proof.
  intros Hx H. destruct (@cents_of_nearest x Hx) as [_ Ne].
  exact (@Idem.nearest_even_unique _ _ _ Ne H).
Qed.

(** Rounding to cents keeps the cents, and returns a float half a unit in
    the last place from them at most. *)
Lemma round2_cents (x : float) (K : Z) :
  nonneg x -> (value x < pow2 K)%Q -> 0 <= K <= 45 ->
  nonneg (Binary64.round2 x)
  /\ cents_of (Binary64.round2 x) = cents_of x
  /\ (Qabs (value (Binary64.round2 x) - inject_Z (cents_of x) / 100)
      <= pow2 (K - 53))%Q.
Proof.
  intros Hx Hv HK.
  destruct (@cents_of_nearest x Hx) as [H0 Ne].
  assert (P46 : (pow2 K <= pow2 45)%Q) by (apply pow2_le; lia).
  assert (E45 : (pow2 45 < pow2 46)%Q) by reflexivity.
  destruct (@round2_cases x Hx) as [(B & _)|(_ & c & Hc & Nc & R)]; [ lra | ].
  assert (Ec : c = cents_of x) by exact (@nearest_even_functional _ _ _ Nc Ne).
  subst c. set (c := cents_of x) in *.
  assert (Hq : (inject_Z c == 100 * (inject_Z c / 100))%Q) by field.
  assert (Hcv : (inject_Z c / 100 < pow2 (K + 1))%Q).
  { destruct Ne as (A & _ & _). change (pow2 0) with 1%Q in A.
    pose proof (pow2_succ K) as PS.
    assert (P1 : (1 <= pow2 K)%Q).
    { change 1%Q with (pow2 0). apply pow2_le. lia. }
    lra. }
  destruct (@rounds0_close _ _ (K + 1) R Hcv ltac:(lia)) as [F C].
  assert (EF : fexp prec emax (K + 1) - 1 = K - 53) by (rewrite fexp_eq; lia).
  rewrite EF in C.
  assert (P8 : (pow2 (K - 53) <= pow2 (-8))%Q) by (apply pow2_le; lia).
  assert (E8 : (pow2 (-8) == 1 # 256)%Q) by reflexivity.
  split; [ exact F | ]. split; [ | exact C ].
  apply cents_of_near; [ exact F | ].
  apply Qabs_Qle_condition in C. apply Qabs_Qlt_condition.
  fold (value (Binary64.round2 x)) in C. split; lra.
Qed.

(** A float that [round(x, 2)] leaves as it is, is that close to its cents. *)
Lemma fixed_cents (x : float) (K : Z) :
  nonneg x -> (value x < pow2 K)%Q -> 0 <= K <= 45 ->
  Binary64.round2 x = x ->
  (Qabs (value x - inject_Z (cents_of x) / 100) <= pow2 (K - 53))%Q.
Proof.
  intros Hx Hv HK E. destruct (@round2_cents x K Hx Hv HK) as (_ & _ & C).
  rewrite E in C. exact C.
Qed.

(** [a] and [b] are at most [t] apart. *)
Definition apart (t a b : Q) : Prop := (Qabs (a - b) <= t)%Q.

Lemma apart_iff (t a b : Q) : apart t a b <-> (b - t <= a <= b + t)%Q.
Proof.
  unfold apart. split.
  - intros H. apply Qabs_Qle_condition in H. split; lra.
  - intros H. apply Qabs_Qle_condition. split; lra.
Qed.

Lemma inject_Z_sub (a b : Z) : (inject_Z (a - b) == inject_Z a - inject_Z b)%Q.
Proof. unfold Z.sub. rewrite inject_Z_plus, inject_Z_opp. reflexivity. Qed.

(** The total tax of a result is rounded to cents. *)
Lemma total_tax_fixed (T : float) (r : income_tax_result) :
  calculate_income_tax T = ret r -> Binary64.round2 (total_tax r) = total_tax r.
Proof.
  unfold calculate_income_tax. destruct (leb T zero).
  - intros E. injection E as <-. reflexivity.
  - destruct (ltb zero T).
    + unfold py_div. destruct (eqb T zero); [ discriminate | ].
      cbn. intros E. injection E as <-. apply Idem.round2_idempotent.
    + cbn. intros E. injection E as <-. apply Idem.round2_idempotent.
Qed.

(** The exact values of the rates. *)
Lemma rate_values :
  (nonneg (VAT_RATE : float) /\ (value (VAT_RATE : float) <= 1 # 4)%Q)
  /\ (nonneg (EFKA_TOTAL_RATE : float) /\ (value (EFKA_TOTAL_RATE : float) <= 1 # 4)%Q)
  /\ (nonneg (EFKA_MAIN_RATE : float) /\ (value (EFKA_MAIN_RATE : float) <= 1 # 4)%Q)
  /\ (nonneg (EFKA_ADDITIONAL_RATE : float)
      /\ (value (EFKA_ADDITIONAL_RATE : float) <= 1 # 4)%Q).
Proof. vm_compute. repeat split; discriminate. Qed.

(** A flat-rate amount of an income up to [2^40]: finite, at most a
    quarter of the income and half a cent, and close to its cents. *)
Lemma flat_amount (g c : float) :
  nonneg g -> (value g <= pow2 40)%Q -> nonneg c -> (value c <= 1 # 4)%Q ->
  nonneg (Binary64.round2 (g * c))
  /\ apart (pow2 (-12)) (value (Binary64.round2 (g * c)))
            (inject_Z (cents_of (Binary64.round2 (g * c))) / 100)
  /\ apart ((1 # 2) + 100 * pow2 (-13)) (inject_Z (cents_of (Binary64.round2 (g * c))))
            (100 * (value g * value c))
  /\ (value (Binary64.round2 (g * c)) <= pow2 39)%Q.
Proof.
  intros Ng Vg Nc Vc.
  pose proof (@value_nonneg _ Ng) as G0. pose proof (@value_nonneg _ Nc) as C0.
  assert (E40 : (pow2 40 == 1099511627776)%Q) by reflexivity.
  assert (E39 : (pow2 39 == 549755813888)%Q) by reflexivity.
  assert (E38 : (pow2 38 == 274877906944)%Q) by reflexivity.
  assert (E12 : (pow2 (-12) == 1 # 4096)%Q) by reflexivity.
  assert (E13 : (pow2 (-13) == 1 # 8192)%Q) by reflexivity.
  assert (Hp : (value g * value c <= pow2 38)%Q) by nra.
  destruct (@mul_close g c 41 Ng Nc) as [Nm Cm]; [ | lia | ].
  { assert (pow2 38 < pow2 41)%Q by reflexivity. lra. }
  change (fexp prec emax 41 - 1) with (-13) in Cm.
  apply Qabs_Qle_condition in Cm.
  destruct (@round2_cents (g * c) 41 Nm) as (Nr & Ec & Cr); [ | lia | ].
  { assert (pow2 38 + 1 < pow2 41)%Q by reflexivity. lra. }
  change (41 - 53) with (-12) in Cr. rewrite <- Ec in Cr.
  destruct (@cents_of_nearest (g * c) Nm) as [_ (A & B & _)].
  change (pow2 0) with 1%Q in A, B. rewrite <- Ec in A, B.
  set (k := cents_of (Binary64.round2 (g * c))) in *.
  assert (Hq : (inject_Z k == 100 * (inject_Z k / 100))%Q) by field.
  apply Qabs_Qle_condition in Cr.
  split; [ exact Nr | ]. split; [ apply apart_iff; lra | ].
  split; [ apply apart_iff; lra | lra ].
Qed.

(** A summary adds up in cents: the total taxes are the income tax plus
    the social security, the total obligations the total taxes plus the
    VAT; and for an income and expenses in whole cents, the taxable income
    is the income less the expenses and the net income the income less
    the total taxes. *)
Lemma summary_ledger (g e : float) :
  PrimFloat.ltb 0 g = true -> PrimFloat.leb g (Binary64.of_int (2 ^ 40)) = true ->
  PrimFloat.leb 0 e = true -> PrimFloat.leb e g = true ->
  exists r,
    calculate_all_taxes g e = ret r
    /\ cents_of (total_taxes r)
       = cents_of (total_tax (income_tax r))
         + cents_of (total_contribution (social_security r))
    /\ cents_of (total_obligations r)
       = cents_of (total_taxes r) + cents_of (vat_amount (vat r))
    /\ (Binary64.round2 g = g ->
        cents_of (net_income r) = cents_of g - cents_of (total_taxes r)
        /\ (Binary64.round2 e = e ->
            cents_of (taxable_income r) = cents_of g - cents_of e)).
Proof.
  intros P Hg H0 He.
  assert (E40 : (pow2 40 == 1099511627776)%Q) by reflexivity.
  assert (E41 : (pow2 41 == 2199023255552)%Q) by reflexivity.
  assert (E39 : (pow2 39 == 549755813888)%Q) by reflexivity.
  assert (E12 : (pow2 (-12) == 1 # 4096)%Q) by reflexivity.
  assert (E13 : (pow2 (-13) == 1 # 8192)%Q) by reflexivity.
  destruct (@range_value g (@positive_nonneg float Binary64.binary64 g P) Hg) as [Ng Vg].
  pose proof (@leb_zero_fnn _ H0) as Fe.
  pose proof (@leb_fle _ _ Fe He) as Feg.
  destruct (@fle_finite _ _ Feg Ng) as [Ne Ve].
  destruct (@Burden.burden_bound g e Ng Fe Feg) as (r & Hr & Nb & Vb).
  exists r. split; [ exact Hr | ].
  destruct (@Burden.summary_fields g e r P Hr) as (_ & Ht & Htt & Hob & Hnet & Hvat & Hss & Hit).
  destruct rate_values as ((Nv & Rv) & (Ns & Rs) & _ & _).
  set (it := total_tax (income_tax r)) in *.
  set (ss := total_contribution (social_security r)) in *.
  set (va := vat_amount (vat r)) in *.
  (* the social security and the VAT *)
  assert (Ess : ss = Binary64.round2 (g * EFKA_TOTAL_RATE)) by (unfold ss; rewrite Hss; reflexivity).
  assert (Eva : va = Binary64.round2 (g * VAT_RATE)) by (unfold va; rewrite Hvat; reflexivity).
  destruct (@flat_amount g EFKA_TOTAL_RATE Ng Vg Ns Rs) as (Nss & Css & _ & Bss).
  destruct (@flat_amount g VAT_RATE Ng Vg Nv Rv) as (Nva & Cva & _ & Bva).
  rewrite <- Ess in Nss, Css, Bss. rewrite <- Eva in Nva, Cva, Bva.
  (* the income tax *)
  assert (Fit : fnn it).
  { destruct (@total_tax_fle_ext _ _ (@fle_refl _ (@round2_fnn _ (max_zero_fnn (g - e)))))
      as (a & b & Ea & _ & Fa).
    unfold calculate_taxable_income in Hit.
    change (@round2 float _) with Binary64.round2 in Hit.
    change (@sub float _) with PrimFloat.sub in Hit.
    rewrite Hit in Ea. injection Ea as <-. exact (@fle_left _ _ Fa). }
  assert (Hib : fle it (Burden.burden r)).
  { unfold Burden.burden. apply add_increases; [ exact Fit | apply nonneg_fnn, Nss ]. }
  destruct (@fle_finite _ _ Hib Nb) as [Nit Vit].
  pose proof (@fixed_cents it 41 Nit ltac:(lra) ltac:(lia) (@total_tax_fixed _ _ Hit)) as Cit.
  change (41 - 53) with (-12) in Cit. fold (apart (pow2 (-12)) (value it) (inject_Z (cents_of it) / 100)) in Cit.
  apply apart_iff in Cit, Css, Cva.
  pose proof (@value_nonneg _ Nit) as I0. pose proof (@value_nonneg _ Nss) as S0.
  pose proof (@value_nonneg _ Nva) as V0. pose proof (@value_nonneg _ Nb) as B0.
  (* the sum of the two *)
  destruct (@add_close it ss 41 Nit Nss ltac:(lra) ltac:(lia)) as [_ Cb].
  change (fexp prec emax 41 - 1) with (-13) in Cb.
  fold (Burden.burden r) in Cb. change (it + ss)%float with (Burden.burden r) in Cb.
  fold (apart (pow2 (-13)) (value (Burden.burden r)) (value it + value ss)) in Cb.
  apply apart_iff in Cb.
  assert (Q1 : (inject_Z (cents_of it) + inject_Z (cents_of ss)
                == 100 * (inject_Z (cents_of it) / 100 + inject_Z (cents_of ss) / 100))%Q)
    by field.
  assert (Cburden : cents_of (Burden.burden r) = cents_of it + cents_of ss).
  { apply cents_of_near; [ exact Nb | ]. rewrite inject_Z_plus.
    apply Qabs_Qlt_condition. split; lra. }
  destruct (@round2_cents (Burden.burden r) 41 Nb ltac:(lra) ltac:(lia)) as (_ & Ctt & _).
  rewrite <- Htt in Ctt.
  split; [ rewrite Ctt; exact Cburden | ].
  (* with the VAT *)
  destruct (@add_close (Burden.burden r) va 41 Nb Nva ltac:(lra) ltac:(lia)) as [Nob Cob].
  change (fexp prec emax 41 - 1) with (-13) in Cob.
  fold (apart (pow2 (-13)) (value (Burden.burden r + va)) (value (Burden.burden r) + value va)) in Cob.
  apply apart_iff in Cob.
  assert (Q2 : (inject_Z (cents_of va) == 100 * (inject_Z (cents_of va) / 100))%Q) by field.
  assert (Cobl : cents_of (Burden.burden r + va) = cents_of it + cents_of ss + cents_of va).
  { apply cents_of_near; [ exact Nob | ]. rewrite !inject_Z_plus.
    apply Qabs_Qlt_condition. split; lra. }
  destruct (@round2_cents (Burden.burden r + va) 41 Nob ltac:(lra) ltac:(lia)) as (_ & Cto & _).
  rewrite <- Hob in Cto.
  split; [ rewrite Cto, Ctt, Cburden; exact Cobl | ].
  (* an income in whole cents *)
  intros Fg.
  pose proof (@fixed_cents g 41 Ng ltac:(lra) ltac:(lia) Fg) as Cg.
  change (41 - 53) with (-12) in Cg.
  fold (apart (pow2 (-12)) (value g) (inject_Z (cents_of g) / 100)) in Cg.
  apply apart_iff in Cg.
  assert (Q3 : (inject_Z (cents_of g) == 100 * (inject_Z (cents_of g) / 100))%Q) by field.
  pose proof (@value_nonneg _ Ng) as G0. pose proof (@value_nonneg _ Ne) as E0.
  split.
  - destruct (@sub_close g (Burden.burden r) 41 Ng Nb Vb ltac:(lra) ltac:(lia)) as [Nn Cn].
    change (fexp prec emax 41 - 1) with (-13) in Cn.
    fold (apart (pow2 (-13)) (value (g - Burden.burden r)) (value g - value (Burden.burden r))) in Cn.
    apply apart_iff in Cn.
    assert (Cnet : cents_of (g - Burden.burden r) = cents_of g - (cents_of it + cents_of ss)).
    { apply cents_of_near; [ exact Nn | ]. rewrite inject_Z_sub, inject_Z_plus.
      apply Qabs_Qlt_condition. split; lra. }
    pose proof (@value_nonneg _ Nn) as N0.
    destruct (@round2_cents (g - Burden.burden r) 41 Nn ltac:(lra) ltac:(lia)) as (_ & Cne & _).
    rewrite <- Hnet in Cne. rewrite Cne, Ctt, Cburden. exact Cnet.
  - intros Fx.
    pose proof (@fixed_cents e 41 Ne ltac:(lra) ltac:(lia) Fx) as Ce.
    change (41 - 53) with (-12) in Ce.
    fold (apart (pow2 (-12)) (value e) (inject_Z (cents_of e) / 100)) in Ce.
    apply apart_iff in Ce.
    assert (Q4 : (inject_Z (cents_of e) == 100 * (inject_Z (cents_of e) / 100))%Q) by field.
    destruct (@sub_close g e 41 Ng Ne Ve ltac:(lra) ltac:(lia)) as [Nd Cd].
    change (fexp prec emax 41 - 1) with (-13) in Cd.
    fold (apart (pow2 (-13)) (value (g - e)) (value g - value e)) in Cd.
    apply apart_iff in Cd.
    destruct (@max_zero_value _ Nd) as [Nm Vm].
    assert (Cm : cents_of (py_max zero (g - e)%float) = cents_of g - cents_of e).
    { apply cents_of_near; [ exact Nm | ]. rewrite inject_Z_sub, Vm.
      apply Qabs_Qlt_condition. split; lra. }
    pose proof (@value_nonneg _ Nd) as D0.
    destruct (@round2_cents (py_max zero (g - e)%float) 41 Nm ltac:(lra) ltac:(lia)) as (_ & Ct & _).
    rewrite Ht. unfold calculate_taxable_income.
    change (@round2 float _) with Binary64.round2.
    change (@sub float _) with PrimFloat.sub.
    rewrite Idem.round2_idempotent, Ct. exact Cm.
Qed.

(** The cents of an amount are within half a cent of it. *)
Lemma cents_half (x : float) :
  nonneg x -> apart (1 # 2) (inject_Z (cents_of x)) (100 * value x).
Proof.
  intros Nx. destruct (@cents_of_nearest x Nx) as [_ (A & B & _)].
  change (pow2 0) with 1%Q in A, B. apply apart_iff. lra.
Qed.

(** An integer below two in absolute value is at most one. *)
Lemma below_two (z : Z) : (Qabs (inject_Z z) < 2)%Q -> Z.abs z <= 1.
Proof.
  intros H. apply Qabs_Qlt_condition in H. destruct H as [A B].
  change 2%Q with (inject_Z 2) in A, B.
  change (- inject_Z 2)%Q with (inject_Z (-2)) in A.
  rewrite <- Zlt_Qlt in A, B. lia.
Qed.

(** The total rate is the sum of the two rates, rounded. *)
Lemma efka_rates_sum :
  apart (pow2 (-54)) (value (EFKA_TOTAL_RATE : float))
         (value (EFKA_MAIN_RATE : float) + value (EFKA_ADDITIONAL_RATE : float)).
Proof. vm_compute. discriminate. Qed.

(** The main insurance and the additional contributions add up to the
    total contribution within one cent; the total with VAT is the income
    plus the VAT within one cent. *)
Lemma parts_ledger (g : float) :
  nonneg g -> (value g <= pow2 40)%Q ->
  Z.abs (cents_of (total_contribution (calculate_social_security g))
         - (cents_of (main_insurance (calculate_social_security g))
            + cents_of (additional_contributions (calculate_social_security g)))) <= 1
  /\ Z.abs (cents_of (total_with_vat (calculate_vat g))
            - (cents_of g + cents_of (vat_amount (calculate_vat g)))) <= 1.
Proof.
  intros Ng Vg.
  assert (E40 : (pow2 40 == 1099511627776)%Q) by reflexivity.
  assert (E41 : (pow2 41 == 2199023255552)%Q) by reflexivity.
  assert (E38 : (pow2 38 == 274877906944)%Q) by reflexivity.
  assert (E13 : (pow2 (-13) == 1 # 8192)%Q) by reflexivity.
  assert (E54 : (pow2 (-54) == 1 # 18014398509481984)%Q) by reflexivity.
  pose proof (@value_nonneg _ Ng) as G0.
  destruct rate_values as ((Nv & Rv) & (Ns & Rs) & (Nm & Rm) & (Na & Ra)).
  cbn [calculate_social_security calculate_vat total_contribution main_insurance
       additional_contributions total_with_vat vat_amount].
  change (@round2 float _) with Binary64.round2.
  change (@mul float _) with PrimFloat.mul. change (@add float _) with PrimFloat.add.
  split.
  - destruct (@flat_amount g EFKA_TOTAL_RATE Ng Vg Ns Rs) as (_ & _ & Ct & _).
    destruct (@flat_amount g EFKA_MAIN_RATE Ng Vg Nm Rm) as (_ & _ & Cm & _).
    destruct (@flat_amount g EFKA_ADDITIONAL_RATE Ng Vg Na Ra) as (_ & _ & Ca & _).
    pose proof efka_rates_sum as Hs.
    apply apart_iff in Ct, Cm, Ca, Hs.
    set (rt := value EFKA_TOTAL_RATE) in *. set (rm := value EFKA_MAIN_RATE) in *.
    set (ra := value EFKA_ADDITIONAL_RATE) in *.
    assert (Hd : (- (1 # 100) <= 100 * (value g * rt) - 100 * (value g * rm)
                                 - 100 * (value g * ra) <= 1 # 100)%Q).
    { assert (Q : (100 * (value g * rt) - 100 * (value g * rm) - 100 * (value g * ra)
                   == 100 * (value g * (rt - rm - ra)))%Q) by ring.
      rewrite Q. split; nra. }
    apply below_two. rewrite inject_Z_sub, inject_Z_plus.
    apply Qabs_Qlt_condition. split; lra.
  - destruct (@mul_close g VAT_RATE 41 Ng Nv) as [Nm' Cm']; [ nra | lia | ].
    change (fexp prec emax 41 - 1) with (-13) in Cm'.
    apply Qabs_Qle_condition in Cm'.
    pose proof (@value_nonneg _ Nm') as M0.
    assert (Hp : (value g * value VAT_RATE <= pow2 38)%Q) by nra.
    destruct (@add_close g (g * VAT_RATE) 41 Ng Nm') as [Nt Ct]; [ lra | lia | ].
    change (fexp prec emax 41 - 1) with (-13) in Ct.
    apply Qabs_Qle_condition in Ct.
    destruct (@round2_cents (g + g * VAT_RATE) 42 Nt) as (_ & Et & _); [ | lia | ].
    { assert (pow2 42 == 4398046511104)%Q by reflexivity. lra. }
    destruct (@round2_cents (g * VAT_RATE) 41 Nm') as (_ & Ev & _); [ lra | lia | ].
    rewrite Et, Ev.
    pose proof (@cents_half _ Nt) as Ht. pose proof (@cents_half _ Nm') as Hv.
    pose proof (@cents_half _ Ng) as Hg.
    apply apart_iff in Ht, Hv, Hg.
    apply below_two. rewrite inject_Z_sub, inject_Z_plus.
    apply Qabs_Qlt_condition. split; lra.
Qed.

(** The VAT rate is [0.24] up to the rounding of the literal. *)
Lemma vat_rate_value : apart (pow2 (-55)) (value (VAT_RATE : float)) (24 # 100).
Proof. vm_compute. discriminate. Qed.

(** 24 per cent of a whole number of cents is never half a cent away from
    a whole number of cents. *)
Lemma vat_cents_clear (c : Z) :
  (Qabs (inject_Z c * (24 # 100) - inject_Z ((24 * c + 50) / 100)) <= 48 # 100)%Q.
Proof.
  pose proof (Z.div_mod (24 * c + 50) 100 ltac:(lia)) as D.
  pose proof (Z.mod_pos_bound (24 * c + 50) 100 ltac:(lia)) as B.
  set (N := (24 * c + 50) / 100) in *. set (m := (24 * c + 50) mod 100) in *.
  assert (H : 100 * N - 48 <= 24 * c <= 100 * N + 48) by lia.
  destruct H as [A1 A2]. rewrite Zle_Qle in A1, A2.
  rewrite inject_Z_sub, !inject_Z_mult in A1. rewrite inject_Z_plus, !inject_Z_mult in A2.
  change (inject_Z 100) with 100%Q in A1, A2. change (inject_Z 48) with 48%Q in A1, A2.
  change (inject_Z 24) with 24%Q in A1, A2.
  apply Qabs_Qle_condition. split; lra.
Qed.

(** For an income in whole cents up to [2^33] the total with VAT is the
    income plus the VAT, to the cent. *)
Lemma vat_ledger (g : float) :
  nonneg g -> (value g <= pow2 33)%Q -> Binary64.round2 g = g ->
  cents_of (total_with_vat (calculate_vat g))
  = cents_of g + cents_of (vat_amount (calculate_vat g)).
Proof.
  intros Ng Vg Fg.
  assert (E33 : (pow2 33 == 8589934592)%Q) by reflexivity.
  assert (E34 : (pow2 34 == 17179869184)%Q) by reflexivity.
  assert (E19 : (pow2 (-19) == 1 # 524288)%Q) by reflexivity.
  assert (E20 : (pow2 (-20) == 1 # 1048576)%Q) by reflexivity.
  assert (E55 : (pow2 (-55) == 1 # 36028797018963968)%Q) by reflexivity.
  pose proof (@value_nonneg _ Ng) as G0.
  destruct rate_values as ((Nv & Rv) & _).
  pose proof (@value_nonneg _ Nv) as R0.
  pose proof vat_rate_value as Hr. apply apart_iff in Hr.
  pose proof (@fixed_cents g 34 Ng ltac:(lra) ltac:(lia) Fg) as Cg.
  change (34 - 53) with (-19) in Cg. apply Qabs_Qle_condition in Cg.
  set (c := cents_of g) in *.
  pose proof (vat_cents_clear c) as Hc. apply Qabs_Qle_condition in Hc.
  set (N := (24 * c + 50) / 100) in *.
  cbn [calculate_vat total_with_vat vat_amount].
  change (@round2 float _) with Binary64.round2.
  change (@mul float _) with PrimFloat.mul. change (@add float _) with PrimFloat.add.
  assert (Hp : (value g * value VAT_RATE <= 2147483648)%Q) by nra.
  destruct (@mul_close g VAT_RATE 34 Ng Nv ltac:(lra) ltac:(lia)) as [Nm Cm].
  change (fexp prec emax 34 - 1) with (-20) in Cm. apply Qabs_Qle_condition in Cm.
  pose proof (@value_nonneg _ Nm) as M0.
  destruct (@add_close g (g * VAT_RATE) 34 Ng Nm ltac:(lra) ltac:(lia)) as [Nt Ct].
  change (fexp prec emax 34 - 1) with (-20) in Ct. apply Qabs_Qle_condition in Ct.
  destruct (@round2_cents (g + g * VAT_RATE) 35 Nt) as (_ & Et & _); [ | lia | ].
  { assert (pow2 35 == 34359738368)%Q by reflexivity. lra. }
  destruct (@round2_cents (g * VAT_RATE) 34 Nm ltac:(lra) ltac:(lia)) as (_ & Ev & _).
  rewrite Et, Ev.
  (* the exact product against 24 per cent of the cents *)
  assert (Qc : (inject_Z c == 100 * (inject_Z c / 100))%Q) by field.
  assert (Hx : (- (1 # 1000) <= 100 * (value g * value VAT_RATE) - inject_Z c * (24 # 100)
                <= 1 # 1000)%Q).
  { assert (Q : (100 * (value g * value VAT_RATE) - inject_Z c * (24 # 100)
                 == 100 * (value g * (value VAT_RATE - (24 # 100)))
                    + 24 * (value g - inject_Z c / 100))%Q) by field.
    rewrite Q.
    assert (P1 : (- (pow2 33 * pow2 (-55)) <= value g * (value VAT_RATE - (24 # 100))
                  <= pow2 33 * pow2 (-55))%Q) by (split; nra).
    assert (Q2 : (pow2 33 * pow2 (-55) == 1 # 4194304)%Q) by reflexivity.
    lra. }
  assert (Ev' : cents_of (g * VAT_RATE) = N).
  { apply cents_of_near; [ exact Nm | ]. apply Qabs_Qlt_condition. split; lra. }
  rewrite Ev'. apply cents_of_near; [ exact Nt | ]. rewrite inject_Z_plus.
  apply Qabs_Qlt_condition. split; lra.
Qed.

(** *** The breakdown in cents *)










(** The taxable income of an income up to [2^40] is a finite amount in
    whole cents. *)
Lemma taxable_income_range (g e : float) :
  nonneg g -> (value g <= pow2 40)%Q -> nonneg e -> (value e <= value g)%Q ->
  nonneg (calculate_taxable_income g e)
  /\ (value (calculate_taxable_income g e) < pow2 41)%Q
  /\ Binary64.round2 (calculate_taxable_income g e) = calculate_taxable_income g e.
Proof.
  intros Ng Vg Ne Ve.
  assert (E40 : (pow2 40 == 1099511627776)%Q) by reflexivity.
  assert (E41 : (pow2 41 == 2199023255552)%Q) by reflexivity.
  assert (E12 : (pow2 (-12) == 1 # 4096)%Q) by reflexivity.
  assert (E13 : (pow2 (-13) == 1 # 8192)%Q) by reflexivity.
  pose proof (@value_nonneg _ Ne) as E0.
  destruct (@sub_close g e 41 Ng Ne Ve ltac:(lra) ltac:(lia)) as [Nd Cd].
  change (fexp prec emax 41 - 1) with (-13) in Cd. apply Qabs_Qle_condition in Cd.
  destruct (@max_zero_value _ Nd) as [Nm Vm].
  destruct (@round2_cents (py_max zero (g - e)%float) 41 Nm ltac:(lra) ltac:(lia))
    as (Nr & _ & Cr).
  change (41 - 53) with (-12) in Cr. apply Qabs_Qle_condition in Cr.
  pose proof (@cents_half _ Nm) as Hh. apply apart_iff in Hh.
  set (k := cents_of (py_max zero (g - e)%float)) in *.
  assert (Qk : (inject_Z k == 100 * (inject_Z k / 100))%Q) by field.
  unfold calculate_taxable_income.
  change (@round2 float _) with Binary64.round2. change (@sub float _) with PrimFloat.sub.
  split; [ exact Nr | ]. split; [ lra | apply Idem.round2_idempotent ].
Qed.


End Ledger.

(** ** The effective rates *)

Module Rates.
Import Rounding Nearest Monotone.

(** The value of a positive float against its number of digits. *)
Lemma value_digits (m : positive) (e : Z) :
  (pow2 (Zpos (digits2_pos m) + e - 1) <= inject_Z (Zpos m) * pow2 e)%Q
  /\ (inject_Z (Zpos m) * pow2 e < pow2 (Zpos (digits2_pos m) + e))%Q.
Proof.
  pose proof (digits2_bounds m) as [Lo Hi].
  set (d := Zpos (digits2_pos m)) in *.
  assert (Hd : 0 <= d - 1) by (unfold d; lia).
  pose proof (pow2_pos e) as Pe.
  rewrite Zle_Qle in Lo. rewrite Zlt_Qlt in Hi.
  rewrite <- (pow2_nonneg Hd) in Lo. rewrite <- (@pow2_nonneg d ltac:(lia)) in Hi.
  replace (d + e - 1) with ((d - 1) + e) by lia. rewrite !pow2_add.
  split; nra.
Qed.

(** A quotient of amounts rounds to nearest. *)
Lemma div_rounds0 (x y : float) :
  nonneg x -> nonneg y ->
  (pow2 (-20) <= value y)%Q -> (value y <= pow2 41)%Q ->
  ((value x == 0)%Q \/ (pow2 (-20) <= value x)%Q) ->
  rounds0 (value x / value y) (Prim2SF (x / y)).
Proof.
  intros Nx Ny Ly Hy Hx.
  pose proof (pow2_pos (-20)) as P20.
  pose proof (Prim2SF_valid x) as Vx. pose proof (Prim2SF_valid y) as Vy.
  unfold nonneg, value in *. rewrite div_spec. unfold SF64div.
  destruct (Prim2SF y) as [sy|sy| |[] my ey]; try contradiction.
  cbn [SFval] in Ly, Hy |- *. rewrite Qmult_1_l in Ly, Hy.
  pose proof (posval my ey) as Py.
  destruct (Prim2SF x) as [sx|sx| |[] mx ex]; try contradiction.
  - left. cbn [SFval]. split; [ unfold Qdiv; ring | ].
    cbn [SFdiv]. eexists. reflexivity.
  - cbn [SFval] in Hx |- *. pose proof (posval mx ex) as Px.
    destruct Hx as [Hx|Hx]; [ rewrite Qmult_1_l in Hx; lra | ].
    rewrite Qmult_1_l in Hx.
    right. split.
    + rewrite Qmult_1_l. apply Qlt_shift_div_l; lra.
    + apply (@rounds_to_eq (inject_Z (Zpos mx) * pow2 ex / (inject_Z (Zpos my) * pow2 ey))).
      { rewrite !Qmult_1_l. reflexivity. }
      apply valid_finite in Vx. destruct Vx as [Cx _]. rewrite fexp_eq in Cx.
      destruct (value_digits mx ex) as [_ Ux]. destruct (value_digits my ey) as [Ly' _].
      assert (D1 : -20 < Zpos (digits2_pos mx) + ex) by (apply pow2_le_inv; lra).
      assert (D2 : Zpos (digits2_pos my) + ey - 1 < 42).
      { apply pow2_le_inv. assert (pow2 41 < pow2 42)%Q by reflexivity. lra. }
      apply SFdiv_rounds; lia.
Qed.

(** The quotient grows with the numerator and shrinks with the
    denominator. *)
Lemma div_mono (x1 y1 x2 y2 : float) :
  nonneg x1 -> nonneg y1 -> nonneg x2 -> nonneg y2 ->
  (value x1 <= value x2)%Q -> (value y2 <= value y1)%Q ->
  (pow2 (-20) <= value y2)%Q -> (value y1 <= pow2 41)%Q ->
  ((value x1 == 0)%Q \/ (pow2 (-20) <= value x1)%Q) ->
  ((value x2 == 0)%Q \/ (pow2 (-20) <= value x2)%Q) ->
  fle (x1 / y1) (x2 / y2).
Proof.
  intros Nx1 Ny1 Nx2 Ny2 Hx Hy L2 H1 Z1 Z2.
  pose proof (pow2_pos (-20)) as P20.
  pose proof (@value_nonneg _ Nx1) as X0.
  apply (@rounds0_mono (value x1 / value y1) (value x2 / value y2)).
  - apply Qle_shift_div_l; [ lra | ].
    set (q := (value x1 / value y1)%Q).
    assert (Eq : (q * value y1 == value x1)%Q) by (unfold q; field; lra).
    assert (Q0 : (0 <= q)%Q).
    { unfold q. apply Qle_shift_div_l; lra. }
    nra.
  - apply div_rounds0; try assumption; lra.
  - apply div_rounds0; try assumption; lra.
Qed.

(** A share of [y] as a percentage: [round(x / y * 100, 2)]. *)
Definition rate_of (x y : float) : float :=
  Binary64.round2 ((x / y) * Binary64.of_int 100).

Lemma rate_mono (x1 y1 x2 y2 : float) :
  nonneg x1 -> nonneg y1 -> nonneg x2 -> nonneg y2 ->
  (value x1 <= value x2)%Q -> (value y2 <= value y1)%Q ->
  (pow2 (-20) <= value y2)%Q -> (value y1 <= pow2 41)%Q ->
  ((value x1 == 0)%Q \/ (pow2 (-20) <= value x1)%Q) ->
  ((value x2 == 0)%Q \/ (pow2 (-20) <= value x2)%Q) ->
  fle (rate_of x1 y1) (rate_of x2 y2).
Proof.
  intros Nx1 Ny1 Nx2 Ny2 Hx Hy L2 H1 Z1 Z2. unfold rate_of.
  apply round2_mono. apply mul_mono_ext; [ | reflexivity | exact I ].
  apply div_mono; assumption.
Qed.

Lemma below_infinity (x : float) : nonneg x -> PrimFloat.ltb x infinity = true.
Proof.
  unfold nonneg. rewrite ltb_spec. change (Prim2SF infinity) with (S754_infinity false).
  destruct (Prim2SF x) as [s|s| |[] m e]; try contradiction; reflexivity.
Qed.

(** Nothing of a positive amount is zero per cent. *)
Lemma rate_zero (x y : float) :
  nonneg x -> (value x == 0)%Q -> PrimFloat.ltb 0 y = true ->
  PrimFloat.ltb y infinity = true ->
  PrimFloat.leb 0 (rate_of x y) = true /\ PrimFloat.leb (rate_of x y) 0 = true.
Proof.
  intros Nx Vx Py Fy. unfold rate_of.
  assert (Ez : exists s, Prim2SF ((x / y) * Binary64.of_int 100) = S754_zero s).
  { rewrite mul_spec, div_spec. unfold nonneg, value in *.
    rewrite ltb_spec in Py, Fy. rewrite Binary64.Prim2SF_zero in Py.
    change (Prim2SF infinity) with (S754_infinity false) in Fy.
    destruct (Prim2SF y) as [sy|[]| |[] my ey]; try discriminate.
    destruct (Prim2SF x) as [sx|sx| |[] mx ex]; try contradiction.
    - eexists. reflexivity.
    - cbn [SFval] in Vx. pose proof (posval mx ex). lra. }
  destruct Ez as [s Ez]. unfold Binary64.round2. rewrite Ez.
  rewrite !leb_spec, Ez. destruct s; split; reflexivity.
Qed.

(** What [round(x, 2)] returns of an amount is zero or most of a cent. *)
Lemma zero_or_cent (x : float) :
  nonneg x -> (value x < pow2 41)%Q ->
  nonneg (Binary64.round2 x)
  /\ ((value (Binary64.round2 x) == 0)%Q \/ (pow2 (-7) <= value (Binary64.round2 x))%Q).
Proof.
  intros Nx Vx.
  assert (E41 : (pow2 41 < pow2 46)%Q) by reflexivity.
  assert (E7 : (pow2 (-7) == 1 # 128)%Q) by reflexivity.
  destruct (@round2_cases x Nx) as [(B & _)|(_ & c & Hc & _ & R)]; [ lra | ].
  destruct (Z.eq_dec c 0) as [->|Hn].
  - destruct R as [(_ & s & E)|(P & _)].
    + unfold nonneg, value. rewrite E. split; [ exact I | left; reflexivity ].
    + exfalso. assert (inject_Z 0 / 100 == 0)%Q by reflexivity. lra.
  - assert (H1 : (1 <= inject_Z c)%Q).
    { change 1%Q with (inject_Z 1). rewrite <- Zle_Qle. lia. }
    assert (Hv : (pow2 (-7) <= inject_Z c / 100)%Q).
    { apply Qle_shift_div_l; lra. }
    assert (Hr : rounds0 (pow2 (-7)) (Prim2SF (Binary64.of_int 1 / Binary64.of_int 128))).
    { apply (@rounds0_eq (SFval (Prim2SF (Binary64.of_int 1 / Binary64.of_int 128)))).
      - reflexivity.
      - apply rounds0_self; [ apply Prim2SF_valid | exact I ]. }
    destruct (@rounds0_mono _ _ _ _ Hv Hr R) as [_ [Inf|(_ & F & V)]].
    + exfalso. destruct R as [(Z0 & _)|(_ & (d & N & Lo & Hi & HN & Ne & [(_ & F & _)|(Ov & _)]))].
      * lra.
      * rewrite Inf in F. contradiction.
      * destruct Hc as [_ Hc]. rewrite Zle_Qle in Hc.
        assert (E : (inject_Z (100 * 2 ^ 46) == 100 * pow2 46)%Q) by reflexivity.
        assert (Hcv : (inject_Z c / 100 <= pow2 46)%Q).
        { apply Qle_shift_div_r; lra. }
        assert (Hd : d - 1 < 47).
        { apply pow2_le_inv. assert (pow2 46 < pow2 47)%Q by reflexivity. lra. }
        destruct Ne as (A & _).
        assert (Hd' : -7 < d) by (apply pow2_le_inv; lra).
        assert (HE : fexp prec emax d <= d) by (rewrite fexp_eq; lia).
        pose proof (pow2_le HE) as PE.
        assert (H48 : (pow2 d <= pow2 48)%Q) by (apply pow2_le; lia).
        assert (E48 : (2 * pow2 48 < pow2 1024)%Q).
        { pose proof (pow2_succ 48) as S48. rewrite <- S48. apply pow2_lt. lia. }
        assert (E46 : (pow2 46 <= pow2 48)%Q) by (apply pow2_le; lia).
        pose proof (pow2_pos d). lra.
    + split; [ exact F | right ].
      assert (E128 : (SFval (Prim2SF (Binary64.of_int 1 / Binary64.of_int 128)) == 1 # 128)%Q)
        by reflexivity.
      unfold value. lra.
Qed.

(** An amount in whole cents is zero or most of a cent. *)
Lemma fixed_zero_or_cent (x : float) :
  nonneg x -> (value x < pow2 41)%Q -> Binary64.round2 x = x ->
  (value x == 0)%Q \/ (pow2 (-7) <= value x)%Q.
Proof.
  intros Nx Vx Fx. destruct (@zero_or_cent x Nx Vx) as [_ H]. rewrite Fx in H. exact H.
Qed.

(** So is the sum of two. *)
Lemma sum_zero_or_cent (x y : float) :
  nonneg x -> nonneg y -> nonneg (x + y) ->
  ((value x == 0)%Q \/ (pow2 (-7) <= value x)%Q) ->
  ((value y == 0)%Q \/ (pow2 (-7) <= value y)%Q) ->
  (value (x + y) == 0)%Q \/ (pow2 (-7) <= value (x + y))%Q.
Proof.
  intros Nx Ny Ns Hx Hy.
  pose proof (@value_nonneg _ Nx) as X0. pose proof (@value_nonneg _ Ny) as Y0.
  pose proof (pow2_pos (-7)) as P7.
  pose proof (@add_rounds0 x y Nx Ny) as R.
  assert (Hr : rounds0 (pow2 (-7)) (Prim2SF (Binary64.of_int 1 / Binary64.of_int 128))).
  { apply (@rounds0_eq (SFval (Prim2SF (Binary64.of_int 1 / Binary64.of_int 128)))).
    - reflexivity.
    - apply rounds0_self; [ apply Prim2SF_valid | exact I ]. }
  assert (E128 : (SFval (Prim2SF (Binary64.of_int 1 / Binary64.of_int 128)) == pow2 (-7))%Q)
    by reflexivity.
  assert (Hbig : (pow2 (-7) <= value x + value y)%Q -> (pow2 (-7) <= value (x + y))%Q).
  { intros Hv. destruct (@rounds0_mono _ _ _ _ Hv Hr R) as [_ [Inf|(_ & _ & V)]].
    - unfold nonneg in Ns. rewrite Inf in Ns. contradiction.
    - unfold value. lra. }
  destruct Hx as [Hx|Hx]; [ | right; apply Hbig; lra ].
  destruct Hy as [Hy|Hy]; [ | right; apply Hbig; lra ].
  left. destruct R as [(_ & s & E)|(P & _)]; [ | lra ].
  unfold value. rewrite E. reflexivity.
Qed.

(** *** Rungs *)

Definition tiny : float := Eval compute in (Binary64.of_int 1 / Binary64.of_int (2 ^ 20))%float.

Definition huge : float := Eval compute in Binary64.of_int (2 ^ 41).

(** [n] rungs above [a], each [ratio] times the one before. *)
Fixpoint climb (ratio : float) (n : nat) (a : float) : list float :=
  match n with
  | O => []
  | S n' => (a * ratio)%float :: climb ratio n' (a * ratio)%float
  end.

(** One climb after the other, each from where the one before ended. *)
Fixpoint climbs (segs : list (float * nat)) (a : float) : list float :=
  match segs with
  | [] => []
  | (ratio, n) :: rest => let s := climb ratio n a in s ++ climbs rest (last s a)
  end.

(** [ok] holds of every rung and the next. *)
Fixpoint all_pairs (ok : float -> float -> bool) (l : list float) : bool :=
  match l with
  | a :: (b :: _) as rest =>
      Burden.is_nonneg a && Burden.is_nonneg b && ok a b && all_pairs ok rest
  | _ => true
  end.

(** An amount between the first and the last rung is between two rungs
    next to each other. *)
Lemma pairs_cover (ok : float -> float -> bool) (l : list float) :
  forall a y : float,
    all_pairs ok (a :: l) = true -> nonneg y ->
    PrimFloat.leb a y = true -> PrimFloat.leb y (last l a) = true -> l <> [] ->
    exists a' b' : float,
      nonneg a' /\ nonneg b' /\ ok a' b' = true
      /\ (value a' <= value y)%Q /\ (value y <= value b')%Q.
Proof.
  induction l as [|b rest IH]; intros a y Hok Ny Ha Hlast Hne; [ contradiction | ].
  cbn [all_pairs] in Hok. rewrite !andb_true_iff in Hok.
  destruct Hok as [[[Na Nb] Hab] Hrest].
  apply Burden.is_nonneg_spec in Na, Nb.
  destruct (Qlt_le_dec (value b) (value y)) as [G|G].
  - destruct rest as [|c rest'].
    + cbn [last] in Hlast. apply (leb_value _ _ Ny Nb) in Hlast. lra.
    + assert (Hb : PrimFloat.leb b y = true) by (apply (leb_value _ _ Nb Ny); lra).
      apply (IH b y Hrest Ny Hb); [ | discriminate ].
      rewrite (Burden.last_nonempty rest' c b a). exact Hlast.
  - exists a, b. split; [ exact Na | ]. split; [ exact Nb | ]. split; [ exact Hab | ].
    apply (leb_value _ _ Na Ny) in Ha. split; assumption.
Qed.

(** *** The effective rate of the income tax *)

(** The tax the loop adds up for a taxable income. *)
Definition tax_of_loop (T : float) : float :=
  st_total_tax (bracket_loop INCOME_TAX_BRACKETS (init_state T)).

Lemma tax_of_loop_mono (T1 T2 : float) :
  nonneg T1 -> nonneg T2 -> (value T1 <= value T2)%Q ->
  fle (tax_of_loop T1) (tax_of_loop T2).
Proof.
  intros N1 N2 Hv. unfold tax_of_loop.
  apply (@loop_mono INCOME_TAX_BRACKETS (init_state T1) (init_state T2)).
  - exact brackets_widths.
  - exact brackets_rates.
  - reflexivity.
  - exact N1.
  - exact N2.
  - exact Hv.
  - apply fle_refl. exact I.
Qed.

Definition income_pair (a b : float) : bool :=
  let sb := tax_of_loop b in
  PrimFloat.leb tiny a && PrimFloat.leb b huge
  && PrimFloat.leb tiny (tax_of_loop a) && Burden.is_nonneg sb
  && PrimFloat.leb (rate_of sb a) (Binary64.of_int 44).

(** Taxable incomes from [2^-7], below one cent, to 10,000,000. *)
Definition income_rungs : list float :=
  climbs [ (lit 3 2, 38%nat); (lit 9 8, 8%nat); (lit 65 64, 149%nat);
           (lit 513 512, 1183%nat) ] (lit 1 128)
  ++ [ Binary64.of_int 10000000 ].

Lemma income_rungs_facts :
  all_pairs income_pair (lit 1 128 :: income_rungs) = true
  /\ last income_rungs (lit 1 128) = Binary64.of_int 10000000.
Proof.
  split; [ vm_cast_no_check (eq_refl true)
         | vm_cast_no_check (eq_refl (Binary64.of_int 10000000)) ].
Qed.

(** The bound of a pair of rungs holds between them. *)
Lemma rate_between (x y xa xb a b B : float) :
  nonneg y -> nonneg a -> nonneg b ->
  (value a <= value y)%Q -> (value y <= value b)%Q ->
  PrimFloat.leb tiny a = true -> PrimFloat.leb b huge = true ->
  nonneg x -> nonneg xb -> (value x <= value xb)%Q ->
  ((value x == 0)%Q \/ (pow2 (-20) <= value x)%Q) ->
  ((value xb == 0)%Q \/ (pow2 (-20) <= value xb)%Q) ->
  PrimFloat.leb (rate_of xb a) B = true ->
  PrimFloat.leb 0 (rate_of x y) = true /\ PrimFloat.leb (rate_of x y) B = true.
Proof.
  intros Ny Na Nb Hay Hyb La Hb Nx Nxb Hx Zx Zxb HB.
  assert (Nt : nonneg tiny) by exact I. assert (Nh : nonneg huge) by exact I.
  assert (Vt : (value tiny == pow2 (-20))%Q) by reflexivity.
  assert (Vh : (value huge == pow2 41)%Q) by reflexivity.
  apply (leb_value _ _ Nt Na) in La. apply (leb_value _ _ Nb Nh) in Hb.
  assert (H : fle (rate_of x y) (rate_of xb a)).
  { apply rate_mono; try assumption; lra. }
  split.
  - apply fle_leb, fle_zero. exact (@fle_left _ _ H).
  - apply fle_leb. eapply fle_trans; [ exact H | ].
    apply leb_fle; [ exact (@fle_right _ _ H) | exact HB ].
Qed.

(** The effective rate of a positive taxable income is the share of the
    tax of the loop in it. *)
Lemma effective_rate_loop (T : float) (r : income_tax_result) :
  PrimFloat.ltb 0 T = true -> calculate_income_tax T = ret r ->
  effective_rate r = rate_of (tax_of_loop T) T.
Proof.
  intros P E.
  pose proof (@calculate_income_tax_loop float Binary64.binary64 T P) as L.
  rewrite E in L.
  apply (f_equal (fun x : result income_tax_result =>
                    match x with inr v => effective_rate v | inl _ => 0%float end)) in L.
  exact L.
Qed.

(** The effective rate of a taxable income between [2^-7] and 10,000,000
    is from 0 to 44 per cent. *)
Lemma effective_rate_bound (T : float) :
  nonneg T -> (pow2 (-7) <= value T)%Q -> (value T <= 10000000)%Q ->
  PrimFloat.leb 0 (rate_of (tax_of_loop T) T) = true
  /\ PrimFloat.leb (rate_of (tax_of_loop T) T) (Binary64.of_int 44) = true.
Proof.
  intros NT Lo Hi.
  destruct income_rungs_facts as [Hok Hlast].
  assert (N0 : nonneg (lit 1 128 : float)) by exact I.
  assert (V0 : (value (lit 1 128 : float) == pow2 (-7))%Q) by reflexivity.
  assert (N1 : nonneg (Binary64.of_int 10000000)) by exact I.
  assert (V1 : (value (Binary64.of_int 10000000) == 10000000)%Q) by reflexivity.
  assert (Nt : nonneg tiny) by exact I.
  assert (Vt : (value tiny == pow2 (-20))%Q) by reflexivity.
  destruct (@pairs_cover income_pair income_rungs (lit 1 128) T Hok NT)
    as (a & b & Na & Nb & Hab & Hay & Hyb).
  { apply (leb_value _ _ N0 NT). lra. }
  { rewrite Hlast. apply (leb_value _ _ NT N1). lra. }
  { discriminate. }
  unfold income_pair in Hab. cbv zeta in Hab. rewrite !andb_true_iff in Hab.
  destruct Hab as [[[[La Hb] Lsa] Nsb] HB].
  apply Burden.is_nonneg_spec in Nsb.
  pose proof (@tax_of_loop_mono a T Na NT Hay) as M1.
  pose proof (@tax_of_loop_mono T b NT Nb Hyb) as M2.
  destruct (@fle_finite _ _ M2 Nsb) as [NsT VsT].
  destruct (@fle_finite _ _ M1 NsT) as [Nsa Vsa].
  apply (leb_value _ _ Nt Nsa) in Lsa.
  apply (@rate_between (tax_of_loop T) T (tax_of_loop a) (tax_of_loop b) a b); try assumption.
  - right. lra.
  - right. lra.
Qed.

(** *** The effective total rate *)

Definition total_pair (a b : float) : bool :=
  let ob := Burden.owed b in
  PrimFloat.leb tiny a && PrimFloat.leb b huge
  && Burden.is_nonneg ob
  && (PrimFloat.leb ob 0 || PrimFloat.leb tiny ob)
  && PrimFloat.leb (rate_of ob a) (Binary64.of_int 64).

(** Gross incomes from two cents to 10,000,000. *)
Definition total_rungs : list float :=
  climbs [ (lit 5 4, 65%nat); (lit 17 16, 15%nat); (lit 129 128, 297%nat);
           (lit 1025 1024, 2361%nat) ] (lit 2 100)
  ++ [ Binary64.of_int 10000000 ].

Lemma total_rungs_facts :
  all_pairs total_pair (lit 2 100 :: total_rungs) = true
  /\ last total_rungs (lit 2 100) = Binary64.of_int 10000000
  /\ Burden.is_nonneg (Burden.owed (lit 2 100)) = true
  /\ PrimFloat.leb (Burden.owed (lit 2 100)) 0 = true.
Proof.
  split; [ vm_cast_no_check (eq_refl true) | ].
  split; [ vm_cast_no_check (eq_refl (Binary64.of_int 10000000)) | ].
  split; reflexivity.
Qed.

(** The taxes of a summary are no more than what a higher income without
    expenses owes. *)
Lemma burden_fle (g e b : float) :
  fnn e -> fle e g -> fle g b ->
  exists r, calculate_all_taxes g e = ret r /\ fle (Burden.burden r) (Burden.owed b).
Proof.
  intros Ne Heg Hgb.
  destruct (@all_taxes_fle g e b 0 (@fle_zero _ Ne) Heg Hgb) as (r1 & r2 & E1 & E2 & Hle).
  exists r1. split; [ exact E1 | ].
  assert (Ho : Burden.owed b = Burden.burden r2).
  { unfold Burden.owed. change (@zero float _) with 0%float. rewrite E2. reflexivity. }
  rewrite Ho. unfold Burden.burden.
  apply add_mono; [ apply (le_income_tax Hle) | apply (le_total_contribution Hle) ].
Qed.

(** The effective total rate is the share of the taxes in the income. *)
Lemma summary_rate (g e : float) (r : tax_summary) :
  PrimFloat.ltb 0 g = true -> calculate_all_taxes g e = ret r ->
  effective_total_rate r = rate_of (Burden.burden r) g.
Proof.
  intros P E. destruct (@summary_positive g e P) as (it & Hit & E').
  rewrite E' in E. injection E as <-. reflexivity.
Qed.

(** The effective rates of a gross income above zero and up to 10,000,000
    with expenses between zero and the income: from 0 to 44 per cent of
    the taxable income in income tax, from 0 to 64 per cent of the gross
    income in income tax and social security. *)
Lemma rates_bound (g e : float) :
  PrimFloat.ltb 0 g = true -> PrimFloat.leb g (Binary64.of_int 10000000) = true ->
  PrimFloat.leb 0 e = true -> PrimFloat.leb e g = true ->
  exists r,
    calculate_all_taxes g e = ret r
    /\ PrimFloat.leb 0 (effective_rate (income_tax r)) = true
    /\ PrimFloat.leb (effective_rate (income_tax r)) (Binary64.of_int 44) = true
    /\ PrimFloat.leb 0 (effective_total_rate r) = true
    /\ PrimFloat.leb (effective_total_rate r) (Binary64.of_int 64) = true.
Proof.
  intros P Hg H0 He.
  assert (E40 : (pow2 40 == 1099511627776)%Q) by reflexivity.
  assert (E41 : (pow2 41 == 2199023255552)%Q) by reflexivity.
  assert (E7 : (pow2 (-7) == 1 # 128)%Q) by reflexivity.
  assert (E20 : (pow2 (-20) == 1 # 1048576)%Q) by reflexivity.
  assert (NM : nonneg (Binary64.of_int 10000000)) by exact I.
  assert (VM : (value (Binary64.of_int 10000000) == 10000000)%Q) by reflexivity.
  pose proof (@nonneg_of_range g _ (@positive_nonneg float Binary64.binary64 g P) Hg NM) as Ng.
  pose proof Hg as Vg. apply (leb_value _ _ Ng NM) in Vg.
  pose proof (@leb_zero_fnn _ H0) as Fe.
  pose proof (@leb_fle _ _ Fe He) as Feg.
  destruct (@fle_finite _ _ Feg Ng) as [Ne Ve].
  assert (FgM : fle g (Binary64.of_int 10000000)) by (apply fle_values; assumption).
  destruct (@Burden.burden_bound g e Ng Fe Feg) as (r & Hr & Nb & Vb).
  exists r. split; [ exact Hr | ].
  destruct (@Burden.summary_fields g e r P Hr) as (_ & _ & _ & _ & _ & _ & Hss & Hit).
  pose proof (@value_nonneg _ Nb) as B0.
  (* the income tax *)
  assert (Hrate : PrimFloat.leb 0 (effective_rate (income_tax r)) = true
                  /\ PrimFloat.leb (effective_rate (income_tax r)) (Binary64.of_int 44) = true).
  { destruct (@Ledger.taxable_income_range g e Ng ltac:(lra) Ne Ve) as (NT & VT & FT).
    set (T := calculate_taxable_income g e) in *.
    assert (HT : (value T <= 10000000)%Q).
    { pose proof (@taxable_fle g e (Binary64.of_int 10000000) 0 (@fle_zero _ Fe) Feg FgM) as H.
      assert (EM : calculate_taxable_income (Binary64.of_int 10000000) 0%float
                   = Binary64.of_int 10000000) by reflexivity.
      rewrite EM in H. destruct (@fle_finite _ _ H NM) as [_ V]. fold T in V. lra. }
    destruct (@fixed_zero_or_cent T NT VT FT) as [Z|C].
    - assert (Hz : PrimFloat.leb T 0 = true).
      { apply (leb_value T 0 NT I). change (value 0) with 0%Q. lra. }
      rewrite (@calculate_income_tax_nonpositive float Binary64.binary64 T Hz) in Hit.
      unfold ret in Hit. injection Hit as <-. split; reflexivity.
    - assert (Hp : PrimFloat.ltb 0 T = true).
      { apply (ltb_value 0 T I NT). change (value 0) with 0%Q. lra. }
      rewrite (@effective_rate_loop T _ Hp Hit).
      exact (@effective_rate_bound T NT C HT). }
  split; [ exact (proj1 Hrate) | ]. split; [ exact (proj2 Hrate) | ].
  (* the total *)
  rewrite (@summary_rate g e r P Hr).
  assert (Zb : (value (Burden.burden r) == 0)%Q \/ (pow2 (-7) <= value (Burden.burden r))%Q).
  { set (it := total_tax (income_tax r)) in *.
    set (ss := total_contribution (social_security r)) in *.
    destruct Ledger.rate_values as (_ & (Ns & Rs) & _).
    destruct (@Ledger.flat_amount g EFKA_TOTAL_RATE Ng ltac:(lra) Ns Rs) as (Nss & _ & _ & Bss).
    assert (Ess : ss = Binary64.round2 (g * EFKA_TOTAL_RATE))
      by (unfold ss; rewrite Hss; reflexivity).
    rewrite <- Ess in Nss, Bss.
    assert (Fit : fnn it).
    { destruct (@total_tax_fle_ext _ _ (@fle_refl _ (@round2_fnn _ (max_zero_fnn (g - e)))))
        as (a & b & Ea & _ & Fa).
      unfold calculate_taxable_income in Hit.
      change (@round2 float _) with Binary64.round2 in Hit.
      change (@sub float _) with PrimFloat.sub in Hit.
      rewrite Hit in Ea. injection Ea as <-. exact (@fle_left _ _ Fa). }
    assert (Hib : fle it (Burden.burden r)).
    { unfold Burden.burden. apply add_increases; [ exact Fit | apply nonneg_fnn, Nss ]. }
    destruct (@fle_finite _ _ Hib Nb) as [Nit Vit].
    assert (E39 : (pow2 39 < pow2 41)%Q) by reflexivity.
    apply (@sum_zero_or_cent it ss Nit Nss Nb).
    - apply fixed_zero_or_cent; [ exact Nit | lra | exact (@Ledger.total_tax_fixed _ _ Hit) ].
    - apply fixed_zero_or_cent; [ exact Nss | lra | ].
      rewrite Ess. apply Idem.round2_idempotent. }
  assert (Zb' : (value (Burden.burden r) == 0)%Q \/ (pow2 (-20) <= value (Burden.burden r))%Q).
  { destruct Zb as [Z|C]; [ left; exact Z | right; lra ]. }
  destruct total_rungs_facts as (Hok & Hlast & Hn2 & Hz2).
  apply Burden.is_nonneg_spec in Hn2.
  assert (N2 : nonneg (lit 2 100 : float)) by exact I.
  destruct (Qlt_le_dec (value g) (value (lit 2 100 : float))) as [Small|Large].
  - (* below two cents nothing is owed *)
    assert (F2 : fle g (lit 2 100)) by (apply fle_values; try assumption; lra).
    destruct (@burden_fle g e (lit 2 100) Fe Feg F2) as (r' & Hr' & Hle).
    rewrite Hr in Hr'. unfold ret in Hr'. injection Hr' as <-.
    destruct (@fle_finite _ _ Hle Hn2) as [_ V].
    pose proof (@zero_of_nonneg _ Hn2 Hz2) as Z.
    pose proof (@below_infinity g Ng) as Fg.
    destruct (@rate_zero (Burden.burden r) g Nb ltac:(lra) P Fg) as [A B].
    split; [ exact A | ].
    assert (F0 : fle 0 (rate_of (Burden.burden r) g)) by (apply leb_fle; [ exact I | exact A ]).
    apply fle_leb. eapply fle_trans.
    + apply leb_fle; [ exact (@fle_right _ _ F0) | exact B ].
    + apply fle_values; [ exact I | exact I | ].
      assert (value 0 == 0)%Q by reflexivity.
      assert (value (Binary64.of_int 64) == 64)%Q by reflexivity. lra.
  - destruct (@pairs_cover total_pair total_rungs (lit 2 100) g Hok Ng)
      as (a & b & Na & Nb' & Hab & Hay & Hyb).
    { apply (leb_value _ _ N2 Ng). exact Large. }
    { rewrite Hlast. exact Hg. }
    { discriminate. }
    unfold total_pair in Hab. cbv zeta in Hab. rewrite !andb_true_iff in Hab.
    destruct Hab as [[[[La Hb] No] Zo] HB].
    apply Burden.is_nonneg_spec in No.
    assert (Fgb : fle g b) by (apply fle_values; assumption).
    destruct (@burden_fle g e b Fe Feg Fgb) as (r' & Hr' & Hle).
    rewrite Hr in Hr'. unfold ret in Hr'. injection Hr' as <-.
    destruct (@fle_finite _ _ Hle No) as [_ V].
    apply (@rate_between (Burden.burden r) g (Burden.owed a) (Burden.owed b) a b); try assumption.
    apply orb_true_iff in Zo. destruct Zo as [Z|C].
    + left. exact (@zero_of_nonneg _ No Z).
    + right. assert (Nt : nonneg tiny) by exact I.
      assert (Vt : (value tiny == pow2 (-20))%Q) by reflexivity.
      apply (leb_value _ _ Nt No) in C. lra.
Qed.

End Rates.

(** * The command line of [main.py]

    The prompts and validators of the interactive calculator, on binary64
    floats.  A Python [str] is its UTF-8 encoding.  The builtin [float] on a
    [str] is a parameter: every property below holds whatever it parses. *)

Module Cli.

Local Open Scope string_scope.

(** ** Strings *)

(** The string of the bytes [l]. *)
Definition bytes (l : list nat) : string :=
  fold_right (fun n s => String (ascii_of_nat n) s) EmptyString l.

(** ["\n"] *)
Definition nl : string := bytes [10%nat].

(** [s * n] *)
Fixpoint repeat_string (s : string) (n : nat) : string :=
  match n with
  | O => EmptyString
  | S n' => s ++ repeat_string s n'
  end.

(** The characters [str.isspace] holds of, encoded: the ASCII controls
    [\t \n \v \f \r] and [\x1c] to [\x1f], the space, U+0085, U+00A0,
    U+1680, U+2000 to U+200A, U+2028, U+2029, U+202F, U+205F, U+3000. *)
Definition whitespace : list string :=
  map bytes
    [ [9]; [10]; [11]; [12]; [13]; [28]; [29]; [30]; [31]; [32];
      [194; 133]; [194; 160]; [225; 154; 128];
      [226; 128; 128]; [226; 128; 129]; [226; 128; 130]; [226; 128; 131];
      [226; 128; 132]; [226; 128; 133]; [226; 128; 134]; [226; 128; 135];
      [226; 128; 136]; [226; 128; 137]; [226; 128; 138];
      [226; 128; 168]; [226; 128; 169]; [226; 128; 175]; [226; 129; 159];
      [227; 128; 128] ]%nat.

(** [s] without its prefix [p], when it starts with [p]. *)
Fixpoint drop_prefix (p s : string) : option string :=
  match p, s with
  | EmptyString, _ => Some s
  | String a p', String b s' => if Ascii.eqb a b then drop_prefix p' s' else None
  | String _ _, EmptyString => None
  end.

(** [s] without the first of [ps] that it starts with. *)
Fixpoint drop_any (ps : list string) (s : string) : option string :=
  match ps with
  | [] => None
  | p :: ps' =>
      match drop_prefix p s with
      | Some s' => Some s'
      | None => drop_any ps' s
      end
  end.

Fixpoint lstrip_from (ps : list string) (fuel : nat) (s : string) : string :=
  match fuel with
  | O => s
  | S fuel' =>
      match drop_any ps s with
      | Some s' => lstrip_from ps fuel' s'
      | None => s
      end
  end.

(** [s[::-1]] on bytes. *)
Fixpoint reverse (s : string) : string :=
  match s with
  | EmptyString => EmptyString
  | String c s' => reverse s' ++ String c EmptyString
  end.

(** [s.lstrip()] *)
Definition lstrip (s : string) : string :=
  lstrip_from whitespace (String.length s) s.

(** [s.rstrip()]: a string ends with a character when its bytes reversed
    start with the bytes of the character reversed. *)
Definition rstrip (s : string) : string :=
  reverse (lstrip_from (map reverse whitespace) (String.length s) (reverse s)).

(** [s.strip()] *)
Definition strip (s : string) : string := rstrip (lstrip s).

(** [sub in s] *)
Fixpoint contains (sub s : string) : bool :=
  match drop_prefix sub s with
  | Some _ => true
  | None =>
      match s with
      | EmptyString => false
      | String _ s' => contains sub s'
      end
  end.

(** [c.upper()] on an ASCII character. *)
Definition upper_ascii (c : ascii) : ascii :=
  let n := nat_of_ascii c in
  if ((97 <=? n) && (n <=? 122))%nat then ascii_of_nat (n - 32)%nat else c.

(** [s.capitalize()] on an ASCII string, as the frequency tokens are. *)
Definition capitalize (s : string) : string :=
  match s with
  | EmptyString => EmptyString
  | String c s' => String (upper_ascii c) (lower s')
  end.

(** ** Formatting a float: [format(x, ',.2f')] and [format(x, ',.0f')] *)

(** The integer nearest to [m * 2^e * k], ties to even. *)
Definition nearest_scaled (k : Z) (m : positive) (e : Z) : Z :=
  match e with
  | Zneg p =>
      let d := (2 ^ Zpos p)%Z in
      let n := (Zpos m * k)%Z in
      let q := (n / d)%Z in
      match (2 * (n mod d) ?= d)%Z with
      | Lt => q
      | Gt => (q + 1)%Z
      | Eq => if Z.even q then q else (q + 1)%Z
      end
  | _ => (Zpos m * 2 ^ e * k)%Z
  end.

(** The decimal digit [d]. *)
Definition digit (d : Z) : string := bytes [(48 + Z.to_nat d)%nat].

(** The decimal digits of [n >= 0], at most [fuel] of them. *)
Fixpoint digits_fuel (fuel : nat) (n : Z) : string :=
  match fuel with
  | O => EmptyString
  | S fuel' =>
      if (n <? 10)%Z then digit n
      else digits_fuel fuel' (n / 10)%Z ++ digit (n mod 10)%Z
  end.

(** [str(n)] for an int [n >= 0]. *)
Definition digits (n : Z) : string := digits_fuel (S (Z.to_nat (Z.log2 n))) n.

(** A comma before every group of three digits but the first. *)
Fixpoint group_reversed (s : string) : string :=
  match s with
  | String a (String b (String c ((String _ _) as more))) =>
      String a (String b (String c (String "," (group_reversed more))))
  | _ => s
  end.

Definition group_thousands (s : string) : string := reverse (group_reversed (reverse s)).

(** [n] in decimal on [width] digits, zeros in front. *)
Definition zero_padded (width : nat) (n : Z) : string :=
  let s := digits n in
  repeat_string "0" (width - String.length s) ++ s.

(** The amount of [c] units of [10^-prec]: the integer part in groups of
    three, then the point and [prec] digits when [prec] is not zero. *)
Definition fixed_point (prec : nat) (c : Z) : string :=
  let unit := (10 ^ Z.of_nat prec)%Z in
  group_thousands (digits (c / unit)%Z)
  ++ match prec with
     | O => EmptyString
     | S _ => "." ++ zero_padded prec (c mod unit)%Z
     end.

(** [format(x, ',.<prec>f')]: the decimal of [prec] fractional digits nearest
    to the exact value of [x], ties to even, with its sign; [inf] and
    [nan] for the infinities and the NaN. *)
Definition format_comma_f (prec : nat) (x : float) : string :=
  let sign (s : bool) := if s then "-" else EmptyString in
  match Prim2SF x with
  | S754_nan => "nan"
  | S754_infinity s => sign s ++ "inf"
  | S754_zero s => sign s ++ fixed_point prec 0
  | S754_finite s m e => sign s ++ fixed_point prec (nearest_scaled (10 ^ Z.of_nat prec)%Z m e)
  end.

(** [format_currency]: [f"€{amount:,.2f}"] *)
Definition format_currency (amount : float) : string :=
  "€" ++ format_comma_f 2 amount.

(** ** The console *)

(** What [input()] meets: a line typed, or Ctrl-C; the end of the input
    when nothing is left. *)
Inductive event : Type :=
  | Line (s : string)
  | Interrupt.

(** The input still to come and what has been written so far. *)
Record world : Type := {
  stdin : list event;
  stdout : list string
}.

(** How a function of the console ends: it returns, the program exits
    ([sys.exit]), or an exception propagates. *)
Inductive outcome (A : Type) : Type :=
  | Returned (a : A)
  | Exited (code : Z)
  | Raised (e : exn).

Arguments Returned {A} a.
Arguments Exited {A} code.
Arguments Raised {A} e.

(** [print(s)] *)
Definition print (s : string) (out : list string) : list string := out ++ [s ++ nl].

(** What [input(prompt)] writes before it reads. *)
Definition prompted (prompt : string) (out : list string) : list string := out ++ [prompt].

(** [print("\n\n❌ Input cancelled.")] *)
Definition cancelled (out : list string) : list string :=
  print (nl ++ nl ++ "❌ Input cancelled.") out.

Definition rule : string := repeat_string "-" 70.
Definition double_rule : string := repeat_string "=" 70.

(** ** Validation *)

(** [try: body / except ValueError as e: handler(str(e))] *)
Definition except_value_error {A : Type} (body : result A) (handler : string -> result A)
  : result A :=
  match body with
  | inl (ValueError msg) => handler msg
  | _ => body
  end.

Section Validation.

(** The builtin [float] on a [str]: the float it denotes, or the
    [ValueError]. *)
Variable py_float : string -> result float.

Definition validate_positive_number (value_str field_name : string) : result float :=
  except_value_error
    (value <- py_float (strip value_str) ;;
     if leb value zero
     then raise (ValueError (field_name ++ " must be greater than zero."))
     else ret value)
    (fun msg =>
       if contains "could not convert" msg
       then raise (ValueError (field_name ++ " must be a valid number."))
       else raise (ValueError msg)).

Definition validate_non_negative_number (value_str field_name : string) : result float :=
  except_value_error
    (value <- py_float (strip value_str) ;;
     if ltb value zero
     then raise (ValueError (field_name ++ " cannot be negative."))
     else ret value)
    (fun msg =>
       if contains "could not convert" msg
       then raise (ValueError (field_name ++ " must be a valid number."))
       else raise (ValueError msg)).

Definition validate_expenses_against_income (expenses gross_income : float) : result unit :=
  if ltb gross_income expenses then
    raise (ValueError ("Deductible expenses (€" ++ format_comma_f 2 expenses
                       ++ ") cannot exceed gross income (€"
                       ++ format_comma_f 2 gross_income ++ ")."))
  else ret tt.

(** The default of [max_amount]: [10000000]. *)
Definition default_max_amount : float := of_int 10000000.

Definition validate_realistic_amount (value : float) (field_name : string)
    (max_amount : float) : result unit :=
  if ltb max_amount value then
    raise (ValueError (field_name ++ " of €" ++ format_comma_f 2 value
                       ++ " seems unrealistic. Please enter a value less than €"
                       ++ format_comma_f 0 max_amount ++ "."))
  else ret tt.

(** *** display_frequency_menu *)

Fixpoint frequency_loop (inp : list event) (out : list string) : outcome string * world :=
  let out := prompted "Enter your choice (1-3): " out in
  match inp with
  | Line s :: rest =>
      let choice := strip s in
      if String.eqb choice "1" then (Returned "monthly", {| stdin := rest; stdout := out |})
      else if String.eqb choice "2" then (Returned "quarterly", {| stdin := rest; stdout := out |})
      else if String.eqb choice "3" then (Returned "annual", {| stdin := rest; stdout := out |})
      else frequency_loop rest (print "❌ Invalid choice. Please enter 1, 2, or 3." out)
  | Interrupt :: rest => (Exited 0, {| stdin := rest; stdout := cancelled out |})
  | [] => (Exited 0, {| stdin := []; stdout := cancelled out |})
  end.

Definition display_frequency_menu (w : world) : outcome string * world :=
  let out := print (nl ++ rule) (stdout w) in
  let out := print "SELECT PAYMENT FREQUENCY" out in
  let out := print rule out in
  let out := print "1. Monthly (12 payments per year)" out in
  let out := print "2. Quarterly (4 payments per year)" out in
  let out := print "3. Annual (1 payment per year)" out in
  let out := print rule out in
  frequency_loop (stdin w) out.

(** *** get_gross_income *)

(** The checks of one line that is not empty. *)
Definition checked_gross_income (value_str : string) : result float :=
  gross_income <- validate_positive_number value_str "Gross income" ;;
  _ <- validate_realistic_amount gross_income "Gross income" default_max_amount ;;
  ret gross_income.

Fixpoint gross_income_loop (inp : list event) (out : list string) : outcome float * world :=
  let out := prompted "Gross annual income (€): " out in
  match inp with
  | Line s :: rest =>
      let value_str := strip s in
      if String.eqb value_str EmptyString then
        gross_income_loop rest (print "❌ Please enter a value." out)
      else
        match checked_gross_income value_str with
        | inr gross_income => (Returned gross_income, {| stdin := rest; stdout := out |})
        | inl (ValueError msg) => gross_income_loop rest (print ("❌ " ++ msg) out)
        | inl e => (Raised e, {| stdin := rest; stdout := out |})
        end
  | Interrupt :: rest => (Exited 0, {| stdin := rest; stdout := cancelled out |})
  | [] => (Exited 0, {| stdin := []; stdout := cancelled out |})
  end.

Definition get_gross_income (w : world) : outcome float * world :=
  let out := print (nl ++ rule) (stdout w) in
  let out := print "GROSS ANNUAL INCOME" out in
  let out := print rule out in
  let out := print "Enter your total gross annual income (excluding VAT)." out in
  let out := print "Example: 50000 for €50,000" out in
  let out := print rule out in
  gross_income_loop (stdin w) out.

(** *** get_deductible_expenses *)

(** The checks of one line that is not empty. *)
Definition checked_expenses (gross_income : float) (value_str : string) : result float :=
  expenses <- validate_non_negative_number value_str "Expenses" ;;
  _ <- validate_expenses_against_income expenses gross_income ;;
  _ <- validate_realistic_amount expenses "Expenses" default_max_amount ;;
  ret expenses.

Fixpoint expenses_loop (gross_income : float) (inp : list event) (out : list string)
  : outcome float * world :=
  let out := prompted "Deductible expenses (€): " out in
  match inp with
  | Line s :: rest =>
      let value_str := strip s in
      if String.eqb value_str EmptyString then
        expenses_loop gross_income rest
          (print "❌ Please enter a value (or 0 for no expenses)." out)
      else
        match checked_expenses gross_income value_str with
        | inr expenses => (Returned expenses, {| stdin := rest; stdout := out |})
        | inl (ValueError msg) => expenses_loop gross_income rest (print ("❌ " ++ msg) out)
        | inl e => (Raised e, {| stdin := rest; stdout := out |})
        end
  | Interrupt :: rest => (Exited 0, {| stdin := rest; stdout := cancelled out |})
  | [] => (Exited 0, {| stdin := []; stdout := cancelled out |})
  end.

Definition get_deductible_expenses (gross_income : float) (w : world)
  : outcome float * world :=
  let out := print (nl ++ rule) (stdout w) in
  let out := print "DEDUCTIBLE BUSINESS EXPENSES" out in
  let out := print rule out in
  let out := print "Enter your total deductible business expenses for the year." out in
  let out := print "This includes office rent, equipment, software, etc." out in
  let out := print ("Maximum allowed: " ++ format_currency gross_income) out in
  let out := print "Enter 0 if you have no deductible expenses." out in
  let out := print rule out in
  expenses_loop gross_income (stdin w) out.

(** *** confirm_inputs *)

Fixpoint confirm_loop (inp : list event) (out : list string) : bool * world :=
  let out := prompted (nl ++ "Proceed with calculation? (yes/no): ") out in
  match inp with
  | Line s :: rest =>
      let response := lower (strip s) in
      if str_in response ["yes"; "y"] then (true, {| stdin := rest; stdout := out |})
      else if str_in response ["no"; "n"] then (false, {| stdin := rest; stdout := out |})
      else confirm_loop rest (print "❌ Please enter 'yes' or 'no'." out)
  | Interrupt :: rest => (false, {| stdin := rest; stdout := cancelled out |})
  | [] => (false, {| stdin := []; stdout := cancelled out |})
  end.

Definition confirm_inputs (gross_income expenses : float) (frequency : string) (w : world)
  : bool * world :=
  let out := print (nl ++ double_rule) (stdout w) in
  let out := print "CONFIRM YOUR INPUTS" out in
  let out := print double_rule out in
  let out := print ("Gross Annual Income:       " ++ format_currency gross_income) out in
  let out := print ("Deductible Expenses:       " ++ format_currency expenses) out in
  let out := print ("Payment Frequency:         " ++ capitalize frequency) out in
  let out := print double_rule out in
  confirm_loop (stdin w) out.

End Validation.

End Cli.

(** ** What the command line displays and accepts *)

Module CliFacts.
Import Rounding Nearest Cli.

(** The cents [round(x, 2)] counts are the cents [format(x, ',.2f')] prints. *)
Lemma nearest_scaled_cents (m : positive) (e : Z) :
  nearest_scaled (10 ^ Z.of_nat 2) m e = Binary64.cents m e.
Proof. reflexivity. Qed.

(** An amount rounded to cents is displayed as the amount itself is. *)
Lemma format_round2 (x : float) :
  format_comma_f 2 (Binary64.round2 x) = format_comma_f 2 x.
Proof.
  destruct (Idem.round2_view x) as [->|(s & m & e & E & Hc & ->)]; [ reflexivity | ].
  cbv zeta. set (c := Binary64.cents m e) in *.
  set (q := (PrimFloat.of_uint63 (Uint63.of_Z c) / 100)%float).
  pose proof (Idem.quotient_finite Hc) as Nq. fold q in Nq.
  assert (H : Prim2SF (if s then (- q)%float else q)
              = match Prim2SF q with
                | S754_zero _ => S754_zero s
                | S754_finite _ m' e' => S754_finite s m' e'
                | other => other
                end).
  { unfold nonneg in Nq.
    destruct s; [ rewrite opp_spec | ];
      destruct (Prim2SF q) as [s'|s'| |[] m' e'] eqn:Eq; try contradiction; cbn [SFopp negb];
      try reflexivity.
    - destruct (@Idem.zero_quotient c s' Hc Eq) as [_ ->]. reflexivity.
    - destruct (@Idem.zero_quotient c s' Hc Eq) as [_ ->]. reflexivity. }
  unfold format_comma_f. rewrite H, E. rewrite nearest_scaled_cents. fold c.
  unfold nonneg in Nq.
  destruct (Prim2SF q) as [s'|s'| |[] m' e'] eqn:Eq; try contradiction.
  - destruct (@Idem.zero_quotient c s' Hc Eq) as [-> _]. reflexivity.
  - rewrite nearest_scaled_cents, (@Idem.cents_of_quotient c m' e' Hc Eq). reflexivity.
Qed.

(** No comparison holds of the NaN. *)
Lemma nan_compares (x : float) :
  PrimFloat.ltb x nan = false /\ PrimFloat.ltb nan x = false
  /\ PrimFloat.leb x nan = false /\ PrimFloat.leb nan x = false.
Proof.
  rewrite !ltb_spec, !leb_spec. change (Prim2SF nan) with S754_nan.
  unfold SFltb, SFleb, SFcompare.
  destruct (Prim2SF x) as [s|s| |s m e]; repeat split.
Qed.

(** Comparing the other way round gives the opposite. *)
Lemma SFcompare_antisym (x y : spec_float) :
  SFcompare y x = match SFcompare x y with
                  | Some c => Some (CompOpp c)
                  | None => None
                  end.
Proof.
  destruct x as [sx|sx| |sx mx ex], y as [sy|sy| |sy my ey]; cbn [SFcompare];
    try reflexivity;
    try (destruct sx; reflexivity); try (destruct sy; reflexivity);
    try (destruct sx, sy; reflexivity).
  destruct sx, sy; try reflexivity.
  - rewrite (Z.compare_antisym ex ey).
    destruct (ex ?= ey)%Z; cbn [CompOpp]; try reflexivity.
    pose proof (Pos.compare_cont_antisym mx my Eq) as A. cbn [CompOpp] in A.
    rewrite A. destruct (Pos.compare_cont Eq my mx); reflexivity.
  - rewrite (Z.compare_antisym ex ey).
    destruct (ex ?= ey)%Z; cbn [CompOpp]; try reflexivity.
    pose proof (Pos.compare_cont_antisym mx my Eq) as A. cbn [CompOpp] in A.
    rewrite A. destruct (Pos.compare_cont Eq my mx); reflexivity.
Qed.

(** Two floats that are not NaN compare. *)
Lemma SFcompare_total (x y : spec_float) :
  SFeqb x x = true -> SFeqb y y = true -> SFcompare x y <> None.
Proof.
  unfold SFeqb.
  destruct x as [sx|sx| |sx mx ex], y as [sy|sy| |sy my ey]; cbn [SFcompare];
    try discriminate; intros _ _;
    try (destruct sx; discriminate); try (destruct sy; discriminate);
    try (destruct sx, sy; discriminate).
Qed.

(** Of two floats that are not NaN, the first is at most the second when
    the second is not below it, and above it when it is not at most it. *)
Lemma not_nan_order (x y : float) :
  PrimFloat.eqb x x = true -> PrimFloat.eqb y y = true ->
  (PrimFloat.ltb y x = false -> PrimFloat.leb x y = true)
  /\ (PrimFloat.leb x y = false -> PrimFloat.ltb y x = true).
Proof.
  rewrite !eqb_spec, ltb_spec, leb_spec. intros Hx Hy.
  pose proof (SFcompare_total _ _ Hx Hy) as T.
  unfold SFltb, SFleb. rewrite (SFcompare_antisym (Prim2SF x) (Prim2SF y)).
  destruct (SFcompare (Prim2SF x) (Prim2SF y)) as [[]|]; cbn [CompOpp];
    split; congruence.
Qed.

Section Prompts.

Variable py_float : string -> result float.

(** What the value validators return. *)
Lemma validate_positive_number_returns (s f : string) (v : float) :
  validate_positive_number py_float s f = ret v
  <-> py_float (strip s) = ret v /\ PrimFloat.leb v 0 = false.
Proof.
  unfold validate_positive_number, except_value_error.
  destruct (py_float (strip s)) as [[msg| |k]|x]; cbn.
  - destruct (contains _ msg); split; intros H; try discriminate; destruct H; discriminate.
  - split; intros H; try discriminate; destruct H; discriminate.
  - split; intros H; try discriminate; destruct H; discriminate.
  - change (@leb float _ x zero) with (PrimFloat.leb x 0).
    destruct (PrimFloat.leb x 0) eqn:L; cbn.
    + destruct (contains _ _); split; intros H; try discriminate;
        destruct H as [H1 H2]; injection H1 as ->; congruence.
    + split.
      * intros H. injection H as ->. split; [ reflexivity | exact L ].
      * intros [H _]. exact H.
Qed.

Lemma validate_non_negative_number_returns (s f : string) (v : float) :
  validate_non_negative_number py_float s f = ret v
  <-> py_float (strip s) = ret v /\ PrimFloat.ltb v 0 = false.
Proof.
  unfold validate_non_negative_number, except_value_error.
  destruct (py_float (strip s)) as [[msg| |k]|x]; cbn.
  - destruct (contains _ msg); split; intros H; try discriminate; destruct H; discriminate.
  - split; intros H; try discriminate; destruct H; discriminate.
  - split; intros H; try discriminate; destruct H; discriminate.
  - change (@ltb float _ x zero) with (PrimFloat.ltb x 0).
    destruct (PrimFloat.ltb x 0) eqn:L; cbn.
    + destruct (contains _ _); split; intros H; try discriminate;
        destruct H as [H1 H2]; injection H1 as ->; congruence.
    + split.
      * intros H. injection H as ->. split; [ reflexivity | exact L ].
      * intros [H _]. exact H.
Qed.

(** The amount validators accept what is not above the bound. *)
Lemma validate_realistic_amount_returns (v : float) (f : string) (M : float) :
  validate_realistic_amount v f M = ret tt <-> PrimFloat.ltb M v = false.
Proof.
  unfold validate_realistic_amount. change (@ltb float _) with PrimFloat.ltb.
  destruct (PrimFloat.ltb M v); split; intros H; try discriminate; reflexivity.
Qed.

Lemma validate_expenses_against_income_returns (e g : float) :
  validate_expenses_against_income e g = ret tt <-> PrimFloat.ltb g e = false.
Proof.
  unfold validate_expenses_against_income. change (@ltb float _) with PrimFloat.ltb.
  destruct (PrimFloat.ltb g e); split; intros H; try discriminate; reflexivity.
Qed.

(** They raise nothing but a [ValueError]. *)
Lemma validate_realistic_amount_raises (v : float) (f : string) (M : float) (e : exn) :
  validate_realistic_amount v f M = raise e -> exists msg, e = ValueError msg.
Proof.
  unfold validate_realistic_amount, raise, ret. destruct (ltb M v); [ | discriminate ].
  intros H. injection H as <-. eexists. reflexivity.
Qed.

Lemma validate_expenses_against_income_raises (x g : float) (e : exn) :
  validate_expenses_against_income x g = raise e -> exists msg, e = ValueError msg.
Proof.
  unfold validate_expenses_against_income, raise, ret. destruct (ltb g x); [ | discriminate ].
  intros H. injection H as <-. eexists. reflexivity.
Qed.

(** What a value validator raises is a [ValueError], or what [float]
    raised. *)
Lemma except_value_error_raises (body : result float) (handler : string -> result float)
    (e : exn) :
  (forall msg e', handler msg = raise e' -> exists msg', e' = ValueError msg') ->
  except_value_error body handler = raise e ->
  (exists msg, e = ValueError msg) \/ ((forall msg, e <> ValueError msg) /\ body = raise e).
Proof.
  intros Hh. unfold except_value_error, raise.
  destruct body as [[msg| |k]|x]; intros H.
  - left. exact (Hh _ _ H).
  - right. injection H as <-. split; [ discriminate | reflexivity ].
  - right. injection H as <-. split; [ discriminate | reflexivity ].
  - discriminate.
Qed.

Lemma handler_raises (f : string) (tail : string) (msg : string) (e : exn) :
  (if contains "could not convert" msg
   then raise (ValueError (f ++ tail))
   else @raise float (ValueError msg)) = raise e ->
  exists msg', e = ValueError msg'.
Proof.
  unfold raise. destruct (contains _ msg); intros H; injection H as <-; eexists; reflexivity.
Qed.

Lemma validate_positive_number_raises (s f : string) (e : exn) :
  validate_positive_number py_float s f = raise e ->
  (exists msg, e = ValueError msg)
  \/ ((forall msg, e <> ValueError msg) /\ py_float (strip s) = raise e).
Proof.
  unfold validate_positive_number. intros H.
  apply except_value_error_raises in H.
  - destruct H as [H|[Hn H]]; [ left; exact H | right ]. split; [ exact Hn | ].
    destruct (py_float (strip s)) as [e'|x]; cbn in H.
    + exact H.
    + unfold ret, raise in H. destruct (PrimFloat.leb x 0); [ | discriminate ].
      injection H as <-. exfalso. eapply Hn. reflexivity.
  - intros msg e'. apply handler_raises.
Qed.

Lemma validate_non_negative_number_raises (s f : string) (e : exn) :
  validate_non_negative_number py_float s f = raise e ->
  (exists msg, e = ValueError msg)
  \/ ((forall msg, e <> ValueError msg) /\ py_float (strip s) = raise e).
Proof.
  unfold validate_non_negative_number. intros H.
  apply except_value_error_raises in H.
  - destruct H as [H|[Hn H]]; [ left; exact H | right ]. split; [ exact Hn | ].
    destruct (py_float (strip s)) as [e'|x]; cbn in H.
    + exact H.
    + unfold ret, raise in H. destruct (PrimFloat.ltb x 0); [ | discriminate ].
      injection H as <-. exfalso. eapply Hn. reflexivity.
  - intros msg e'. apply handler_raises.
Qed.

(** What the checks of a line end with. *)
Definition checked (ok : float -> Prop) (s : string) (body : result float) : Prop :=
  match body with
  | inr v => ok v /\ py_float (strip s) = ret v
  | inl (ValueError _) => True
  | inl e => py_float (strip s) = raise e
  end.

Lemma checked_gross_income_cases (s : string) :
  checked (fun g => PrimFloat.leb g 0 = false /\ PrimFloat.ltb default_max_amount g = false)
    s (checked_gross_income py_float s).
Proof.
  unfold checked_gross_income.
  destruct (validate_positive_number py_float s "Gross income") as [e|g] eqn:Hv.
  - destruct (@validate_positive_number_raises _ _ _ Hv) as [(msg & ->)|(Hn & He)];
      [ exact I | ].
    destruct e as [msg| |k]; [ exfalso; eapply Hn; reflexivity | exact He | exact He ].
  - apply validate_positive_number_returns in Hv. destruct Hv as [Hp Hz].
    unfold bind at 1.
    destruct (validate_realistic_amount g "Gross income" default_max_amount) as [e|[]] eqn:Hr.
    + destruct (@validate_realistic_amount_raises _ _ _ _ Hr) as (msg & ->). exact I.
    + apply validate_realistic_amount_returns in Hr. cbn. repeat split; assumption.
Qed.

Lemma checked_expenses_cases (g : float) (s : string) :
  checked (fun x => PrimFloat.ltb x 0 = false /\ PrimFloat.ltb g x = false
                    /\ PrimFloat.ltb default_max_amount x = false)
    s (checked_expenses py_float g s).
Proof.
  unfold checked_expenses.
  destruct (validate_non_negative_number py_float s "Expenses") as [e|x] eqn:Hv.
  - destruct (@validate_non_negative_number_raises _ _ _ Hv) as [(msg & ->)|(Hn & He)];
      [ exact I | ].
    destruct e as [msg| |k]; [ exfalso; eapply Hn; reflexivity | exact He | exact He ].
  - apply validate_non_negative_number_returns in Hv. destruct Hv as [Hp Hz].
    unfold bind at 1.
    destruct (validate_expenses_against_income x g) as [e|[]] eqn:Hx.
    { destruct (@validate_expenses_against_income_raises _ _ _ Hx) as (msg & ->). exact I. }
    apply validate_expenses_against_income_returns in Hx.
    unfold bind at 1.
    destruct (validate_realistic_amount x "Expenses" default_max_amount) as [e|[]] eqn:Hr.
    + destruct (@validate_realistic_amount_raises _ _ _ _ Hr) as (msg & ->). exact I.
    + apply validate_realistic_amount_returns in Hr. cbn. repeat split; assumption.
Qed.

(** What a prompt for an amount may end with: a value the checks [ok]
    hold of, that [float] read from one of the lines; the exit with status
    0; or an exception of [float] that is not a [ValueError]. *)
Definition amount_outcome (ok : float -> Prop) (inp : list event) (o : outcome float) : Prop :=
  match o with
  | Returned v => ok v /\ exists s, In (Line s) inp /\ py_float (strip (strip s)) = ret v
  | Exited code => code = 0
  | Raised e => (forall msg, e <> ValueError msg) /\ exists s, py_float s = raise e
  end.

Lemma amount_outcome_later (ok : float -> Prop) (ev : event) (inp : list event)
    (o : outcome float) :
  amount_outcome ok inp o -> amount_outcome ok (ev :: inp) o.
Proof.
  destruct o as [v|c|e]; cbn; try (intros H; exact H).
  intros [Hok (s & Hin & Hs)]. split; [ exact Hok | ].
  exists s. split; [ right; exact Hin | exact Hs ].
Qed.

Lemma gross_income_loop_outcome (inp : list event) :
  forall out,
    amount_outcome
      (fun g => PrimFloat.leb g 0 = false /\ PrimFloat.ltb default_max_amount g = false)
      inp (fst (gross_income_loop py_float inp out)).
Proof.
  induction inp as [|[s|] rest IH]; intros out; cbn [gross_income_loop];
    try reflexivity.
  destruct (String.eqb (strip s) EmptyString); [ apply amount_outcome_later, IH | ].
  pose proof (checked_gross_income_cases (strip s)) as Hc.
  destruct (checked_gross_income py_float (strip s)) as [[msg| |k]|v]; cbn in Hc |- *.
  - apply amount_outcome_later, IH.
  - split; [ discriminate | eexists; exact Hc ].
  - split; [ discriminate | eexists; exact Hc ].
  - destruct Hc as [Hok Hp]. split; [ exact Hok | ].
    exists s. split; [ left; reflexivity | exact Hp ].
Qed.

Lemma expenses_loop_outcome (g : float) (inp : list event) :
  forall out,
    amount_outcome
      (fun x => PrimFloat.ltb x 0 = false /\ PrimFloat.ltb g x = false
                /\ PrimFloat.ltb default_max_amount x = false)
      inp (fst (expenses_loop py_float g inp out)).
Proof.
  induction inp as [|[s|] rest IH]; intros out; cbn [expenses_loop];
    try reflexivity.
  destruct (String.eqb (strip s) EmptyString); [ apply amount_outcome_later, IH | ].
  pose proof (checked_expenses_cases g (strip s)) as Hc.
  destruct (checked_expenses py_float g (strip s)) as [[msg| |k]|v]; cbn in Hc |- *.
  - apply amount_outcome_later, IH.
  - split; [ discriminate | eexists; exact Hc ].
  - split; [ discriminate | eexists; exact Hc ].
  - destruct Hc as [Hok Hp]. split; [ exact Hok | ].
    exists s. split; [ left; reflexivity | exact Hp ].
Qed.

End Prompts.

(** The menu returns one of the three frequencies, or exits with status 0. *)
Lemma frequency_loop_outcome (inp : list event) :
  forall out,
    match fst (frequency_loop inp out) with
    | Returned f => In f VALID_FREQUENCIES
    | Exited code => code = 0
    | Raised _ => False
    end.
Proof.
  induction inp as [|[s|] rest IH]; intros out; cbn [frequency_loop fst]; try reflexivity.
  destruct (String.eqb (strip s) "1"); [ cbn; auto | ].
  destruct (String.eqb (strip s) "2"); [ cbn; auto | ].
  destruct (String.eqb (strip s) "3"); [ cbn; auto | ].
  apply IH.
Qed.

(** The confirmation is given by a line that says yes, and by nothing else. *)
Lemma confirm_loop_outcome (inp : list event) :
  forall out,
    fst (confirm_loop inp out) = true ->
    exists s, In (Line s) inp /\ In (lower (strip s)) ["yes"; "y"]%string.
Proof.
  induction inp as [|[s|] rest IH]; intros out; cbn [confirm_loop fst]; try discriminate.
  destruct (str_in (lower (strip s)) ["yes"; "y"]%string) eqn:Y.
  - intros _. exists s. split; [ left; reflexivity | ].
    unfold str_in in Y. cbn [existsb] in Y. rewrite !orb_true_iff, !String.eqb_eq in Y.
    cbn. destruct Y as [Y|[Y|Y]]; [ left | right; left | discriminate ]; symmetry; exact Y.
  - destruct (str_in (lower (strip s)) ["no"; "n"]%string); [ discriminate | ].
    intros H. destruct (IH _ H) as (s' & Hin & Hs'). exists s'. split; [ right; exact Hin | exact Hs' ].
Qed.

End CliFacts.


(** ** The properties of the specification *)

(** C1. For a taxable income [T > 0], [calculate_income_tax] returns the
    result of the walk over the bracket table from lower bound [0]: the
    total tax, the effective rate, and one entry for each bracket the walk
    takes a slice from, none for the brackets after the walk has stopped.
    A taxable income of [50000] gives a total tax of [13900.00] at an
    effective rate of [27.80] over all five brackets, one of [15000] is
    taxed in the first two brackets only, and the taxable income [0] gives
    the base case: zero tax, zero rate and no entry. *)
Theorem income_tax_walks_brackets :
  (forall (num : Type) (PF : PyFloat num) (T : num),
      ltb zero T = true ->
      calculate_income_tax T = ret (spec_income_tax T))
  /\ (forall (num : Type) (PF : PyFloat num),
      calculate_income_tax (zero : num)
        = ret {| total_tax := zero; effective_rate := zero;
                 bracket_breakdown := [] |})
  /\ (exists r,
      calculate_income_tax (PF := Binary64.binary64) (of_int 50000) = ret r
      /\ total_tax r = of_int 13900
      /\ effective_rate r = lit 278 10
      /\ map (@taxable_amount float) (bracket_breakdown r)
         = [ of_int 10000; of_int 10000; of_int 10000; of_int 10000; of_int 10000 ])
  /\ (exists r,
      calculate_income_tax (PF := Binary64.binary64) (of_int 15000) = ret r
      /\ total_tax r = of_int 2000
      /\ map (@taxable_amount float) (bracket_breakdown r)
         = [ of_int 10000; of_int 5000 ]).
Proof.
  split; [ | split; [ | split ] ].
  - intros num PF T H. apply calculate_income_tax_positive, H.
  - intros num PF. apply calculate_income_tax_nonpositive, zero_le_zero.
  - eexists. split; [ vm_compute; reflexivity | ]. repeat split.
  - eexists. split; [ vm_compute; reflexivity | ]. repeat split.
Qed.

Lemma income_tax_walks_brackets_witness :
  calculate_income_tax (PF := Binary64.binary64) (of_int 3000)
    = ret (spec_income_tax (of_int 3000)).
Proof.
  apply (proj1 income_tax_walks_brackets). vm_compute. reflexivity.
Defined.

(** C2. For a gross income [g > 0] and any expenses [e],
    [calculate_all_taxes] taxes the taxable income
    [calculate_taxable_income g e] by brackets, computes VAT and social
    security on [g], and returns total taxes = income tax + social
    security (no VAT), total obligations = total taxes + VAT, net income =
    [g] - total taxes and effective total rate = total taxes / [g] * 100,
    each rounded to two decimals.  A gross income of [35000] with expenses
    of [5000] gives taxable income [30000], income tax [5900.00], social
    security [7000.00], total taxes [12900.00] and net income [22100.00]. *)
Theorem all_taxes_of_positive_income :
  (forall (num : Type) (PF : PyFloat num) (g e : num),
      ltb zero g = true ->
      exists it,
        calculate_income_tax (calculate_taxable_income g e) = ret it
        /\ calculate_all_taxes g e
           = ret (let ss := calculate_social_security g in
                  let v := calculate_vat g in
                  let total := add (total_tax it) (total_contribution ss) in
                  {| gross_income := round2 g;
                     deductible_expenses := round2 e;
                     taxable_income := round2 (calculate_taxable_income g e);
                     income_tax := it;
                     vat := v;
                     social_security := ss;
                     total_taxes := round2 total;
                     total_obligations := round2 (add total (vat_amount v));
                     net_income := round2 (sub g total);
                     effective_total_rate :=
                       round2 (mul (fdiv total g) (of_int 100)) |}))
  /\ (exists r,
      calculate_all_taxes (PF := Binary64.binary64) (of_int 35000) (of_int 5000) = ret r
      /\ taxable_income r = of_int 30000
      /\ total_tax (income_tax r) = of_int 5900
      /\ total_contribution (social_security r) = of_int 7000
      /\ total_taxes r = of_int 12900
      /\ net_income r = of_int 22100).
Proof.
  split.
  - intros num PF g e H.
    destruct (calculate_income_tax_returns (calculate_taxable_income g e)) as [it Hit].
    exists it. split; [ exact Hit | ].
    apply calculate_all_taxes_positive; assumption.
  - eexists. split; [ vm_compute; reflexivity | ]. repeat split.
Qed.

Lemma all_taxes_of_positive_income_witness :
  exists it,
    calculate_income_tax (PF := Binary64.binary64)
      (calculate_taxable_income (of_int 12000) (of_int 9000)) = ret it
    /\ total_tax it = of_int 270.
Proof.
  destruct (proj1 all_taxes_of_positive_income float Binary64.binary64
              (of_int 12000) (of_int 9000)) as (it & Hit & _).
  - vm_compute. reflexivity.
  - exists it. split; [ exact Hit | ].
    vm_compute in Hit. inversion Hit. reflexivity.
Defined.

(** C3. [calculate_social_security g] returns the main insurance
    [round(g * 0.1333, 2)], the additional contributions
    [round(g * 0.0667, 2)] and the total [round(g * rate, 2)] for the
    combined rate [0.1333 + 0.0667], which is the float [0.20]; the total is
    not the sum of the two rounded parts (they differ at [g = 0.03]); and
    the social-security part of a summary is the same whatever the
    expenses: that of [g], or of [0] when [g <= 0]. *)
Theorem social_security_on_gross_income :
  (forall (num : Type) (PF : PyFloat num) (g : num),
      calculate_social_security g
        = {| total_contribution := round2 (mul g (add (lit 1333 10000) (lit 667 10000)));
             main_insurance := round2 (mul g (lit 1333 10000));
             additional_contributions := round2 (mul g (lit 667 10000));
             ss_rate := mul (add (lit 1333 10000) (lit 667 10000)) (of_int 100) |})
  /\ EFKA_TOTAL_RATE (PF := Binary64.binary64) = lit 20 100
  /\ Decimal.is_amount (EFKA_TOTAL_RATE (PF := Decimal.decimal)) (20 # 100)
  /\ (let r := calculate_social_security (PF := Binary64.binary64) (lit 3 100) in
      total_contribution r = lit 1 100
      /\ add (main_insurance r) (additional_contributions r) = zero)
  /\ (forall (num : Type) (PF : PyFloat num) (g e1 e2 : num) (r1 r2 : tax_summary),
      calculate_all_taxes g e1 = ret r1 ->
      calculate_all_taxes g e2 = ret r2 ->
      social_security r1 = social_security r2
      /\ social_security r1
         = calculate_social_security (if leb g zero then zero else g)).
Proof.
  split; [ | split; [ | split; [ | split ] ] ].
  - intros num PF g. reflexivity.
  - vm_compute. reflexivity.
  - vm_compute. reflexivity.
  - vm_compute. split; reflexivity.
  - intros num PF g e1 e2 r1 r2 H1 H2.
    rewrite (social_security_of_summary _ _ H1), (social_security_of_summary _ _ H2).
    split; reflexivity.
Qed.

Lemma social_security_on_gross_income_witness :
  exists r1 r2 : tax_summary (num := float),
    calculate_all_taxes (PF := Binary64.binary64) (of_int 35000) (of_int 5000) = ret r1
    /\ calculate_all_taxes (PF := Binary64.binary64) (of_int 35000) (of_int 0) = ret r2
    /\ social_security r1 = social_security r2.
Proof.
  do 2 eexists.
  split; [ vm_compute; reflexivity | split; [ vm_compute; reflexivity | ] ].
  eapply (proj2 (proj2 (proj2 (proj2 social_security_on_gross_income)))
            float Binary64.binary64 (of_int 35000) (of_int 5000) (of_int 0));
    vm_compute; reflexivity.
Defined.

(** C4. [calculate_payment_schedule A f] raises the [ValueError] that
    carries the token [f] and the valid set exactly when the lowercased
    [f] is none of [monthly], [quarterly], [annual], and raises nothing
    else, and [calculate_income_tax] and [calculate_all_taxes] never
    raise; a valid token is normalised to lower case ([Monthly] is taken
    as [monthly]) and gives [12], [4] or [1] payments of
    [round(A / count, 2)] each, numbered [1] to [count] in order. *)
Theorem payment_schedule_by_frequency :
  forall (num : Type) (PF : PyFloat num) (A : num) (f : string),
    (calculate_payment_schedule A f
       = raise (ValueError (invalid_frequency_message f))
     <-> ~ In (lower f) [ "monthly"; "quarterly"; "annual" ]%string)
    /\ invalid_frequency_message f
       = ("Invalid frequency '" ++ f
            ++ "'. Must be one of: monthly, quarterly, annual")%string
    /\ (lower f = "monthly"%string ->
        calculate_payment_schedule A f = ret (spec_schedule A "monthly" 12))
    /\ (lower f = "quarterly"%string ->
        calculate_payment_schedule A f = ret (spec_schedule A "quarterly" 4))
    /\ (lower f = "annual"%string ->
        calculate_payment_schedule A f = ret (spec_schedule A "annual" 1))
    /\ calculate_payment_schedule A "Monthly" = ret (spec_schedule A "monthly" 12)
    /\ (forall err : exn,
        calculate_payment_schedule A f = raise err ->
        err = ValueError (invalid_frequency_message f))
    /\ (forall T : num, exists r, calculate_income_tax T = ret r)
    /\ (forall g e : num, exists r, calculate_all_taxes g e = ret r)
    /\ (forall (token : string) (count : Z),
        let s := spec_schedule A token count in
        number_of_payments s = count
        /\ payment_amount s = round2 (fdiv A (of_int count))
        /\ List.length (schedule s) = Z.to_nat count
        /\ map (@period_number num) (schedule s) = map Z.of_nat (seq 1 (Z.to_nat count))
        /\ Forall (fun p => period_payment_amount p = payment_amount s) (schedule s))
    /\ schedule (spec_schedule A "quarterly" 4)
       = map (fun i => {| period_number := i;
                          period_payment_amount := round2 (fdiv A (of_int 4)) |})
             [ 1; 2; 3; 4 ].
Proof.
  intros num PF A f.
  assert (Hraise : forall err : exn,
             calculate_payment_schedule A f = raise err ->
             err = ValueError (invalid_frequency_message f)
             /\ str_in (lower f) VALID_FREQUENCIES = false).
  { intros err H.
    destruct (schedule_cases A f) as [(_ & count & Hret & _)|(Hin & Hinv)].
    - rewrite Hret in H. discriminate.
    - rewrite Hinv in H. inversion H. split; [ reflexivity | exact Hin ]. }
  repeat split.
  - intros H. apply Hraise in H. apply str_in_invalid, H.
  - intros H. apply schedule_invalid, str_in_invalid, H.
  - apply schedule_monthly.
  - apply schedule_quarterly.
  - apply schedule_annual.
  - intros err H. apply Hraise, H.
  - apply calculate_income_tax_returns.
  - apply calculate_all_taxes_returns.
  - apply spec_schedule_shape.
  - apply spec_schedule_shape.
  - apply spec_schedule_shape.
Qed.

Lemma payment_schedule_by_frequency_witness :
  calculate_payment_schedule (PF := Binary64.binary64) (of_int 12000) "quarterly"
    = ret (spec_schedule (of_int 12000) "quarterly" 4)
  /\ payment_amount (spec_schedule (PF := Binary64.binary64) (of_int 12000) "quarterly" 4)
     = of_int 3000
  /\ calculate_payment_schedule (PF := Binary64.binary64) (of_int 1000) "bogus"
     = raise (ValueError (invalid_frequency_message "bogus")).
Proof.
  split; [ | split ].
  - apply (payment_schedule_by_frequency Binary64.binary64 (of_int 12000) "quarterly").
    reflexivity.
  - vm_compute. reflexivity.
  - apply (payment_schedule_by_frequency Binary64.binary64 (of_int 1000) "bogus").
    simpl. intros [H|[H|[H|[]]]]; discriminate.
Defined.

(** C5. For a gross income [g <= 0] and any expenses, [calculate_all_taxes]
    returns, without raising, the all-zero summary: taxable income [0], the
    income tax of [0] (no bracket entry), the VAT of [0] and the social
    security of [0], all of amount [0], and total taxes, total obligations,
    net income and effective total rate [0]. *)
Theorem all_taxes_of_nonpositive_income :
  (forall (num : Type) (PF : PyFloat num) (g e : num),
      leb g zero = true ->
      calculate_income_tax (zero : num)
        = ret {| total_tax := zero; effective_rate := zero; bracket_breakdown := [] |}
      /\ calculate_all_taxes g e
         = ret {| gross_income := round2 g;
                  deductible_expenses := round2 e;
                  taxable_income := zero;
                  income_tax := {| total_tax := zero; effective_rate := zero;
                                   bracket_breakdown := [] |};
                  vat := calculate_vat zero;
                  social_security := calculate_social_security zero;
                  total_taxes := zero;
                  total_obligations := zero;
                  net_income := zero;
                  effective_total_rate := zero |})
  /\ calculate_vat (PF := Binary64.binary64) zero
     = {| vat_amount := zero; vat_rate := of_int 24; total_with_vat := zero |}
  /\ calculate_social_security (PF := Binary64.binary64) zero
     = {| total_contribution := zero; main_insurance := zero;
          additional_contributions := zero; ss_rate := of_int 20 |}
  /\ (let v := calculate_vat (PF := Decimal.decimal) zero in
      let s := calculate_social_security (PF := Decimal.decimal) zero in
      Decimal.is_amount (vat_amount v) 0
      /\ Decimal.is_amount (total_with_vat v) 0
      /\ Decimal.is_amount (total_contribution s) 0
      /\ Decimal.is_amount (main_insurance s) 0
      /\ Decimal.is_amount (additional_contributions s) 0).
Proof.
  split; [ | split; [ | split ] ].
  - intros num PF g e H. split.
    + apply calculate_income_tax_nonpositive, zero_le_zero.
    + apply calculate_all_taxes_nonpositive, H.
  - vm_compute. reflexivity.
  - vm_compute. reflexivity.
  - vm_compute. repeat split.
Qed.

Lemma all_taxes_of_nonpositive_income_witness :
  exists r,
    calculate_all_taxes (PF := Binary64.binary64) (of_int (-500)) (of_int 100) = ret r
    /\ total_taxes r = zero /\ net_income r = zero
    /\ bracket_breakdown (income_tax r) = [].
Proof.
  eexists. split.
  - apply (proj1 all_taxes_of_nonpositive_income float Binary64.binary64
             (of_int (-500)) (of_int 100)).
    vm_compute. reflexivity.
  - repeat split.
Defined.

(** C9. [calculate_taxable_income g e] is [round(max(0, g - e), 2)], where
    [max(0, x)] is [x] when [x > 0] and [0.0] otherwise; the result is never
    negative, and nothing in the computation can raise. *)
Theorem taxable_income_floored_at_zero :
  forall (num : Type) (PF : PyFloat num) (g e : num),
    calculate_taxable_income g e = round2 (py_max zero (sub g e))
    /\ py_max zero (sub g e) = (if ltb zero (sub g e) then sub g e else zero)
    /\ leb zero (py_max zero (sub g e)) = true
    /\ leb zero (calculate_taxable_income g e) = true.
Proof.
  intros num PF g e. repeat split.
  - apply py_max_zero_nonneg.
  - unfold calculate_taxable_income. apply round2_nonneg, py_max_zero_nonneg.
Qed.

(** The taxable amounts of a breakdown in exact decimal arithmetic. *)
Lemma decimal_breakdown_sum (T : Q) :
  (0 <= T)%Q ->
  exists r,
    calculate_income_tax (Decimal.Fin T) = ret r
    /\ Decimal.within (5 * (1 # 100))
         (sum_taxable_amounts (bracket_breakdown r)) (Decimal.Fin T).
Proof.
  intros H. destruct (DecimalWalk.breakdown_sum H) as (r & Hr & Hw).
  exists r. split; [ exact Hr | ].
  unfold Decimal.within in *.
  destruct (sum_taxable_amounts (bracket_breakdown r)) as [a| | |]; try contradiction.
  apply Qabs_Qle_condition in Hw. apply Qabs_Qle_condition. split; lra.
Qed.

(** C6, as the claim states it, fails on floats.  For the taxable income
    [2e17] the breakdown records four amounts of [10000.0] and one of
    [199999999999960064.0]: they add up to [2e17 + 64], both exactly and
    as floats add them, because floats of that size are 32 apart and each
    subtraction of [10000.0] rounds. *)
Lemma breakdown_drifts_for_huge_income :
  exists r,
    leb zero (of_int (2 * 10 ^ 17) : float) = true
    /\ calculate_income_tax (of_int (2 * 10 ^ 17) : float) = ret r
    /\ map (@taxable_amount float) (bracket_breakdown r)
       = [ of_int 10000; of_int 10000; of_int 10000; of_int 10000;
           of_int 199999999999960064 ]
    /\ (Rounding.amounts_total (bracket_breakdown r)
        - Rounding.value (of_int (2 * 10 ^ 17)) == 64)%Q
    /\ sub (sum_taxable_amounts (bracket_breakdown r)) (of_int (2 * 10 ^ 17))
       = of_int 64
    /\ ~ (Qabs (Rounding.amounts_total (bracket_breakdown r)
                - Rounding.value (of_int (2 * 10 ^ 17))) <= 5 * (1 # 100))%Q.
Proof.
  eexists. split; [ reflexivity | ]. split; [ vm_compute; reflexivity | ].
  split; [ reflexivity | ]. split; [ reflexivity | ]. split; [ reflexivity | ].
  vm_compute. intros H. apply H. reflexivity.
Qed.

(** C6, amended.  For every taxable income [T] from [0] to [2^40] the
    per-bracket taxable amounts of the breakdown are finite and add up to
    [T] within [5 * 0.01], whether the amounts are added exactly or as
    floats add them; and in exact decimal arithmetic they do so for every
    [T >= 0].  The bound [2^40] is a sufficient one, far above any
    income. *)
Theorem breakdown_adds_up_to_income :
  (forall T : float,
      leb zero T = true -> leb T (of_int (2 ^ 40)) = true ->
      exists r,
        calculate_income_tax T = ret r
        /\ Forall (fun en => Rounding.nonneg (taxable_amount en)) (bracket_breakdown r)
        /\ Rounding.nonneg (sum_taxable_amounts (bracket_breakdown r))
        /\ (Qabs (Rounding.amounts_total (bracket_breakdown r) - Rounding.value T)
            <= 5 * (1 # 100))%Q
        /\ (Qabs (Rounding.value (sum_taxable_amounts (bracket_breakdown r))
                  - Rounding.value T)
            <= 5 * (1 # 100))%Q)
  /\ (forall T : Q,
        (0 <= T)%Q ->
        exists r,
          calculate_income_tax (Decimal.Fin T) = ret r
          /\ Decimal.within (5 * (1 # 100))
               (sum_taxable_amounts (bracket_breakdown r)) (Decimal.Fin T)).
Proof.
  split; [ | exact decimal_breakdown_sum ].
  intros T H0 Hb.
  destruct (Rounding.float_breakdown_sum H0 Hb) as (r & Hr & Hf & Hn & Ha & Hs).
  exists r. split; [ exact Hr | ]. split; [ exact Hf | ]. split; [ exact Hn | ].
  apply Qabs_Qle_condition in Ha. apply Qabs_Qle_condition in Hs.
  split; apply Qabs_Qle_condition; split; lra.
Qed.

Lemma breakdown_adds_up_to_income_witness :
  exists r,
    calculate_income_tax (lit 1234567 100 : float) = ret r
    /\ (Qabs (Rounding.amounts_total (bracket_breakdown r)
              - Rounding.value (lit 1234567 100))
        <= 5 * (1 # 100))%Q.
Proof.
  destruct (proj1 breakdown_adds_up_to_income (lit 1234567 100 : float))
    as (r & Hr & _ & _ & Ha & _); [ reflexivity | reflexivity | ].
  exists r. split; assumption.
Defined.

(** C7. The total income tax is monotone.  On floats, for every
    [0 <= T1 <= T2], the infinity included, the total tax of [T1] is at
    most the total tax of [T2]: every operation of the loop rounds to
    nearest, which is monotone.  The same holds in exact decimal
    arithmetic. *)
Theorem income_tax_monotone :
  (forall T1 T2 : float,
      leb zero T1 = true -> leb T1 T2 = true ->
      exists r1 r2,
        calculate_income_tax T1 = ret r1
        /\ calculate_income_tax T2 = ret r2
        /\ leb (total_tax r1) (total_tax r2) = true)
  /\ (forall T1 T2 : Q,
        (0 <= T1)%Q -> (T1 <= T2)%Q ->
        exists r1 r2,
          calculate_income_tax (Decimal.Fin T1) = ret r1
          /\ calculate_income_tax (Decimal.Fin T2) = ret r2
          /\ leb (total_tax r1) (total_tax r2) = true).
Proof.
  split.
  - exact Nearest.float_total_tax_monotone.
  - intros T1 T2. apply DecimalWalk.total_tax_monotone.
Qed.

Lemma income_tax_monotone_witness :
  exists r1 r2,
    calculate_income_tax (lit 1999999 100 : float) = ret r1
    /\ calculate_income_tax (lit 2000001 100 : float) = ret r2
    /\ leb (total_tax r1) (total_tax r2) = true.
Proof.
  apply (proj1 income_tax_monotone (lit 1999999 100 : float) (lit 2000001 100 : float));
    reflexivity.
Defined.

(** The payments in exact decimal arithmetic. *)
Lemma decimal_payments (A : Q) (f : string) :
  str_in (lower f) VALID_FREQUENCIES = true ->
  exists r p,
    calculate_payment_schedule (Decimal.Fin A) f = ret r
    /\ payment_amount r
       = round2 (fdiv (Decimal.Fin A) (of_int (number_of_payments r)))
    /\ Forall (fun e => period_payment_amount e = payment_amount r) (schedule r)
    /\ payment_amount r = Decimal.Fin p
    /\ (Qabs (inject_Z (number_of_payments r) * p - A)
        <= inject_Z (number_of_payments r) * (1 # 100))%Q.
Proof.
  intros H.
  destruct (schedule_cases (Decimal.Fin A) f) as [(_ & count & Hret & Hin)|(Hf & _)];
    [ | congruence ].
  assert (Hc : (0 < count)%Z).
  { simpl in Hin. destruct Hin as [E|[E|[E|[]]]]; inversion E; lia. }
  destruct (DecimalWalk.payments_close A Hc) as (p & Hp & Hclose).
  exists (spec_schedule (Decimal.Fin A) (lower f) count), p.
  split; [ exact Hret | ].
  destruct (spec_schedule_shape (Decimal.Fin A) (lower f) count)
    as (Hn & Hpay & _ & _ & Hall).
  cbv zeta in *. rewrite Hn. repeat split.
  - exact Hall.
  - rewrite Hpay. exact Hp.
  - assert (Hq : (0 < inject_Z count)%Q).
    { change 0%Q with (inject_Z 0). rewrite <- Zlt_Qlt. exact Hc. }
    apply Qabs_Qle_condition in Hclose. apply Qabs_Qle_condition. split; nra.
Qed.

(** The payments on floats, for an annual tax up to [2^40]. *)
Lemma float_payments (A : float) (f : string) :
  leb zero A = true -> leb A (of_int (2 ^ 40)) = true ->
  str_in (lower f) VALID_FREQUENCIES = true ->
  exists r,
    calculate_payment_schedule A f = ret r
    /\ payment_amount r = round2 (fdiv A (of_int (number_of_payments r)))
    /\ Forall (fun e => period_payment_amount e = payment_amount r) (schedule r)
    /\ Rounding.nonneg (payment_amount r)
    /\ Rounding.nonneg (mul (of_int (number_of_payments r)) (payment_amount r))
    /\ (Qabs (inject_Z (number_of_payments r) * Rounding.value (payment_amount r)
              - Rounding.value A)
        <= inject_Z (number_of_payments r) * (1 # 100))%Q
    /\ (Qabs (Rounding.value (mul (of_int (number_of_payments r)) (payment_amount r))
              - Rounding.value A)
        <= inject_Z (number_of_payments r) * (1 # 100))%Q.
Proof.
  intros H0 Hb H. destruct (Rounding.range_value H0 Hb) as [Hn Hv].
  destruct (schedule_cases A f) as [(_ & count & Hret & Hin)|(Hf & _)];
    [ | congruence ].
  assert (Hc : count = 12 \/ count = 4 \/ count = 1).
  { simpl in Hin. destruct Hin as [E|[E|[E|[]]]]; inversion E; auto. }
  exists (spec_schedule A (lower f) count). split; [ exact Hret | ].
  destruct (spec_schedule_shape A (lower f) count) as (Hcount & Hpay & _ & _ & Hall).
  cbv zeta in *. rewrite Hcount, Hpay.
  destruct (@Rounding.payment_value A count Hc Hn Hv) as (Np & Nm & Hx & Hm).
  repeat split; assumption.
Qed.

(** C8, as the claim states it, fails on floats.  For the annual tax
    [7000000000000001.0] paid monthly the payment is [583333333333333.375]
    (floats of that size are an eighth apart, so rounding to cents changes
    nothing): twelve payments make [7000000000000000.5], half a unit from
    the annual tax, and as floats multiply they make [7000000000000000.0],
    a whole unit from it. *)
Lemma payments_drift_for_huge_total :
  exists r,
    leb zero (of_int 7000000000000001 : float) = true
    /\ calculate_payment_schedule (of_int 7000000000000001 : float) "monthly" = ret r
    /\ number_of_payments r = 12
    /\ payment_amount r = fdiv (of_int 4666666666666667) (of_int 8)
    /\ (12 * Rounding.value (payment_amount r)
        - Rounding.value (of_int 7000000000000001) == - (1 # 2))%Q
    /\ mul (of_int 12) (payment_amount r) = of_int 7000000000000000
    /\ ~ (Qabs (inject_Z (number_of_payments r) * Rounding.value (payment_amount r)
                - Rounding.value (of_int 7000000000000001))
          <= inject_Z (number_of_payments r) * (1 # 100))%Q.
Proof.
  eexists. split; [ reflexivity | ]. split; [ vm_compute; reflexivity | ].
  split; [ reflexivity | ]. split; [ reflexivity | ]. split; [ reflexivity | ].
  split; [ reflexivity | ].
  vm_compute. intros H. apply H. reflexivity.
Qed.

(** C8, amended.  For a valid frequency the per-payment amount is
    [round(A / count, 2)], computed from the unrounded annual total, and
    every installment carries that same amount: nothing reconciles the
    drift.  For every annual tax [A] from [0] to [2^40] the payment is
    finite and [count] payments differ from [A] by at most [count * 0.01],
    whether they are multiplied out exactly or as floats multiply; and in
    exact decimal arithmetic they do so for every [A].  The bound [2^40]
    is a sufficient one. *)
Theorem payments_add_up_to_annual_tax :
  (forall (A : float) (f : string),
      leb zero A = true -> leb A (of_int (2 ^ 40)) = true ->
      str_in (lower f) VALID_FREQUENCIES = true ->
      exists r,
        calculate_payment_schedule A f = ret r
        /\ payment_amount r = round2 (fdiv A (of_int (number_of_payments r)))
        /\ Forall (fun e => period_payment_amount e = payment_amount r) (schedule r)
        /\ Rounding.nonneg (payment_amount r)
        /\ Rounding.nonneg (mul (of_int (number_of_payments r)) (payment_amount r))
        /\ (Qabs (inject_Z (number_of_payments r) * Rounding.value (payment_amount r)
                  - Rounding.value A)
            <= inject_Z (number_of_payments r) * (1 # 100))%Q
        /\ (Qabs (Rounding.value (mul (of_int (number_of_payments r)) (payment_amount r))
                  - Rounding.value A)
            <= inject_Z (number_of_payments r) * (1 # 100))%Q)
  /\ (forall (A : Q) (f : string),
        str_in (lower f) VALID_FREQUENCIES = true ->
        exists r p,
          calculate_payment_schedule (Decimal.Fin A) f = ret r
          /\ payment_amount r
             = round2 (fdiv (Decimal.Fin A) (of_int (number_of_payments r)))
          /\ Forall (fun e => period_payment_amount e = payment_amount r) (schedule r)
          /\ payment_amount r = Decimal.Fin p
          /\ (Qabs (inject_Z (number_of_payments r) * p - A)
              <= inject_Z (number_of_payments r) * (1 # 100))%Q).
Proof. split; [ exact float_payments | exact decimal_payments ]. Qed.

Lemma payments_add_up_to_annual_tax_witness :
  exists r,
    calculate_payment_schedule (of_int 25900 : float) "Monthly" = ret r
    /\ number_of_payments r = 12
    /\ (Qabs (12 * Rounding.value (payment_amount r) - 25900) <= 12 * (1 # 100))%Q.
Proof.
  destruct (proj1 payments_add_up_to_annual_tax (of_int 25900 : float) "Monthly"%string)
    as (r & Hr & _ & _ & _ & _ & Hx & _); [ reflexivity | reflexivity | reflexivity | ].
  exists r. split; [ exact Hr | ].
  vm_compute in Hr. inversion Hr; subst r.
  split; [ reflexivity | exact Hx ].
Defined.

(** C10, as the claim states it, fails for an income of [-0.01]: VAT and
    the contributions round to a (negative) zero, which is not below
    zero. *)
Lemma tiny_negative_income_rounds_to_zero :
  ltb (lit (-1) 100 : float) zero = true
  /\ ltb (vat_amount (calculate_vat (lit (-1) 100 : float))) zero = false
  /\ ltb (total_contribution (calculate_social_security (lit (-1) 100 : float))) zero
     = false
  /\ ltb (main_insurance (calculate_social_security (lit (-1) 100 : float))) zero
     = false
  /\ ltb (additional_contributions (calculate_social_security (lit (-1) 100 : float)))
         zero = false.
Proof. vm_compute. repeat split. Qed.

(** C10, amended.  [calculate_income_tax] and [calculate_all_taxes]
    special-case an income [g < 0]; [calculate_vat] and
    [calculate_social_security] do not: they return [round(g * rate, 2)]
    for their flat rates, unclamped.  These amounts are never positive;
    an income of [-100] gives a VAT of [-24.00] and a total contribution
    of [-20.00]; and all four amounts are below zero once [g <= -0.08],
    on floats as in exact decimal arithmetic. *)
Theorem flat_rates_unguarded :
  (forall (num : Type) (PF : PyFloat num) (g e : num),
      ltb g zero = true ->
      calculate_income_tax g
        = ret {| total_tax := zero; effective_rate := zero; bracket_breakdown := [] |}
      /\ (exists r, calculate_all_taxes g e = ret r
                    /\ total_taxes r = zero /\ total_obligations r = zero)
      /\ vat_amount (calculate_vat g) = round2 (mul g (lit 24 100))
      /\ main_insurance (calculate_social_security g)
         = round2 (mul g (lit 1333 10000))
      /\ additional_contributions (calculate_social_security g)
         = round2 (mul g (lit 667 10000))
      /\ total_contribution (calculate_social_security g)
         = round2 (mul g (add (lit 1333 10000) (lit 667 10000))))
  /\ (forall g : float,
      ltb g zero = true ->
      leb (vat_amount (calculate_vat g)) zero = true
      /\ leb (main_insurance (calculate_social_security g)) zero = true
      /\ leb (additional_contributions (calculate_social_security g)) zero = true
      /\ leb (total_contribution (calculate_social_security g)) zero = true)
  /\ (vat_amount (calculate_vat (of_int (-100) : float)) = of_int (-24)
      /\ total_contribution (calculate_social_security (of_int (-100) : float))
         = of_int (-20))
  /\ (forall g : float,
      leb g (lit (-8) 100) = true ->
      ltb (vat_amount (calculate_vat g)) zero = true
      /\ ltb (main_insurance (calculate_social_security g)) zero = true
      /\ ltb (additional_contributions (calculate_social_security g)) zero = true
      /\ ltb (total_contribution (calculate_social_security g)) zero = true)
  /\ (forall g : Q,
      (g < 0)%Q ->
      leb (vat_amount (calculate_vat (Decimal.Fin g))) zero = true
      /\ leb (main_insurance (calculate_social_security (Decimal.Fin g))) zero = true
      /\ leb (additional_contributions (calculate_social_security (Decimal.Fin g)))
             zero = true
      /\ leb (total_contribution (calculate_social_security (Decimal.Fin g))) zero = true)
  /\ (forall g : Q,
      (g <= - (8 # 100))%Q ->
      ltb (vat_amount (calculate_vat (Decimal.Fin g))) zero = true
      /\ ltb (main_insurance (calculate_social_security (Decimal.Fin g))) zero = true
      /\ ltb (additional_contributions (calculate_social_security (Decimal.Fin g)))
             zero = true
      /\ ltb (total_contribution (calculate_social_security (Decimal.Fin g))) zero = true).
Proof.
  split; [ | split; [ | split; [ | split; [ | split ] ] ] ].
  - intros num PF g e H. pose proof (negative_le _ H) as Hle.
    split; [ apply calculate_income_tax_nonpositive, Hle | ].
    split; [ | repeat split ].
    eexists. split; [ apply calculate_all_taxes_nonpositive, Hle | ].
    split; reflexivity.
  - intros g H. repeat split;
      apply (flat_rate_nonpositive (PF := Binary64.binary64)); try exact H;
      vm_compute; reflexivity.
  - vm_compute. split; reflexivity.
  - intros g H. repeat split;
      apply Nearest.flat_rate_negative; try exact H; reflexivity || exact I.
  - intros g H.
    assert (Hg : ltb (Decimal.Fin g) zero = true) by (apply (Decimal.ltb_Fin g 0), H).
    repeat split;
      apply (flat_rate_nonpositive (PF := Decimal.decimal)); try exact Hg;
      vm_compute; reflexivity.
  - intros g H. repeat split;
      apply (Decimal.ltb_Fin _ 0), DecimalWalk.round_cents_negative;
      try exact H; vm_compute; discriminate.
Qed.

Lemma flat_rates_unguarded_witness :
  leb (vat_amount (calculate_vat (lit (-1) 100 : float))) zero = true
  /\ ltb (additional_contributions (calculate_social_security (lit (-8) 100 : float)))
         zero = true
  /\ ltb (vat_amount (calculate_vat (Decimal.Fin (- (1 # 2))))) zero = true.
Proof.
  split; [ | split ].
  - apply (proj1 (proj2 flat_rates_unguarded) (lit (-1) 100)). vm_compute. reflexivity.
  - apply (proj1 (proj2 (proj2 (proj2 flat_rates_unguarded))) (lit (-8) 100)).
    vm_compute. reflexivity.
  - apply (proj2 (proj2 (proj2 (proj2 (proj2 flat_rates_unguarded)))) (- (1 # 2))%Q).
    vm_compute. discriminate.
Defined.

(** * Further properties of the engine *)

(** The schedule reports the annual tax rounded to cents. *)
Lemma annual_total_rounded {num : Type} {PF : PyFloat num}
    (A : num) (f : string) (s : payment_schedule) :
  calculate_payment_schedule A f = ret s -> annual_total s = round2 A.
Proof.
  intros E. destruct (schedule_cases A f) as [(_ & count & Hret & _)|(_ & Hraise)].
  - rewrite Hret in E. injection E as <-. reflexivity.
  - rewrite Hraise in E. discriminate.
Qed.

(** The total taxes of a summary are a rounded amount, or zero. *)
Lemma total_taxes_rounded {num : Type} {PF : PyFloat num}
    (g e : num) (r : tax_summary) :
  calculate_all_taxes g e = ret r ->
  total_taxes r = zero \/ exists x, total_taxes r = round2 x.
Proof.
  unfold calculate_all_taxes. destruct (leb g zero).
  - destruct (calculate_income_tax zero) as [err|it]; cbn; [ discriminate | ].
    intros E. injection E as <-. left. reflexivity.
  - destruct (calculate_income_tax _) as [err|it]; cbn; [ discriminate | ].
    destruct (ltb zero g); cbn.
    + unfold py_div. destruct (eqb g zero); cbn; [ discriminate | ].
      intros E. injection E as <-. right. eexists. reflexivity.
    + intros E. injection E as <-. right. eexists. reflexivity.
Qed.

(** X1. Rounding to cents twice is rounding once, for every float.  So the
    second [round(taxable_income, 2)] of [calculate_all_taxes] changes
    nothing: the summary's taxable income is what
    [calculate_taxable_income] returned; and the schedule that
    [display_results] computes from the summary's total taxes reports
    that very amount as its annual total. *)
Theorem second_rounding_changes_nothing :
  (forall x : float, round2 (round2 x) = round2 x)
  /\ (forall g e : float,
        exists r,
          calculate_all_taxes g e = ret r
          /\ (ltb zero g = true -> taxable_income r = calculate_taxable_income g e)
          /\ (forall (f : string) (s : payment_schedule),
                calculate_payment_schedule (total_taxes r) f = ret s ->
                annual_total s = total_taxes r)).
Proof.
  split; [ exact Idem.round2_idempotent | ].
  intros g e. destruct (calculate_all_taxes_returns g e) as [r Hr].
  exists r. split; [ exact Hr | ]. split.
  - intros P. destruct (@Burden.summary_fields g e r P Hr) as (_ & Ht & _).
    rewrite Ht. unfold calculate_taxable_income.
    apply Idem.round2_idempotent.
  - intros f s Hs. rewrite (annual_total_rounded _ _ Hs).
    destruct (total_taxes_rounded _ _ Hr) as [Hz|[x Hx]].
    + rewrite Hz. reflexivity.
    + rewrite Hx. apply Idem.round2_idempotent.
Qed.

(** X2. The breakdown lists exactly the brackets the income reaches, in
    order and without gaps: none for [T <= 0], the first for
    [0 < T <= 10000], the first two for [10000 < T <= 20000], and so on
    to all five above [40000] (and for a NaN).  Each entry carries the
    bounds of its bracket and its rate as a percentage, which for the
    third bracket is the float after [28]: [0.28 * 100] is not [28.0]. *)
Theorem breakdown_lists_brackets_reached :
  (forall T : float,
      exists r,
        calculate_income_tax T = ret r
        /\ map entry_row (bracket_breakdown r)
           = firstn (Reach.brackets_reached T) (table_rows zero INCOME_TAX_BRACKETS))
  /\ table_rows (zero : float) INCOME_TAX_BRACKETS
     = [ (of_int 0, Limit (of_int 10000), of_int 9);
         (of_int 10000, Limit (of_int 20000), of_int 22);
         (of_int 20000, Limit (of_int 30000), next_up (of_int 28));
         (of_int 30000, Limit (of_int 40000), of_int 36);
         (of_int 40000, Unlimited, of_int 44) ].
Proof.
  split; [ | vm_compute; reflexivity ].
  intros T. destruct (calculate_income_tax_returns T) as [r Hr].
  exists r. split; [ exact Hr | ].
  destruct (leb T zero) eqn:HT.
  - rewrite (calculate_income_tax_nonpositive T HT) in Hr. injection Hr as <-.
    unfold Reach.brackets_reached. rewrite HT. reflexivity.
  - rewrite (breakdown_of_loop T Hr HT), loop_rows.
    cbn [init_state st_bracket_breakdown st_previous_bracket_limit st_remaining_income
         map app].
    rewrite Reach.entered_reached. reflexivity.
Qed.

(** X3. More income and fewer expenses never lower what is owed: for
    expenses between zero and the income, raising the gross income or
    lowering the expenses never lowers the taxable income, the income
    tax, the VAT, the social security, the total taxes or the total
    obligations.  Every operation of the engine rounds to nearest, which
    is monotone; the infinity is included. *)
Theorem taxes_follow_income_and_expenses :
  forall g1 e1 g2 e2 : float,
    leb zero e2 = true -> leb e2 e1 = true -> leb e1 g1 = true -> leb g1 g2 = true ->
    exists r1 r2,
      calculate_all_taxes g1 e1 = ret r1 /\ calculate_all_taxes g2 e2 = ret r2
      /\ leb (taxable_income r1) (taxable_income r2) = true
      /\ leb (total_tax (income_tax r1)) (total_tax (income_tax r2)) = true
      /\ leb (vat_amount (vat r1)) (vat_amount (vat r2)) = true
      /\ leb (total_contribution (social_security r1))
             (total_contribution (social_security r2)) = true
      /\ leb (total_taxes r1) (total_taxes r2) = true
      /\ leb (total_obligations r1) (total_obligations r2) = true.
Proof.
  intros g1 e1 g2 e2 H0 H21 H1 Hg.
  pose proof (@Nearest.leb_fle _ _ (@Nearest.leb_zero_fnn _ H0) H21) as F21.
  pose proof (@Nearest.leb_fle _ _ (@Nearest.fle_right _ _ F21) H1) as F1.
  pose proof (@Nearest.leb_fle _ _ (@Nearest.fle_right _ _ F1) Hg) as Fg.
  destruct (@Monotone.all_taxes_fle g1 e1 g2 e2 F21 F1 Fg) as (r1 & r2 & E1 & E2 & [A B C D E F]).
  exists r1, r2. split; [ exact E1 | ]. split; [ exact E2 | ].
  repeat split; apply Nearest.fle_leb; assumption.
Qed.

Lemma taxes_follow_income_and_expenses_witness :
  exists r1 r2,
    calculate_all_taxes (of_int 35000 : float) (of_int 5000) = ret r1
    /\ calculate_all_taxes (lit 3500001 100 : float) (lit 499999 100) = ret r2
    /\ leb (total_taxes r1) (total_taxes r2) = true.
Proof.
  destruct (@taxes_follow_income_and_expenses
              (of_int 35000 : float) (of_int 5000) (lit 3500001 100) (lit 499999 100))
    as (r1 & r2 & E1 & E2 & _ & _ & _ & _ & H & _);
    [ reflexivity | reflexivity | reflexivity | reflexivity | ].
  exists r1, r2. split; [ exact E1 | ]. split; [ exact E2 | exact H ].
Defined.

(** A float above zero and below the infinity is finite and not negative. *)
Lemma positive_finite (g : float) :
  PrimFloat.ltb 0 g = true -> PrimFloat.ltb g infinity = true -> Rounding.nonneg g.
Proof.
  rewrite !ltb_spec. unfold Rounding.nonneg.
  destruct (Prim2SF g) as [s|[]| |[] m e]; cbn; try discriminate; intros _ _; exact I.
Qed.

(** X4. The taxes never exceed the income.  For every finite gross income
    above zero and expenses between zero and the income, the total taxes
    (income tax plus social security) are at most the gross income, the
    net income is not negative, and the taxable income is at most the
    gross income. *)
Theorem taxes_never_exceed_income :
  forall g e : float,
    ltb zero g = true -> ltb g inf = true -> leb zero e = true -> leb e g = true ->
    exists r,
      calculate_all_taxes g e = ret r
      /\ leb (total_taxes r) (gross_income r) = true
      /\ leb zero (net_income r) = true
      /\ leb (taxable_income r) (gross_income r) = true.
Proof.
  intros g e P F H0 He.
  pose proof (@positive_finite g P F) as Ng.
  pose proof (@Nearest.leb_zero_fnn _ H0) as Ne.
  pose proof (@Nearest.leb_fle _ _ Ne He) as Feg.
  destruct (@Burden.burden_bound g e Ng Ne Feg) as (r & Hr & Nb & Vb).
  exists r. split; [ exact Hr | ].
  destruct (@Burden.summary_fields g e r P Hr) as (Hg & Ht & Htt & _ & Hn & _).
  rewrite Hg, Ht, Htt, Hn.
  destruct (@Nearest.fle_finite _ _ Feg Ng) as [Ne' Ve].
  split; [ | split ].
  - apply Nearest.fle_leb, Nearest.round2_mono, Nearest.fle_values; assumption.
  - destruct (@Nearest.sub_below g (Burden.burden r) Ng Nb Vb) as [Ns _].
    apply Nearest.fle_leb, Nearest.fle_zero, Nearest.round2_fnn, Nearest.nonneg_fnn, Ns.
  - unfold calculate_taxable_income.
    change (@round2 float _) with Binary64.round2. rewrite Idem.round2_idempotent.
    apply Nearest.fle_leb, Nearest.round2_mono.
    destruct (@Nearest.sub_below g e Ng Ne' Ve) as [Ns Vs].
    destruct (@Monotone.max_zero_value _ Ns) as [Nm Vm].
    apply Nearest.fle_values; try assumption.
    change (@sub float _) with PrimFloat.sub in *. lra.
Qed.

Lemma taxes_never_exceed_income_witness :
  exists r,
    calculate_all_taxes (lit 3 100 : float) (of_int 0) = ret r
    /\ total_taxes r = lit 1 100
    /\ leb (total_taxes r) (gross_income r) = true.
Proof.
  destruct (@taxes_never_exceed_income (lit 3 100 : float) (of_int 0))
    as (r & Hr & H & _); [ reflexivity | reflexivity | reflexivity | reflexivity | ].
  exists r. split; [ exact Hr | ]. split; [ | exact H ].
  vm_compute in Hr. injection Hr as <-. reflexivity.
Defined.

(** X5. What the command line accepts is within what the tolerances were
    proved for.  [get_gross_income] accepts a gross income above zero and
    not above 10,000,000, [get_deductible_expenses] expenses from zero to
    the income.  For these the taxable income is at most 10,000,000 and
    the total taxes at most 6,391,900 (what 10,000,000 without expenses
    owes), so the taxable amounts of the breakdown add up to the taxable
    income within [5 * 0.01], and the payments of every schedule of the
    total taxes add up to them within [count * 0.01]. *)
Theorem accepted_inputs_add_up :
  forall g e : float,
    ltb zero g = true -> leb g (of_int 10000000) = true ->
    leb zero e = true -> leb e g = true ->
    exists r,
      calculate_all_taxes g e = ret r
      /\ leb (taxable_income r) (of_int 10000000) = true
      /\ leb (total_taxes r) (of_int 6391900) = true
      /\ Rounding.nonneg (sum_taxable_amounts (bracket_breakdown (income_tax r)))
      /\ (Qabs (Rounding.value (sum_taxable_amounts (bracket_breakdown (income_tax r)))
                - Rounding.value (taxable_income r))
          <= 5 * (1 # 100))%Q
      /\ (forall f : string,
            str_in (lower f) VALID_FREQUENCIES = true ->
            exists s,
              calculate_payment_schedule (total_taxes r) f = ret s
              /\ Rounding.nonneg (payment_amount s)
              /\ (Qabs (inject_Z (number_of_payments s) * Rounding.value (payment_amount s)
                        - Rounding.value (total_taxes r))
                  <= inject_Z (number_of_payments s) * (1 # 100))%Q).
Proof.
  intros g e P Hg H0 He.
  pose proof (@Nearest.leb_zero_fnn _ H0) as Ne.
  pose proof (@Nearest.leb_fle _ _ Ne He) as Feg.
  pose proof (@Nearest.leb_fle _ _ (@Nearest.fle_right _ _ Feg) Hg) as Fg.
  destruct (@Monotone.all_taxes_fle g e (of_int 10000000) 0 (@Nearest.fle_zero _ Ne) Feg Fg)
    as (r & r2 & E1 & E2 & [A _ _ _ B _]).
  exists r. split; [ exact E1 | ].
  assert (R2 : taxable_income r2 = of_int 10000000 /\ total_taxes r2 = of_int 6391900).
  { vm_compute in E2. injection E2 as <-. split; reflexivity. }
  destruct R2 as [R2a R2b]. rewrite R2a in A. rewrite R2b in B.
  split; [ apply Nearest.fle_leb, A | ]. split; [ apply Nearest.fle_leb, B | ].
  destruct (@Burden.summary_fields g e r P E1) as (_ & Ht & _ & _ & _ & _ & _ & Hit).
  assert (HT : taxable_income r = calculate_taxable_income g e).
  { rewrite Ht. unfold calculate_taxable_income. apply Idem.round2_idempotent. }
  assert (F40a : Nearest.fle (of_int 10000000) (of_int (2 ^ 40)))
    by (apply Nearest.leb_fle; [ exact I | reflexivity ]).
  assert (F40b : Nearest.fle (of_int 6391900) (of_int (2 ^ 40)))
    by (apply Nearest.leb_fle; [ exact I | reflexivity ]).
  assert (T0 : PrimFloat.leb 0 (taxable_income r) = true)
    by (apply Nearest.fle_leb, Nearest.fle_zero; exact (@Nearest.fle_left _ _ A)).
  assert (T40 : PrimFloat.leb (taxable_income r) (of_int (2 ^ 40)) = true)
    by (apply Nearest.fle_leb; exact (@Nearest.fle_trans _ _ _ A F40a)).
  assert (A0 : PrimFloat.leb 0 (total_taxes r) = true)
    by (apply Nearest.fle_leb, Nearest.fle_zero; exact (@Nearest.fle_left _ _ B)).
  assert (A40 : PrimFloat.leb (total_taxes r) (of_int (2 ^ 40)) = true)
    by (apply Nearest.fle_leb; exact (@Nearest.fle_trans _ _ _ B F40b)).
  destruct (@Rounding.float_breakdown_sum (taxable_income r) T0 T40)
    as (it & Hit' & _ & Hn & _ & Hs).
  rewrite HT, Hit in Hit'. injection Hit' as <-.
  split; [ exact Hn | ]. split.
  { apply Qabs_Qle_condition in Hs. apply Qabs_Qle_condition. split; lra. }
  intros f Hf.
  destruct (@float_payments (total_taxes r) f A0 A40 Hf) as (s & Hs' & _ & _ & Np & _ & Hx & _).
  exists s. split; [ exact Hs' | ]. split; [ exact Np | exact Hx ].
Qed.

Lemma accepted_inputs_add_up_witness :
  exists r,
    calculate_all_taxes (of_int 35000 : float) (of_int 5000) = ret r
    /\ leb (total_taxes r) (of_int 6391900) = true.
Proof.
  destruct (@accepted_inputs_add_up (of_int 35000 : float) (of_int 5000))
    as (r & Hr & _ & H & _); [ reflexivity | reflexivity | reflexivity | reflexivity | ].
  exists r. split; [ exact Hr | exact H ].
Defined.

(** X6. An amount rounded to cents is displayed as the amount itself would
    be: [format_currency(round(x, 2))] is [format_currency(x)] for every
    float, so the amounts of a summary, which are rounded, are displayed
    without a second rounding.  What is displayed of a positive amount is
    its number of cents, ties to even, as a fixed-point number; the
    display groups the integer part in threes and keeps the sign of a
    negative zero. *)
Theorem display_shows_rounded_amount :
  (forall x : float, Cli.format_currency (round2 x) = Cli.format_currency x)
  /\ (forall x : float,
        ltb zero x = true -> ltb x inf = true ->
        Cli.format_currency x = ("€" ++ Cli.fixed_point 2 (Ledger.cents_of x))%string)
  /\ Cli.format_currency (lit 123456789 100) = "€1,234,567.89"%string
  /\ Cli.format_currency (lit 1005 1000) = "€1.00"%string
  /\ Cli.format_currency (lit (-1) 1000) = "€-0.00"%string
  /\ Cli.format_currency inf = "€inf"%string.
Proof.
  split; [ | split ].
  - intros x. unfold Cli.format_currency. f_equal. apply CliFacts.format_round2.
  - intros x P F. unfold Cli.format_currency, Cli.format_comma_f, Ledger.cents_of.
    change (@ltb float _ zero x) with (PrimFloat.ltb 0 x) in P.
    change (@ltb float _ x inf) with (PrimFloat.ltb x infinity) in F.
    rewrite ltb_spec in P, F. rewrite Binary64.Prim2SF_zero in P.
    change (Prim2SF infinity) with (S754_infinity false) in F.
    destruct (Prim2SF x) as [s|[]| |[] m e]; try discriminate.
    reflexivity.
  - vm_compute. repeat split.
Qed.

(** X7. The validators accept a NaN.  [validate_positive_number] returns
    what [float] read when it is not [<= 0], [validate_non_negative_number]
    when it is not [< 0], and the amount validators accept what is not
    above their bound: all of these hold of a NaN, which no validator
    rejects, and of the infinity for the first two.  A value at or below
    zero is reported as "must be greater than zero", and what [float]
    could not convert as "must be a valid number". *)
Theorem validators_accept_nan :
  forall py_float : string -> result float,
    (forall s f v,
        Cli.validate_positive_number py_float s f = ret v
        <-> py_float (Cli.strip s) = ret v /\ leb v zero = false)
    /\ (forall s f v,
          Cli.validate_non_negative_number py_float s f = ret v
          <-> py_float (Cli.strip s) = ret v /\ ltb v zero = false)
    /\ (forall s f,
          py_float (Cli.strip s) = ret nan ->
          Cli.validate_positive_number py_float s f = ret nan
          /\ Cli.validate_non_negative_number py_float s f = ret nan)
    /\ (forall (x : float) (f : string),
          Cli.validate_realistic_amount nan f x = ret tt
          /\ Cli.validate_expenses_against_income nan x = ret tt
          /\ Cli.validate_expenses_against_income x nan = ret tt)
    /\ (forall s f,
          py_float (Cli.strip s) = ret inf ->
          Cli.validate_positive_number py_float s f = ret inf
          /\ exists msg,
               Cli.validate_realistic_amount inf f Cli.default_max_amount
               = raise (ValueError msg))
    /\ (forall s f v,
          py_float (Cli.strip s) = ret v -> leb v zero = true ->
          Cli.validate_positive_number py_float s f
          = raise (ValueError
                     (if Cli.contains "could not convert" (f ++ " must be greater than zero.")
                      then f ++ " must be a valid number."
                      else f ++ " must be greater than zero.")))
    /\ (forall s f msg,
          py_float (Cli.strip s) = raise (ValueError msg) ->
          Cli.contains "could not convert" msg = true ->
          Cli.validate_positive_number py_float s f
          = raise (ValueError (f ++ " must be a valid number."))).
Proof.
  intros py_float.
  split; [ intros s f v; apply CliFacts.validate_positive_number_returns | ].
  split; [ intros s f v; apply CliFacts.validate_non_negative_number_returns | ].
  split.
  { intros s f H. split.
    - apply CliFacts.validate_positive_number_returns. split; [ exact H | reflexivity ].
    - apply CliFacts.validate_non_negative_number_returns. split; [ exact H | reflexivity ]. }
  split.
  { intros x f. destruct (CliFacts.nan_compares x) as (A & B & _).
    split; [ | split ].
    - apply CliFacts.validate_realistic_amount_returns. exact A.
    - apply CliFacts.validate_expenses_against_income_returns. exact A.
    - apply CliFacts.validate_expenses_against_income_returns. exact B. }
  split.
  { intros s f H. split.
    - apply CliFacts.validate_positive_number_returns. split; [ exact H | reflexivity ].
    - eexists. reflexivity. }
  split.
  - intros s f v H L. unfold Cli.validate_positive_number, Cli.except_value_error.
    rewrite H. cbn. change (PrimFloat.leb v 0) with (leb v zero). rewrite L.
    unfold raise. cbv iota. destruct (Cli.contains _ _); reflexivity.
  - intros s f msg H C. unfold Cli.validate_positive_number, Cli.except_value_error.
    rewrite H. cbn. rewrite C. reflexivity.
Qed.

(** X8. The prompts hand on only what passed their checks.
    [get_gross_income] returns a float that [float] read from a line typed
    and that is neither [<= 0] nor above 10,000,000, so, unless it is a
    NaN, one above zero and at most 10,000,000; [get_deductible_expenses]
    one that is neither below zero nor above the income nor above
    10,000,000; both skip the lines that fail a check, exit with status 0
    when the input ends or is interrupted, and raise only what [float]
    raised that is not a [ValueError].  [display_frequency_menu] returns
    one of the three frequencies, for which [calculate_payment_schedule]
    does not raise, or exits with status 0.  [confirm_inputs] returns
    true only for a line that says yes, and false when the input ends. *)
Theorem prompts_hand_on_checked_values :
  forall (py_float : string -> result float) (w : Cli.world),
    match fst (Cli.get_gross_income py_float w) with
    | Cli.Returned g =>
        leb g zero = false /\ ltb Cli.default_max_amount g = false
        /\ (eqb g g = true -> ltb zero g = true /\ leb g Cli.default_max_amount = true)
        /\ exists s, In (Cli.Line s) (Cli.stdin w)
                      /\ py_float (Cli.strip (Cli.strip s)) = ret g
    | Cli.Exited code => code = 0
    | Cli.Raised e => (forall msg, e <> ValueError msg) /\ exists s, py_float s = raise e
    end
    /\ (forall g : float,
          match fst (Cli.get_deductible_expenses py_float g w) with
          | Cli.Returned e =>
              ltb e zero = false /\ ltb g e = false /\ ltb Cli.default_max_amount e = false
              /\ (eqb g g = true -> eqb e e = true -> leb zero e = true /\ leb e g = true)
              /\ exists s, In (Cli.Line s) (Cli.stdin w)
                            /\ py_float (Cli.strip (Cli.strip s)) = ret e
          | Cli.Exited code => code = 0
          | Cli.Raised e => (forall msg, e <> ValueError msg) /\ exists s, py_float s = raise e
          end)
    /\ match fst (Cli.display_frequency_menu w) with
       | Cli.Returned f =>
           In f VALID_FREQUENCIES
           /\ forall A : float, exists s, calculate_payment_schedule A f = ret s
       | Cli.Exited code => code = 0
       | Cli.Raised _ => False
       end
    /\ (forall (g e : float) (f : string),
          (fst (Cli.confirm_inputs g e f w) = true ->
           exists s, In (Cli.Line s) (Cli.stdin w)
                     /\ In (lower (Cli.strip s)) ["yes"; "y"]%string)
          /\ (Cli.stdin w = [] -> fst (Cli.confirm_inputs g e f w) = false)).
Proof.
  intros py_float w. split; [ | split; [ | split ] ].
  - unfold Cli.get_gross_income.
    pose proof (CliFacts.gross_income_loop_outcome py_float (Cli.stdin w)) as H.
    cbv zeta.
    match goal with |- context [Cli.gross_income_loop _ _ ?out] => specialize (H out) end.
    destruct (fst (Cli.gross_income_loop _ _ _)) as [g|c|e]; cbn in H; [ | exact H | exact H ].
    destruct H as [[Hz Hm] Hs]. split; [ exact Hz | ]. split; [ exact Hm | ].
    split; [ | exact Hs ].
    intros Hg. split.
    + exact (proj2 (@CliFacts.not_nan_order g 0 Hg eq_refl) Hz).
    + exact (proj1 (@CliFacts.not_nan_order g Cli.default_max_amount Hg eq_refl) Hm).
  - intros g. unfold Cli.get_deductible_expenses.
    pose proof (CliFacts.expenses_loop_outcome py_float g (Cli.stdin w)) as H.
    cbv zeta.
    match goal with |- context [Cli.expenses_loop _ _ _ ?out] => specialize (H out) end.
    destruct (fst (Cli.expenses_loop _ _ _ _)) as [x|c|e]; cbn in H; [ | exact H | exact H ].
    destruct H as [(Hz & Hg & Hm) Hs]. split; [ exact Hz | ]. split; [ exact Hg | ].
    split; [ exact Hm | ]. split; [ | exact Hs ].
    intros Ng Nx. split.
    + exact (proj1 (@CliFacts.not_nan_order 0 x eq_refl Nx) Hz).
    + exact (proj1 (@CliFacts.not_nan_order x g Nx Ng) Hg).
  - unfold Cli.display_frequency_menu. cbv zeta.
    match goal with |- context [Cli.frequency_loop _ ?out] =>
      pose proof (CliFacts.frequency_loop_outcome (Cli.stdin w) out) as H end.
    destruct (fst (Cli.frequency_loop _ _)) as [f|c|e]; [ | exact H | exact H ].
    split; [ exact H | ]. intros A.
    cbn in H. destruct H as [<-|[<-|[<-|[]]]]; eexists; reflexivity.
  - intros g e f. split.
    + unfold Cli.confirm_inputs. cbv zeta. apply CliFacts.confirm_loop_outcome.
    + intros H. unfold Cli.confirm_inputs. rewrite H. reflexivity.
Qed.

(** X9. A summary balances to the cent.  For a gross income above zero and
    up to [2^40] and expenses between zero and the income, the total
    taxes are the income tax plus the social security, and the total
    obligations the total taxes plus the VAT, in cents as displayed,
    with nothing lost in the roundings; when the income is an amount in
    whole cents the net income is the income less the total taxes, and
    when the expenses are too the taxable income is the income less the
    expenses. *)
Theorem summary_balances_to_the_cent :
  forall g e : float,
    ltb zero g = true -> leb g (of_int (2 ^ 40)) = true ->
    leb zero e = true -> leb e g = true ->
    exists r,
      calculate_all_taxes g e = ret r
      /\ Ledger.cents_of (total_taxes r)
         = Ledger.cents_of (total_tax (income_tax r))
           + Ledger.cents_of (total_contribution (social_security r))
      /\ Ledger.cents_of (total_obligations r)
         = Ledger.cents_of (total_taxes r) + Ledger.cents_of (vat_amount (vat r))
      /\ (round2 g = g ->
          Ledger.cents_of (net_income r)
          = Ledger.cents_of g - Ledger.cents_of (total_taxes r)
          /\ (round2 e = e ->
              Ledger.cents_of (taxable_income r)
              = Ledger.cents_of g - Ledger.cents_of e)).
Proof.
  intros g e P Hg H0 He. exact (@Ledger.summary_ledger g e P Hg H0 He).
Qed.

Lemma summary_balances_to_the_cent_witness :
  exists r,
    calculate_all_taxes (lit 3500001 100 : float) (lit 499999 100) = ret r
    /\ Ledger.cents_of (total_taxes r) = 590001 + 700000
    /\ Ledger.cents_of (total_obligations r) = 1290001 + 840000
    /\ Ledger.cents_of (net_income r) = 3500001 - 1290001
    /\ Ledger.cents_of (taxable_income r) = 3500001 - 499999.
Proof.
  destruct (@summary_balances_to_the_cent (lit 3500001 100 : float) (lit 499999 100))
    as (r & Hr & H1 & H2 & H3); [ reflexivity | reflexivity | reflexivity | reflexivity | ].
  destruct (H3 eq_refl) as [H4 H5]. specialize (H5 eq_refl).
  exists r. split; [ exact Hr | ].
  vm_compute in Hr. injection Hr as <-.
  repeat split; assumption.
Defined.


(** X11. The parts of the contributions and of the VAT.  For a gross
    income from zero to [2^40] the main insurance and the additional
    contributions, each rounded on its own, add up to the total
    contribution within one cent, and the total with VAT is the income
    plus the VAT amount within one cent; for an income in whole cents up
    to [2^33] the total with VAT is exactly the income plus the VAT
    amount.  The cent does go missing: an income of [0.03] has a total
    contribution of [0.01] and parts of [0.00], one of [0.12] a total of
    [0.02] and parts of [0.02] and [0.01]. *)
Theorem contribution_parts_within_a_cent :
  (forall g : float,
      leb zero g = true -> leb g (of_int (2 ^ 40)) = true ->
      Z.abs (Ledger.cents_of (total_contribution (calculate_social_security g))
             - (Ledger.cents_of (main_insurance (calculate_social_security g))
                + Ledger.cents_of (additional_contributions (calculate_social_security g))))
      <= 1
      /\ Z.abs (Ledger.cents_of (total_with_vat (calculate_vat g))
                - (Ledger.cents_of g + Ledger.cents_of (vat_amount (calculate_vat g))))
         <= 1
      /\ (leb g (of_int (2 ^ 33)) = true -> round2 g = g ->
          Ledger.cents_of (total_with_vat (calculate_vat g))
          = Ledger.cents_of g + Ledger.cents_of (vat_amount (calculate_vat g))))
  /\ (let s := calculate_social_security (lit 3 100 : float) in
      total_contribution s = lit 1 100
      /\ main_insurance s = zero /\ additional_contributions s = zero)
  /\ (let s := calculate_social_security (lit 12 100 : float) in
      total_contribution s = lit 2 100
      /\ main_insurance s = lit 2 100 /\ additional_contributions s = lit 1 100).
Proof.
  split; [ | split; vm_compute; repeat split ].
  intros g H0 Hb. destruct (@Rounding.range_value g H0 Hb) as [Hn Hv].
  destruct (@Ledger.parts_ledger g Hn Hv) as [A B].
  split; [ exact A | ]. split; [ exact B | ].
  intros H33 Hf. apply Ledger.vat_ledger; [ exact Hn | | exact Hf ].
  assert (Nb : Rounding.nonneg (Binary64.of_int (2 ^ 33))) by exact I.
  assert (Vb : (Rounding.value (Binary64.of_int (2 ^ 33)) == Rounding.pow2 33)%Q)
    by reflexivity.
  apply (Rounding.leb_value _ _ Hn Nb) in H33. lra.
Qed.

(** X12. The effective rates stay within the top rates.  For the inputs
    the command line accepts (a gross income above zero and at most
    10,000,000, expenses from zero to the income), the effective rate of
    the income tax is from 0 to 44 per cent, the rate of the top bracket,
    and the effective total rate from 0 to 64 per cent, the top bracket
    and the social security together, although both rates are quotients
    of rounded amounts.  At 10,000,000 without expenses they are 43.92
    and 63.92. *)
Theorem effective_rates_within_top_rates :
  forall g e : float,
    ltb zero g = true -> leb g (of_int 10000000) = true ->
    leb zero e = true -> leb e g = true ->
    exists r,
      calculate_all_taxes g e = ret r
      /\ leb zero (effective_rate (income_tax r)) = true
      /\ leb (effective_rate (income_tax r)) (of_int 44) = true
      /\ leb zero (effective_total_rate r) = true
      /\ leb (effective_total_rate r) (of_int 64) = true.
Proof.
  intros g e P Hg H0 He. exact (@Rates.rates_bound g e P Hg H0 He).
Qed.

Lemma effective_rates_within_top_rates_witness :
  exists r,
    calculate_all_taxes (of_int 10000000 : float) (of_int 0) = ret r
    /\ effective_rate (income_tax r) = lit 4392 100
    /\ effective_total_rate r = lit 6392 100
    /\ leb (effective_rate (income_tax r)) (of_int 44) = true
    /\ leb (effective_total_rate r) (of_int 64) = true.
Proof.
  destruct (@effective_rates_within_top_rates (of_int 10000000 : float) (of_int 0))
    as (r & Hr & _ & H1 & _ & H2); [ reflexivity | reflexivity | reflexivity | reflexivity | ].
  exists r. split; [ exact Hr | ].
  vm_compute in Hr. injection Hr as <-.
  repeat split.
Defined.
